(** * Poker equity calculator: hand evaluation, exhaustive and Monte Carlo
      calculators, embedded from the TypeScript sources.

    Conventions of the embedding.
    - JavaScript numbers that are integers in the program (rank values, hand
      values, counters) are [Z] or [nat]; fractional numbers (equities,
      shared winning counts) are exact rationals [Q]. The integers coincide
      with the IEEE doubles of the program as long as they stay below 2^53;
      a fraction is the exact value that the double of the program
      approximates (exactly, when it is dyadic such as 1/2).
    - The estimated number of combinations and the ceiling it is compared
      with are IEEE doubles: primitive floats, multiplied, divided, compared
      and printed as JavaScript does.
    - [throw] is the [Throw] constructor of [Result]; inside the calculators a
      state-and-exception monad keeps the state reached when an exception is
      raised, as JavaScript does.
    - [Hand] and [Board] are JavaScript objects with a mutable [cards] field.
      They live in a store addressed by locations, so that two references to
      one object see each other's writes.
    - [Array.prototype.sort] is stable (ECMAScript 2019); it is embedded as a
      stable insertion sort driven by the comparator.
    - [console.log], [Date.now] and the progress callback do not influence any
      value computed below and are left out. *)

From Stdlib Require Import ZArith QArith Qabs Qround List String Ascii DecimalString Lia Lqa.
From Stdlib Require Import Floats Uint63.
From stdpp Require Import base list strings sorting.

Local Open Scope string_scope.
Local Open Scope list_scope.
Local Open Scope Z_scope.

(** ** Cards ([types/card.ts], [models/card.ts]) *)

Inductive Suit := SPADES | HEARTS | DIAMONDS | CLUBS.

Inductive Rank :=
  TWO | THREE | FOUR | FIVE | SIX | SEVEN | EIGHT | NINE | TEN | JACK | QUEEN | KING | ACE.

Record Card := mkCard { rank : Rank; suit : Suit }.

#[global] Instance Suit_eq_dec : EqDecision Suit.
Proof. solve_decision. Defined.
#[global] Instance Rank_eq_dec : EqDecision Rank.
Proof. solve_decision. Defined.
#[global] Instance Card_eq_dec : EqDecision Card.
Proof. solve_decision. Defined.

(** The string value of each enum member. *)
Definition suitChar (s : Suit) : string :=
  match s with SPADES => "s" | HEARTS => "h" | DIAMONDS => "d" | CLUBS => "c" end.

Definition rankChar (r : Rank) : string :=
  match r with
  | TWO => "2" | THREE => "3" | FOUR => "4" | FIVE => "5" | SIX => "6"
  | SEVEN => "7" | EIGHT => "8" | NINE => "9" | TEN => "T" | JACK => "J"
  | QUEEN => "Q" | KING => "K" | ACE => "A"
  end.

Definition RANK_VALUES (r : Rank) : Z :=
  match r with
  | TWO => 2 | THREE => 3 | FOUR => 4 | FIVE => 5 | SIX => 6 | SEVEN => 7
  | EIGHT => 8 | NINE => 9 | TEN => 10 | JACK => 11 | QUEEN => 12
  | KING => 13 | ACE => 14
  end.

(** Key order of the [RANK_VALUES] object literal. *)
Definition allRanks : list Rank :=
  [TWO; THREE; FOUR; FIVE; SIX; SEVEN; EIGHT; NINE; TEN; JACK; QUEEN; KING; ACE].

Definition cardToString (c : Card) : string := rankChar (rank c) +:+ suitChar (suit c).

Definition cardsToString (cards : list Card) : string :=
  fold_right (fun c acc => cardToString c +:+ acc) "" cards.

Definition areCardsEqual (card1 card2 : Card) : bool :=
  bool_decide (rank card1 = rank card2) && bool_decide (suit card1 = suit card2).

Definition isCardInArray (card : Card) (cards : list Card) : bool :=
  existsb (fun c => areCardsEqual c card) cards.

(** ** Hand categories ([types/hand.ts]) *)

Inductive HandRank :=
  HIGH_CARD | PAIR | TWO_PAIR | THREE_OF_A_KIND | STRAIGHT | FLUSH
| FULL_HOUSE | FOUR_OF_A_KIND | STRAIGHT_FLUSH | ROYAL_FLUSH.

#[global] Instance HandRank_eq_dec : EqDecision HandRank.
Proof. solve_decision. Defined.

(** Numeric value of the enum member. *)
Definition handRankValue (h : HandRank) : Z :=
  match h with
  | HIGH_CARD => 0 | PAIR => 1 | TWO_PAIR => 2 | THREE_OF_A_KIND => 3
  | STRAIGHT => 4 | FLUSH => 5 | FULL_HOUSE => 6 | FOUR_OF_A_KIND => 7
  | STRAIGHT_FLUSH => 8 | ROYAL_FLUSH => 9
  end.

Record EvaluatedHand := mkEvaluated {
  eh_rank : HandRank;
  eh_value : Z;
  eh_description : string
}.

#[global] Instance EvaluatedHand_eq_dec : EqDecision EvaluatedHand.
Proof. solve_decision. Defined.

(** ** Game variants ([types/game.ts]) *)

Inductive GameVariant :=
  TEXAS_HOLDEM | OMAHA | OMAHA_HI_LO | SEVEN_CARD_STUD | FIVE_CARD_DRAW.

#[global] Instance GameVariant_eq_dec : EqDecision GameVariant.
Proof. solve_decision. Defined.

Definition variantName (v : GameVariant) : string :=
  match v with
  | TEXAS_HOLDEM => "texas_holdem" | OMAHA => "omaha" | OMAHA_HI_LO => "omaha_hi_lo"
  | SEVEN_CARD_STUD => "seven_card_stud" | FIVE_CARD_DRAW => "five_card_draw"
  end.

Record GameConfig := mkConfig {
  minHoleCards : nat; maxHoleCards : nat;
  minBoardCards : nat; maxBoardCards : nat;
  cardsUsedInHand : nat
}.

Definition GAME_CONFIGS (v : GameVariant) : GameConfig :=
  match v with
  | TEXAS_HOLDEM => mkConfig 2 2 0 5 5
  | OMAHA => mkConfig 4 4 0 5 5
  | OMAHA_HI_LO => mkConfig 4 4 0 5 5
  | SEVEN_CARD_STUD => mkConfig 2 7 0 0 5
  | FIVE_CARD_DRAW => mkConfig 5 5 0 0 5
  end.

(** ** Errors

    One constructor per [throw] site; [message] renders the text the site
    builds. *)

Inductive Error :=
| InvalidCardString (s : string)
| InvalidCardRank (ch : string)
| InvalidCardSuit (ch : string)
| IncompleteCard (pos : nat)
| TooManyHoleCards (v : GameVariant) (got max : nat)
| DuplicateCardInHand (cardStr : string)
| NoEvaluatorRegistered (v : GameVariant)
| NotEnoughCards (got : nat)
| ExactlyFiveRequired (got : nat)
| OmahaHoleCards (got : nat)
| OmahaBoardCards (got : nat)
| BoardCardIsDead (c : Card)
| BoardCardInHand (c : Card)
| DuplicateBoardCard (c : Card)
| DeadCardInHand (c : Card)
| DuplicateDeadCard (c : Card)
| CardInMultipleHands (c : Card)
| TooManyCombinations (total : float)
| CannotDeal (count remaining : nat).

Definition showNat (n : nat) : string := NilEmpty.string_of_uint (Nat.to_uint n).
Definition showZ (z : Z) : string := NilZero.string_of_int (Z.to_int z).

(** *** Doubles

    Where the program holds a number that need not be whole, or that may
    exceed 2^53, the number is an IEEE 754 double: one of Rocq's primitive
    floats, whose operations round to nearest as JavaScript's do.
    [floatOfZ] is the double of a whole number of magnitude below 2^63,
    exact up to 2^53; the embedding applies it to the whole numbers that the
    program holds: numbers of cards, loop counters and rounded values. *)
Definition floatOfZ (z : Z) : float :=
  if z <? 0 then PrimFloat.opp (PrimFloat.of_uint63 (Uint63.of_Z (- z)))
  else PrimFloat.of_uint63 (Uint63.of_Z z).

(** [Number::toString] of ECMAScript, which a template literal applies to a
    number. A finite double is [m * 2^e] exactly. For a positive one the
    standard takes whole numbers [n], [k] and [s] with [k >= 1] and
    [10^(k-1) <= s < 10^k] such that the double nearest to [s * 10^(n-k)]
    is the number, with [k] as small as possible and, among these, the
    decimal closest to the number; it then writes the [k] digits of [s] with
    the decimal point after the first [n], or in exponent form when [n] is
    above 21 or below -5. *)
Definition tenTo (n : Z) : Q :=
  if 0 <=? n then inject_Z (10 ^ n) else (1 # Z.to_pos (10 ^ (- n))).

Definition twoTo (n : Z) : Q :=
  if 0 <=? n then inject_Z (2 ^ n) else (1 # Z.to_pos (2 ^ (- n))).

(** The first [n], counting from [n], with [a / b < 10^n]: [b] carries the
    power of ten. *)
Fixpoint magnitudeFrom (fuel : nat) (n : Z) (a b : Z) : Z :=
  match fuel with
  | O => n
  | S fuel' => if b <=? a then magnitudeFrom fuel' (n + 1) a (b * 10) else n
  end.

Definition Qlt_bool (a b : Q) : bool := negb (Qle_bool b a).

(** The numbers [(s, k, n)] for the double [m * 2^e], which lies between
    [10^(n-1)] and [10^n], trying [k], [k + 1], ... digits. The decimals with
    [k] digits next to the number are the one below (or equal) and the one
    above; a decimal denotes the number when it lies within half the gap to
    the neighbouring doubles, the bounds included when [m] is even. *)
Fixpoint shortestFrom (fuel : nat) (k : Z) (m : positive) (e : Z) (n : Z) : Z * Z * Z :=
  let x := (inject_Z (Z.pos m) * twoTo e)%Q in
  let below := if (Z.pos m =? 2 ^ 52) && (-1074 <? e) then twoTo (e - 2) else twoTo (e - 1) in
  let above := twoTo (e - 1) in
  let inRange (d : Q) :=
    if Z.even (Z.pos m)
    then Qle_bool (x - below) d && Qle_bool d (x + above)
    else Qlt_bool (x - below) d && Qlt_bool d (x + above) in
  let scale := tenTo (n - k) in
  let sLo := Qfloor (x / scale) in
  let sHi := sLo + 1 in
  let vLo := (inject_Z sLo * scale)%Q in
  let vHi := (inject_Z sHi * scale)%Q in
  let normal (s : Z) := if s =? 10 ^ k then (10 ^ (k - 1), k, n + 1) else (s, k, n) in
  match fuel with
  | O => normal sLo
  | S fuel' =>
      match inRange vLo && (0 <? sLo), inRange vHi with
      | true, true =>
          match (x - vLo ?= vHi - x)%Q with
          | Lt => normal sLo
          | Gt => normal sHi
          | Eq => if Z.even sLo then normal sLo else normal sHi
          end
      | true, false => normal sLo
      | false, true => normal sHi
      | false, false => shortestFrom fuel' (k + 1) m e n
      end
  end.

Definition zeros (n : Z) : string := String.concat "" (repeat "0" (Z.to_nat n)).

Definition Number_toString (x : float) : string :=
  match Prim2SF x with
  | S754_nan => "NaN"
  | S754_zero _ => "0"
  | S754_infinity s => if s then "-Infinity" else "Infinity"
  | S754_finite sign m e =>
      let x := (inject_Z (Z.pos m) * twoTo e)%Q in
      let '(s, k, n) :=
        shortestFrom 20 1 m e (magnitudeFrom 700 (-330) (Qnum x * 10 ^ 330) (Z.pos (Qden x))) in
      let digits := showZ s in
      (if sign then "-" else "") +:+
      (if (k <=? n) && (n <=? 21) then digits +:+ zeros (n - k)
       else if (0 <? n) && (n <=? 21)
            then substring 0 (Z.to_nat n) digits +:+ "."
                 +:+ substring (Z.to_nat n) (Z.to_nat (k - n)) digits
       else if (-6 <? n) && (n <=? 0) then "0." +:+ zeros (- n) +:+ digits
       else
         let exponent := (if 0 <=? n - 1 then "+" else "-") +:+ showZ (Z.abs (n - 1)) in
         if k =? 1 then digits +:+ "e" +:+ exponent
         else substring 0 1 digits +:+ "." +:+ substring 1 (Z.to_nat (k - 1)) digits
              +:+ "e" +:+ exponent)
  end.

Definition message (e : Error) : string :=
  match e with
  | InvalidCardString s => "Invalid card string: " +:+ s
  | InvalidCardRank ch => "Invalid card rank: " +:+ ch
  | InvalidCardSuit ch => "Invalid card suit: " +:+ ch
  | IncompleteCard pos =>
      "Invalid card string at position " +:+ showNat pos +:+ ": incomplete card"
  | TooManyHoleCards v got max =>
      "Too many hole cards for " +:+ variantName v +:+ ": got " +:+ showNat got
      +:+ ", max is " +:+ showNat max
  | DuplicateCardInHand s => "Duplicate card in hand: " +:+ s
  | NoEvaluatorRegistered v => "No evaluator registered for variant: " +:+ variantName v
  | NotEnoughCards got =>
      "Not enough cards to evaluate: got " +:+ showNat got +:+ ", need at least 5"
  | ExactlyFiveRequired got =>
      "Exactly 5 cards required for evaluation, got " +:+ showNat got
  | OmahaHoleCards got => "Omaha requires exactly 4 hole cards, got " +:+ showNat got
  | OmahaBoardCards got => "Need at least 3 board cards for Omaha, got " +:+ showNat got
  | BoardCardIsDead c =>
      "Board card " +:+ cardToString c +:+ " is also marked as a dead card"
  | BoardCardInHand c =>
      "Board card " +:+ cardToString c +:+ " also appears in a player's hand"
  | DuplicateBoardCard c => "Duplicate board card: " +:+ cardToString c
  | DeadCardInHand c =>
      "Dead card " +:+ cardToString c +:+ " also appears in a player's hand"
  | DuplicateDeadCard c => "Duplicate dead card: " +:+ cardToString c
  | CardInMultipleHands c => "Card " +:+ cardToString c +:+ " appears in multiple hands"
  | TooManyCombinations total =>
      "Too many combinations for exhaustive calculation: " +:+ Number_toString total +:+ ". "
      +:+ "Use Monte Carlo simulation instead or increase maxExhaustiveCombinations."
  | CannotDeal count remaining =>
      "Cannot deal " +:+ showNat count +:+ " cards, only " +:+ showNat remaining
      +:+ " remaining"
  end.

Inductive Result (A : Type) :=
| Ok (a : A)
| Throw (e : Error).
Arguments Ok {A} a.
Arguments Throw {A} e.

Definition isOk {A} (r : Result A) : bool :=
  match r with Ok _ => true | Throw _ => false end.

Definition rbind {A B} (r : Result A) (f : A -> Result B) : Result B :=
  match r with Ok a => f a | Throw e => Throw e end.

(** ** Stable sort with a JavaScript comparator *)

Section JsSort.
Context {A : Type} (cmp : A -> A -> Z).

(** [x] stood before every element of [l] in the input: it stays in front
    of the elements it does not have to follow. *)
Fixpoint sortInsert (x : A) (l : list A) : list A :=
  match l with
  | [] => [x]
  | y :: l' => if 0 <? cmp x y then y :: sortInsert x l' else x :: l
  end.

Definition jsSort (l : list A) : list A := fold_right sortInsert [] l.
End JsSort.

(** ** Combinations ([utils/card-combinations.ts]) *)

Fixpoint generateCombinations (cards : list Card) (k : nat) : list (list Card) :=
  match k with
  | O => [[]]
  | S k' =>
      if (length cards <? k)%nat then []
      else match cards with
           | [] => []
           | first :: rest =>
               map (cons first) (generateCombinations rest k')
               ++ generateCombinations rest k
           end
  end.

(** ** Hand value utilities ([evaluators/hand-value.ts]) *)

Definition sortCardsByRank (cards : list Card) : list Card :=
  jsSort (fun a b => RANK_VALUES (rank b) - RANK_VALUES (rank a)) cards.

(** A [Map] keeps its keys in the order of their first insertion; [mapSet]
    overwrites in place or appends. *)
Fixpoint mapGet {K V} `{EqDecision K} (m : list (K * V)) (k : K) : option V :=
  match m with
  | [] => None
  | (k', v) :: m' => if decide (k' = k) then Some v else mapGet m' k
  end.

Fixpoint mapSet {K V} `{EqDecision K} (m : list (K * V)) (k : K) (v : V) : list (K * V) :=
  match m with
  | [] => [(k, v)]
  | (k', v') :: m' => if decide (k' = k) then (k, v) :: m' else (k', v') :: mapSet m' k v
  end.

Definition countRanks (cards : list Card) : list (Rank * nat) :=
  fold_left (fun rankCounts card =>
               let count := default 0%nat (mapGet rankCounts (rank card)) in
               mapSet rankCounts (rank card) (count + 1)%nat)
            cards [].

Definition countSuits (cards : list Card) : list (Suit * list Card) :=
  fold_left (fun suitGroups card =>
               let suitCards := default [] (mapGet suitGroups (suit card)) in
               mapSet suitGroups (suit card) (suitCards ++ [card]))
            cards [].

(** [Object.entries(RANK_VALUES).find(([, value]) => value === v)?.[0]] *)
Definition rankOfValue (v : Z) : option Rank :=
  find (fun r => RANK_VALUES r =? v) allRanks.

Definition findCardOfRank (sortedCards : list Card) (r : Rank) : option Card :=
  find (fun c => bool_decide (rank c = r)) sortedCards.

(** The ranks of [sortedCards] with repetitions dropped; it is both the array
    [uniqueRanks] and, as a set, [seenRanks]. *)
Definition uniqueRanksOf (sortedCards : list Card) : list Rank :=
  fold_left (fun uniqueRanks card =>
               if bool_decide (rank card ∈ uniqueRanks) then uniqueRanks
               else uniqueRanks ++ [rank card])
            sortedCards [].

Definition pushFound (sortedCards : list Card) (straightCards : list Card) (r : Rank)
  : list Card :=
  match findCardOfRank sortedCards r with
  | Some card => straightCards ++ [card]
  | None => straightCards
  end.

(** The inner loop over [j] of the search for a normal straight: [None] when
    [isStraight] became false, the collected cards otherwise. *)
Fixpoint straightRun (sortedCards : list Card) (seenRanks : list Rank)
    (startRankValue : Z) (js : list Z) (straightCards : list Card) : option (list Card) :=
  match js with
  | [] => Some straightCards
  | j :: js' =>
      let expectedRankValue := startRankValue - j in
      match rankOfValue expectedRankValue with
      | None => None
      | Some r =>
          if bool_decide (r ∈ seenRanks)
          then straightRun sortedCards seenRanks startRankValue js'
                 (pushFound sortedCards straightCards r)
          else None
      end
  end.

(** The outer loop over the start positions [i]. *)
Fixpoint straightSearch (sortedCards : list Card) (uniqueRanks : list Rank)
    (starts : list nat) : option (list Card) :=
  match starts with
  | [] => None
  | i :: starts' =>
      match uniqueRanks !! i with
      | None => straightSearch sortedCards uniqueRanks starts'
      | Some startRank =>
          match straightRun sortedCards uniqueRanks (RANK_VALUES startRank) [0; 1; 2; 3; 4] [] with
          | Some straightCards =>
              if (length straightCards =? 5)%nat then Some straightCards
              else straightSearch sortedCards uniqueRanks starts'
          | None => straightSearch sortedCards uniqueRanks starts'
          end
      end
  end.

Definition findStraight (cards : list Card) : option (list Card) :=
  if (length cards <? 5)%nat then None
  else
    let sortedCards := sortCardsByRank cards in
    let uniqueRanks := uniqueRanksOf sortedCards in
    if bool_decide (ACE ∈ uniqueRanks) && bool_decide (FIVE ∈ uniqueRanks)
       && bool_decide (FOUR ∈ uniqueRanks) && bool_decide (THREE ∈ uniqueRanks)
       && bool_decide (TWO ∈ uniqueRanks)
    then Some (fold_left (pushFound sortedCards) [ACE; FIVE; FOUR; THREE; TWO] [])
    else straightSearch sortedCards uniqueRanks (seq 0 (length uniqueRanks - 4)).

Definition findFlush (cards : list Card) : option (list Card) :=
  if (length cards <? 5)%nat then None
  else
    match find (fun g => (5 <=? length (snd g))%nat) (countSuits cards) with
    | Some (_, suitCards) => Some (take 5 (sortCardsByRank suitCards))
    | None => None
    end.

(** [Σ cardValue_i * 100^(4 - i)] over the cards from position [i] on, for
    at most five cards: the evaluators pass five, and every term is then a
    whole number. From the sixth card on the source adds fractions
    ([Math.pow] with a negative exponent), which a whole number does not
    hold; no statement below goes there. *)
Fixpoint remainingValueFrom (i : Z) (sortedCards : list Card) : Z :=
  match sortedCards with
  | [] => 0
  | c :: rest => RANK_VALUES (rank c) * 100 ^ (4 - i) + remainingValueFrom (i + 1) rest
  end.

Definition calculateHandValue (handRank : HandRank) (cards : list Card) : Z :=
  let baseValue := handRankValue handRank * 10000000 in
  let sortedCards := sortCardsByRank cards in
  let remainingValue := remainingValueFrom 0 sortedCards in
  baseValue + remainingValue.

Definition rankNames (r : Rank) : string :=
  match r with
  | TWO => "Twos" | THREE => "Threes" | FOUR => "Fours" | FIVE => "Fives"
  | SIX => "Sixes" | SEVEN => "Sevens" | EIGHT => "Eights" | NINE => "Nines"
  | TEN => "Tens" | JACK => "Jacks" | QUEEN => "Queens" | KING => "Kings"
  | ACE => "Aces"
  end.

Definition singleRankNames (r : Rank) : string :=
  match r with
  | TWO => "Two" | THREE => "Three" | FOUR => "Four" | FIVE => "Five"
  | SIX => "Six" | SEVEN => "Seven" | EIGHT => "Eight" | NINE => "Nine"
  | TEN => "Ten" | JACK => "Jack" | QUEEN => "Queen" | KING => "King"
  | ACE => "Ace"
  end.

(** First, resp. last, key of a [Map] whose count is [n]: a scan with, resp.
    without, [break]. *)
Definition firstWithCount (rankCounts : list (Rank * nat)) (n : nat) : option Rank :=
  fst <$> find (fun e => (snd e =? n)%nat) rankCounts.

Definition lastWithCount (rankCounts : list (Rank * nat)) (n : nat) : option Rank :=
  fold_left (fun acc e => if (snd e =? n)%nat then Some (fst e) else acc) rankCounts None.

Definition ranksWithCount (rankCounts : list (Rank * nat)) (n : nat) : list Rank :=
  fst <$> filter (fun e => snd e = n) rankCounts.

(** [sortedCards[0]] is undefined on an empty array and reading its [rank]
    throws a TypeError; the evaluators only describe five cards, so the
    embedding returns the empty text there. *)
Definition highCardName (sortedCards : list Card) : string :=
  match sortedCards with
  | highCard :: _ => singleRankNames (rank highCard)
  | [] => ""
  end.

Definition generateHandDescription (handRank : HandRank) (cards : list Card) : string :=
  let rankCounts := countRanks cards in
  let sortedCards := sortCardsByRank cards in
  match handRank with
  | ROYAL_FLUSH => "Royal Flush"
  | STRAIGHT_FLUSH => "Straight Flush, " +:+ highCardName sortedCards +:+ " high"
  | FOUR_OF_A_KIND =>
      (* one scan: [if (count === 4) quadRank = rank; else if (count === 1) kicker = rank] *)
      match lastWithCount rankCounts 4, lastWithCount rankCounts 1 with
      | Some quadRank, Some kicker =>
          "Four of a Kind, " +:+ rankNames quadRank +:+ " with "
          +:+ singleRankNames kicker +:+ " kicker"
      | _, _ => "Four of a Kind"
      end
  | FULL_HOUSE =>
      match lastWithCount rankCounts 3, lastWithCount rankCounts 2 with
      | Some tripRank, Some pairRank =>
          "Full House, " +:+ rankNames tripRank +:+ " full of " +:+ rankNames pairRank
      | _, _ => "Full House"
      end
  | FLUSH => "Flush, " +:+ highCardName sortedCards +:+ " high"
  | STRAIGHT => "Straight, " +:+ highCardName sortedCards +:+ " high"
  | THREE_OF_A_KIND =>
      match lastWithCount rankCounts 3 with
      | Some tripRank => "Three of a Kind, " +:+ rankNames tripRank
      | None => "Three of a Kind"
      end
  | TWO_PAIR =>
      let pairs := ranksWithCount rankCounts 2 in
      let pairs := jsSort (fun a b => RANK_VALUES b - RANK_VALUES a) pairs in
      match pairs with
      | p0 :: p1 :: _ => "Two Pair, " +:+ rankNames p0 +:+ " and " +:+ rankNames p1
      | _ => "Two Pair"
      end
  | PAIR =>
      match lastWithCount rankCounts 2 with
      | Some pairRank => "Pair of " +:+ rankNames pairRank
      | None => "Pair"
      end
  | HIGH_CARD => "High Card, " +:+ highCardName sortedCards
  end.

(** ** Texas Hold'em evaluator ([evaluators/holdem.ts]) *)

Definition rankAt (sortedCards : list Card) (i : nat) : option Rank :=
  rank <$> sortedCards !! i.

Definition countValues (rankCounts : list (Rank * nat)) : list nat := snd <$> rankCounts.

Definition includes (n : nat) (values : list nat) : bool := bool_decide (n ∈ values).

(** [cards.filter(card => card.rank === r)] for a nullable [r]. *)
Definition cardsOfRank (r : option Rank) (sortedCards : list Card) : list Card :=
  filter (fun card => Some (rank card) = r) sortedCards.

Definition cardsNotOfRank (r : option Rank) (sortedCards : list Card) : list Card :=
  filter (fun card => Some (rank card) ≠ r) sortedCards.

(** [sortedCards.indexOf(sortedCards.find(card => card.rank === r))] *)
Fixpoint indexOfRank (sortedCards : list Card) (r : Rank) : Z :=
  match sortedCards with
  | [] => -1
  | c :: rest =>
      if bool_decide (rank c = r) then 0
      else let i := indexOfRank rest r in if i <? 0 then -1 else i + 1
  end.

Definition evaluateSingleHand (cards : list Card) : Result EvaluatedHand :=
  if negb (length cards =? 5)%nat then Throw (ExactlyFiveRequired (length cards))
  else
    let sortedCards := sortCardsByRank cards in
    let rankCounts := countRanks cards in
    let flush := findFlush cards in
    let straight := findStraight cards in
    let values := countValues rankCounts in
    let '(handRank, valueCards) :=
      if bool_decide (is_Some flush)
         && bool_decide (rankAt sortedCards 0 = Some ACE)
         && bool_decide (rankAt sortedCards 1 = Some KING)
         && bool_decide (rankAt sortedCards 2 = Some QUEEN)
         && bool_decide (rankAt sortedCards 3 = Some JACK)
         && bool_decide (rankAt sortedCards 4 = Some TEN)
      then (ROYAL_FLUSH, sortedCards)
      else
        match flush, straight with
        | Some _, Some straightCards => (STRAIGHT_FLUSH, straightCards)
        | _, _ =>
            if includes 4 values then
              let quadRank := firstWithCount rankCounts 4 in
              (FOUR_OF_A_KIND,
               cardsOfRank quadRank sortedCards ++ cardsNotOfRank quadRank sortedCards)
            else if includes 3 values && includes 2 values then
              let tripRank := lastWithCount rankCounts 3 in
              let pairRank := lastWithCount rankCounts 2 in
              (FULL_HOUSE,
               cardsOfRank tripRank sortedCards ++ cardsOfRank pairRank sortedCards)
            else
              match flush, straight with
              | Some flushCards, _ => (FLUSH, flushCards)
              | None, Some straightCards => (STRAIGHT, straightCards)
              | None, None =>
                  if includes 3 values then
                    let tripRank := firstWithCount rankCounts 3 in
                    (THREE_OF_A_KIND,
                     cardsOfRank tripRank sortedCards ++ cardsNotOfRank tripRank sortedCards)
                  else if (length (filter (fun count => count = 2%nat) values) =? 2)%nat then
                    let pairRanks := ranksWithCount rankCounts 2 in
                    let pairRanks :=
                      jsSort (fun a b => indexOfRank sortedCards a - indexOfRank sortedCards b)
                             pairRanks in
                    let p0 := pairRanks !! 0%nat in
                    let p1 := pairRanks !! 1%nat in
                    (TWO_PAIR,
                     cardsOfRank p0 sortedCards ++ cardsOfRank p1 sortedCards
                     ++ filter (fun card => Some (rank card) ≠ p0 ∧ Some (rank card) ≠ p1)
                          sortedCards)
                  else if includes 2 values then
                    let pairRank := firstWithCount rankCounts 2 in
                    (PAIR,
                     cardsOfRank pairRank sortedCards ++ cardsNotOfRank pairRank sortedCards)
                  else (HIGH_CARD, sortedCards)
              end
        end
    in
    let value := calculateHandValue handRank valueCards in
    let description := generateHandDescription handRank valueCards in
    Ok (mkEvaluated handRank value description).

Definition initialBestHand : EvaluatedHand := mkEvaluated HIGH_CARD 0 "".

(** The loop of [evaluate] over the candidate hands. *)
Fixpoint bestOf (evalOne : list Card -> Result EvaluatedHand)
    (combinations : list (list Card)) (bestHand : EvaluatedHand) : Result EvaluatedHand :=
  match combinations with
  | [] => Ok bestHand
  | combo :: rest =>
      match evalOne combo with
      | Throw e => Throw e
      | Ok evaluated =>
          bestOf evalOne rest
            (if eh_value bestHand <? eh_value evaluated then evaluated else bestHand)
      end
  end.

Definition holdemEvaluate (holeCards boardCards : list Card) : Result EvaluatedHand :=
  let allCards := holeCards ++ boardCards in
  if (length allCards <? 5)%nat then Throw (NotEnoughCards (length allCards))
  else bestOf evaluateSingleHand (generateCombinations allCards 5) initialBestHand.

(** ** Omaha evaluator ([evaluators/omaha.ts]) *)

Definition omahaEvaluate (holeCards boardCards : list Card) : Result EvaluatedHand :=
  if negb (length holeCards =? 4)%nat then Throw (OmahaHoleCards (length holeCards))
  else if (length boardCards <? 3)%nat then Throw (OmahaBoardCards (length boardCards))
  else
    let holeCombinations := generateCombinations holeCards 2 in
    let boardCombinations := generateCombinations boardCards 3 in
    fold_left
      (fun best holeCombo =>
         fold_left
           (fun best boardCombo =>
              rbind best (fun bestHand =>
              rbind (holdemEvaluate holeCombo boardCombo) (fun evaluated =>
              Ok (if eh_value bestHand <? eh_value evaluated then evaluated else bestHand))))
           boardCombinations best)
      holeCombinations (Ok initialBestHand).

(** ** Evaluator interface and factory ([evaluators/evaluator.ts]) *)

Record HandEvaluator := mkEvaluator {
  evaluate : list Card -> list Card -> Result EvaluatedHand;
  getVariant : GameVariant
}.

Definition compareHands (hand1 hand2 : EvaluatedHand) : Z :=
  if handRankValue (eh_rank hand2) <? handRankValue (eh_rank hand1) then 1
  else if handRankValue (eh_rank hand1) <? handRankValue (eh_rank hand2) then -1
  else if eh_value hand2 <? eh_value hand1 then 1
  else if eh_value hand1 <? eh_value hand2 then -1
  else 0.

Definition HoldemEvaluator : HandEvaluator := mkEvaluator holdemEvaluate TEXAS_HOLDEM.
Definition OmahaEvaluator : HandEvaluator := mkEvaluator omahaEvaluate OMAHA.

(** The registry after [index.ts] has imported both evaluator modules. *)
Definition getEvaluator (variant : GameVariant) : Result HandEvaluator :=
  match variant with
  | TEXAS_HOLDEM => Ok HoldemEvaluator
  | OMAHA => Ok OmahaEvaluator
  | _ => Throw (NoEvaluatorRegistered variant)
  end.

(** ** Parsing cards and hands ([models/card.ts], [models/hand.ts])

    Strings are sequences of 8-bit characters; [toUpperCase] and
    [toLowerCase] act on the ASCII letters. *)

Definition toUpperCase (a : ascii) : ascii :=
  let n := nat_of_ascii a in
  if ((97 <=? n) && (n <=? 122))%nat then ascii_of_nat (n - 32) else a.

Definition toLowerCase (a : ascii) : ascii :=
  let n := nat_of_ascii a in
  if ((65 <=? n) && (n <=? 90))%nat then ascii_of_nat (n + 32) else a.

Definition rankMap (ch : ascii) : option Rank :=
  find (fun r => bool_decide (rankChar r = String ch "")) allRanks.

Definition suitMap (ch : ascii) : option Suit :=
  find (fun s => bool_decide (suitChar s = String ch "")) [SPADES; HEARTS; DIAMONDS; CLUBS].

Definition createCard (cardStr : string) : Result Card :=
  match cardStr with
  | String c0 (String c1 "") =>
      let rankCh := toUpperCase c0 in
      let suitCh := toLowerCase c1 in
      match rankMap rankCh with
      | None => Throw (InvalidCardRank (String rankCh ""))
      | Some r =>
          match suitMap suitCh with
          | None => Throw (InvalidCardSuit (String suitCh ""))
          | Some s => Ok (mkCard r s)
          end
      end
  | _ => Throw (InvalidCardString cardStr)
  end.

(** The loop of [createCards] from position [i] on, [rest] being
    [cardsStr.substring(i)]. *)
Fixpoint createCardsFrom (i : nat) (rest : string) : Result (list Card) :=
  match rest with
  | "" => Ok []
  | String _ "" => Throw (IncompleteCard i)
  | String c0 (String c1 rest') =>
      rbind (createCard (String c0 (String c1 ""))) (fun card =>
      rbind (createCardsFrom (i + 2) rest') (fun cards =>
      Ok (card :: cards)))
  end.

Definition createCards (cardsStr : string) : Result (list Card) :=
  createCardsFrom 0 cardsStr.

(** The duplicate scan of [validateHand]: [seen] is the key set of [cardMap]. *)
Fixpoint firstRepeated (seen : list string) (cards : list Card) : option string :=
  match cards with
  | [] => None
  | card :: rest =>
      let cardStr := rankChar (rank card) +:+ suitChar (suit card) in
      if bool_decide (cardStr ∈ seen) then Some cardStr
      else firstRepeated (cardStr :: seen) rest
  end.

Definition validateHand (cards : list Card) (variant : GameVariant) : Result unit :=
  let config := GAME_CONFIGS variant in
  if (maxHoleCards config <? length cards)%nat
  then Throw (TooManyHoleCards variant (length cards) (maxHoleCards config))
  else match firstRepeated [] cards with
       | Some cardStr => Throw (DuplicateCardInHand cardStr)
       | None => Ok tt
       end.

(** [createHand] returns a fresh [Hand] object; its [cards] are returned
    here and the caller decides where the object lives. *)
Definition createHand (handStr : string) (variant : GameVariant) : Result (list Card) :=
  match handStr with
  | "" => Ok []
  | _ =>
      rbind (createCards handStr) (fun cards =>
      rbind (validateHand cards variant) (fun _ =>
      Ok cards))
  end.

Definition cardsNeededForHand (handCards : list Card) (variant : GameVariant) : nat :=
  (maxHoleCards (GAME_CONFIGS variant) - length handCards)%nat.

Definition cardsNeededForBoard (boardCards : list Card) (variant : GameVariant) : nat :=
  (maxBoardCards (GAME_CONFIGS variant) - length boardCards)%nat.

(** ** Single-hand evaluation ([index.ts], [PokerEquityCalculator.evaluateHand]) *)

Definition evaluateHand (gameVariant : GameVariant) (boardCards : list Card)
    (handStr : string) : Result EvaluatedHand :=
  rbind (createHand handStr gameVariant) (fun handCards =>
  rbind (getEvaluator gameVariant) (fun evaluator =>
  evaluate evaluator handCards boardCards)).

(** ** Deck ([models/deck.ts]) *)

Definition fullDeck : list Card :=
  s ← [SPADES; HEARTS; DIAMONDS; CLUBS]; r ← allRanks; [mkCard r s].

Definition removeCards (cards cardsToRemove : list Card) : list Card :=
  filter (fun card => ¬ existsb (fun c =>
            bool_decide (rank c = rank card) && bool_decide (suit c = suit card))
            cardsToRemove) cards.

(** [deal] pops [count] cards off the end of the deck: the dealt cards, last
    card of the deck first, and the deck that remains. *)
Definition deal (cards : list Card) (count : nat) : Result (list Card * list Card) :=
  if (length cards <? count)%nat then Throw (CannotDeal count (length cards))
  else Ok (take count (reverse cards), take (length cards - count) cards).

(** ** State and exceptions *)

Definition M (S A : Type) : Type := S -> Result A * S.

Definition ret {S A} (a : A) : M S A := fun s => (Ok a, s).
Definition throw {S A} (e : Error) : M S A := fun s => (Throw e, s).
Definition bind {S A B} (m : M S A) (k : A -> M S B) : M S B :=
  fun s => match m s with
           | (Ok a, s') => k a s'
           | (Throw e, s') => (Throw e, s')
           end.
Definition gets {S A} (f : S -> A) : M S A := fun s => (Ok (f s), s).
Definition modify {S} (f : S -> S) : M S unit := fun s => (Ok tt, f s).
Definition liftR {S A} (r : Result A) : M S A := fun s => (r, s).

Notation "'let*' x ':=' m 'in' k" := (bind m (fun x => k))
  (at level 10, x pattern, m at level 100, k at level 200).
Notation "'exec' m 'in' k" := (bind m (fun _ => k))
  (at level 10, m at level 100, k at level 200).

(** [for (const x of l) body(x)] *)
Fixpoint forEach {S A} (l : list A) (body : A -> M S unit) : M S unit :=
  match l with
  | [] => ret tt
  | x :: l' => exec body x in forEach l' body
  end.

(** A loop that carries local variables [b]. *)
Fixpoint foldM {S A B} (body : B -> A -> M S B) (l : list A) (b : B) : M S B :=
  match l with
  | [] => ret b
  | x :: l' => let* b' := body b x in foldM body l' b'
  end.

Fixpoint mapM {S A B} (f : A -> M S B) (l : list A) : M S (list B) :=
  match l with
  | [] => ret []
  | x :: l' => let* y := f x in let* ys := mapM f l' in ret (y :: ys)
  end.

(** ** Results and options ([types/result.ts]) *)

Record PlayerEquity := mkPlayerEquity {
  handIndex : nat;
  equity : Q;
  wins : nat;
  ties : nat;
  winsCount : nat;
  tiesCount : nat;
  handRankCounts : list (HandRank * Q);
  winningHandRankCounts : list (HandRank * Q)
}.

(** [elapsedTime] is left out. *)
Record EquityResult := mkEquityResult {
  playerResults : list PlayerEquity;
  totalHands : nat;
  isExact : bool
}.

(** The options a caller passes: every key may be absent. *)
Record CalculationOptions := mkCalculationOptions {
  opt_iterations : option nat;
  opt_forceExhaustive : option bool;
  opt_maxExhaustiveCombinations : option float;
  opt_accuracyThreshold : option Q
}.

Definition noOptions : CalculationOptions := mkCalculationOptions None None None None.

(** [this.options], after the constructor has spread the caller's options
    over the defaults. *)
Record Options := mkOptions {
  iterations : nat;
  forceExhaustive : bool;
  maxExhaustiveCombinations : float;
  accuracyThreshold : Q
}.

Definition mergeOptions (o : CalculationOptions) : Options :=
  mkOptions (default 10000%nat (opt_iterations o))
            (default false (opt_forceExhaustive o))
            (default 25000%float (opt_maxExhaustiveCombinations o))
            (default (1 # 1000)%Q (opt_accuracyThreshold o)).

(** ** Objects

    A [Hand] or [Board] object is a location of the heap; the heap gives the
    current value of its [cards] field. Arrays of cards are never updated in
    place by the calculators, so they are values. *)

Definition Heap : Type := list (list Card).

Definition cardsOf (h : Heap) (obj : nat) : list Card := default [] (h !! obj).

(** [{ ...obj, cards: [...obj.cards] }] *)
Definition allocCopy (h : Heap) (obj : nat) : Heap * nat := (h ++ [cardsOf h obj], length h).

(** ** Base calculator ([calculators/base.ts]) *)

Record Calculator := mkCalculator {
  hands : list nat;
  board : nat;
  deadCards : list Card;
  evaluator : HandEvaluator;
  options : Options
}.

(** One step of the three scans of [validateHands]; [seenCards] is threaded. *)
Definition checkBoardCard (deadCards : list Card) (handsCards : list (list Card))
    (seenCards : list Card) (card : Card) : Result (list Card) :=
  if isCardInArray card deadCards then Throw (BoardCardIsDead card)
  else if existsb (isCardInArray card) handsCards then Throw (BoardCardInHand card)
  else if isCardInArray card seenCards then Throw (DuplicateBoardCard card)
  else Ok (seenCards ++ [card]).

Definition checkDeadCard (handsCards : list (list Card))
    (seenCards : list Card) (card : Card) : Result (list Card) :=
  if existsb (isCardInArray card) handsCards then Throw (DeadCardInHand card)
  else if isCardInArray card seenCards then Throw (DuplicateDeadCard card)
  else Ok (seenCards ++ [card]).

Definition checkHandCard (seenCards : list Card) (card : Card) : Result (list Card) :=
  if isCardInArray card seenCards then Throw (CardInMultipleHands card)
  else Ok (seenCards ++ [card]).

Fixpoint scan {A} (step : list Card -> A -> Result (list Card)) (l : list A)
    (seenCards : list Card) : Result (list Card) :=
  match l with
  | [] => Ok seenCards
  | x :: l' => rbind (step seenCards x) (scan step l')
  end.

(** The three scans of [validateHands] on the cards it reads. *)
Definition validateCards (boardCards deadCards : list Card) (handsCards : list (list Card))
  : Result unit :=
  rbind (scan (checkBoardCard deadCards handsCards) boardCards []) (fun seenCards =>
  rbind (scan (checkDeadCard handsCards) deadCards seenCards) (fun seenCards =>
  rbind (scan (fun seen handCards => scan checkHandCard handCards seen) handsCards seenCards)
    (fun _ => Ok tt))).

Definition validateHands (this : Calculator) : M Heap unit :=
  let* boardCards := gets (fun h => cardsOf h (board this)) in
  let* handsCards := gets (fun h => cardsOf h <$> hands this) in
  liftR (validateCards boardCards (deadCards this) handsCards).

(** [new EquityCalculator(hands, board, deadCards, gameVariant, options)] of a
    concrete subclass. *)
Definition newCalculator (hands : list nat) (board : nat) (deadCards : list Card)
    (gameVariant : GameVariant) (options : CalculationOptions) : M Heap Calculator :=
  let* evaluator := liftR (getEvaluator gameVariant) in
  let this := mkCalculator hands board deadCards evaluator (mergeOptions options) in
  exec validateHands this in
  ret this.

(** The calculators run in a world made of the heap, the calculator object
    and the number of calls made to [Math.random]. [evaluations] is a ghost
    field that no code reads: the arguments of every call of the evaluator's
    [evaluate] made so far, the latest last. *)
Record World := mkWorld {
  heap : Heap;
  self : Calculator;
  randomCalls : nat;
  evaluations : list (list Card * list Card)
}.

Definition readCards (obj : nat) : M World (list Card) :=
  gets (fun w => cardsOf (heap w) obj).

Definition writeCards (obj : nat) (cards : list Card) : M World unit :=
  modify (fun w => mkWorld (<[obj := cards]> (heap w)) (self w) (randomCalls w)
                           (evaluations w)).

Definition logEvaluation (holeCards boardCards : list Card) : M World unit :=
  modify (fun w => mkWorld (heap w) (self w) (randomCalls w)
                           (evaluations w ++ [(holeCards, boardCards)])).

Definition getUsedCards : M World (list Card) :=
  let* this := gets self in
  let* boardCards := readCards (board this) in
  let* handsCards := mapM readCards (hands this) in
  ret (boardCards ++ deadCards this ++ concat handsCards).

Definition createDeckWithoutUsedCards : M World (list Card) :=
  let* usedCards := getUsedCards in
  ret (removeCards fullDeck usedCards).

Definition createInitialPlayerEquities : M World (list PlayerEquity) :=
  let* this := gets self in
  ret (imap (fun index _ => mkPlayerEquity index 0 0 0 0 0 [] []) (hands this)).

(** ** Outcome tally ([evaluateAndUpdateEquity])

    A [Record<HandRank, number>] is read and written by key only; it is kept
    as a list of bindings. Fractions are stored in lowest terms. *)

Definition bump (counts : list (HandRank * Q)) (r : HandRank) (amount : Q)
  : list (HandRank * Q) :=
  mapSet counts r (Qred (default 0%Q (mapGet counts r) + amount)).

Definition countHandRank (r : HandRank) (p : PlayerEquity) : PlayerEquity :=
  mkPlayerEquity (handIndex p) (equity p) (wins p) (ties p) (winsCount p) (tiesCount p)
    (bump (handRankCounts p) r 1) (winningHandRankCounts p).

(** The first loop of the tally: the category counts, the best value and the
    winners. *)
Fixpoint findWinners (i : nat) (evaluatedHands : list EvaluatedHand)
    (bestHandValue : Z) (winners : list nat) (playerResults : list PlayerEquity)
  : list nat * list PlayerEquity :=
  match evaluatedHands with
  | [] => (winners, playerResults)
  | e :: rest =>
      let handValue := eh_value e in
      let handRank := eh_rank e in
      let playerResults := alter (countHandRank handRank) i playerResults in
      if bestHandValue <? handValue
      then findWinners (S i) rest handValue [i] playerResults
      else if handValue =? bestHandValue
      then findWinners (S i) rest bestHandValue (winners ++ [i]) playerResults
      else findWinners (S i) rest bestHandValue winners playerResults
  end.

#[global] Instance EvaluatedHand_inhabited : Inhabited EvaluatedHand :=
  populate (mkEvaluated HIGH_CARD 0 "").

(** [evaluatedHands[i].rank], for a winner [i]: always in range. *)
Definition rankOfPlayer (evaluatedHands : list EvaluatedHand) (i : nat) : HandRank :=
  eh_rank (evaluatedHands !!! i).

(** The exhaustive calculator counts in [winsCount] and [tiesCount]. *)
Definition creditWin (r : HandRank) (p : PlayerEquity) : PlayerEquity :=
  mkPlayerEquity (handIndex p) (equity p) (wins p) (ties p) (S (winsCount p)) (tiesCount p)
    (handRankCounts p) (bump (winningHandRankCounts p) r 1).

Definition creditTie (r : HandRank) (share : Q) (p : PlayerEquity) : PlayerEquity :=
  mkPlayerEquity (handIndex p) (equity p) (wins p) (ties p) (winsCount p) (S (tiesCount p))
    (handRankCounts p) (bump (winningHandRankCounts p) r share).

Definition updateCounts (creditWin : HandRank -> PlayerEquity -> PlayerEquity)
    (creditTie : HandRank -> Q -> PlayerEquity -> PlayerEquity)
    (evaluatedHands : list EvaluatedHand) (playerResults : list PlayerEquity)
  : list PlayerEquity :=
  let '(winners, playerResults) := findWinners 0 evaluatedHands (-1) [] playerResults in
  match winners with
  | [winner] => alter (creditWin (rankOfPlayer evaluatedHands winner)) winner playerResults
  | _ =>
      fold_left (fun results winner =>
                   alter (creditTie (rankOfPlayer evaluatedHands winner)
                                    (1 / inject_Z (Z.of_nat (length winners)))%Q)
                         winner results)
                winners playerResults
  end.

Definition evaluateHands : M World (list EvaluatedHand) :=
  let* this := gets self in
  mapM (fun hand =>
          let* handCards := readCards hand in
          let* boardCards := readCards (board this) in
          exec logEvaluation handCards boardCards in
          liftR (evaluate (evaluator this) handCards boardCards))
       (hands this).

Definition evaluateAndUpdateEquity (playerResults : list PlayerEquity)
  : M World (list PlayerEquity) :=
  let* evaluatedHands := evaluateHands in
  ret (updateCounts creditWin creditTie evaluatedHands playerResults).

(** ** Exhaustive calculator ([calculators/exhaustive.ts]) *)

(** [factorial(n)]: the product is a double. *)
Fixpoint factorial (n : nat) : float :=
  match n with
  | O => 1
  | S n' => if (n <=? 1)%nat then 1
            else PrimFloat.mul (floatOfZ (Z.of_nat n)) (factorial n')
  end.

(** [for (i = 0; i < totalCardsToDeal; i++) { totalCombinations *= remainingCards; remainingCards--; }] *)
Fixpoint waysInOrder (totalCardsToDeal : nat) (totalCombinations : float)
    (remainingCards : Z) : float :=
  match totalCardsToDeal with
  | O => totalCombinations
  | S n => waysInOrder n (PrimFloat.mul totalCombinations (floatOfZ remainingCards))
             (remainingCards - 1)
  end.

(** The ceiling a calculation compares with:
    [this.options.maxExhaustiveCombinations || 25000], where zero, negative
    zero and NaN count as false. *)
Definition ceilingOf (o : Options) : float :=
  let configured := maxExhaustiveCombinations o in
  if PrimFloat.eqb configured 0 || negb (PrimFloat.eqb configured configured)
  then 25000%float
  else configured.

(** The arithmetic of [estimateCombinations]: the ordered ways, a product of
    doubles, divided by the number of orders, another product of doubles.
    Neither the products nor the quotient are rounded to a whole number. *)
Definition combinationsFor (remainingCardCount : Z) (totalCardsToDeal : nat) : float :=
  let totalCombinations := waysInOrder totalCardsToDeal 1%float remainingCardCount in
  PrimFloat.div totalCombinations (factorial totalCardsToDeal).

Definition cardsToDeal (handsCards : list (list Card)) (boardCards : list Card)
    (gameVariant : GameVariant) : nat :=
  (fold_left (fun total handCards => total + cardsNeededForHand handCards gameVariant)
             handsCards 0
   + cardsNeededForBoard boardCards gameVariant)%nat.

Definition estimateCombinations : M World (float * float) :=
  let* this := gets self in
  let gameVariant := getVariant (evaluator this) in
  let* usedCards := getUsedCards in
  let remainingCardCount := 52 - Z.of_nat (length usedCards) in
  let* handsCards := mapM readCards (hands this) in
  let* boardCards := readCards (board this) in
  let totalCardsToDeal := cardsToDeal handsCards boardCards gameVariant in
  if (totalCardsToDeal =? 0)%nat then ret (1%float, 1%float)
  else ret (combinationsFor remainingCardCount totalCardsToDeal, ceilingOf (options this)).

Definition applyCompletions (incompleteHands : list (nat * nat))
    (handCompletions : list (list Card)) (boardCompletion : list Card) : M World unit :=
  let* this := gets self in
  let* originalHands := mapM readCards (hands this) in
  let* originalBoard := readCards (board this) in
  exec forEach (imap (fun i incompleteHand => (i, fst incompleteHand)) incompleteHands)
         (fun '(i, handIndex) =>
            writeCards (hands this !!! handIndex)
                       (originalHands !!! handIndex ++ handCompletions !!! i)) in
  writeCards (board this) (originalBoard ++ boardCompletion).

(** [previousCompletion.some(pc => ...)] for some card of [completion], for
    some [i < handIndex]. *)
Definition hasConflict (handIndex : nat) (currentHandCompletions : list (list Card))
    (completion : list Card) : bool :=
  existsb (fun previousCompletion =>
             existsb (fun card =>
                        existsb (fun pc => bool_decide (rank pc = rank card)
                                           && bool_decide (suit pc = suit card))
                                previousCompletion)
                     completion)
          (take handIndex currentHandCompletions).

(** [todo] is [handCompletions] from index [handIndex] on, so that
    [handIndex >= incompleteHands.length] holds exactly when [todo] is empty
    and [handCompletions[handIndex]] is its head. [currentHandCompletions] is
    written at [handIndex] only, and read below [handIndex] and, once every
    hand has its completion, everywhere: it is passed down. The result is the
    count and the player results. *)
Fixpoint evaluateAllCombinations (handIndex : nat) (incompleteHands : list (nat * nat))
    (todo : list (list (list Card))) (boardCompletions : list (list Card))
    (currentHandCompletions : list (list Card)) (playerResults : list PlayerEquity)
  : M World (nat * list PlayerEquity) :=
  match todo with
  | [] =>
      foldM (fun '(count, playerResults) boardCompletion =>
               exec applyCompletions incompleteHands currentHandCompletions boardCompletion in
               let* playerResults := evaluateAndUpdateEquity playerResults in
               ret (S count, playerResults))
            boardCompletions (O, playerResults)
  | completionsForCurrentHand :: todo' =>
      foldM (fun '(totalCount, playerResults) completion =>
               if hasConflict handIndex currentHandCompletions completion
               then ret (totalCount, playerResults)
               else
                 let* (count, playerResults) :=
                   evaluateAllCombinations (S handIndex) incompleteHands todo' boardCompletions
                     (<[handIndex := completion]> currentHandCompletions) playerResults in
                 ret ((totalCount + count)%nat, playerResults))
            completionsForCurrentHand (O, playerResults)
  end.

(** [totalHands = 0] makes the source divide by zero and store NaN; no
    statement below reads the equity in that case. *)
Definition finalEquity (winCount tieCount totalHands : nat) : Q :=
  Qred ((inject_Z (Z.of_nat winCount) + inject_Z (Z.of_nat tieCount) / 2)
        / inject_Z (Z.of_nat totalHands)).

Definition setEquity (totalHands : nat) (p : PlayerEquity) : PlayerEquity :=
  mkPlayerEquity (handIndex p) (finalEquity (winsCount p) (tiesCount p) totalHands)
    (wins p) (ties p) (winsCount p) (tiesCount p)
    (handRankCounts p) (winningHandRankCounts p).

(** [calculate], once the ceiling has been checked. *)
Definition enumerateAndTally : M World EquityResult :=
  let* this := gets self in
  let* playerResults := createInitialPlayerEquities in
  let gameVariant := getVariant (evaluator this) in
  let* remainingCards := createDeckWithoutUsedCards in
  let* handsCards := mapM readCards (hands this) in
  let incompleteHands :=
    filter (fun h => (0 < snd h)%nat)
           (imap (fun index handCards => (index, cardsNeededForHand handCards gameVariant))
                 handsCards) in
  let* boardCards := readCards (board this) in
  let boardCardsNeeded := cardsNeededForBoard boardCards gameVariant in
  let* (totalHands, playerResults) :=
    if bool_decide (incompleteHands = []) && (boardCardsNeeded =? 0)%nat then
      let* playerResults := evaluateAndUpdateEquity playerResults in
      ret (1%nat, playerResults)
    else
      let handCompletions :=
        map (fun '(handIndex, cardsNeeded) =>
               let handCards := handsCards !!! handIndex in
               let availableCards :=
                 filter (fun card =>
                           ¬ existsb (fun hc => bool_decide (rank hc = rank card)
                                                && bool_decide (suit hc = suit card))
                                     handCards)
                        remainingCards in
               generateCombinations availableCards cardsNeeded)
            incompleteHands in
      let boardCompletions :=
        if (0 <? boardCardsNeeded)%nat
        then generateCombinations remainingCards boardCardsNeeded
        else [[]] in
      let currentHandCompletions := map (fun _ => []) incompleteHands in
      evaluateAllCombinations 0 incompleteHands handCompletions boardCompletions
        currentHandCompletions playerResults in
  ret (mkEquityResult (setEquity totalHands <$> playerResults) totalHands true).

Definition exhaustiveCalculate : M World EquityResult :=
  let* this := gets self in
  let* (totalCombinations, maxCombinations) := estimateCombinations in
  let shouldUseExhaustive :=
    forceExhaustive (options this)
    || PrimFloat.leb totalCombinations (ceilingOf (options this)) in
  if negb shouldUseExhaustive then throw (TooManyCombinations totalCombinations)
  else enumerateAndTally.

(** [new ExhaustiveCalculator(...).calculate()] on objects of [h]: the
    outcome, the heap afterwards and the calls of [evaluate] that were made. *)
Record Run (A : Type) := mkRun {
  outcome : Result A;
  finalHeap : Heap;
  evaluated : list (list Card * list Card)
}.
Arguments mkRun {A}.
Arguments outcome {A}.
Arguments finalHeap {A}.
Arguments evaluated {A}.

Definition runExhaustive (h : Heap) (hands : list nat) (board : nat) (deadCards : list Card)
    (gameVariant : GameVariant) (options : CalculationOptions) : Run EquityResult :=
  match newCalculator hands board deadCards gameVariant options h with
  | (Throw e, h') => mkRun (Throw e) h' []
  | (Ok this, h') =>
      let '(r, w) := exhaustiveCalculate (mkWorld h' this 0 []) in
      mkRun r (heap w) (evaluations w)
  end.

(** ** Monte Carlo calculator ([calculators/monte-carlo.ts]) *)

Section MonteCarlo.
(** The source of randomness: the [k]-th call of [Math.random()] returns a
    number [x] and [Math.floor(x * n)] is [random k mod n], which ranges
    over all of [0 .. n-1] as [random] varies. *)
Variable random : nat -> nat.

Definition randomBelow (n : nat) : M World nat :=
  fun w => (Ok (random (randomCalls w) mod n)%nat,
            mkWorld (heap w) (self w) (S (randomCalls w)) (evaluations w)).

(** [[cards[i], cards[j]] = [cards[j], cards[i]]] *)
Definition swap (cards : list Card) (i j : nat) : list Card :=
  match cards !! i, cards !! j with
  | Some ci, Some cj => <[j := ci]> (<[i := cj]> cards)
  | _, _ => cards
  end.

(** [for (let i = cards.length - 1; i > 0; i--)], entered at [i]. *)
Fixpoint shuffleFrom (i : nat) (cards : list Card) : M World (list Card) :=
  match i with
  | O => ret cards
  | S i' =>
      let* j := randomBelow (i + 1) in
      shuffleFrom i' (swap cards i j)
  end.

Definition shuffle (cards : list Card) : M World (list Card) :=
  shuffleFrom (length cards - 1) cards.

Definition allocCopyM (obj : nat) : M World nat :=
  fun w => let '(h, copy) := allocCopy (heap w) obj in
           (Ok copy, mkWorld h (self w) (randomCalls w) (evaluations w)).

Definition setSelf (hands : list nat) (board : nat) : M World unit :=
  modify (fun w =>
    let this := self w in
    mkWorld (heap w)
            (mkCalculator hands board (deadCards this) (evaluator this) (options this))
            (randomCalls w) (evaluations w)).

(** The Monte Carlo calculator counts in [wins] and [ties]. *)
Definition creditWinMC (r : HandRank) (p : PlayerEquity) : PlayerEquity :=
  mkPlayerEquity (handIndex p) (equity p) (S (wins p)) (ties p) (winsCount p) (tiesCount p)
    (handRankCounts p) (bump (winningHandRankCounts p) r 1).

Definition creditTieMC (r : HandRank) (share : Q) (p : PlayerEquity) : PlayerEquity :=
  mkPlayerEquity (handIndex p) (equity p) (wins p) (S (ties p)) (winsCount p) (tiesCount p)
    (handRankCounts p) (bump (winningHandRankCounts p) r share).

Definition evaluateAndUpdateEquityMC (playerResults : list PlayerEquity)
  : M World (list PlayerEquity) :=
  let* evaluatedHands := evaluateHands in
  ret (updateCounts creditWinMC creditTieMC evaluatedHands playerResults).

(** One pass of the loop body of [runSimulationBatch]. *)
Definition simulateOnce (playerResults : list PlayerEquity) : M World (list PlayerEquity) :=
  let* this := gets self in
  let gameVariant := getVariant (evaluator this) in
  let* originalHands := mapM allocCopyM (hands this) in
  let* originalBoard := allocCopyM (board this) in
  let* deck := createDeckWithoutUsedCards in
  let* deck := shuffle deck in
  let* deck :=
    foldM (fun deck j =>
             let hand := hands this !!! j in
             let* handCards := readCards hand in
             let cardsNeeded := cardsNeededForHand handCards gameVariant in
             if (0 <? cardsNeeded)%nat then
               let* (newCards, deck) := liftR (deal deck cardsNeeded) in
               let* originalCards := readCards (originalHands !!! j) in
               exec writeCards hand (originalCards ++ newCards) in
               ret deck
             else ret deck)
          (seq 0 (length (hands this))) deck in
  let* boardCards := readCards (board this) in
  let boardCardsNeeded := cardsNeededForBoard boardCards gameVariant in
  exec (if (0 <? boardCardsNeeded)%nat then
          let* (newBoardCards, deck) := liftR (deal deck boardCardsNeeded) in
          let* originalCards := readCards originalBoard in
          writeCards (board this) (originalCards ++ newBoardCards)
        else ret tt) in
  let* playerResults := evaluateAndUpdateEquityMC playerResults in
  exec setSelf originalHands originalBoard in
  ret playerResults.

Fixpoint runSimulationBatch (count : nat) (playerResults : list PlayerEquity)
  : M World (list PlayerEquity) :=
  match count with
  | O => ret playerResults
  | S count' =>
      let* playerResults := simulateOnce playerResults in
      runSimulationBatch count' playerResults
  end.

Definition runningEquity (iterationsCompleted : nat) (p : PlayerEquity) : Q :=
  finalEquity (wins p) (ties p) iterationsCompleted.

#[local] Instance Q_inhabited : Inhabited Q := populate 0%Q.

Definition convergenceWindow : nat := 10.
Definition batchSize : nat := 1000.

(** [hasConverged]: no difference with one of the last ten snapshots
    exceeds the threshold. *)
Definition hasConverged (threshold : Q) (currentEquities : list Q)
    (previousEquities : list (list Q)) : bool :=
  forallb (fun '(i, equity) =>
             forallb (fun j =>
                        let previousEquity :=
                          (previousEquities !!! (length previousEquities - j)%nat) !!! i in
                        let difference := Qabs (equity - previousEquity) in
                        Qle_bool difference threshold)
                     (seq 1 convergenceWindow))
          (imap (fun i e => (i, e)) currentEquities).

(** The [while] loop of [calculate]. Every round completes at least one
    iteration, so [fuel] rounds are enough when [fuel] is at least the
    number of iterations still to run; [None] is returned when the fuel is
    used up first. *)
Fixpoint simulationLoop (fuel : nat) (maxIterations iterationsCompleted : nat)
    (previousEquities : list (list Q)) (playerResults : list PlayerEquity)
  : M World (option (nat * list PlayerEquity)) :=
  if negb (iterationsCompleted <? maxIterations)%nat
  then ret (Some (iterationsCompleted, playerResults))
  else
    match fuel with
    | O => ret None
    | S fuel' =>
        let* this := gets self in
        let batchesToRun := Nat.min batchSize (maxIterations - iterationsCompleted) in
        let* playerResults := runSimulationBatch batchesToRun playerResults in
        let iterationsCompleted := (iterationsCompleted + batchesToRun)%nat in
        let currentEquities := runningEquity iterationsCompleted <$> playerResults in
        let threshold := accuracyThreshold (options this) in
        if (convergenceWindow * batchSize <? iterationsCompleted)%nat
           && negb (Qeq_bool threshold 0)
           && (convergenceWindow <=? length previousEquities)%nat
           && hasConverged threshold currentEquities previousEquities
        then ret (Some (iterationsCompleted, playerResults))
        else
          let previousEquities := previousEquities ++ [currentEquities] in
          let previousEquities :=
            if (convergenceWindow <? length previousEquities)%nat
            then drop 1 previousEquities else previousEquities in
          simulationLoop fuel' maxIterations iterationsCompleted previousEquities
            playerResults
    end.

Definition setEquityMC (iterationsCompleted : nat) (p : PlayerEquity) : PlayerEquity :=
  mkPlayerEquity (handIndex p) (finalEquity (wins p) (ties p) iterationsCompleted)
    (wins p) (ties p) (winsCount p) (tiesCount p)
    (handRankCounts p) (winningHandRankCounts p).

Definition monteCarloCalculate : M World (option EquityResult) :=
  let* this := gets self in
  let maxIterations :=
    if (iterations (options this) =? 0)%nat then 100000%nat else iterations (options this) in
  let* playerResults := createInitialPlayerEquities in
  let* outcome := simulationLoop maxIterations maxIterations 0 [] playerResults in
  match outcome with
  | None => ret None
  | Some (iterationsCompleted, playerResults) =>
      ret (Some (mkEquityResult (setEquityMC iterationsCompleted <$> playerResults)
                                iterationsCompleted false))
  end.

(** [new MonteCarloCalculator(...).calculate()] on objects of [h]: the
    outcome and the heap afterwards. *)
Definition runMonteCarlo (h : Heap) (hands : list nat) (board : nat)
    (deadCards : list Card) (gameVariant : GameVariant) (options : CalculationOptions)
  : Run (option EquityResult) :=
  match newCalculator hands board deadCards gameVariant options h with
  | (Throw e, h') => mkRun (Throw e) h' []
  | (Ok this, h') =>
      let '(r, w) := monteCarloCalculate (mkWorld h' this 0 []) in
      mkRun r (heap w) (evaluations w)
  end.
End MonteCarlo.

(** * More of the program: boards, random picks, doubles and the facade *)

(** ** Hands and boards ([models/hand.ts], [models/board.ts])

    The functions below take the [cards] of the [Hand] or [Board] they are
    given; none of them writes to the object. *)

Definition handToString (cards : list Card) : string := cardsToString cards.

Definition isHandComplete (handCards : list Card) (variant : GameVariant) : bool :=
  (length handCards =? maxHoleCards (GAME_CONFIGS variant))%nat.

(** [BoardStage] of [types/board.ts]. *)
Inductive BoardStage := PREFLOP | FLOP | TURN | RIVER.

(** The errors of the functions that the calculators do not call, beside
    those of [Error]; [exceptionMessage] renders the text. *)
Inductive Exception :=
| CalculatorError (e : Error)
| TooManyBoardCards (v : GameVariant) (got max : nat)
| DuplicateCardOnBoard (cardStr : string)
| InvalidBoard (cardCount : nat)
| NoCardsLeft
| CannotSelect (k n : nat).

Definition exceptionMessage (e : Exception) : string :=
  match e with
  | CalculatorError e => message e
  | TooManyBoardCards v got max =>
      "Too many board cards for " +:+ variantName v +:+ ": got " +:+ showNat got
      +:+ ", max is " +:+ showNat max
  | DuplicateCardOnBoard s => "Duplicate card on board: " +:+ s
  | InvalidBoard cardCount => "Invalid board with " +:+ showNat cardCount +:+ " cards"
  | NoCardsLeft => "No cards left in the deck"
  | CannotSelect k n =>
      "Cannot select " +:+ showNat k +:+ " cards from a set of " +:+ showNat n
  end.

(** What such a function does: it returns or it throws. *)
Inductive Outcome (A : Type) :=
| Returns (a : A)
| Throws (e : Exception).
Arguments Returns {A} a.
Arguments Throws {A} e.

Definition validateBoard (cards : list Card) (variant : GameVariant) : Outcome unit :=
  let config := GAME_CONFIGS variant in
  if (maxBoardCards config <? length cards)%nat
  then Throws (TooManyBoardCards variant (length cards) (maxBoardCards config))
  else match firstRepeated [] cards with
       | Some cardStr => Throws (DuplicateCardOnBoard cardStr)
       | None => Returns tt
       end.

Definition createBoard (boardStr : string) (variant : GameVariant) : Outcome (list Card) :=
  match boardStr with
  | "" => Returns []
  | _ =>
      match createCards boardStr with
      | Throw e => Throws (CalculatorError e)
      | Ok cards =>
          match validateBoard cards variant with
          | Throws e => Throws e
          | Returns _ => Returns cards
          end
      end
  end.

Definition boardToString (cards : list Card) : string := cardsToString cards.

Definition getBoardStage (boardCards : list Card) : Outcome BoardStage :=
  let cardCount := length boardCards in
  if (cardCount =? 0)%nat then Returns PREFLOP
  else if (cardCount =? 3)%nat then Returns FLOP
  else if (cardCount =? 4)%nat then Returns TURN
  else if (cardCount =? 5)%nat then Returns RIVER
  else Throws (InvalidBoard cardCount).

Definition isBoardComplete (boardCards : list Card) (variant : GameVariant) : bool :=
  (length boardCards =? maxBoardCards (GAME_CONFIGS variant))%nat.

(** ** Random picks ([utils/card-combinations.ts], [models/deck.ts])

    As in the Monte Carlo calculator, the [k]-th call of [Math.random] gives
    an index [random k mod n] below [n]. *)

(** [getRandomCombination] draws [k] cards without replacement; the state is
    the number of calls made to [Math.random]. The guard makes sure that
    [cardsCopy] is never empty when a card is drawn, so that the index is
    within the array: the [None] branch below is never taken. *)
Fixpoint drawFrom (random : nat -> nat) (k : nat) (cardsCopy result : list Card)
    (calls : nat) : list Card * nat :=
  match k with
  | O => (result, calls)
  | S k' =>
      let randomIndex := (random calls mod length cardsCopy)%nat in
      match cardsCopy !! randomIndex with
      | Some card => drawFrom random k' (delete randomIndex cardsCopy) (result ++ [card])
                       (S calls)
      | None => drawFrom random k' cardsCopy result (S calls)
      end
  end.

Definition getRandomCombination (random : nat -> nat) (cards : list Card) (k : nat)
    (calls : nat) : Outcome (list Card) * nat :=
  if (length cards <? k)%nat then (Throws (CannotSelect k (length cards)), calls)
  else let '(result, calls') := drawFrom random k cards [] calls in (Returns result, calls').

Definition peekRandomCard (random : nat -> nat) (cards : list Card) (calls : nat)
  : Outcome Card * nat :=
  match cards with
  | [] => (Throws NoCardsLeft, calls)
  | first :: _ =>
      (Returns (default first (cards !! (random calls mod length cards)%nat)), S calls)
  end.

(** ** Rounding and binomial coefficients on doubles *)

(** [Math.round]: the nearest whole number, halves rounded up; zeros,
    infinities and NaN are returned as they are, and a negative number that
    rounds to zero gives the negative zero. A finite double is [±m·2^e]
    exactly: with [e >= 0] it is whole already, and otherwise its magnitude
    is below 2^53. *)
Definition Math_round (x : float) : float :=
  match Prim2SF x with
  | S754_finite s m e =>
      if 0 <=? e then x
      else
        let num := if s then Z.neg m else Z.pos m in
        let rounded := (2 * num + 2 ^ (- e)) / 2 ^ (- e + 1) in
        if s && (rounded =? 0) then PrimFloat.neg_zero else floatOfZ rounded
  | _ => x
  end.

(** [for (let i = 1; i <= r; i++) { result *= (n - (r - i)); result /= i; }],
    entered at [i] with [fuel] rounds to go. *)
Fixpoint calculateCombinationsFrom (n r : Z) (fuel : nat) (i : Z) (result : float) : float :=
  match fuel with
  | O => result
  | S fuel' =>
      let result := PrimFloat.mul result (floatOfZ (n - (r - i))) in
      let result := PrimFloat.div result (floatOfZ i) in
      calculateCombinationsFrom n r fuel' (i + 1) result
  end.

Definition calculateCombinations (n r : Z) : float :=
  if n <? r then 0%float
  else if (r =? 0) || (r =? n) then 1%float
  else Math_round (calculateCombinationsFrom n r (Z.to_nat r) 1 1%float).

(** The class [PokerEquityCalculator] of [index.ts]: its fields and its
    estimate of the number of scenarios. *)
Module PokerEquityCalculator.

Record PokerEquityCalculator := mkPokerEquityCalculator {
  hands : list (list Card);
  board : list Card;
  deadCards : list Card;
  gameVariant : GameVariant
}.

Definition usedCardCount (this : PokerEquityCalculator) : Z :=
  Z.of_nat (length (board this)) + Z.of_nat (length (deadCards this))
  + fold_left (fun sum hand => sum + Z.of_nat (length hand)) (hands this) 0.

Definition cardsNeeded (this : PokerEquityCalculator) : Z :=
  let boardCardsNeeded := 5 - Z.of_nat (length (board this)) in
  let cardsNeeded := if 0 <? boardCardsNeeded then boardCardsNeeded else 0 in
  fold_left (fun cardsNeeded hand =>
               let handCardsNeeded :=
                 (if bool_decide (gameVariant this = OMAHA) then 4 else 2)
                 - Z.of_nat (length hand) in
               if 0 <? handCardsNeeded then cardsNeeded + handCardsNeeded else cardsNeeded)
            (hands this) cardsNeeded.

(** [for (let i = 0; i < cardsNeeded; i++) combinations *= (remainingCards - i) / (i + 1)] *)
Fixpoint combinationsFrom (remainingCards : Z) (fuel : nat) (i : Z) (combinations : float)
  : float :=
  match fuel with
  | O => combinations
  | S fuel' =>
      combinationsFrom remainingCards fuel' (i + 1)
        (PrimFloat.mul combinations
           (PrimFloat.div (floatOfZ (remainingCards - i)) (floatOfZ (i + 1))))
  end.

Definition estimateCombinations (this : PokerEquityCalculator) : float :=
  if cardsNeeded this =? 0 then 1%float
  else
    let remainingCards := 52 - usedCardCount this in
    Math_round (combinationsFrom remainingCards (Z.to_nat (cardsNeeded this)) 0 1%float).

End PokerEquityCalculator.

(** * Properties

    ** Vocabulary of the statements *)

(** Cards written in the notation of the parser; the empty list when the
    text does not parse. *)
Definition cardsOfString (s : string) : list Card :=
  match createCards s with Ok l => l | Throw _ => [] end.

Definition equitySum (r : EquityResult) : Q :=
  fold_right Qplus 0%Q (equity <$> playerResults r).

(** [wp m Q s]: running [m] from [s] ends, normally or by an exception, in a
    result and a state that satisfy [Q]. *)
Definition wp {S A} (m : M S A) (Q : Result A -> S -> Prop) (s : S) : Prop :=
  Q (m s).1 (m s).2.

(** A postcondition by cases. *)
Definition post {S A} (N : A -> S -> Prop) (E : Error -> S -> Prop)
  : Result A -> S -> Prop :=
  fun r s => match r with Ok a => N a s | Throw e => E e s end.


Definition isEvaluatorError (e : Error) : Prop :=
  match e with
  | NotEnoughCards _ | ExactlyFiveRequired _ | OmahaHoleCards _ | OmahaBoardCards _ => True
  | _ => False
  end.


Definition usesEvaluator (ev : HandEvaluator) (w : World) : Prop := evaluator (self w) = ev.

(** The cards [getUsedCards] returns in world [w]. *)
Definition usedCardsOf (w : World) : list Card :=
  cardsOf (heap w) (board (self w)) ++ deadCards (self w)
  ++ concat (cardsOf (heap w) <$> hands (self w)).

(** The number that [estimateCombinations] computes in world [w]. *)
Definition estimatedCombinations (w : World) : float :=
  let this := self w in
  let totalCardsToDeal :=
    cardsToDeal (cardsOf (heap w) <$> hands this) (cardsOf (heap w) (board this))
                (getVariant (evaluator this)) in
  if (totalCardsToDeal =? 0)%nat then 1%float
  else combinationsFor (52 - Z.of_nat (length (usedCardsOf w))) totalCardsToDeal.



(** [x === y] on numbers. *)
Definition sameNumber (x y : float) : Prop := PrimFloat.eqb x y = true.

(** The card an error of [validateHands] names. *)
Definition namedCard (e : Error) : option Card :=
  match e with
  | BoardCardIsDead c | BoardCardInHand c | DuplicateBoardCard c
  | DeadCardInHand c | DuplicateDeadCard c | CardInMultipleHands c => Some c
  | _ => None
  end.

Definition occurrences (c : Card) (cards : list Card) : nat :=
  length (filter (fun x => x = c) cards).

(** The cards a calculator is built on, in the order [getUsedCards] lists
    them. *)
Definition allCardsOf (h : Heap) (hs : list nat) (b : nat) (dead : list Card) : list Card :=
  cardsOf h b ++ dead ++ concat (cardsOf h <$> hs).

(** The same card in two hands, in a hand and on the board, in a hand and
    among the dead cards, or on the board and among the dead cards. *)
Definition sharedCard (h : Heap) (hs : list nat) (b : nat) (dead : list Card) (c : Card)
  : Prop :=
  (∃ i j hi hj, i ≠ j ∧ hs !! i = Some hi ∧ hs !! j = Some hj
                ∧ c ∈ cardsOf h hi ∧ c ∈ cardsOf h hj)
  ∨ (∃ i hi, hs !! i = Some hi ∧ c ∈ cardsOf h hi ∧ c ∈ cardsOf h b)
  ∨ (∃ i hi, hs !! i = Some hi ∧ c ∈ cardsOf h hi ∧ c ∈ dead)
  ∨ (c ∈ cardsOf h b ∧ c ∈ dead).

(** What the evaluations leave unchanged. *)
Definition sameObjects (w w' : World) : Prop :=
  self w' = self w ∧ heap w' = heap w.

(** The state after [n] scenarios that each completed the board with [k]
    cards, seen from the state [w] before them. *)
Definition grownBy (k : nat) (w : World) (n : nat) (w' : World) : Prop :=
  self w' = self w ∧ length (heap w') = length (heap w)
  ∧ length (cardsOf (heap w') (board (self w)))
    = (length (cardsOf (heap w) (board (self w))) + n * k)%nat.




(** The references of the calculator denote objects and the board is none
    of the hands. *)
Definition wellFormed (w : World) : Prop :=
  (board (self w) < length (heap w))%nat
  ∧ (∀ x, x ∈ hands (self w) -> (x < length (heap w))%nat)
  ∧ board (self w) ∉ hands (self w).

(** The cards the calculator sees through its references. *)
Definition viewOf (w : World) : list (list Card) * list Card :=
  (cardsOf (heap w) <$> hands (self w), cardsOf (heap w) (board (self w))).

(** The state after the first iteration and every later one: the references
    of the calculator are copies made at or after position [n0] of the heap,
    they show the cards [view0], and the object [b0], older than [n0], holds
    the cards [c0]. *)
Definition detached (n0 b0 : nat) (c0 : list Card) (view0 : list (list Card) * list Card)
    (this0 : Calculator) (w : World) : Prop :=
  wellFormed w
  ∧ (n0 <= board (self w))%nat ∧ (∀ x, x ∈ hands (self w) -> (n0 <= x)%nat)
  ∧ (b0 < n0)%nat
  ∧ cardsOf (heap w) b0 = c0
  ∧ viewOf w = view0
  ∧ deadCards (self w) = deadCards this0 ∧ evaluator (self w) = evaluator this0
  ∧ options (self w) = options this0.

(** Every five-card hand over given ranks: the orders of the ranks and the
    choices of the suits. *)
Definition allSuits : list Suit := [SPADES; HEARTS; DIAMONDS; CLUBS].

Fixpoint suitLists (n : nat) : list (list Suit) :=
  match n with
  | O => [[]]
  | S n' => s ← allSuits; l ← suitLists n'; [s :: l]
  end.

Definition allHandsOver (ranks : list Rank) (p : list Card -> bool) : bool :=
  forallb (fun rs => forallb (fun ss => p (zip_with mkCard rs ss)) (suitLists (length ranks)))
          (permutations ranks).

(** All cards have the suit of the first one. *)
Definition sameSuit (cards : list Card) : bool :=
  match cards with
  | [] => true
  | c :: rest => forallb (fun c' => bool_decide (suit c' = suit c)) rest
  end.

Definition scoresStraight (v : Z) (cards : list Card) : bool :=
  sameSuit cards ||
  match evaluateSingleHand cards with
  | Ok e => bool_decide (eh_rank e = STRAIGHT) && (eh_value e =? v)
  | Throw _ => false
  end.

(** ** Concrete inputs

    The hands are objects 0, 1, ... of the heap and the board is the last
    object. *)

(** A pair of twos against ace-king high on a board that helps neither. *)
Definition pairAgainstHighCard : Heap :=
  [cardsOfString "2s2h"; cardsOfString "AhKd"; cardsOfString "3d4c9sJc7h"].

(** Three hands that all play the royal flush of the board. *)
Definition threeWayTie : Heap :=
  [cardsOfString "2c3c"; cardsOfString "2d3d"; cardsOfString "2h3h";
   cardsOfString "AsKsQsJsTs"].

(** Two complete hands and a board that lacks its river. Every card of the
    deck is dead except the first [n] that are not in use (2s and 3s for
    [n = 2]). *)
Definition turnBoard : Heap :=
  [cardsOfString "AsKs"; cardsOfString "QhJh"; cardsOfString "Ts9s2h8c"].

Definition allButFirst (n : nat) (h : Heap) : list Card :=
  drop n (removeCards fullDeck (concat h)).

(** A hand that lacks a card and a board that lacks its river; with
    [allButFirst 2], 4s and 5s are the cards left to deal. *)
Definition shortHandAndTurn : Heap :=
  [cardsOfString "AsKs"; cardsOfString "Ah"; cardsOfString "2s3s4h5c"].

(** Two complete hands on a flop. *)
Definition flopBoard : Heap :=
  [cardsOfString "AsKs"; cardsOfString "QhJh"; cardsOfString "Ts9s2h"].


(** Two complete hands and no board: C(48, 5) = 1712304 scenarios. *)
Definition preflop : Heap := [cardsOfString "AsKs"; cardsOfString "QhJh"; []].

(** Two hands that both hold the ace of spades. *)
Definition sharedAce : Heap := [cardsOfString "AsKd"; cardsOfString "AsQc"; []].

(** An Omaha hand that lacks a card, against a complete one, on a complete
    board. *)
Definition omahaShortHand : Heap :=
  [cardsOfString "AsKsQsJs"; cardsOfString "AhKhQh"; cardsOfString "2s3s4h5c7d"].

(** Five players whose cards are unknown, before the flop: fifteen cards to
    deal out of 52. *)
Definition fiveUnknownHands : Heap := [[]; []; []; []; []; []].

(** Five players whose cards are unknown, on a flop: twelve cards to deal
    out of 49. *)
Definition fiveUnknownHandsOnFlop : Heap := [[]; []; []; []; []; cardsOfString "Ts9s2h"].

(** ** Vocabulary of the further properties *)

(** The text [createCards] reads a card string as: ranks in upper case,
    suits in lower case. *)
Fixpoint canonical (s : string) : string :=
  match s with
  | String c0 (String c1 rest) => String (toUpperCase c0) (String (toLowerCase c1) (canonical rest))
  | _ => s
  end.

(** The number of [k]-element subsets of an [n]-element set, by Pascal's rule. *)
Fixpoint choose (n k : nat) : nat :=
  match k, n with
  | O, _ => 1
  | S _, O => 0
  | S k', S n' => choose n' k' + choose n' k
  end.

(** The arithmetic of the estimates on whole numbers, where nothing is
    rounded: the ordered ways divided by the number of orders, which is the
    binomial coefficient ([binomial_choose]). *)
Fixpoint factorialZ (n : nat) : Z :=
  match n with
  | O => 1
  | S n' => if (n <=? 1)%nat then 1 else Z.of_nat n * factorialZ n'
  end.

Fixpoint waysInOrderZ (k : nat) (ways n : Z) : Z :=
  match k with
  | O => ways
  | S k' => waysInOrderZ k' (ways * n) (n - 1)
  end.

Definition binomial (n : Z) (k : nat) : Z :=
  if (k =? 0)%nat then 1 else waysInOrderZ k 1 n / factorialZ k.

(** [a] may stand before [b] in a hand sorted by rank, high to low. *)
Definition rankAtLeast (a b : Card) : Prop := RANK_VALUES (rank b) <= RANK_VALUES (rank a).

(** The comparator of [sortCardsByRank]. *)
Definition byRank (a b : Card) : Z := RANK_VALUES (rank b) - RANK_VALUES (rank a).

(** The sum of the counts of a [Record<HandRank, number>]. *)
Definition countTotal (counts : list (HandRank * Q)) : Q :=
  fold_right Qplus 0%Q (snd <$> counts).

(** Twice the wins plus the ties, over all players, for the pair of counters
    [won] and [tied] that a calculator uses: what it divides by twice the
    number of scenarios. *)
Definition halfPoints (won tied : PlayerEquity -> nat) (results : list PlayerEquity) : nat :=
  sum_list ((fun p => 2 * won p + tied p)%nat <$> results).

(** [rout] is [rin] after [count] more scenarios have been tallied in the
    counters [won] and [tied]; the counters [won'] and [tied'] are the pair
    that the calculator does not use. *)
Definition tallied (won tied won' tied' : PlayerEquity -> nat)
    (rin : list PlayerEquity) (count : nat) (rout : list PlayerEquity) : Prop :=
  length rout = length rin
  ∧ (∀ i pin, rin !! i = Some pin ->
       ∃ pout, rout !! i = Some pout
               ∧ handIndex pout = handIndex pin
               ∧ won' pout = won' pin ∧ tied' pout = tied' pin
               ∧ (countTotal (handRankCounts pout)
                  == countTotal (handRankCounts pin) + inject_Z (Z.of_nat count))%Q
               ∧ (won pin <= won pout)%nat
               ∧ (tied pin <= tied pout)%nat
               ∧ (won pout + tied pout <= won pin + tied pin + count)%nat)
  ∧ (length rin = 2%nat ->
     halfPoints won tied rout = (halfPoints won tied rin + 2 * count)%nat).

(** What every iteration keeps: the evaluator and the number of hands. *)
Definition sameGame (ev : HandEvaluator) (n : nat) (w : World) : Prop :=
  evaluator (self w) = ev ∧ length (hands (self w)) = n.

(** The iterations a Monte Carlo calculation may run: the configured number,
    10000 when none is configured, 100000 when it is zero. *)
Definition effectiveIterations (o : CalculationOptions) : nat :=
  let configured := default 10000%nat (opt_iterations o) in
  if (configured =? 0)%nat then 100000%nat else configured.

(** An evaluation of a hand of [view] completed by dealing, on the board of
    [view] completed by dealing, with no card twice. *)
Definition fairDeal (view : list (list Card) * list Card) (e : list Card * list Card) : Prop :=
  NoDup (e.1 ++ e.2)
  ∧ (∃ handCards, handCards ∈ view.1 ∧ handCards `prefix_of` e.1)
  ∧ view.2 `prefix_of` e.2.

(** What every iteration of a simulation keeps: the calculator sees the
    cards [view] and the dead cards [dead], and every evaluation made so far
    was of a fair deal. *)
Definition dealing (view : list (list Card) * list Card) (dead : list Card) (w : World)
  : Prop :=
  wellFormed w ∧ viewOf w = view ∧ deadCards (self w) = dead
  ∧ Forall (fairDeal view) (evaluations w).

(** The cards of one rank, resp. one suit, in the order of the input. *)
Definition ofRank (r : Rank) (cards : list Card) : list Card :=
  filter (fun c => rank c = r) cards.
Definition ofSuit (s : Suit) (cards : list Card) : list Card :=
  filter (fun c => suit c = s) cards.

(** The cards hold an ace, a five, a four, a three and a two. *)
Definition holdsWheel (cards : list Card) : Prop :=
  ∀ r, r ∈ [ACE; FIVE; FOUR; THREE; TWO] -> r ∈ rank <$> cards.

(** The cards hold the five consecutive rank values from [high] down. *)
Definition holdsRun (cards : list Card) (high : Z) : Prop :=
  ∀ j, 0 <= j < 5 -> ∃ c, c ∈ cards ∧ RANK_VALUES (rank c) = high - j.

(** [a] stands before [b] in a list of ranks that strictly descends. *)
Definition rankAbove (a b : Rank) : Prop := RANK_VALUES b < RANK_VALUES a.

(** The category of five cards as a function of what the evaluator looks
    at: whether there is a flush, whether there is a straight, the ranks
    from high to low and the numbers of cards of each rank. *)
Definition categoryBy (flush straight : bool) (sortedRanks : list Rank) (counts : list nat)
  : HandRank :=
  if flush && bool_decide (sortedRanks = [ACE; KING; QUEEN; JACK; TEN]) then ROYAL_FLUSH
  else if flush && straight then STRAIGHT_FLUSH
  else if bool_decide (4%nat ∈ counts) then FOUR_OF_A_KIND
  else if bool_decide (3%nat ∈ counts) && bool_decide (2%nat ∈ counts) then FULL_HOUSE
  else if flush then FLUSH
  else if straight then STRAIGHT
  else if bool_decide (3%nat ∈ counts) then THREE_OF_A_KIND
  else if (length (filter (fun count => count = 2%nat) counts) =? 2)%nat then TWO_PAIR
  else if bool_decide (2%nat ∈ counts) then PAIR
  else HIGH_CARD.

(** The facade from which the calculator of world [w] is made: [calculateEquity]
    passes its hands, board, dead cards and variant to the constructor. *)
Definition facadeOf (w : World) : PokerEquityCalculator.PokerEquityCalculator :=
  PokerEquityCalculator.mkPokerEquityCalculator
    (cardsOf (heap w) <$> hands (self w)) (cardsOf (heap w) (board (self w)))
    (deadCards (self w)) (getVariant (evaluator (self w))).

(** ** Reasoning about stateful computations *)

Section Wp.
Context {S : Type}.

Lemma wp_run {A} (m : M S A) Q s r s' : wp m Q s -> m s = (r, s') -> Q r s'.
Proof. unfold wp. intros H Heq. by rewrite Heq in H. Qed.

Lemma wp_mono {A} (m : M S A) (Q Q' : Result A -> S -> Prop) s :
  (∀ r s', Q r s' -> Q' r s') -> wp m Q s -> wp m Q' s.
Proof. unfold wp. auto. Qed.

Lemma wp_conj {A} (m : M S A) (Q1 Q2 : Result A -> S -> Prop) s :
  wp m Q1 s -> wp m Q2 s -> wp m (fun r s' => Q1 r s' ∧ Q2 r s') s.
Proof. unfold wp. by destruct (m s). Qed.

Lemma wp_ret {A} (a : A) Q (s : S) : Q (Ok a) s -> wp (ret a) Q s.
Proof. done. Qed.

Lemma wp_throw {A} e (Q : Result A -> S -> Prop) s : Q (Throw e) s -> wp (throw e) Q s.
Proof. done. Qed.

Lemma wp_gets {A} (f : S -> A) Q s : Q (Ok (f s)) s -> wp (gets f) Q s.
Proof. done. Qed.

Lemma wp_modify (f : S -> S) Q s : Q (Ok tt) (f s) -> wp (modify f) Q s.
Proof. done. Qed.

Lemma wp_liftR {A} (r : Result A) Q (s : S) : Q r s -> wp (liftR r) Q s.
Proof. done. Qed.

Lemma wp_bind {A B} (m : M S A) (k : A -> M S B) Q s :
  wp m (fun r s' => match r with
                    | Ok a => wp (k a) Q s'
                    | Throw e => Q (Throw e) s'
                    end) s ->
  wp (bind m k) Q s.
Proof. unfold wp, bind. destruct (m s) as [[a|e] s']; done. Qed.

(** Loops: an invariant [I] on the carried value and the state, and a
    condition [E] that holds whenever the body throws. *)
Lemma wp_foldM {A B} (body : B -> A -> M S B) (I : B -> S -> Prop)
    (E : Error -> S -> Prop) (l : list A) : ∀ b s,
  I b s ->
  (∀ b x s, x ∈ l -> I b s -> wp (body b x) (post I E) s) ->
  wp (foldM body l b) (post I E) s.
Proof.
  induction l as [|x l IH]; intros b s HI Hbody; [done|].
  cbn [foldM]. apply wp_bind.
  eapply wp_mono; [|apply Hbody; [apply list_elem_of_here | done]].
  intros [b'|e] s' H; [|done]. apply IH; [done|].
  intros b0 x0 s0 Hin. apply Hbody. by apply list_elem_of_further.
Qed.

Lemma wp_forEach {A} (body : A -> M S unit) (I : S -> Prop)
    (E : Error -> S -> Prop) (l : list A) : ∀ s,
  I s ->
  (∀ x s, x ∈ l -> I s -> wp (body x) (post (fun _ => I) E) s) ->
  wp (forEach l body) (post (fun _ => I) E) s.
Proof.
  induction l as [|x l IH]; intros s HI Hbody; [done|].
  cbn [forEach]. apply wp_bind.
  eapply wp_mono; [|apply Hbody; [apply list_elem_of_here | done]].
  intros [[]|e] s' H; [|done]. apply IH; [done|].
  intros x0 s0 Hin. apply Hbody. by apply list_elem_of_further.
Qed.

Lemma bind_ok {A B} (m : M S A) (k : A -> M S B) s a s' :
  m s = (Ok a, s') -> bind m k s = k a s'.
Proof. unfold bind. by intros ->. Qed.

End Wp.

Section ThrowsOnly.
Context {S : Type} (I : S -> Prop) (P : Error -> Prop).








End ThrowsOnly.

(** Reading does not change the world. *)
Lemma mapM_readCards (l : list nat) (w : World) :
  mapM readCards l w = (Ok (cardsOf (heap w) <$> l), w).
Proof.
  induction l as [|x l IH]; [done|].
  cbn [mapM]. erewrite bind_ok by reflexivity. erewrite bind_ok by exact IH. done.
Qed.

Lemma getUsedCards_run (w : World) : getUsedCards w = (Ok (usedCardsOf w), w).
Proof.
  unfold getUsedCards.
  erewrite bind_ok by reflexivity. erewrite bind_ok by reflexivity.
  erewrite bind_ok by apply mapM_readCards. done.
Qed.

Lemma createDeckWithoutUsedCards_run w :
  createDeckWithoutUsedCards w = (Ok (removeCards fullDeck (usedCardsOf w)), w).
Proof.
  unfold createDeckWithoutUsedCards. by rewrite (bind_ok _ _ _ _ _ (getUsedCards_run w)).
Qed.

Lemma wp_readCards obj Q w : Q (Ok (cardsOf (heap w) obj)) w -> wp (readCards obj) Q w.
Proof. done. Qed.

Lemma wp_mapM_readCards l Q w :
  Q (Ok (cardsOf (heap w) <$> l)) w -> wp (mapM readCards l) Q w.
Proof. unfold wp. by rewrite mapM_readCards. Qed.

Lemma wp_createDeckWithoutUsedCards Q w :
  Q (Ok (removeCards fullDeck (usedCardsOf w))) w -> wp createDeckWithoutUsedCards Q w.
Proof. unfold wp. by rewrite createDeckWithoutUsedCards_run. Qed.

Lemma wp_createInitialPlayerEquities Q w :
  Q (Ok (imap (fun index _ => mkPlayerEquity index 0 0 0 0 0 [] []) (hands (self w)))) w ->
  wp createInitialPlayerEquities Q w.
Proof. done. Qed.

Lemma cardsOf_insert (h : Heap) (obj obj' : nat) (cards : list Card) :
  cardsOf (<[obj := cards]> h) obj'
  = if decide (obj = obj' ∧ (obj < length h)%nat) then cards else cardsOf h obj'.
Proof.
  unfold cardsOf, Heap in *.
  rewrite (list_lookup_insert h obj obj' cards). by case_decide.
Qed.

Lemma heap_length_insert (h : Heap) (obj : nat) (cards : list Card) :
  length (<[obj := cards]> h) = length h.
Proof. unfold Heap in *. apply length_insert. Qed.

(** Membership in an explicit list. *)
Ltac find_card := repeat first [apply list_elem_of_here | apply list_elem_of_further].

(** ** The evaluators *)

Lemma generateCombinations_length cards : ∀ k combo,
  combo ∈ generateCombinations cards k -> length combo = k.
Proof.
  induction cards as [|first rest IH]; intros [|k'] combo Hin.
  - apply list_elem_of_singleton in Hin. by subst.
  - inversion Hin.
  - apply list_elem_of_singleton in Hin. by subst.
  - cbn [generateCombinations] in Hin.
    destruct (length (first :: rest) <? S k')%nat; [inversion Hin|].
    apply elem_of_app in Hin as [Hin|Hin].
    + apply list_elem_of_fmap in Hin as (combo' & -> & Hin). simpl. f_equal. by apply IH.
    + by apply IH.
Qed.

(** The five-card scorer accepts every five cards, the same card twice
    included. *)
Lemma evaluateSingleHand_total cards :
  length cards = 5%nat -> ∃ e, evaluateSingleHand cards = Ok e.
Proof.
  intros Hlen. unfold evaluateSingleHand. rewrite Hlen. cbn [Nat.eqb negb].
  match goal with |- ∃ e, (let '(_, _) := ?X in _) = _ => destruct X as [handRank valueCards] end.
  eauto.
Qed.

Lemma bestOf_total evalOne combinations : ∀ bestHand,
  (∀ combo, combo ∈ combinations -> ∃ e, evalOne combo = Ok e) ->
  ∃ e, bestOf evalOne combinations bestHand = Ok e.
Proof.
  induction combinations as [|combo rest IH]; intros bestHand Hall; simpl; [eauto|].
  destruct (Hall combo) as [e ->]; [apply list_elem_of_here|].
  apply IH. intros combo' Hin. apply Hall. by apply list_elem_of_further.
Qed.

Lemma holdemEvaluate_total holeCards boardCards :
  (5 <= length holeCards + length boardCards)%nat ->
  ∃ e, holdemEvaluate holeCards boardCards = Ok e.
Proof.
  intros Hlen. unfold holdemEvaluate. rewrite length_app.
  destruct (Nat.ltb_spec (length holeCards + length boardCards) 5); [lia|].
  apply bestOf_total. intros combo Hin.
  apply evaluateSingleHand_total. by apply generateCombinations_length in Hin.
Qed.

(** What the evaluators throw. *)
Lemma evaluateSingleHand_throws cards e :
  evaluateSingleHand cards = Throw e -> isEvaluatorError e.
Proof.
  unfold evaluateSingleHand. destruct (negb _); [by intros [= <-]|].
  match goal with |- (let '(_, _) := ?X in _) = _ -> _ => destruct X end. done.
Qed.

Lemma bestOf_throws evalOne combinations : ∀ bestHand e,
  bestOf evalOne combinations bestHand = Throw e -> ∃ combo, evalOne combo = Throw e.
Proof.
  induction combinations as [|combo rest IH]; intros bestHand e; simpl; [done|].
  destruct (evalOne combo) eqn:E; [apply IH | intros [= <-]; eauto].
Qed.

Lemma holdemEvaluate_throws holeCards boardCards e :
  holdemEvaluate holeCards boardCards = Throw e -> isEvaluatorError e.
Proof.
  unfold holdemEvaluate. destruct (_ <? _)%nat; [by intros [= <-]|].
  intros H. apply bestOf_throws in H as [combo H]. by eapply evaluateSingleHand_throws.
Qed.

Lemma omahaEvaluate_throws holeCards boardCards e :
  omahaEvaluate holeCards boardCards = Throw e -> isEvaluatorError e.
Proof.
  unfold omahaEvaluate. destruct (negb _); [by intros [= <-]|].
  destruct (_ <? _)%nat; [by intros [= <-]|].
  set (good := fun r : Result EvaluatedHand => ∀ e, r = Throw e -> isEvaluatorError e).
  assert (Hinner : ∀ holeCombo boardCombinations best, good best ->
    good (fold_left (fun best boardCombo =>
            rbind best (fun bestHand =>
            rbind (holdemEvaluate holeCombo boardCombo) (fun evaluated =>
            Ok (if eh_value bestHand <? eh_value evaluated then evaluated else bestHand))))
          boardCombinations best)).
  { intros holeCombo boardCombinations.
    induction boardCombinations as [|bc rest IH]; intros best Hbest; [done|].
    cbn [fold_left]. apply IH. intros e'. destruct best as [bestHand|e0]; cbn.
    - destruct (holdemEvaluate holeCombo bc) eqn:E; cbn; [done|].
      intros [= <-]. by eapply holdemEvaluate_throws.
    - apply Hbest. }
  assert (Houter : ∀ holeCombinations boardCombinations best, good best ->
    good (fold_left (fun best holeCombo =>
            fold_left (fun best boardCombo =>
              rbind best (fun bestHand =>
              rbind (holdemEvaluate holeCombo boardCombo) (fun evaluated =>
              Ok (if eh_value bestHand <? eh_value evaluated then evaluated else bestHand))))
            boardCombinations best)
          holeCombinations best)).
  { intros holeCombinations boardCombinations.
    induction holeCombinations as [|hc rest IH]; intros best Hbest; [done|].
    cbn [fold_left]. apply IH. by apply Hinner. }
  apply Houter. done.
Qed.


Lemma getEvaluator_throws variant ev holeCards boardCards e :
  getEvaluator variant = Ok ev ->
  evaluate ev holeCards boardCards = Throw e -> isEvaluatorError e.
Proof.
  destruct variant; intros [= <-]; cbn.
  - apply holdemEvaluate_throws.
  - apply omahaEvaluate_throws.
Qed.

Lemma getEvaluator_variant variant ev :
  getEvaluator variant = Ok ev -> getVariant ev = variant.
Proof. by destruct variant; intros [= <-]. Qed.

(** Enumerating the hands over five ranks. *)
Lemma suitLists_complete (l : list Suit) : l ∈ suitLists (length l).
Proof.
  induction l as [|s l IH]; [by apply list_elem_of_ret|].
  change (suitLists (length (s :: l)))
    with (s ← allSuits; l ← suitLists (length l); [s :: l]).
  apply list_elem_of_bind. exists s. split.
  - apply list_elem_of_bind. exists l. split; [by apply list_elem_of_ret | exact IH].
  - destruct s; unfold allSuits; rewrite !elem_of_cons; auto 6.
Qed.

Lemma card_zip (cards : list Card) :
  zip_with mkCard (rank <$> cards) (suit <$> cards) = cards.
Proof. induction cards as [|[r s] l IH]; [reflexivity | cbn; f_equal; exact IH]. Qed.

Lemma allHandsOver_spec ranks p cards :
  allHandsOver ranks p = true -> rank <$> cards ≡ₚ ranks -> p cards = true.
Proof.
  intros Hall Hperm. unfold allHandsOver in Hall.
  rewrite forallb_forall in Hall.
  assert (Hin : In (rank <$> cards) (permutations ranks)).
  { apply list_elem_of_In, permutations_Permutation. by symmetry. }
  specialize (Hall _ Hin). rewrite forallb_forall in Hall.
  assert (Hs : In (suit <$> cards) (suitLists (length ranks))).
  { apply list_elem_of_In. rewrite <- (Permutation_length Hperm), length_fmap.
    rewrite <- (length_fmap suit). apply suitLists_complete. }
  specialize (Hall _ Hs). by rewrite card_zip in Hall.
Qed.

Lemma scoresStraight_spec v cards :
  scoresStraight v cards = true -> sameSuit cards = false ->
  ∃ e, evaluateSingleHand cards = Ok e ∧ eh_rank e = STRAIGHT ∧ eh_value e = v.
Proof.
  unfold scoresStraight. intros H Hns. rewrite Hns in H. cbn in H.
  destruct (evaluateSingleHand cards) as [e|]; [|done].
  apply andb_true_iff in H as [H1 H2].
  apply bool_decide_eq_true in H1. apply Z.eqb_eq in H2. eauto.
Qed.

Lemma wheel_scores :
  allHandsOver [ACE; TWO; THREE; FOUR; FIVE] (scoresStraight 1445040302) = true.
Proof. vm_compute. reflexivity. Qed.

Lemma sixHigh_scores :
  allHandsOver [SIX; TWO; THREE; FOUR; FIVE] (scoresStraight 645040302) = true.
Proof. vm_compute. reflexivity. Qed.

(** C1 fails on the code. A pair of twos (category 1) is scored 514030202
    and an ace-high hand without a pair (category 0) is scored 1413121109:
    the category is multiplied by 10^7 while the first card alone weighs up
    to 14 * 10^8. The comparator of the evaluators, which looks at the
    category first, prefers the pair; the tally, which looks at the value
    only, gives the scenario to the high card. *)
Theorem C1_pair_scores_below_high_card :
  let pair := mkEvaluated PAIR 514030202 "Pair of Twos" in
  let highCard := mkEvaluated HIGH_CARD 1413121109 "High Card, Ace" in
  evaluateSingleHand (cardsOfString "2s2h3d4c5s") = Ok pair
  ∧ evaluateSingleHand (cardsOfString "AhKdQcJs9h") = Ok highCard
  ∧ handRankValue (eh_rank highCard) < handRankValue (eh_rank pair)
  ∧ eh_value pair < eh_value highCard
  ∧ compareHands pair highCard = 1
  ∧ holdemEvaluate (cardsOfString "2s2h") (cardsOfString "3d4c9sJc7h")
    = Ok (mkEvaluated PAIR 1119070202 "Pair of Twos")
  ∧ holdemEvaluate (cardsOfString "AhKd") (cardsOfString "3d4c9sJc7h")
    = Ok (mkEvaluated HIGH_CARD 1413110907 "High Card, Ace")
  ∧ ∃ res, outcome (runExhaustive pairAgainstHighCard [0; 1]%nat 2%nat [] TEXAS_HOLDEM
                      noOptions) = Ok res
           ∧ winsCount <$> playerResults res = [0; 1]%nat
           ∧ equity <$> playerResults res = [0; 1]%Q.
Proof.
  cbv zeta. repeat split; try (vm_compute; reflexivity).
  eexists. split; [vm_compute; reflexivity|]. split; reflexivity.
Qed.

(** C2 fails on the code, on every wheel and every six-high straight. The
    value of a wheel is 1445040302 and that of a six-high straight is
    645040302: the ace of the wheel is weighed as the highest card. *)
Theorem C2_wheel_outscores_six_high_straight (wheel sixHigh : list Card) :
  rank <$> wheel ≡ₚ [ACE; TWO; THREE; FOUR; FIVE] -> sameSuit wheel = false ->
  rank <$> sixHigh ≡ₚ [SIX; TWO; THREE; FOUR; FIVE] -> sameSuit sixHigh = false ->
  ∃ ew es, evaluateSingleHand wheel = Ok ew ∧ evaluateSingleHand sixHigh = Ok es
           ∧ eh_rank ew = STRAIGHT ∧ eh_rank es = STRAIGHT
           ∧ eh_value ew = 1445040302 ∧ eh_value es = 645040302
           ∧ eh_value es < eh_value ew.
Proof.
  intros Hw Hws Hs Hss.
  destruct (scoresStraight_spec _ _ (allHandsOver_spec _ _ _ wheel_scores Hw) Hws)
    as (ew & Hew & Hrw & Hvw).
  destruct (scoresStraight_spec _ _ (allHandsOver_spec _ _ _ sixHigh_scores Hs) Hss)
    as (es & Hes & Hrs & Hvs).
  exists ew, es. repeat split; try done. lia.
Qed.

Lemma C2_witness :
  ∃ ew es, evaluateSingleHand (cardsOfString "Ah2d3c4s5h") = Ok ew
           ∧ evaluateSingleHand (cardsOfString "6h2d3c4s5h") = Ok es
           ∧ eh_rank ew = STRAIGHT ∧ eh_rank es = STRAIGHT
           ∧ eh_value ew = 1445040302 ∧ eh_value es = 645040302
           ∧ eh_value es < eh_value ew.
Proof.
  apply (C2_wheel_outscores_six_high_straight
           (cardsOfString "Ah2d3c4s5h") (cardsOfString "6h2d3c4s5h"));
    reflexivity.
Defined.

(** C9 fails on the code. With hole cards Qs 2s, the board Qh 2h 2d 2c gives
    a full house and the same board in the order 2h 2d 2c Qh gives four of a
    kind: both five-card hands are scored 1272020202 and [evaluate] keeps
    the first one it meets. The value is the same for both orders; the
    category and the description are not. *)
Theorem C9_board_order_changes_category :
  holdemEvaluate (cardsOfString "Qs2s") (cardsOfString "Qh2h2d2c")
  = Ok (mkEvaluated FULL_HOUSE 1272020202 "Full House, Twos full of Queens")
  ∧ holdemEvaluate (cardsOfString "Qs2s") (cardsOfString "2h2d2cQh")
    = Ok (mkEvaluated FOUR_OF_A_KIND 1272020202 "Four of a Kind, Twos with Queen kicker")
  ∧ cardsOfString "2h2d2cQh" ≡ₚ cardsOfString "Qh2h2d2c".
Proof.
  split; [vm_compute; reflexivity|]. split; [vm_compute; reflexivity|].
  change (cardsOfString "2h2d2cQh") with (cardsOfString "2h2d2c" ++ cardsOfString "Qh").
  change (cardsOfString "Qh2h2d2c") with (cardsOfString "Qh" ++ cardsOfString "2h2d2c").
  apply Permutation_app_comm.
Qed.

(** What [evaluateHand] throws: never one of the errors of [validateHands]. *)
Lemma createCard_throws cardStr e : createCard cardStr = Throw e -> namedCard e = None.
Proof.
  unfold createCard. repeat case_match; by intros [= <-].
Qed.

Lemma createCardsFrom_throws rest : ∀ i e,
  createCardsFrom i rest = Throw e -> namedCard e = None.
Proof.
  induction rest as [rest IH] using (well_founded_induction
                                       (well_founded_ltof _ String.length)).
  intros i e. destruct rest as [|c0 [|c1 rest']]; cbn [createCardsFrom]; [done| by intros [= <-] |].
  destruct (createCard _) as [card|e'] eqn:Ecard; cbn [rbind].
  - destruct (createCardsFrom (i + 2) rest') as [cards|e'] eqn:Erest; cbn [rbind]; [done|].
    intros [= <-]. eapply IH; [|exact Erest]. unfold ltof. cbn. lia.
  - intros [= <-]. by eapply createCard_throws.
Qed.

Lemma createHand_throws handStr variant e :
  createHand handStr variant = Throw e -> namedCard e = None.
Proof.
  unfold createHand. destruct handStr as [|c rest]; [done|].
  destruct (createCards _) as [cards|e'] eqn:Ecards; cbn [rbind].
  - unfold validateHand. repeat case_match; cbn [rbind]; by intros [= <-].
  - intros [= <-]. by eapply createCardsFrom_throws.
Qed.

Lemma evaluateHand_throws gameVariant boardCards handStr e :
  evaluateHand gameVariant boardCards handStr = Throw e -> namedCard e = None.
Proof.
  unfold evaluateHand.
  destruct (createHand _ _) as [handCards|e'] eqn:Ehand; cbn [rbind];
    [|intros [= <-]; by eapply createHand_throws].
  destruct (getEvaluator _) as [ev|e'] eqn:Eev; cbn [rbind].
  - intros Hthrow. apply (getEvaluator_throws _ _ _ _ _ Eev) in Hthrow. by destruct e.
  - intros [= <-]. destruct gameVariant; cbn in Eev; by simplify_eq.
Qed.

(** C10: with the Hold'em variant, [evaluateHand] returns an evaluated hand
    for every hand string that [createHand] accepts and every board, as soon
    as the hole cards and the board cards are five or more together; no
    condition relates the cards of the hand to those of the board, and by
    [evaluateHand_throws] none of the errors of [validateHands] can come out
    of it. *)
Theorem C10_evaluateHand_never_checks_the_board (handStr : string)
    (boardCards holeCards : list Card) :
  createHand handStr TEXAS_HOLDEM = Ok holeCards ->
  (5 <= length holeCards + length boardCards)%nat ->
  ∃ e, evaluateHand TEXAS_HOLDEM boardCards handStr = Ok e.
Proof.
  intros Hhand Hlen. unfold evaluateHand. rewrite Hhand. simpl.
  by apply holdemEvaluate_total.
Qed.

Lemma C10_witness :
  mkCard ACE SPADES ∈ cardsOfString "AsKs" ∧ mkCard ACE SPADES ∈ cardsOfString "AsQdJc"
  ∧ ∃ e, evaluateHand TEXAS_HOLDEM (cardsOfString "AsQdJc") "AsKs" = Ok e.
Proof.
  split; [vm_compute; find_card|].
  split; [vm_compute; find_card|].
  apply (C10_evaluateHand_never_checks_the_board
           "AsKs" (cardsOfString "AsQdJc") (cardsOfString "AsKs"));
    [reflexivity | vm_compute; lia].
Defined.

(** ** Building a calculator *)

Lemma isCardInArray_spec card cards : isCardInArray card cards = true ↔ card ∈ cards.
Proof.
  unfold isCardInArray. rewrite existsb_exists. split.
  - intros (c & Hin & Heq). unfold areCardsEqual in Heq.
    apply andb_true_iff in Heq as [Hr Hs].
    apply bool_decide_eq_true in Hr, Hs. apply list_elem_of_In in Hin.
    destruct c, card; cbn in *; by subst.
  - intros Hin. exists card. split; [by apply list_elem_of_In|].
    unfold areCardsEqual. by rewrite !bool_decide_eq_true_2.
Qed.

Lemma isCardInArray_false card cards : isCardInArray card cards = false ↔ card ∉ cards.
Proof.
  rewrite <- isCardInArray_spec. by destruct (isCardInArray card cards).
Qed.

Lemma existsb_isCardInArray card (lists : list (list Card)) :
  existsb (isCardInArray card) lists = true ↔ card ∈ concat lists.
Proof.
  rewrite existsb_exists. split.
  - intros (l & Hin & Hc). apply isCardInArray_spec in Hc.
    apply list_elem_of_In, in_concat. exists l. split; [done | by apply list_elem_of_In].
  - intros Hin. apply list_elem_of_In, in_concat in Hin as (l & Hin & Hc).
    exists l. split; [done | by apply isCardInArray_spec, list_elem_of_In].
Qed.

(** A scan whose step either rejects the card or records it. *)
Section Scan.
Context {A : Type} (inj : A -> list Card)
        (step : list Card -> A -> Result (list Card)).
Hypothesis step_ok : ∀ seen x seen', step seen x = Ok seen' -> seen' = seen ++ inj x.

Lemma scan_ok l : ∀ seen seen',
  scan step l seen = Ok seen' -> seen' = seen ++ concat (inj <$> l).
Proof.
  induction l as [|x l IH]; intros seen seen'; cbn.
  - intros [= <-]. by rewrite app_nil_r.
  - destruct (step seen x) as [s|] eqn:E; cbn; [|done].
    intros H. apply IH in H. apply step_ok in E. subst. by rewrite <- app_assoc.
Qed.

(** Where a scan stops: after a prefix that was recorded. *)
Lemma scan_throw l : ∀ seen e,
  scan step l seen = Throw e ->
  ∃ pre x post, l = pre ++ x :: post ∧ step (seen ++ concat (inj <$> pre)) x = Throw e.
Proof.
  induction l as [|x l IH]; intros seen e; cbn; [done|].
  destruct (step seen x) as [s|e'] eqn:E; cbn.
  - intros H. apply IH in H as (pre & y & post & -> & Hstep).
    apply step_ok in E. subst s.
    exists (x :: pre), y, post. split; [done|]. cbn. by rewrite app_assoc.
  - intros [= <-]. exists [], x, l. split; [done|]. cbn. by rewrite app_nil_r.
Qed.

(** A scan that ran to its end rejected nothing. *)
Lemma scan_ok_steps l : ∀ seen seen' pre x post,
  scan step l seen = Ok seen' -> l = pre ++ x :: post ->
  ∃ s, step (seen ++ concat (inj <$> pre)) x = Ok s.
Proof.
  induction l as [|y l IH]; intros seen seen' pre x post; cbn.
  - intros _ H. by destruct pre.
  - destruct (step seen y) as [s|] eqn:E; cbn; [|done].
    intros H Hl. destruct pre as [|p pre]; cbn in Hl.
    + injection Hl as -> ->. cbn. rewrite app_nil_r. eauto.
    + injection Hl as -> ->. apply step_ok in E. subst s.
      destruct (IH _ _ _ _ _ H eq_refl) as [s Hs]. exists s. cbn. by rewrite app_assoc.
Qed.
End Scan.

Lemma checkBoardCard_ok dead handsCards seen card seen' :
  checkBoardCard dead handsCards seen card = Ok seen' -> seen' = seen ++ [card].
Proof. unfold checkBoardCard. repeat case_match; congruence. Qed.

Lemma checkDeadCard_ok handsCards seen card seen' :
  checkDeadCard handsCards seen card = Ok seen' -> seen' = seen ++ [card].
Proof. unfold checkDeadCard. repeat case_match; congruence. Qed.

Lemma checkHandCard_ok seen card seen' :
  checkHandCard seen card = Ok seen' -> seen' = seen ++ [card].
Proof. unfold checkHandCard. repeat case_match; congruence. Qed.

Lemma concat_singletons {A} (l : list A) : concat ((fun x => [x]) <$> l) = l.
Proof. induction l as [|x l IH]; [done|]. cbn. by rewrite IH. Qed.

Lemma scan_hand_ok seen handCards seen' :
  scan checkHandCard handCards seen = Ok seen' -> seen' = seen ++ handCards.
Proof.
  intros H. apply (scan_ok (fun x => [x]) _ checkHandCard_ok) in H.
  by rewrite concat_singletons in H.
Qed.

Lemma validateHands_run this (h : Heap) :
  validateHands this h
  = (validateCards (cardsOf h (board this)) (deadCards this) (cardsOf h <$> hands this), h).
Proof. reflexivity. Qed.

Lemma occurrences_app c l1 l2 :
  occurrences c (l1 ++ l2) = (occurrences c l1 + occurrences c l2)%nat.
Proof. unfold occurrences. by rewrite filter_app, length_app. Qed.

Lemma occurrences_cons_eq c l : occurrences c (c :: l) = S (occurrences c l).
Proof. unfold occurrences. by rewrite filter_cons_True. Qed.

Lemma occurrences_elem c l : c ∈ l -> (1 <= occurrences c l)%nat.
Proof.
  intros Hin. apply list_elem_of_split in Hin as (l1 & l2 & ->).
  rewrite occurrences_app, occurrences_cons_eq. lia.
Qed.

Lemma occurrences_not_elem c l : c ∉ l -> occurrences c l = 0%nat.
Proof.
  induction l as [|x l IH]; [done|]. intros Hnin.
  apply not_elem_of_cons in Hnin as [Hne Hnin]. unfold occurrences in *.
  rewrite filter_cons_False by congruence. by apply IH.
Qed.

Lemma occurrences_NoDup c l : NoDup l -> (occurrences c l <= 1)%nat.
Proof.
  induction 1 as [|x l Hx Hnd IH]; [cbn; lia|].
  destruct (decide (x = c)) as [->|Hne].
  - rewrite occurrences_cons_eq, occurrences_not_elem by done. lia.
  - unfold occurrences in *. by rewrite filter_cons_False.
Qed.

Lemma occurrences_concat_two c (lists : list (list Card)) i j li lj :
  i ≠ j -> lists !! i = Some li -> lists !! j = Some lj -> c ∈ li -> c ∈ lj ->
  (2 <= occurrences c (concat lists))%nat.
Proof.
  revert i j. induction lists as [|l lists IH]; intros i j Hne Hi Hj Hci Hcj; [done|].
  cbn [concat]. rewrite occurrences_app.
  destruct i as [|i], j as [|j]; cbn in Hi, Hj; try done.
  - injection Hi as ->. apply occurrences_elem in Hci.
    assert (c ∈ concat lists) as Hin.
    { apply list_elem_of_In, in_concat. exists lj.
      split; apply list_elem_of_In; [by eapply list_elem_of_lookup_2 | done]. }
    apply occurrences_elem in Hin. lia.
  - injection Hj as ->. apply occurrences_elem in Hcj.
    assert (c ∈ concat lists) as Hin.
    { apply list_elem_of_In, in_concat. exists li.
      split; apply list_elem_of_In; [by eapply list_elem_of_lookup_2 | done]. }
    apply occurrences_elem in Hin. lia.
  - assert (Hij : i ≠ j) by congruence. specialize (IH i j Hij Hi Hj Hci Hcj). lia.
Qed.

Lemma elem_of_concat_lookup c (lists : list (list Card)) i li :
  lists !! i = Some li -> c ∈ li -> c ∈ concat lists.
Proof.
  intros Hi Hc. apply list_elem_of_In, in_concat. exists li.
  split; apply list_elem_of_In; [by eapply list_elem_of_lookup_2 | done].
Qed.

Lemma sharedCard_occurrences h hs b dead c :
  sharedCard h hs b dead c -> (2 <= occurrences c (allCardsOf h hs b dead))%nat.
Proof.
  unfold allCardsOf. rewrite !occurrences_app.
  intros [(i & j & hi & hj & Hne & Hi & Hj & Hci & Hcj)
         |[(i & hi & Hi & Hc & Hb)|[(i & hi & Hi & Hc & Hd)|[Hb Hd]]]].
  - pose proof (occurrences_concat_two c (cardsOf h <$> hs) i j (cardsOf h hi) (cardsOf h hj) Hne) as H.
    rewrite !list_lookup_fmap, Hi, Hj in H. specialize (H eq_refl eq_refl Hci Hcj). lia.
  - apply occurrences_elem in Hb.
    assert (c ∈ concat (cardsOf h <$> hs)) as Hin.
    { eapply elem_of_concat_lookup; [|exact Hc]. by rewrite list_lookup_fmap, Hi. }
    apply occurrences_elem in Hin. lia.
  - apply occurrences_elem in Hd.
    assert (c ∈ concat (cardsOf h <$> hs)) as Hin.
    { eapply elem_of_concat_lookup; [|exact Hc]. by rewrite list_lookup_fmap, Hi. }
    apply occurrences_elem in Hin. lia.
  - apply occurrences_elem in Hb, Hd. lia.
Qed.

(** The scans accept only when no card of the calculator is repeated. *)
Lemma scan_NoDup (step : list Card -> Card -> Result (list Card)) l seen seen' :
  (∀ s x s', step s x = Ok s' -> s' = s ++ [x] ∧ x ∉ s) ->
  NoDup seen -> scan step l seen = Ok seen' -> NoDup (seen ++ l).
Proof.
  intros Hstep. revert seen. induction l as [|x l IH]; intros seen Hnd; cbn.
  - intros _. by rewrite app_nil_r.
  - destruct (step seen x) as [s|] eqn:E; cbn; [|done].
    apply Hstep in E as [-> Hx]. intros H. apply IH in H.
    + by rewrite <- app_assoc in H.
    + apply NoDup_app. split; [done|]. split; [|apply NoDup_singleton].
      intros y Hy Hy'. apply list_elem_of_singleton in Hy'. by subst.
Qed.

Lemma scan_hands_concat handsCards : ∀ seen,
  scan (fun seen handCards => scan checkHandCard handCards seen) handsCards seen
  = scan checkHandCard (concat handsCards) seen.
Proof.
  induction handsCards as [|l ls IH]; intros seen; [done|].
  cbn [scan concat].
  assert (Happ : ∀ l1 l2 s, scan checkHandCard (l1 ++ l2) s
                 = rbind (scan checkHandCard l1 s) (scan checkHandCard l2)).
  { induction l1 as [|x l1 IH1]; intros l2 s; [done|].
    cbn. destruct (checkHandCard s x); cbn; [apply IH1 | done]. }
  rewrite Happ. destruct (scan checkHandCard l seen); cbn; [apply IH | done].
Qed.

Lemma validateCards_ok boardCards dead handsCards :
  validateCards boardCards dead handsCards = Ok tt ->
  NoDup (boardCards ++ dead ++ concat handsCards).
Proof.
  unfold validateCards.
  destruct (scan (checkBoardCard dead handsCards) boardCards []) as [s1|] eqn:E1; cbn; [|done].
  destruct (scan (checkDeadCard handsCards) dead s1) as [s2|] eqn:E2; cbn; [|done].
  rewrite scan_hands_concat.
  destruct (scan checkHandCard (concat handsCards) s2) as [s3|] eqn:E3; cbn; [|done].
  intros _.
  pose proof (scan_ok (fun x => [x]) _ (checkBoardCard_ok dead handsCards) _ _ _ E1) as H1.
  pose proof (scan_ok (fun x => [x]) _ (checkDeadCard_ok handsCards) _ _ _ E2) as H2.
  rewrite concat_singletons in H1, H2. cbn in H1. subst s1 s2.
  apply scan_NoDup in E1; [|..|apply NoDup_nil_2].
  2:{ intros s x s'. unfold checkBoardCard. repeat case_match; try done.
      intros [= <-]. split; [done|]. by apply isCardInArray_false. }
  apply scan_NoDup in E2; [|..|exact E1].
  2:{ intros s x s'. unfold checkDeadCard. repeat case_match; try done.
      intros [= <-]. split; [done|]. by apply isCardInArray_false. }
  apply scan_NoDup in E3; [|..|exact E2].
  2:{ intros s x s'. unfold checkHandCard. repeat case_match; try done.
      intros [= <-]. split; [done|]. by apply isCardInArray_false. }
  by rewrite <- app_assoc in E3.
Qed.

(** What a rejection names: a card that occurs twice. *)
Lemma validateCards_throw boardCards dead handsCards e :
  validateCards boardCards dead handsCards = Throw e ->
  ∃ c, namedCard e = Some c
       ∧ (2 <= occurrences c (boardCards ++ dead ++ concat handsCards))%nat.
Proof.
  unfold validateCards.
  destruct (scan (checkBoardCard dead handsCards) boardCards []) as [s1|e1] eqn:E1; cbn.
  2:{ intros [= <-].
      apply (scan_throw (fun x => [x]) _ (checkBoardCard_ok dead handsCards)) in E1
        as (pre & x & post & -> & Hstep).
      rewrite concat_singletons in Hstep. cbn in Hstep.
      exists x. unfold checkBoardCard in Hstep.
      rewrite !occurrences_app, occurrences_cons_eq.
      destruct (isCardInArray x dead) eqn:Hd.
      { injection Hstep as <-. split; [done|].
        apply isCardInArray_spec, occurrences_elem in Hd. lia. }
      destruct (existsb (isCardInArray x) handsCards) eqn:Hh.
      { injection Hstep as <-. split; [done|].
        apply existsb_isCardInArray, occurrences_elem in Hh. lia. }
      destruct (isCardInArray x pre) eqn:Hp; [|done].
      injection Hstep as <-. split; [done|].
      apply isCardInArray_spec, occurrences_elem in Hp. lia. }
  pose proof (scan_ok (fun x => [x]) _ (checkBoardCard_ok dead handsCards) _ _ _ E1) as H1.
  rewrite concat_singletons in H1. cbn in H1. subst s1.
  destruct (scan (checkDeadCard handsCards) dead boardCards) as [s2|e2] eqn:E2; cbn.
  2:{ intros [= <-].
      apply (scan_throw (fun x => [x]) _ (checkDeadCard_ok handsCards)) in E2
        as (pre & x & post & -> & Hstep).
      rewrite concat_singletons in Hstep.
      exists x. unfold checkDeadCard in Hstep.
      rewrite !occurrences_app, occurrences_cons_eq.
      destruct (existsb (isCardInArray x) handsCards) eqn:Hh.
      { injection Hstep as <-. split; [done|].
        apply existsb_isCardInArray, occurrences_elem in Hh. lia. }
      destruct (isCardInArray x (boardCards ++ pre)) eqn:Hp; [|done].
      injection Hstep as <-. split; [done|].
      apply isCardInArray_spec, occurrences_elem in Hp.
      rewrite occurrences_app in Hp. lia. }
  pose proof (scan_ok (fun x => [x]) _ (checkDeadCard_ok handsCards) _ _ _ E2) as H2.
  rewrite concat_singletons in H2. subst s2.
  rewrite scan_hands_concat.
  destruct (scan checkHandCard (concat handsCards) (boardCards ++ dead)) as [s3|e3] eqn:E3;
    cbn; [done|].
  intros [= <-].
  apply (scan_throw (fun x => [x]) _ checkHandCard_ok) in E3
    as (pre & x & post & Hsplit & Hstep).
  rewrite concat_singletons in Hstep. rewrite Hsplit.
  exists x. unfold checkHandCard in Hstep.
  rewrite !occurrences_app, occurrences_cons_eq.
  destruct (isCardInArray x ((boardCards ++ dead) ++ pre)) eqn:Hp; [|done].
  injection Hstep as <-. split; [done|].
  apply isCardInArray_spec, occurrences_elem in Hp.
  rewrite !occurrences_app in Hp. lia.
Qed.

Lemma append_empty_r (s : string) : s +:+ "" = s.
Proof.
  induction s as [|a s IH]; [done|].
  change (String a (s +:+ "") = String a s). by rewrite IH.
Qed.

Lemma namedCard_message e c :
  namedCard e = Some c -> ∃ pre post, message e = pre +:+ cardToString c +:+ post.
Proof.
  destruct e; try done; intros [= <-]; cbn [message].
  - by exists "Board card ", " is also marked as a dead card".
  - by exists "Board card ", " also appears in a player's hand".
  - exists "Duplicate board card: ", "". by rewrite append_empty_r.
  - by exists "Dead card ", " also appears in a player's hand".
  - exists "Duplicate dead card: ", "". by rewrite append_empty_r.
  - by exists "Card ", " appears in multiple hands".
Qed.



Lemma newCalculator_heap hands board deadCards gameVariant options (h : Heap) :
  (newCalculator hands board deadCards gameVariant options h).2 = h.
Proof.
  unfold newCalculator, bind, liftR, validateHands, gets. cbn.
  destruct (getEvaluator gameVariant); cbn; [|done].
  destruct (validateCards _ _ _); done.
Qed.

Lemma newCalculator_ok hands board deadCards gameVariant options (h h' : Heap) this :
  newCalculator hands board deadCards gameVariant options h = (Ok this, h') ->
  h' = h ∧ ∃ ev, getEvaluator gameVariant = Ok ev
                 ∧ this = mkCalculator hands board deadCards ev (mergeOptions options).
Proof.
  intros H. split.
  - rewrite <- (newCalculator_heap hands board deadCards gameVariant options h). by rewrite H.
  - revert H. unfold newCalculator, bind, liftR, validateHands, gets. cbn.
    destruct (getEvaluator gameVariant) as [ev|]; cbn; [|done].
    destruct (validateCards _ _ _); [|done]. intros [= <- _]. eauto.
Qed.


(** C8, corrected: for a variant that has an evaluator (Texas Hold'em or
    Omaha), building a calculator on cards of which one is shared fails with
    an error of [validateHands] that names a card occurring twice among the
    board, the dead cards and the hands; the heap is the one of before, and a
    calculation started on the failed construction has called no evaluator. *)
Theorem C8_shared_card_is_rejected h hs b dead gameVariant opts c :
  gameVariant = TEXAS_HOLDEM ∨ gameVariant = OMAHA ->
  sharedCard h hs b dead c ->
  ∃ e named,
    newCalculator hs b dead gameVariant opts h = (Throw e, h)
    ∧ namedCard e = Some named
    ∧ (2 <= occurrences named (allCardsOf h hs b dead))%nat
    ∧ (∃ pre post, message e = pre +:+ cardToString named +:+ post)
    ∧ runExhaustive h hs b dead gameVariant opts = mkRun (Throw e) h []
    ∧ ∀ random, runMonteCarlo random h hs b dead gameVariant opts = mkRun (Throw e) h [].
Proof.
  intros Hvariant Hshared.
  assert (∃ ev, getEvaluator gameVariant = Ok ev) as [ev Hev].
  { destruct Hvariant as [->| ->]; eauto. }
  assert (Hnew : newCalculator hs b dead gameVariant opts h
                 = match validateCards (cardsOf h b) dead (cardsOf h <$> hs) with
                   | Ok _ => (Ok (mkCalculator hs b dead ev (mergeOptions opts)), h)
                   | Throw e => (Throw e, h)
                   end).
  { unfold newCalculator. rewrite Hev.
    erewrite bind_ok by reflexivity. unfold bind. rewrite validateHands_run. cbn.
    by destruct (validateCards _ _ _). }
  destruct (validateCards (cardsOf h b) dead (cardsOf h <$> hs)) as [[]|e] eqn:Ev.
  - apply validateCards_ok in Ev. apply (occurrences_NoDup c) in Ev.
    apply sharedCard_occurrences in Hshared. unfold allCardsOf in Hshared. lia.
  - destruct (validateCards_throw _ _ _ _ Ev) as (named & Hnamed & Hocc).
    exists e, named. split; [done|]. split; [done|]. split; [done|].
    split; [by apply namedCard_message|].
    unfold runExhaustive, runMonteCarlo. by rewrite Hnew.
Qed.

Lemma C8_witness :
  sharedCard sharedAce [0; 1]%nat 2%nat [] (mkCard ACE SPADES)
  ∧ ∃ e named,
      newCalculator [0; 1]%nat 2%nat [] TEXAS_HOLDEM noOptions sharedAce = (Throw e, sharedAce)
      ∧ namedCard e = Some named
      ∧ (2 <= occurrences named (allCardsOf sharedAce [0; 1]%nat 2%nat []))%nat
      ∧ (∃ pre post, message e = pre +:+ cardToString named +:+ post)
      ∧ runExhaustive sharedAce [0; 1]%nat 2%nat [] TEXAS_HOLDEM noOptions
        = mkRun (Throw e) sharedAce []
      ∧ ∀ random, runMonteCarlo random sharedAce [0; 1]%nat 2%nat [] TEXAS_HOLDEM noOptions
                  = mkRun (Throw e) sharedAce [].
Proof.
  assert (Hshared : sharedCard sharedAce [0; 1]%nat 2%nat [] (mkCard ACE SPADES)).
  { left. exists 0%nat, 1%nat, 0%nat, 1%nat.
    split; [lia|]. split; [reflexivity|]. split; [reflexivity|].
    split; vm_compute; find_card. }
  split; [exact Hshared|].
  apply (C8_shared_card_is_rejected sharedAce [0; 1]%nat 2%nat [] TEXAS_HOLDEM noOptions
           (mkCard ACE SPADES)); [left; reflexivity | exact Hshared].
Defined.

(** C8 as stated fails on a variant without an evaluator: the constructor
    looks the evaluator up before it validates, and the error names the
    variant, not the card. *)
Lemma C8_counterexample :
  sharedCard sharedAce [0; 1]%nat 2%nat [] (mkCard ACE SPADES)
  ∧ newCalculator [0; 1]%nat 2%nat [] OMAHA_HI_LO noOptions sharedAce
    = (Throw (NoEvaluatorRegistered OMAHA_HI_LO), sharedAce)
  ∧ namedCard (NoEvaluatorRegistered OMAHA_HI_LO) = None
  ∧ message (NoEvaluatorRegistered OMAHA_HI_LO)
    = "No evaluator registered for variant: omaha_hi_lo"
  ∧ ¬ ∃ e named,
        newCalculator [0; 1]%nat 2%nat [] OMAHA_HI_LO noOptions sharedAce = (Throw e, sharedAce)
        ∧ namedCard e = Some named.
Proof.
  split.
  { left. exists 0%nat, 1%nat, 0%nat, 1%nat.
    split; [lia|]. split; [reflexivity|]. split; [reflexivity|].
    split; vm_compute; find_card. }
  split; [reflexivity|]. split; [reflexivity|]. split; [reflexivity|].
  intros (e & named & Hnew & Hnamed).
  assert (e = NoEvaluatorRegistered OMAHA_HI_LO) as -> by (by injection Hnew).
  discriminate Hnamed.
Qed.

(** ** The exhaustive calculation *)

(** *** The guard *)

Lemma estimateCombinations_run (w : World) :
  ∃ maxCombinations,
    estimateCombinations w = (Ok (estimatedCombinations w, maxCombinations), w).
Proof.
  unfold estimateCombinations, estimatedCombinations.
  erewrite bind_ok by reflexivity. erewrite bind_ok by apply getUsedCards_run.
  erewrite bind_ok by apply mapM_readCards. erewrite bind_ok by reflexivity.
  cbv zeta. destruct (_ =? 0)%nat; eauto.
Qed.


Lemma exhaustiveCalculate_guard (w : World) :
  let total := estimatedCombinations w in
  exhaustiveCalculate w =
    if negb (forceExhaustive (options (self w))
             || PrimFloat.leb total (ceilingOf (options (self w))))
    then (Throw (TooManyCombinations total), w)
    else enumerateAndTally w.
Proof.
  cbv zeta. unfold exhaustiveCalculate.
  erewrite bind_ok by reflexivity.
  destruct (estimateCombinations_run w) as [mx Hmx].
  erewrite bind_ok by exact Hmx. cbv beta iota.
  by destruct (negb _).
Qed.

(** The exceptions of the exhaustive calculation come from the evaluator. *)
Section ExhaustiveThrows.
Context (P : Error -> Prop) (ev : HandEvaluator).
Hypothesis ev_throws : ∀ holeCards boardCards e,
  evaluate ev holeCards boardCards = Throw e -> P e.







End ExhaustiveThrows.


(** The heap during the enumeration. *)
Lemma sameObjects_refl w : sameObjects w w.
Proof. done. Qed.

Lemma sameObjects_trans w1 w2 w3 : sameObjects w1 w2 -> sameObjects w2 w3 -> sameObjects w1 w3.
Proof. intros [??] [??]. split; congruence. Qed.

Lemma evaluateHands_sameObjects w : wp evaluateHands (fun _ w' => sameObjects w w') w.
Proof.
  unfold evaluateHands. apply wp_bind, wp_gets.
  generalize (hands (self w)). intros l.
  assert (H : ∀ w1, sameObjects w w1 ->
            wp (mapM (fun hand =>
                  let* handCards := readCards hand in
                  let* boardCards := readCards (board (self w)) in
                  exec logEvaluation handCards boardCards in
                  liftR (evaluate (evaluator (self w)) handCards boardCards)) l)
               (fun _ w' => sameObjects w w') w1); [|by apply H].
  induction l as [|x l IH]; intros w1 H1; [done|].
  cbn [mapM]. apply wp_bind. apply wp_bind, wp_gets. apply wp_bind, wp_gets.
  apply wp_bind, wp_modify. apply wp_liftR.
  destruct (evaluate _ _ _); [|done].
  apply wp_bind. eapply wp_mono; [|apply IH; done].
  intros [ys|e] w2 H2; done.
Qed.

Lemma evaluateAndUpdateEquity_sameObjects playerResults w :
  wp (evaluateAndUpdateEquity playerResults) (fun _ w' => sameObjects w w') w.
Proof.
  unfold evaluateAndUpdateEquity. apply wp_bind.
  eapply wp_mono; [|apply evaluateHands_sameObjects]. by intros [x|e] w' H.
Qed.

(** Writing the completions: no object is created, and the board is written
    last, with its cards of before followed by the completion. *)
Lemma applyCompletions_board incompleteHands handCompletions boardCompletion w :
  wp (applyCompletions incompleteHands handCompletions boardCompletion)
     (fun r w' =>
        r = Ok tt ∧ self w' = self w ∧ length (heap w') = length (heap w)
        ∧ ((board (self w) < length (heap w))%nat ->
           cardsOf (heap w') (board (self w))
           = cardsOf (heap w) (board (self w)) ++ boardCompletion)) w.
Proof.
  unfold applyCompletions. apply wp_bind, wp_gets.
  apply wp_bind, wp_mapM_readCards.
  apply wp_bind, wp_gets. apply wp_bind.
  set (writes := imap _ incompleteHands). clearbody writes.
  set (orig := cardsOf (heap w) <$> hands (self w)). clearbody orig.
  eapply wp_mono;
    [|apply (wp_forEach _ (fun w1 => self w1 = self w ∧ length (heap w1) = length (heap w))
               (fun _ _ => False)); [done|]].
  - intros [[]|e] w1; [|done]. intros [Hself Hlen].
    unfold wp, writeCards, modify. cbn. rewrite heap_length_insert.
    split; [done|]. split; [done|]. split; [done|].
    intros Hvalid. rewrite cardsOf_insert, decide_True; [done|]. split; [done | lia].
  - intros [i handIndex] w1 _ [Hself Hlen].
    unfold wp, writeCards, modify. cbn. by rewrite heap_length_insert.
Qed.

Section BoardGrowth.
Context (incompleteHands : list (nat * nat)) (boardCompletions : list (list Card)) (k : nat).
Hypothesis completions_length : ∀ bc, bc ∈ boardCompletions -> length bc = k.

Lemma grownBy_0 w : grownBy k w 0 w.
Proof. unfold grownBy. repeat split. lia. Qed.

Lemma grownBy_add w1 w2 w3 n m :
  grownBy k w1 n w2 -> grownBy k w2 m w3 -> grownBy k w1 (n + m) w3.
Proof.
  intros (Hs1 & Hl1 & Hb1) (Hs2 & Hl2 & Hb2). rewrite Hs1 in Hb2.
  repeat split; [congruence | congruence | lia].
Qed.

Lemma evaluateAllCombinations_board todo : ∀ handIndex current playerResults w,
  (board (self w) < length (heap w))%nat ->
  wp (evaluateAllCombinations handIndex incompleteHands todo boardCompletions current
        playerResults)
     (post (fun '(n, _) w' => grownBy k w n w') (fun _ _ => True)) w.
Proof.
  induction todo as [|completions todo IH]; intros handIndex current playerResults w Hvalid;
    cbn [evaluateAllCombinations].
  - eapply wp_mono;
      [|apply (wp_foldM _ (fun '(n, _) w' => grownBy k w n w') (fun _ _ => True));
        [apply grownBy_0|]].
    { by intros [[n pr]|e] w'. }
    intros [count pr] bc w1 Hbc Hgrown.
    apply wp_bind. eapply wp_mono; [|apply applyCompletions_board].
    intros r w2 (-> & Hs2 & Hl2 & Hb2).
    apply wp_bind. eapply wp_mono; [|apply evaluateAndUpdateEquity_sameObjects].
    intros [pr'|e] w3 [Hs3 Hh3]; [|done].
    apply wp_ret. cbn.
    destruct Hgrown as (Hs1 & Hl1 & Hb1).
    rewrite Hs1 in Hb2. specialize (Hb2 ltac:(lia)).
    repeat split; [congruence | congruence|].
    rewrite Hh3, Hb2, length_app, Hb1, (completions_length _ Hbc). lia.
  - eapply wp_mono;
      [|apply (wp_foldM _ (fun '(n, _) w' => grownBy k w n w') (fun _ _ => True));
        [apply grownBy_0|]].
    { by intros [[n pr]|e] w'. }
    intros [totalCount pr] completion w1 _ Hgrown.
    destruct (hasConflict _ _ _); [by apply wp_ret|].
    apply wp_bind. eapply wp_mono; [|apply IH].
    + intros [[count pr']|e] w2 H2; [|done].
      apply wp_ret. cbn. by eapply grownBy_add.
    + destruct Hgrown as (Hs1 & Hl1 & _). rewrite Hs1, Hl1. done.
Qed.
End BoardGrowth.

(** When the enumeration returns. [handsGood] is what the evaluator asks of
    the hands: it accepts a good hand with every board of five cards or more,
    in a variant whose board has five cards. As long as completing the hands
    keeps them good, every evaluation succeeds: whenever hands are evaluated
    the board holds its cards of the start, five of them or more, or has
    been completed. *)
Section ExhaustiveReturns.
Context (ev : HandEvaluator) (handsGood : World -> Prop).
Hypothesis ev_total : ∀ w x,
  handsGood w -> x ∈ hands (self w) ->
  (5 <= length (cardsOf (heap w) (board (self w))))%nat ->
  ∃ e, evaluate ev (cardsOf (heap w) x) (cardsOf (heap w) (board (self w))) = Ok e.
Hypothesis ev_board : maxBoardCards (GAME_CONFIGS (getVariant ev)) = 5%nat.
Hypothesis handsGood_same : ∀ w w', sameObjects w w' -> handsGood w -> handsGood w'.



Section Completions.
Context (incompleteHands : list (nat * nat)) (boardCompletions : list (list Card)) (k : nat).
Hypothesis completions_length : ∀ bc, bc ∈ boardCompletions -> length bc = k.
Hypothesis completions_good : ∀ handCompletions boardCompletion w,
  handsGood w ->
  wp (applyCompletions incompleteHands handCompletions boardCompletion)
     (fun _ w' => handsGood w') w.

End Completions.

End ExhaustiveReturns.



Lemma enumerateAndTally_board (w : World) :
  (board (self w) < length (heap w))%nat ->
  let b := board (self w) in
  let k := cardsNeededForBoard (cardsOf (heap w) b) (getVariant (evaluator (self w))) in
  wp enumerateAndTally
     (post (fun res w' =>
              length (cardsOf (heap w') b)
              = (length (cardsOf (heap w) b) + totalHands res * k)%nat)
           (fun _ _ => True)) w.
Proof.
  intros Hvalid. cbv zeta. unfold enumerateAndTally.
  apply wp_bind, wp_gets. apply wp_bind, wp_createInitialPlayerEquities.
  apply wp_bind, wp_createDeckWithoutUsedCards.
  apply wp_bind, wp_mapM_readCards. apply wp_bind, wp_readCards.
  set (gameVariant := getVariant (evaluator (self w))).
  set (k := cardsNeededForBoard (cardsOf (heap w) (board (self w))) gameVariant).
  set (ih := filter _ _).
  apply wp_bind.
  destruct (bool_decide (ih = []) && (k =? 0)%nat) eqn:Hnothing.
  - apply andb_true_iff in Hnothing as [_ Hk]. apply Nat.eqb_eq in Hk.
    apply wp_bind. eapply wp_mono; [|apply evaluateAndUpdateEquity_sameObjects].
    intros [pr|e] w1 [Hs Hh]; [|done]. apply wp_ret, wp_ret. cbn. rewrite Hh. lia.
  - set (bcs := if (0 <? k)%nat then _ else _).
    assert (Hbcs : ∀ bc, bc ∈ bcs -> length bc = k).
    { intros bc. subst bcs. destruct (Nat.ltb_spec 0 k).
      - apply generateCombinations_length.
      - intros Hin. apply list_elem_of_singleton in Hin. subst. cbn. lia. }
    eapply wp_mono; [|by apply (evaluateAllCombinations_board ih bcs k Hbcs)].
    intros [[n pr]|e] w1 H1; [|done]. apply wp_ret. cbn. by destruct H1 as (_ & _ & ->).
Qed.


Lemma exhaustiveCalculate_board (w w' : World) (res : EquityResult) :
  (board (self w) < length (heap w))%nat ->
  exhaustiveCalculate w = (Ok res, w') ->
  let b := board (self w) in
  let k := cardsNeededForBoard (cardsOf (heap w) b) (getVariant (evaluator (self w))) in
  length (cardsOf (heap w') b) = (length (cardsOf (heap w) b) + totalHands res * k)%nat.
Proof.
  intros Hvalid Hrun. cbv zeta.
  pose proof (exhaustiveCalculate_guard w) as Hguard. cbv zeta in Hguard.
  rewrite Hrun in Hguard. destruct (negb _); [done|]. symmetry in Hguard.
  exact (wp_run _ _ _ _ _ (enumerateAndTally_board w Hvalid) Hguard).
Qed.

(** C3 fails on the code. Three hands that tie on the board are credited one
    tie each, hence an equity of 1/2 each: the equities sum to 3/2, while
    each winner's winning-category count receives 1/3. *)
Theorem C3_three_way_tie_sums_to_three_halves :
  ∃ res, outcome (runExhaustive threeWayTie [0; 1; 2]%nat 3%nat [] TEXAS_HOLDEM noOptions)
         = Ok res
         ∧ isExact res = true ∧ totalHands res = 1%nat
         ∧ winsCount <$> playerResults res = [0; 0; 0]%nat
         ∧ tiesCount <$> playerResults res = [1; 1; 1]%nat
         ∧ winningHandRankCounts <$> playerResults res
           = [[(ROYAL_FLUSH, 1 # 3)]; [(ROYAL_FLUSH, 1 # 3)]; [(ROYAL_FLUSH, 1 # 3)]]%Q
         ∧ equity <$> playerResults res = [1 # 2; 1 # 2; 1 # 2]%Q
         ∧ (equitySum res == 3 # 2)%Q
         ∧ (1 # 100000 < Qabs (equitySum res - 1))%Q.
Proof.
  eexists. split; [vm_compute; reflexivity|].
  repeat split; vm_compute; congruence.
Qed.

(** C4 fails on the code: [applyCompletions] appends to whatever the board
    holds and nothing puts the original cards back. Whenever an exhaustive
    calculation returns, the board object holds, on top of its original
    cards, the completion of every scenario that was evaluated: its length
    has grown by the number of missing board cards times the number of
    scenarios. *)
Theorem C4_board_keeps_every_completion h hs b dead gameVariant opts res :
  (b < length h)%nat ->
  outcome (runExhaustive h hs b dead gameVariant opts) = Ok res ->
  length (cardsOf (finalHeap (runExhaustive h hs b dead gameVariant opts)) b)
  = (length (cardsOf h b)
     + totalHands res * cardsNeededForBoard (cardsOf h b) gameVariant)%nat.
Proof.
  intros Hvalid. unfold runExhaustive.
  destruct (newCalculator hs b dead gameVariant opts h) as [[this|e] h'] eqn:Enew; [|done].
  destruct (newCalculator_ok _ _ _ _ _ _ _ _ Enew) as (-> & ev & Hev & ->).
  destruct (exhaustiveCalculate _) as [r w'] eqn:Erun. cbn [outcome finalHeap].
  intros ->. apply exhaustiveCalculate_board in Erun; [|done].
  cbn in Erun. by rewrite (getEvaluator_variant _ _ Hev) in Erun.
Qed.

Lemma C4_witness :
  let run := runExhaustive turnBoard [0; 1]%nat 2%nat (allButFirst 2 turnBoard)
               TEXAS_HOLDEM noOptions in
  ∃ res, outcome run = Ok res ∧ totalHands res = 2%nat
         ∧ cardsOf turnBoard 2 = cardsOfString "Ts9s2h8c"
         ∧ cardsOf (finalHeap run) 2 = cardsOfString "Ts9s2h8c2s3s"
         ∧ evaluated run
           = [(cardsOfString "AsKs", cardsOfString "Ts9s2h8c2s");
              (cardsOfString "QhJh", cardsOfString "Ts9s2h8c2s");
              (cardsOfString "AsKs", cardsOfString "Ts9s2h8c2s3s");
              (cardsOfString "QhJh", cardsOfString "Ts9s2h8c2s3s")]
         ∧ length (cardsOf (finalHeap run) 2)
           = (length (cardsOf turnBoard 2)
              + totalHands res * cardsNeededForBoard (cardsOf turnBoard 2) TEXAS_HOLDEM)%nat.
Proof.
  cbv zeta. eexists. split; [vm_compute; reflexivity|].
  split; [reflexivity|]. split; [reflexivity|].
  split; [vm_compute; reflexivity|]. split; [vm_compute; reflexivity|].
  apply (C4_board_keeps_every_completion turnBoard [0; 1]%nat 2%nat
           (allButFirst 2 turnBoard) TEXAS_HOLDEM noOptions);
    [vm_compute; lia | vm_compute; reflexivity].
Defined.

(** C6 fails on the code: the completions of a hand are checked against the
    completions of the hands before it, never against the completion of the
    board. With the four and the five of spades left to deal, a hand that
    lacks a card and a board that lacks a card, the first scenario evaluated
    gives the four of spades to both. *)
Theorem C6_card_dealt_to_hand_and_board :
  let dead := allButFirst 2 shortHandAndTurn in
  let run := runExhaustive shortHandAndTurn [0; 1]%nat 2%nat dead TEXAS_HOLDEM noOptions in
  NoDup (allCardsOf shortHandAndTurn [0; 1]%nat 2%nat dead)
  ∧ removeCards fullDeck (allCardsOf shortHandAndTurn [0; 1]%nat 2%nat dead)
    = cardsOfString "4s5s"
  ∧ evaluated run !! 1%nat = Some (cardsOfString "Ah4s", cardsOfString "2s3s4h5c4s")
  ∧ mkCard FOUR SPADES ∈ cardsOfString "Ah4s"
  ∧ mkCard FOUR SPADES ∈ cardsOfString "2s3s4h5c4s"
  ∧ ∃ res, outcome run = Ok res ∧ totalHands res = 4%nat.
Proof.
  cbv zeta. split.
  { apply (bool_decide_unpack _). vm_compute. reflexivity. }
  split; [vm_compute; reflexivity|]. split; [vm_compute; reflexivity|].
  split; [vm_compute; find_card|]. split; [vm_compute; find_card|].
  eexists. split; [vm_compute; reflexivity | reflexivity].
Qed.




(** A forced Omaha calculation on a hand that lacks a card does not return a
    result: the second scenario finds five cards in that hand, which the
    Omaha evaluator refuses. *)
Example forced_omaha_calculation_throws :
  outcome (runExhaustive omahaShortHand [0; 1]%nat 2%nat (allButFirst 2 omahaShortHand) OMAHA
             (mkCalculationOptions None (Some true) None None))
  = Throw (OmahaHoleCards 5).
Proof. vm_compute. reflexivity. Qed.

(** ** The Monte Carlo calculation *)

Lemma cardsOf_app_l (h h2 : Heap) (obj : nat) :
  (obj < length h)%nat -> cardsOf (h ++ h2) obj = cardsOf h obj.
Proof. intros H. unfold cardsOf, Heap in *. by rewrite lookup_app_l. Qed.

Lemma cardsOf_app_r (h h2 : Heap) (i : nat) :
  cardsOf (h ++ h2) (length h + i) = cardsOf h2 i.
Proof.
  unfold cardsOf, Heap in *. rewrite lookup_app_r by lia. f_equal. f_equal. lia.
Qed.

Lemma mapM_allocCopyM (l : list nat) : ∀ w,
  (∀ x, x ∈ l -> (x < length (heap w))%nat) ->
  mapM allocCopyM l w
  = (Ok (seq (length (heap w)) (length l)),
     mkWorld (heap w ++ (cardsOf (heap w) <$> l)) (self w) (randomCalls w) (evaluations w)).
Proof.
  induction l as [|x l IH]; intros w Hvalid.
  - cbn. rewrite app_nil_r. by destruct w.
  - cbn [mapM]. erewrite bind_ok by reflexivity.
    erewrite bind_ok.
    2:{ apply IH. cbn. intros y Hy. rewrite length_app. cbn.
        specialize (Hvalid y (list_elem_of_further _ _ _ Hy)). lia. }
    cbn. rewrite length_app. cbn. rewrite Nat.add_1_r. f_equal. f_equal.
    rewrite <- app_assoc. cbn. f_equal. f_equal.
    apply list_fmap_ext. intros i y Hy. apply cardsOf_app_l.
    apply Hvalid, list_elem_of_further. by eapply list_elem_of_lookup_2.
Qed.

Lemma swap_length cards i j : length (swap cards i j) = length cards.
Proof. unfold swap. repeat case_match; by rewrite ?length_insert. Qed.

Lemma shuffleFrom_run random i : ∀ cards w,
  ∃ cards', shuffleFrom random i cards w
            = (Ok cards', mkWorld (heap w) (self w) (randomCalls w + i) (evaluations w))
            ∧ length cards' = length cards.
Proof.
  induction i as [|i IH]; intros cards w.
  - exists cards. cbn. rewrite Nat.add_0_r. by destruct w.
  - cbn [shuffleFrom]. erewrite bind_ok by reflexivity.
    destruct (IH (swap cards (S i) (random (randomCalls w) mod (S i + 1))%nat)
                 (mkWorld (heap w) (self w) (S (randomCalls w)) (evaluations w)))
      as (cards' & -> & Hlen).
    exists cards'. cbn. split; [do 2 f_equal; lia|]. by rewrite Hlen, swap_length.
Qed.

Lemma deal_length cards count dealt rest :
  deal cards count = Ok (dealt, rest) -> length dealt = count.
Proof.
  unfold deal. destruct (Nat.ltb_spec (length cards) count); [done|].
  intros [= <- <-]. rewrite length_take, length_reverse. lia.
Qed.

Lemma evaluateAndUpdateEquityMC_sameObjects playerResults w :
  wp (evaluateAndUpdateEquityMC playerResults) (fun _ w' => sameObjects w w') w.
Proof.
  unfold evaluateAndUpdateEquityMC. apply wp_bind.
  eapply wp_mono; [|apply evaluateHands_sameObjects]. by intros [x|e] w' H.
Qed.

Lemma wp_mapM_allocCopyM l Q w :
  (∀ x, x ∈ l -> (x < length (heap w))%nat) ->
  Q (Ok (seq (length (heap w)) (length l)))
    (mkWorld (heap w ++ (cardsOf (heap w) <$> l)) (self w) (randomCalls w) (evaluations w)) ->
  wp (mapM allocCopyM l) Q w.
Proof. intros Hvalid HQ. unfold wp. by rewrite mapM_allocCopyM. Qed.

Lemma wp_shuffle random cards (Q : Result (list Card) -> World -> Prop) w :
  (∀ cards' calls, length cards' = length cards ->
     Q (Ok cards') (mkWorld (heap w) (self w) calls (evaluations w))) ->
  wp (shuffle random cards) Q w.
Proof.
  intros HQ. unfold wp, shuffle.
  destruct (shuffleFrom_run random (length cards - 1) cards w) as (cards' & -> & Hlen).
  by apply HQ.
Qed.

(** One iteration, when it completes: the calculator now refers to fresh
    copies that show the cards of before; the objects it referred to keep
    what was dealt to them, the board the cards it lacked. *)
Lemma simulateOnce_spec random playerResults w :
  wellFormed w ->
  let n := length (heap w) in
  let hs := hands (self w) in
  let b := board (self w) in
  let k := cardsNeededForBoard (cardsOf (heap w) b) (getVariant (evaluator (self w))) in
  wp (simulateOnce random playerResults)
     (post (fun _ w' =>
              self w' = mkCalculator (seq n (length hs)) (n + length hs)
                          (deadCards (self w)) (evaluator (self w)) (options (self w))
              ∧ length (heap w') = (n + length hs + 1)%nat
              ∧ (∀ l, (l < n)%nat -> l ∉ hs -> l ≠ b ->
                   cardsOf (heap w') l = cardsOf (heap w) l)
              ∧ (∀ i x, hs !! i = Some x -> cardsOf (heap w') (n + i) = cardsOf (heap w) x)
              ∧ cardsOf (heap w') (n + length hs) = cardsOf (heap w) b
              ∧ (cardsOf (heap w) b) `prefix_of` (cardsOf (heap w') b)
              ∧ length (cardsOf (heap w') b) = (length (cardsOf (heap w) b) + k)%nat)
           (fun _ _ => True)) w.
Proof.
  intros (Hb & Hhs & Hbhs). cbv zeta.
  set (n := length (heap w)). set (hs := hands (self w)). set (b := board (self w)).
  unfold simulateOnce. apply wp_bind, wp_gets.
  apply wp_bind, wp_mapM_allocCopyM; [done|].
  apply wp_bind. unfold wp at 1. cbn [allocCopyM allocCopy fst snd heap self randomCalls evaluations].
  rewrite cardsOf_app_l by done. rewrite length_app, length_fmap. fold n hs b.
  set (H2 := (heap w ++ (cardsOf (heap w) <$> hs)) ++ [cardsOf (heap w) b]).
  assert (HH2len : length H2 = (n + length hs + 1)%nat).
  { subst H2. rewrite !length_app, length_fmap. cbn. lia. }
  assert (HH2old : ∀ l, (l < n)%nat -> cardsOf H2 l = cardsOf (heap w) l).
  { intros l Hl. subst H2. rewrite <- app_assoc. by apply cardsOf_app_l. }
  assert (HH2hands : ∀ i x, hs !! i = Some x -> cardsOf H2 (n + i) = cardsOf (heap w) x).
  { intros i x Hi. subst H2. rewrite <- app_assoc. unfold n. rewrite cardsOf_app_r.
    unfold cardsOf at 1. unfold Heap. rewrite lookup_app_l.
    - by rewrite list_lookup_fmap, Hi.
    - rewrite length_fmap. by eapply lookup_lt_Some. }
  assert (HH2board : cardsOf H2 (n + length hs) = cardsOf (heap w) b).
  { subst H2. rewrite <- app_assoc. unfold n. rewrite cardsOf_app_r.
    unfold cardsOf at 1. unfold Heap. rewrite lookup_app_r by (rewrite length_fmap; lia).
    rewrite length_fmap, Nat.sub_diag. done. }
  set (w2 := mkWorld H2 (self w) (randomCalls w) (evaluations w)).
  apply wp_bind, wp_createDeckWithoutUsedCards.
  apply wp_bind, wp_shuffle. intros deck calls _.
  cbn [heap self randomCalls evaluations].
  set (w2' := mkWorld H2 (self w) calls (evaluations w)).
  (* the hands *)
  apply wp_bind.
  eapply wp_mono;
    [|apply (wp_foldM _ (fun _ w' => self w' = self w ∧ length (heap w') = length H2
                                     ∧ ∀ l, l ∉ hs -> cardsOf (heap w') l = cardsOf H2 l)
                      (fun _ _ => True)); [done|]].
  2:{ intros deck0 j w3 Hj (Hs3 & Hl3 & Hf3).
      apply wp_bind, wp_readCards.
      destruct (_ <? _)%nat; [|by apply wp_ret].
      apply wp_bind, wp_liftR. destruct (deal deck0 _) as [[newCards deck1]|]; [|done].
      apply wp_bind, wp_readCards. apply wp_bind, wp_modify, wp_ret. cbn.
      split; [done|]. split; [by rewrite heap_length_insert|].
      intros l Hl. rewrite cardsOf_insert. case_decide as Hd; [|by apply Hf3].
      destruct Hd as [<- _]. destruct Hl.
      apply elem_of_seq in Hj. fold hs in Hj |- *.
      apply list_elem_of_lookup_total_2. lia. }
  intros [deck1|e] w3; [|done]. intros (Hs3 & Hl3 & Hf3).
  (* the board *)
  apply wp_bind, wp_readCards. rewrite Hf3 by done. rewrite HH2old by done.
  set (k := cardsNeededForBoard (cardsOf (heap w) b) (getVariant (evaluator (self w)))).
  apply wp_bind.
  assert (Hfinish : ∀ w4, self w4 = self w -> length (heap w4) = length H2 ->
            (∀ l, l ∉ hs -> l ≠ b -> cardsOf (heap w4) l = cardsOf H2 l) ->
            (cardsOf (heap w) b) `prefix_of` (cardsOf (heap w4) b) ->
            length (cardsOf (heap w4) b) = (length (cardsOf (heap w) b) + k)%nat ->
            wp (let* playerResults0 := evaluateAndUpdateEquityMC playerResults in
                exec setSelf (seq n (length hs)) (n + length hs) in ret playerResults0)
               (post (fun _ w' =>
                  self w' = mkCalculator (seq n (length hs)) (n + length hs)
                              (deadCards (self w)) (evaluator (self w)) (options (self w))
                  ∧ length (heap w') = (n + length hs + 1)%nat
                  ∧ (∀ l, (l < n)%nat -> l ∉ hs -> l ≠ b ->
                       cardsOf (heap w') l = cardsOf (heap w) l)
                  ∧ (∀ i x, hs !! i = Some x ->
                       cardsOf (heap w') (n + i) = cardsOf (heap w) x)
                  ∧ cardsOf (heap w') (n + length hs) = cardsOf (heap w) b
                  ∧ (cardsOf (heap w) b) `prefix_of` (cardsOf (heap w') b)
                  ∧ length (cardsOf (heap w') b) = (length (cardsOf (heap w) b) + k)%nat)
                (fun _ _ => True)) w4).
  { intros w4 Hs4 Hl4 Hf4 Hp4 Hb4.
    apply wp_bind. eapply wp_mono; [|apply evaluateAndUpdateEquityMC_sameObjects].
    intros [pr'|e] w5 [Hs5 Hh5]; [|done].
    apply wp_bind, wp_modify, wp_ret. cbn. rewrite Hs5, Hs4, Hh5.
    split; [done|]. split; [by rewrite Hl4|].
    assert (Hfresh : ∀ l, (n <= l)%nat -> (l ∉ hs) ∧ (l ≠ b)).
    { intros l Hl. split; [intros Hin; apply Hhs in Hin; fold n in Hin; lia | fold n in Hb; unfold b; lia]. }
    split; [intros l Hl Hnin Hne; rewrite Hf4 by done; by apply HH2old|].
    split.
    { intros i x Hi. destruct (Hfresh (n + i)%nat ltac:(lia)) as [??].
      rewrite Hf4 by done. by apply HH2hands. }
    split.
    { destruct (Hfresh (n + length hs)%nat ltac:(lia)) as [??]. by rewrite Hf4. }
    done. }
  destruct (Nat.ltb_spec 0 k) as [Hk|Hk].
  - apply wp_bind, wp_liftR.
    destruct (deal deck1 k) as [[newBoardCards deck2]|] eqn:Edeal; [|done].
    apply deal_length in Edeal.
    apply wp_bind, wp_readCards. apply wp_modify.
    assert (Hcopy : cardsOf (heap w3) (n + length hs) = cardsOf (heap w) b).
    { rewrite Hf3; [done|]. intros Hin. apply Hhs in Hin. fold n in Hin. lia. }
    rewrite Hcopy. rewrite Hs3. fold b.
    apply Hfinish; cbn.
    + done.
    + by rewrite heap_length_insert.
    + intros l Hl Hne. rewrite cardsOf_insert, decide_False by (intros [??]; congruence).
      by apply Hf3.
    + rewrite cardsOf_insert, decide_True; [by apply prefix_app_r|].
      split; [done|]. rewrite Hl3, HH2len. fold n in Hb. unfold b. lia.
    + rewrite cardsOf_insert, decide_True.
      * rewrite length_app. lia.
      * split; [done|]. rewrite Hl3, HH2len. fold n in Hb. unfold b. lia.
  - apply wp_ret. apply Hfinish; try done.
    + intros l Hl _. by apply Hf3.
    + rewrite Hf3 by done. by rewrite HH2old.
    + rewrite Hf3 by done. rewrite HH2old by done. lia.
Qed.

Lemma seq_fmap_lookup {A} (f : nat -> A) (g : nat -> A) (n : nat) (l : list nat) :
  (∀ i x, l !! i = Some x -> f (n + i)%nat = g x) ->
  f <$> seq n (length l) = g <$> l.
Proof.
  intros H. apply list_eq. intros i.
  rewrite !list_lookup_fmap. destruct (l !! i) as [x|] eqn:E; cbn.
  - rewrite lookup_seq_lt by (by eapply lookup_lt_Some). cbn. f_equal. by apply H.
  - rewrite lookup_seq_ge; [done|]. by apply lookup_ge_None.
Qed.

(** After one iteration the calculator works on copies. *)
Lemma simulateOnce_detaches random playerResults w :
  wellFormed w ->
  let b := board (self w) in
  let k := cardsNeededForBoard (cardsOf (heap w) b) (getVariant (evaluator (self w))) in
  wp (simulateOnce random playerResults)
     (post (fun _ w' =>
              ∃ c0, detached (length (heap w)) b c0 (viewOf w) (self w) w'
                    ∧ (cardsOf (heap w) b) `prefix_of` c0
                    ∧ length c0 = (length (cardsOf (heap w) b) + k)%nat)
           (fun _ _ => True)) w.
Proof.
  intros Hwf. cbv zeta. eapply wp_mono; [|by apply simulateOnce_spec].
  intros [pr|e] w'; [|done]. cbv zeta. intros (Hself & Hlen & Hframe & Hcopies & Hcopy & Hpre & Hb).
  destruct Hwf as (Hvalid & Hhs & Hbhs).
  exists (cardsOf (heap w') (board (self w))). split; [|done].
  unfold detached, wellFormed, viewOf.
  destruct w' as [h' this' calls' log']. cbn [self heap] in *. subst this'. cbn.
  split.
  { split; [lia|]. split.
    - intros x Hx. apply elem_of_seq in Hx. lia.
    - intros Hx. apply elem_of_seq in Hx. lia. }
  split; [lia|]. split; [intros x Hx; apply elem_of_seq in Hx; lia|].
  split; [done|]. split; [done|]. split; [|done].
  f_equal; [|done]. by apply seq_fmap_lookup.
Qed.

(** Every later iteration leaves the older objects alone. *)
Lemma simulateOnce_detached random playerResults n0 b0 c0 view0 this0 w :
  detached n0 b0 c0 view0 this0 w ->
  wp (simulateOnce random playerResults)
     (post (fun _ w' => detached n0 b0 c0 view0 this0 w') (fun _ _ => True)) w.
Proof.
  intros (Hwf & Hnb & Hnhs & Hb0 & Hc0 & Hview & Hdead & Hev & Hopts).
  eapply wp_mono; [|by apply simulateOnce_spec].
  intros [pr|e] w'; [|done]. cbv zeta.
  intros (Hself & Hlen & Hframe & Hcopies & Hcopy & Hpre & Hb).
  destruct Hwf as (Hvalid & Hhs & Hbhs).
  unfold detached, wellFormed, viewOf.
  destruct w' as [h' this' calls' log']. cbn [self heap] in *. subst this'. cbn.
  split.
  { split; [lia|]. split.
    - intros x Hx. apply elem_of_seq in Hx. lia.
    - intros Hx. apply elem_of_seq in Hx. lia. }
  split; [lia|]. split; [intros x Hx; apply elem_of_seq in Hx; lia|].
  split; [done|]. split.
  { rewrite Hframe; [done | lia | | lia].
    intros Hin. apply Hnhs in Hin. lia. }
  split; [|done].
  rewrite <- Hview. unfold viewOf. f_equal; [|done]. by apply seq_fmap_lookup.
Qed.

Lemma runSimulationBatch_detached random n0 b0 c0 view0 this0 count :
  ∀ playerResults w,
    detached n0 b0 c0 view0 this0 w ->
    wp (runSimulationBatch random count playerResults)
       (post (fun _ w' => detached n0 b0 c0 view0 this0 w') (fun _ _ => True)) w.
Proof.
  induction count as [|count IH]; intros pr w Hd; [done|].
  cbn [runSimulationBatch]. apply wp_bind.
  eapply wp_mono; [|by apply simulateOnce_detached].
  intros [pr'|e] w' H; [by apply IH | done].
Qed.

Lemma runSimulationBatch_detaches random count playerResults w :
  wellFormed w -> (0 < count)%nat ->
  let b := board (self w) in
  let k := cardsNeededForBoard (cardsOf (heap w) b) (getVariant (evaluator (self w))) in
  wp (runSimulationBatch random count playerResults)
     (post (fun _ w' =>
              ∃ c0, detached (length (heap w)) b c0 (viewOf w) (self w) w'
                    ∧ (cardsOf (heap w) b) `prefix_of` c0
                    ∧ length c0 = (length (cardsOf (heap w) b) + k)%nat)
           (fun _ _ => True)) w.
Proof.
  intros Hwf Hcount. cbv zeta. destruct count as [|count]; [lia|].
  cbn [runSimulationBatch]. apply wp_bind.
  eapply wp_mono; [|by apply simulateOnce_detaches].
  intros [pr'|e] w'; [|done]. cbv zeta. intros (c0 & Hd & Hpre & Hlen).
  eapply wp_mono; [|by apply runSimulationBatch_detached].
  intros [pr''|e] w'' H; [|done]. by exists c0.
Qed.

Lemma simulationLoop_detached random n0 b0 c0 view0 this0 fuel :
  ∀ maxIterations iterationsCompleted previousEquities playerResults w,
    detached n0 b0 c0 view0 this0 w ->
    wp (simulationLoop random fuel maxIterations iterationsCompleted previousEquities
          playerResults)
       (post (fun _ w' => detached n0 b0 c0 view0 this0 w') (fun _ _ => True)) w.
Proof.
  induction fuel as [|fuel IH]; intros mx done prev pr w Hd; cbn [simulationLoop].
  - by destruct (negb _).
  - destruct (negb _); [done|].
    apply wp_bind, wp_gets. apply wp_bind.
    eapply wp_mono; [|by apply runSimulationBatch_detached].
    intros [pr'|e] w' H; [|done].
    destruct (_ && _); [done|]. by apply IH.
Qed.

(** The loop starts with at least one iteration. *)
Lemma simulationLoop_detaches random fuel maxIterations previousEquities playerResults w :
  wellFormed w -> (0 < maxIterations)%nat ->
  let b := board (self w) in
  let k := cardsNeededForBoard (cardsOf (heap w) b) (getVariant (evaluator (self w))) in
  wp (simulationLoop random fuel maxIterations 0 previousEquities playerResults)
     (post (fun r w' =>
              r = None
              ∨ ∃ c0, detached (length (heap w)) b c0 (viewOf w) (self w) w'
                      ∧ (cardsOf (heap w) b) `prefix_of` c0
                      ∧ length c0 = (length (cardsOf (heap w) b) + k)%nat)
           (fun _ _ => True)) w.
Proof.
  intros Hwf Hmax. cbv zeta. destruct fuel as [|fuel]; cbn [simulationLoop].
  - destruct (Nat.ltb_spec 0 maxIterations); [|lia]. cbn. by left.
  - destruct (Nat.ltb_spec 0 maxIterations); [|lia]. cbn [negb].
    apply wp_bind, wp_gets. apply wp_bind.
    eapply wp_mono; [|apply runSimulationBatch_detaches; [done|]].
    2:{ unfold batchSize. lia. }
    intros [pr'|e] w'; [|done]. cbv zeta. intros (c0 & Hd & Hpre & Hlen).
    destruct (_ && _); [right; by exists c0|].
    eapply wp_mono; [|by apply simulationLoop_detached].
    intros [r|e] w'' Hd'; [|done]. right. by exists c0.
Qed.

(** The fuel given to the loop is never used up. *)
Lemma simulationLoop_fuel random fuel :
  ∀ maxIterations iterationsCompleted previousEquities playerResults w,
    (maxIterations - iterationsCompleted <= fuel)%nat ->
    wp (simulationLoop random fuel maxIterations iterationsCompleted previousEquities
          playerResults)
       (post (fun r _ => r ≠ None) (fun _ _ => True)) w.
Proof.
  induction fuel as [|fuel IH]; intros mx done prev pr w Hfuel; cbn [simulationLoop].
  - destruct (Nat.ltb_spec done mx); [lia | done].
  - destruct (Nat.ltb_spec done mx); [|done]. cbn [negb].
    apply wp_bind, wp_gets. apply wp_bind.
    unfold wp at 1.
    destruct (runSimulationBatch _ _ _ _) as [[pr'|e] w']; [|done]. cbn [fst snd].
    destruct (_ && _); [done|]. apply IH. unfold batchSize. lia.
Qed.

(** What a completed Monte Carlo calculation leaves behind: the calculator
    refers to copies that show the original cards, and the board object it
    was given holds the cards that the first iteration dealt to it. *)
Lemma monteCarloCalculate_detaches random w res w' :
  wellFormed w ->
  monteCarloCalculate random w = (Ok (Some res), w') ->
  let b := board (self w) in
  let k := cardsNeededForBoard (cardsOf (heap w) b) (getVariant (evaluator (self w))) in
  viewOf w' = viewOf w
  ∧ board (self w') ≠ b
  ∧ (cardsOf (heap w) b) `prefix_of` (cardsOf (heap w') b)
  ∧ length (cardsOf (heap w') b) = (length (cardsOf (heap w) b) + k)%nat.
Proof.
  intros Hwf Hrun. cbv zeta.
  assert (Hwp : wp (monteCarloCalculate random)
            (post (fun r w' =>
                     r = None
                     ∨ ∃ c0, detached (length (heap w)) (board (self w)) c0 (viewOf w)
                               (self w) w'
                             ∧ (cardsOf (heap w) (board (self w))) `prefix_of` c0
                             ∧ length c0
                               = (length (cardsOf (heap w) (board (self w)))
                                  + cardsNeededForBoard (cardsOf (heap w) (board (self w)))
                                      (getVariant (evaluator (self w))))%nat)
                  (fun _ _ => True)) w).
  { unfold monteCarloCalculate. apply wp_bind, wp_gets.
    apply wp_bind, wp_createInitialPlayerEquities. apply wp_bind.
    eapply wp_mono; [|apply simulationLoop_detaches; [done|]].
    2:{ destruct (Nat.eqb_spec (iterations (options (self w))) 0); [by apply Nat.ltb_lt | lia]. }
    intros [[[n pr]|]|e] w1; [| |done]; cbv zeta; intros H.
    - apply wp_ret. cbn. destruct H as [H|H]; [done | by right].
    - apply wp_ret. by left. }
  eapply wp_run in Hwp; [|exact Hrun]. cbn in Hwp.
  destruct Hwp as [Hnone|(c0 & Hd & Hpre & Hlen)]; [done|].
  destruct Hd as (_ & Hnb & _ & Hb0 & Hc0 & Hview & _).
  split; [done|]. split; [lia|]. rewrite Hc0. done.
Qed.

Lemma monteCarloCalculate_returns random w r w' :
  monteCarloCalculate random w = (Ok r, w') -> r ≠ None.
Proof.
  intros Hrun.
  assert (Hwp : wp (monteCarloCalculate random) (post (fun r _ => r ≠ None) (fun _ _ => True)) w).
  { unfold monteCarloCalculate. apply wp_bind, wp_gets.
    apply wp_bind, wp_createInitialPlayerEquities. apply wp_bind.
    eapply wp_mono; [|apply simulationLoop_fuel; lia].
    by intros [[[n pr]|]|e] w1. }
  eapply wp_run in Hwp; [|exact Hrun]. exact Hwp.
Qed.


(** C5 fails on the code: the iteration writes the dealt cards into the
    objects the calculator refers to and then makes the calculator refer to
    the copies it took before; the objects of the caller were written by the
    first iteration and are never written again. Whatever the random draws,
    when a Monte Carlo calculation returns, the board object it was given
    holds its original cards followed by the cards it lacked. *)
Theorem C5_callers_board_keeps_the_dealt_cards random h hs b dead gameVariant opts res :
  (b < length h)%nat -> (∀ x, x ∈ hs -> (x < length h)%nat) -> b ∉ hs ->
  outcome (runMonteCarlo random h hs b dead gameVariant opts) = Ok (Some res) ->
  let h' := finalHeap (runMonteCarlo random h hs b dead gameVariant opts) in
  (cardsOf h b) `prefix_of` (cardsOf h' b)
  ∧ length (cardsOf h' b)
    = (length (cardsOf h b) + cardsNeededForBoard (cardsOf h b) gameVariant)%nat.
Proof.
  intros Hb Hhs Hbhs. unfold runMonteCarlo.
  destruct (newCalculator hs b dead gameVariant opts h) as [[this|e] h0] eqn:Enew; [|done].
  destruct (newCalculator_ok _ _ _ _ _ _ _ _ Enew) as (-> & ev & Hev & ->).
  destruct (monteCarloCalculate _ _) as [r w'] eqn:Erun. cbn [outcome finalHeap].
  intros ->. apply monteCarloCalculate_detaches in Erun; [|done].
  cbn in Erun. rewrite (getEvaluator_variant _ _ Hev) in Erun.
  by destruct Erun as (_ & _ & ? & ?).
Qed.

Lemma C5_witness :
  let run := runMonteCarlo (fun _ => O) flopBoard [0; 1]%nat 2%nat [] TEXAS_HOLDEM
               (mkCalculationOptions (Some 3%nat) None None None) in
  (∃ res, outcome run = Ok (Some res) ∧ totalHands res = 3%nat ∧ isExact res = false)
  ∧ cardsOf flopBoard 2 = cardsOfString "Ts9s2h"
  ∧ cardsOf (finalHeap run) 2 = cardsOfString "Ts9s2h2sAc"
  ∧ (cardsOf flopBoard 2) `prefix_of` (cardsOf (finalHeap run) 2)
  ∧ length (cardsOf (finalHeap run) 2)
    = (length (cardsOf flopBoard 2)
       + cardsNeededForBoard (cardsOf flopBoard 2) TEXAS_HOLDEM)%nat.
Proof.
  cbv zeta. split; [eexists; split; [vm_compute; reflexivity | split; reflexivity]|].
  split; [reflexivity|]. split; [vm_compute; reflexivity|].
  eapply (C5_callers_board_keeps_the_dealt_cards (fun _ => O) flopBoard [0; 1]%nat 2%nat []
            TEXAS_HOLDEM (mkCalculationOptions (Some 3%nat) None None None)).
  - vm_compute; lia.
  - intros x Hx. apply elem_of_cons in Hx as [->|Hx]; [vm_compute; lia|].
    apply list_elem_of_singleton in Hx as ->. vm_compute; lia.
  - intros Hx. apply elem_of_cons in Hx as [Hx|Hx]; [discriminate|].
    apply list_elem_of_singleton in Hx. discriminate.
  - vm_compute. reflexivity.
Defined.

(** * Further properties

    ** Cards, hands and boards *)

Lemma createCard_cardToString c : createCard (cardToString c) = Ok c.
Proof. by destruct c as [[] []]. Qed.

Lemma cardToString_two c : ∃ c0 c1, cardToString c = String c0 (String c1 "").
Proof. destruct c as [[] []]; by eexists _, _. Qed.

Lemma cardToString_inj c1 c2 : cardToString c1 = cardToString c2 -> c1 = c2.
Proof.
  intros H. pose proof (createCard_cardToString c1) as H1.
  rewrite H, createCard_cardToString in H1. by injection H1.
Qed.

Lemma createCardsFrom_cons i c s :
  createCardsFrom i (cardToString c +:+ s)
  = rbind (createCardsFrom (i + 2) s) (fun cards => Ok (c :: cards)).
Proof.
  destruct (cardToString_two c) as (c0 & c1 & Hc).
  pose proof (createCard_cardToString c) as Hcard. rewrite Hc in *.
  change (String c0 (String c1 "") +:+ s) with (String c0 (String c1 s)).
  cbn [createCardsFrom]. by rewrite Hcard.
Qed.

Lemma createCardsFrom_cardsToString cards : ∀ i,
  createCardsFrom i (cardsToString cards) = Ok cards.
Proof.
  induction cards as [|c cards IH]; intros i; [done|].
  change (cardsToString (c :: cards)) with (cardToString c +:+ cardsToString cards).
  by rewrite createCardsFrom_cons, IH.
Qed.

(** X1: parsing what [cardsToString] prints gives the cards back, for every
    list of cards, the empty one included. *)
Theorem X1_createCards_cardsToString (cards : list Card) :
  createCards (cardsToString cards) = Ok cards.
Proof. apply createCardsFrom_cardsToString. Qed.

Lemma createCard_canonical c0 c1 c :
  createCard (String c0 (String c1 "")) = Ok c ->
  cardToString c = String (toUpperCase c0) (String (toLowerCase c1) "").
Proof.
  unfold createCard, rankMap, suitMap.
  destruct (find _ allRanks) as [r|] eqn:Er; [|done].
  destruct (find _ [SPADES; HEARTS; DIAMONDS; CLUBS]) as [s|] eqn:Es; [|done].
  intros [= <-].
  apply find_some in Er as [_ Er]. apply find_some in Es as [_ Es].
  apply bool_decide_eq_true in Er, Es.
  unfold cardToString. cbn [rank suit]. by rewrite Er, Es.
Qed.

Lemma createCardsFrom_canonical s : ∀ i cards,
  createCardsFrom i s = Ok cards ->
  cardsToString cards = canonical s ∧ String.length s = (2 * length cards)%nat.
Proof.
  induction s as [s IH] using (well_founded_induction (well_founded_ltof _ String.length)).
  intros i cards. destruct s as [|c0 [|c1 rest]]; cbn [createCardsFrom].
  - by intros [= <-].
  - done.
  - destruct (createCard _) as [card|] eqn:Ecard; [|done]. cbn [rbind].
    destruct (createCardsFrom (i + 2) rest) as [cards'|] eqn:Erest; [|done]. cbn [rbind].
    intros [= <-]. apply IH in Erest as [Hs Hl]; [|unfold ltof; cbn; lia].
    apply createCard_canonical in Ecard.
    change (cardsToString (card :: cards')) with (cardToString card +:+ cardsToString cards').
    rewrite Ecard, Hs. split; [done|]. cbn [String.length length]. lia.
Qed.

(** X2: when [createCards] accepts a text, printing the cards gives the text
    back with every rank in upper case and every suit in lower case, and the
    text has two characters for each card. *)
Theorem X2_createCards_canonical (s : string) (cards : list Card) :
  createCards s = Ok cards ->
  cardsToString cards = canonical s ∧ String.length s = (2 * length cards)%nat.
Proof. apply createCardsFrom_canonical. Qed.

Lemma X2_witness :
  createCards "aSkH" = Ok [mkCard ACE SPADES; mkCard KING HEARTS]
  ∧ cardsToString [mkCard ACE SPADES; mkCard KING HEARTS] = canonical "aSkH"
  ∧ String.length "aSkH" = (2 * length [mkCard ACE SPADES; mkCard KING HEARTS])%nat.
Proof.
  split; [reflexivity|].
  apply (X2_createCards_canonical "aSkH" [mkCard ACE SPADES; mkCard KING HEARTS]).
  reflexivity.
Defined.

Lemma firstRepeated_None cards : ∀ seen,
  firstRepeated seen cards = None
  ↔ NoDup cards ∧ ∀ c, c ∈ cards -> cardToString c ∉ seen.
Proof.
  induction cards as [|c cards IH]; intros seen; cbn [firstRepeated].
  - split; [|done]. intros _. split; [constructor|]. intros c Hc. by apply elem_of_nil in Hc.
  - change (rankChar (rank c) +:+ suitChar (suit c)) with (cardToString c).
    case_bool_decide as Hseen.
    + split; [done|]. intros [_ H]. destruct (H c); [left | done].
    + rewrite IH. split.
      * intros [Hnd Hall]. split.
        -- constructor; [|done]. intros Hin. apply (Hall c Hin). left.
        -- intros c' [->|Hin]%elem_of_cons; [done|].
           intros Hs. apply (Hall c' Hin). by right.
      * intros [Hnd Hall]. apply NoDup_cons in Hnd as [Hnotin Hnd]. split; [done|].
        intros c' Hin [Heq|Hs]%elem_of_cons.
        -- apply cardToString_inj in Heq as ->. done.
        -- apply (Hall c'); [by right | done].
Qed.

Lemma firstRepeated_Some cards : ∀ seen cardStr,
  firstRepeated seen cards = Some cardStr ->
  ∃ c, cardStr = cardToString c ∧ c ∈ cards
       ∧ (cardStr ∈ seen ∨ (2 <= occurrences c cards)%nat).
Proof.
  induction cards as [|c cards IH]; intros seen cardStr; cbn [firstRepeated]; [done|].
  change (rankChar (rank c) +:+ suitChar (suit c)) with (cardToString c).
  case_bool_decide as Hseen.
  - intros [= <-]. exists c. split; [done|]. split; [left|by left].
  - intros H. apply IH in H as (c' & -> & Hin & Hor). exists c'. split; [done|].
    split; [by right|]. destruct Hor as [[Heq|Hs]%elem_of_cons|Hocc].
    + apply cardToString_inj in Heq as ->. right.
      rewrite occurrences_cons_eq. apply occurrences_elem in Hin. lia.
    + by left.
    + right. change (c :: cards) with ([c] ++ cards). rewrite occurrences_app. lia.
Qed.

(** X3: [validateHand] and [validateBoard] accept exactly the lists that hold
    no card twice and no more cards than the variant allows in a hand, or on
    the board; when one of them reports a duplicate, the card it names occurs
    at least twice. *)
Theorem X3_validateHand_accepts (cards : list Card) (variant : GameVariant) :
  (validateHand cards variant = Ok tt
   ↔ (length cards <= maxHoleCards (GAME_CONFIGS variant))%nat ∧ NoDup cards)
  ∧ (validateBoard cards variant = Returns tt
     ↔ (length cards <= maxBoardCards (GAME_CONFIGS variant))%nat ∧ NoDup cards)
  ∧ (∀ s, validateHand cards variant = Throw (DuplicateCardInHand s) ->
       ∃ c, s = cardToString c ∧ (2 <= occurrences c cards)%nat)
  ∧ (∀ s, validateBoard cards variant = Throws (DuplicateCardOnBoard s) ->
       ∃ c, s = cardToString c ∧ (2 <= occurrences c cards)%nat).
Proof.
  unfold validateHand, validateBoard. repeat split.
  - destruct (Nat.ltb_spec (maxHoleCards (GAME_CONFIGS variant)) (length cards)); [done|lia].
  - destruct (Nat.ltb_spec (maxHoleCards (GAME_CONFIGS variant)) (length cards)); [done|].
    destruct (firstRepeated [] cards) eqn:E; [done|]. by apply firstRepeated_None in E as [? _].
  - intros [Hlen Hnd].
    destruct (Nat.ltb_spec (maxHoleCards (GAME_CONFIGS variant)) (length cards)); [lia|].
    destruct (firstRepeated [] cards) eqn:E; [|done].
    assert (firstRepeated [] cards = None) as Hn; [|congruence].
    apply firstRepeated_None. split; [done|]. intros c _ Hc. by apply elem_of_nil in Hc.
  - destruct (Nat.ltb_spec (maxBoardCards (GAME_CONFIGS variant)) (length cards)); [done|lia].
  - destruct (Nat.ltb_spec (maxBoardCards (GAME_CONFIGS variant)) (length cards)); [done|].
    destruct (firstRepeated [] cards) eqn:E; [done|]. by apply firstRepeated_None in E as [? _].
  - intros [Hlen Hnd].
    destruct (Nat.ltb_spec (maxBoardCards (GAME_CONFIGS variant)) (length cards)); [lia|].
    destruct (firstRepeated [] cards) eqn:E; [|done].
    assert (firstRepeated [] cards = None) as Hn; [|congruence].
    apply firstRepeated_None. split; [done|]. intros c _ Hc. by apply elem_of_nil in Hc.
  - intros s. destruct (_ <? _)%nat; [done|].
    destruct (firstRepeated [] cards) eqn:E; [|done]. intros [= <-].
    apply firstRepeated_Some in E as (c & -> & _ & [Hs|Hocc]); [by apply elem_of_nil in Hs|].
    by exists c.
  - intros s. destruct (_ <? _)%nat; [done|].
    destruct (firstRepeated [] cards) eqn:E; [|done]. intros [= <-].
    apply firstRepeated_Some in E as (c & -> & _ & [Hs|Hocc]); [by apply elem_of_nil in Hs|].
    by exists c.
Qed.

Lemma cardsToString_empty cards : cardsToString cards = "" -> cards = [].
Proof.
  destruct cards as [|c cards]; [done|].
  change (cardsToString (c :: cards)) with (cardToString c +:+ cardsToString cards).
  destruct (cardToString_two c) as (c0 & c1 & ->). done.
Qed.

Lemma validateHand_ok cards variant :
  validateHand cards variant = Ok tt
  ↔ (length cards <= maxHoleCards (GAME_CONFIGS variant))%nat ∧ NoDup cards.
Proof.
  unfold validateHand.
  destruct (Nat.ltb_spec (maxHoleCards (GAME_CONFIGS variant)) (length cards)).
  { split; [done|lia]. }
  destruct (firstRepeated [] cards) eqn:E.
  - split; [done|]. intros [_ Hnd].
    assert (firstRepeated [] cards = None) as Hn; [|congruence].
    apply firstRepeated_None. split; [done|]. intros c _ Hc. by apply elem_of_nil in Hc.
  - apply firstRepeated_None in E as [? _]. done.
Qed.

Lemma validateBoard_ok cards variant :
  validateBoard cards variant = Returns tt
  ↔ (length cards <= maxBoardCards (GAME_CONFIGS variant))%nat ∧ NoDup cards.
Proof.
  unfold validateBoard.
  destruct (Nat.ltb_spec (maxBoardCards (GAME_CONFIGS variant)) (length cards)).
  { split; [done|lia]. }
  destruct (firstRepeated [] cards) eqn:E.
  - split; [done|]. intros [_ Hnd].
    assert (firstRepeated [] cards = None) as Hn; [|congruence].
    apply firstRepeated_None. split; [done|]. intros c _ Hc. by apply elem_of_nil in Hc.
  - apply firstRepeated_None in E as [? _]. done.
Qed.

Lemma createHand_ok handStr variant cards :
  createHand handStr variant = Ok cards ->
  createCards handStr = Ok cards ∧ validateHand cards variant = Ok tt.
Proof.
  unfold createHand. destruct handStr as [|c rest].
  - intros [= <-]. split; [done|]. by apply validateHand_ok; split; [cbn; lia | constructor].
  - destruct (createCards _) as [cards'|]; [|done]. cbn [rbind].
    destruct (validateHand cards' variant) as [[]|] eqn:E; [|done]. cbn [rbind].
    by intros [= <-].
Qed.

Lemma createBoard_ok boardStr variant cards :
  createBoard boardStr variant = Returns cards ->
  createCards boardStr = Ok cards ∧ validateBoard cards variant = Returns tt.
Proof.
  unfold createBoard. destruct boardStr as [|c rest].
  - intros [= <-]. split; [done|]. by apply validateBoard_ok; split; [cbn; lia | constructor].
  - destruct (createCards _) as [cards'|]; [|done].
    destruct (validateBoard cards' variant) as [[]|] eqn:E; [|done].
    by intros [= <-].
Qed.

(** X4: cards that are pairwise distinct survive printing and re-creating, as
    a hand when they are no more than the variant's hole cards and as a board
    when they are no more than its board cards. *)
Theorem X4_createHand_handToString (cards : list Card) (variant : GameVariant) :
  NoDup cards ->
  ((length cards <= maxHoleCards (GAME_CONFIGS variant))%nat ->
   createHand (handToString cards) variant = Ok cards)
  ∧ ((length cards <= maxBoardCards (GAME_CONFIGS variant))%nat ->
     createBoard (boardToString cards) variant = Returns cards).
Proof.
  intros Hnd. unfold createHand, createBoard, handToString, boardToString. split; intros Hlen.
  - destruct (cardsToString cards) eqn:Es.
    + by rewrite (cardsToString_empty _ Es).
    + rewrite <- Es. unfold createCards. rewrite createCardsFrom_cardsToString. cbn [rbind].
      by rewrite (proj2 (validateHand_ok cards variant)).
  - destruct (cardsToString cards) eqn:Es.
    + by rewrite (cardsToString_empty _ Es).
    + rewrite <- Es. unfold createCards. rewrite createCardsFrom_cardsToString.
      by rewrite (proj2 (validateBoard_ok cards variant)).
Qed.

Lemma X4_witness :
  NoDup (cardsOfString "AsKh")
  ∧ createHand (handToString (cardsOfString "AsKh")) TEXAS_HOLDEM = Ok (cardsOfString "AsKh")
  ∧ createBoard (boardToString (cardsOfString "AsKh")) TEXAS_HOLDEM
    = Returns (cardsOfString "AsKh").
Proof.
  assert (NoDup (cardsOfString "AsKh")) as Hnodup
    by (apply (bool_decide_unpack _); vm_compute; reflexivity).
  split; [exact Hnodup|].
  destruct (X4_createHand_handToString (cardsOfString "AsKh") TEXAS_HOLDEM Hnodup)
    as [Hhand Hboard].
  split; [apply Hhand | apply Hboard]; vm_compute; lia.
Defined.

(** X5: a hand that [createHand] returns holds no card twice, prints as its
    text in canonical case, lacks [cardsNeededForHand] cards of the variant's
    hand size and is complete exactly when it lacks none; likewise for a
    board that [createBoard] returns, on which [getBoardStage] throws exactly
    when it holds one or two cards. *)
Theorem X5_created_hand_and_board (str : string) (variant : GameVariant) (cards : list Card) :
  (createHand str variant = Ok cards ->
   NoDup cards
   ∧ handToString cards = canonical str
   ∧ (cardsNeededForHand cards variant + length cards
      = maxHoleCards (GAME_CONFIGS variant))%nat
   ∧ (isHandComplete cards variant = true ↔ cardsNeededForHand cards variant = 0%nat))
  ∧ (createBoard str variant = Returns cards ->
     NoDup cards
     ∧ boardToString cards = canonical str
     ∧ (cardsNeededForBoard cards variant + length cards
        = maxBoardCards (GAME_CONFIGS variant))%nat
     ∧ (isBoardComplete cards variant = true ↔ cardsNeededForBoard cards variant = 0%nat)
     ∧ ((∃ e, getBoardStage cards = Throws e)
        ↔ length cards = 1%nat ∨ length cards = 2%nat)).
Proof.
  split.
  - intros [Hcards [Hlen Hnd]%validateHand_ok]%createHand_ok.
    apply createCardsFrom_canonical in Hcards as [Hs _].
    unfold cardsNeededForHand, isHandComplete. repeat split; try done; try lia.
    + intros H%Nat.eqb_eq. lia.
    + intros H. apply Nat.eqb_eq. lia.
  - intros [Hcards [Hlen Hnd]%validateBoard_ok]%createBoard_ok.
    apply createCardsFrom_canonical in Hcards as [Hs _].
    assert (Hmax : (maxBoardCards (GAME_CONFIGS variant) <= 5)%nat)
      by (destruct variant; cbn; lia).
    unfold cardsNeededForBoard, isBoardComplete, getBoardStage.
    repeat split; try done; try lia.
    + intros H%Nat.eqb_eq. lia.
    + intros H. apply Nat.eqb_eq. lia.
    + intros [e He].
      destruct (length cards) as [|[|[|[|[|[|n]]]]]]; cbn in He; try done; auto; lia.
    + intros [H|H]; rewrite H; cbn; eauto.
Qed.

Lemma X5_witness :
  createHand "aSkH" TEXAS_HOLDEM = Ok (cardsOfString "AsKh")
  ∧ createBoard "aSkH" TEXAS_HOLDEM = Returns (cardsOfString "AsKh")
  ∧ NoDup (cardsOfString "AsKh")
  ∧ handToString (cardsOfString "AsKh") = "AsKh"
  ∧ cardsNeededForHand (cardsOfString "AsKh") TEXAS_HOLDEM = 0%nat
  ∧ cardsNeededForBoard (cardsOfString "AsKh") TEXAS_HOLDEM = 3%nat
  ∧ (∃ e, getBoardStage (cardsOfString "AsKh") = Throws e).
Proof.
  assert (createHand "aSkH" TEXAS_HOLDEM = Ok (cardsOfString "AsKh")) as Hhand
    by (vm_compute; reflexivity).
  assert (createBoard "aSkH" TEXAS_HOLDEM = Returns (cardsOfString "AsKh")) as Hboard
    by (vm_compute; reflexivity).
  destruct (X5_created_hand_and_board "aSkH" TEXAS_HOLDEM (cardsOfString "AsKh"))
    as [H1 H2].
  destruct (H1 Hhand) as (Hnodup & Hstr & _ & _).
  destruct (H2 Hboard) as (_ & _ & _ & _ & Hstage).
  split; [exact Hhand|]. split; [exact Hboard|]. split; [exact Hnodup|].
  split; [exact Hstr|]. split; [reflexivity|]. split; [reflexivity|].
  apply Hstage. right. reflexivity.
Defined.

(** ** Combinations and the deck *)

Lemma choose_above n : ∀ k, (n < k)%nat -> choose n k = 0%nat.
Proof.
  induction n as [|n IH]; intros [|k] H; cbn; try lia.
  rewrite !IH by lia. done.
Qed.

Lemma generateCombinations_spec cards : ∀ k combo,
  combo ∈ generateCombinations cards k ↔ combo `sublist_of` cards ∧ length combo = k.
Proof.
  induction cards as [|first rest IH]; intros k combo.
  - destruct k as [|k]; cbn.
    + rewrite list_elem_of_singleton. split; [intros ->; split; [done|done]|].
      intros [_ H]. by destruct combo.
    + split; [by intros ?%elem_of_nil|]. intros [Hs Hl]. apply sublist_nil_r in Hs. by subst.
  - destruct k as [|k].
    + cbn. rewrite list_elem_of_singleton. split; [intros ->; split; [apply sublist_nil_l|done]|].
      intros [_ H]. by destruct combo.
    + cbn [generateCombinations].
      destruct (Nat.ltb_spec (length (first :: rest)) (S k)) as [Hlt|Hge].
      * split; [by intros ?%elem_of_nil|]. intros [Hs Hl].
        apply sublist_length in Hs. lia.
      * rewrite elem_of_app, list_elem_of_fmap. setoid_rewrite IH. split.
        -- intros [(c' & -> & Hs & Hl)|[Hs Hl]].
           ++ split; [by apply sublist_skip | cbn; lia].
           ++ split; [by apply sublist_cons | done].
        -- intros [Hs Hl]. destruct combo as [|x c']; [done|].
           apply sublist_cons_l in Hs as (l1 & l2 & Heq & Hs).
           destruct l1 as [|y l1]; cbn in Heq.
           ++ injection Heq as -> ->. left. exists c'. cbn in Hl. split; [done|]. split; [done|lia].
           ++ injection Heq as -> ->. right. split; [|done].
              apply sublist_cons_l. by exists l1, l2.
Qed.

Lemma generateCombinations_count cards : ∀ k,
  length (generateCombinations cards k) = choose (length cards) k.
Proof.
  induction cards as [|first rest IH]; intros [|k]; try done.
  cbn [generateCombinations].
  destruct (Nat.ltb_spec (length (first :: rest)) (S k)) as [Hlt|Hge].
  - cbn in Hlt. cbn [length choose]. rewrite !choose_above by lia. done.
  - rewrite length_app, length_map, !IH. done.
Qed.

Lemma generateCombinations_NoDup cards : ∀ k,
  NoDup cards -> NoDup (generateCombinations cards k).
Proof.
  induction cards as [|first rest IH]; intros [|k] Hnd; cbn [generateCombinations];
    try (apply NoDup_singleton); try (case_match; apply NoDup_nil_2).
  apply NoDup_cons in Hnd as [Hfirst Hnd].
  case_match; [apply NoDup_nil_2|].
  apply NoDup_app. split; [|split].
  - apply NoDup_fmap_2; [|by apply IH]. by intros ?? [=].
  - intros combo (c' & -> & _)%list_elem_of_fmap [Hs _]%generateCombinations_spec.
    apply Hfirst. eapply elem_of_sublist; [|exact Hs]. left.
  - by apply IH.
Qed.

(** X7: [generateCombinations cards k] lists exactly the subsequences of
    [cards] of length [k]; there are C(length cards, k) of them, none when
    [k] exceeds the number of cards, and no subsequence is listed twice when
    the cards are pairwise distinct. *)
Theorem X7_generateCombinations_sublists (cards : list Card) (k : nat) :
  (∀ combo, combo ∈ generateCombinations cards k
            ↔ combo `sublist_of` cards ∧ length combo = k)
  ∧ length (generateCombinations cards k) = choose (length cards) k
  ∧ ((length cards < k)%nat -> generateCombinations cards k = [])
  ∧ (NoDup cards -> NoDup (generateCombinations cards k)).
Proof.
  split; [intros combo; apply generateCombinations_spec|].
  split; [apply generateCombinations_count|].
  split; [|apply generateCombinations_NoDup].
  intros Hlt. apply length_zero_iff_nil.
  rewrite generateCombinations_count. by apply choose_above.
Qed.


Lemma removeCards_spec cards rm c :
  c ∈ removeCards cards rm ↔ c ∈ cards ∧ c ∉ rm.
Proof.
  unfold removeCards. rewrite list_elem_of_filter.
  change (existsb _ rm) with (isCardInArray c rm).
  split; intros [H1 H2]; split; try done.
  - intros Hin. apply H1. apply Is_true_true. by apply isCardInArray_spec.
  - intros Ht%Is_true_true. by apply isCardInArray_spec in Ht.
Qed.

Lemma removeCards_sublist cards rm : removeCards cards rm `sublist_of` cards.
Proof. apply sublist_filter. Qed.

(** X8: after [removeCards], the deck holds exactly its former cards that are
    not among the removed ones, in their former order, and [hasCard] answers
    no for every removed card. *)
Theorem X8_removeCards (cards cardsToRemove : list Card) :
  (∀ c, c ∈ removeCards cards cardsToRemove ↔ c ∈ cards ∧ c ∉ cardsToRemove)
  ∧ removeCards cards cardsToRemove `sublist_of` cards
  ∧ (∀ c, c ∈ cardsToRemove -> isCardInArray c (removeCards cards cardsToRemove) = false).
Proof.
  split; [intros c; apply removeCards_spec|]. split; [apply removeCards_sublist|].
  intros c Hc. apply isCardInArray_false. rewrite removeCards_spec. tauto.
Qed.

Lemma deal_spec cards count :
  match deal cards count with
  | Ok (dealt, rest) =>
      (count <= length cards)%nat ∧ cards = rest ++ reverse dealt ∧ length dealt = count
  | Throw e => (length cards < count)%nat ∧ e = CannotDeal count (length cards)
  end.
Proof.
  unfold deal. destruct (Nat.ltb_spec (length cards) count) as [Hlt|Hge]; [done|].
  split; [done|]. split.
  - by rewrite take_reverse, reverse_involutive, take_drop.
  - rewrite length_take, length_reverse. lia.
Qed.

(** X9: [deal] returns [count] cards and leaves a deck such that the former
    deck is the remaining deck followed by the dealt cards in reverse; it
    throws exactly when the deck is shorter than [count], naming both
    numbers. *)
Theorem X9_deal (cards : list Card) (count : nat) :
  (∀ dealt rest,
     deal cards count = Ok (dealt, rest)
     ↔ cards = rest ++ reverse dealt ∧ length dealt = count)
  ∧ (∀ e, deal cards count = Throw e
          ↔ (length cards < count)%nat ∧ e = CannotDeal count (length cards)).
Proof.
  pose proof (deal_spec cards count) as Hspec. split.
  - intros dealt rest. split.
    + intros H. rewrite H in Hspec. tauto.
    + intros [Hcards Hlen]. unfold deal.
      assert (Hl : length cards = (length rest + count)%nat).
      { rewrite Hcards, length_app, length_reverse. lia. }
      destruct (Nat.ltb_spec (length cards) count); [lia|].
      f_equal. f_equal.
      * rewrite Hcards, reverse_app, reverse_involutive.
        rewrite take_app_length'; done.
      * rewrite Hcards at 2. rewrite take_app_length'; [done|lia].
  - intros e. split.
    + intros H. rewrite H in Hspec. tauto.
    + intros [Hlt ->]. unfold deal. by destruct (Nat.ltb_spec (length cards) count); [|lia].
Qed.

Lemma insert_Permutation_cons (l : list Card) : ∀ j y a,
  l !! j = Some y -> y :: <[j := a]> l ≡ₚ a :: l.
Proof.
  induction l as [|b t IH]; intros [|j] y a H; try done.
  - injection H as ->. cbn. apply perm_swap.
  - cbn in *. rewrite perm_swap. rewrite (IH _ _ _ H). apply perm_swap.
Qed.

Lemma insert_insert_Permutation (l : list Card) : ∀ i j ci cj,
  l !! i = Some ci -> l !! j = Some cj -> <[j := ci]> (<[i := cj]> l) ≡ₚ l.
Proof.
  induction l as [|a l IH]; intros [|i] [|j] ci cj Hi Hj; try done.
  - by simplify_eq/=.
  - simplify_eq/=. by apply insert_Permutation_cons.
  - simplify_eq/=. by apply insert_Permutation_cons.
  - cbn. f_equiv. by apply IH.
Qed.

Lemma swap_Permutation (cards : list Card) i j : swap cards i j ≡ₚ cards.
Proof.
  unfold swap. destruct (cards !! i) as [ci|] eqn:Ei; [|done].
  destruct (cards !! j) as [cj|] eqn:Ej; [|done].
  by apply insert_insert_Permutation.
Qed.

Lemma shuffleFrom_Permutation random i : ∀ cards w,
  ∃ cards', shuffleFrom random i cards w
            = (Ok cards', mkWorld (heap w) (self w) (randomCalls w + i) (evaluations w))
            ∧ cards' ≡ₚ cards.
Proof.
  induction i as [|i IH]; intros cards w.
  - exists cards. cbn. unfold ret. destruct w. cbn. by rewrite Nat.add_0_r.
  - cbn [shuffleFrom]. unfold bind, randomBelow. cbn [heap self randomCalls evaluations].
    edestruct (IH (swap cards (S i) (random (randomCalls w) mod (S i + 1))))
      as (cards' & Hrun & Hperm).
    rewrite Hrun. exists cards'. cbn [heap self randomCalls evaluations].
    split; [|by rewrite Hperm, swap_Permutation].
    by replace (randomCalls w + S i)%nat with (S (randomCalls w) + i)%nat by lia.
Qed.

(** Swapping within the first [S i] cards brings the card at [j] to [i] and
    keeps the cards behind [i]. *)
Lemma swap_prefix (cards : list Card) i j ci cj :
  (j <= i)%nat -> cards !! i = Some ci -> cards !! j = Some cj ->
  swap cards i j !! i = Some cj
  ∧ drop (S i) (swap cards i j) = drop (S i) cards
  ∧ take (S i) (swap cards i j) ≡ₚ take (S i) cards.
Proof.
  intros Hji Hi Hj. unfold swap. rewrite Hi, Hj.
  pose proof (lookup_lt_Some _ _ _ Hi) as Hli.
  pose proof (lookup_lt_Some _ _ _ Hj) as Hlj.
  split; [|split].
  - destruct (decide (j = i)) as [->|Hne].
    + rewrite list_lookup_insert_eq by (rewrite length_insert; lia). congruence.
    + rewrite list_lookup_insert_ne by done. by rewrite list_lookup_insert_eq.
  - rewrite !drop_insert_lt by lia. done.
  - rewrite !take_insert_lt by lia.
    apply insert_insert_Permutation; rewrite lookup_take_lt by lia; done.
Qed.

(** The choices that make the rest of a shuffle produce [target]. *)
Lemma shuffleFrom_reaches i : ∀ (cards target : list Card) w,
  (i <= length cards - 1)%nat ->
  take (S i) cards ≡ₚ take (S i) target -> drop (S i) cards = drop (S i) target ->
  ∃ js : list nat,
    ∀ random, (∀ k, (k < i)%nat -> random (randomCalls w + k)%nat = js !!! k) ->
      shuffleFrom random i cards w
      = (Ok target, mkWorld (heap w) (self w) (randomCalls w + i) (evaluations w)).
Proof.
  induction i as [|i IH]; intros cards target w Hi Htake Hdrop.
  - exists []. intros random _. cbn. unfold ret. rewrite Nat.add_0_r.
    assert (cards = target) as ->.
    { rewrite <- (take_drop 1 cards), <- (take_drop 1 target), Hdrop. f_equal.
      destruct cards as [|c cards], target as [|t target]; cbn in *; try done.
      - by apply Permutation_nil_cons in Htake.
      - symmetry in Htake. by apply Permutation_nil_cons in Htake.
      - by apply Permutation_singleton_l in Htake. }
    by destruct w.
  - assert (S i < length cards)%nat as Hlen by lia.
    assert (length target = length cards) as Hlt.
    { rewrite <- (take_drop (S (S i)) cards), <- (take_drop (S (S i)) target), !length_app.
      by rewrite (Permutation_length Htake), Hdrop. }
    destruct (lookup_lt_is_Some_2 target (S i)) as [t Ht]; [lia|].
    destruct (lookup_lt_is_Some_2 cards (S i)) as [ci Hci]; [lia|].
    assert (t ∈ take (S (S i)) cards) as Hin.
    { rewrite Htake. apply elem_of_take. exists (S i). split; [done | lia]. }
    apply elem_of_take in Hin as (j & Hj & Hji).
    destruct (swap_prefix cards (S i) j ci t ltac:(lia) Hci Hj) as (Hat & Hbehind & Hfront).
    destruct (IH (swap cards (S i) j) target
                 (mkWorld (heap w) (self w) (S (randomCalls w)) (evaluations w)))
      as [js Hjs].
    + rewrite swap_length. lia.
    + rewrite Htake in Hfront.
      rewrite (take_S_r _ _ _ Hat), (take_S_r _ _ _ Ht) in Hfront.
      by apply Permutation_app_inv_r in Hfront.
    + rewrite (drop_S _ _ _ Hat), (drop_S _ _ _ Ht), Hbehind, Hdrop. done.
    + exists (j :: js). intros random Hrandom.
      cbn [shuffleFrom]. unfold bind, randomBelow.
      cbn [heap self randomCalls evaluations].
      pose proof (Hrandom 0%nat ltac:(lia)) as H0. rewrite Nat.add_0_r in H0. cbn in H0.
      rewrite H0, Nat.mod_small by lia.
      rewrite (Hjs random).
      * cbn [heap self randomCalls evaluations]. do 2 f_equal. lia.
      * intros k Hk. cbn [randomCalls].
        replace (S (randomCalls w) + k)%nat with (randomCalls w + S k)%nat by lia.
        rewrite (Hrandom (S k)) by lia. done.
Qed.

(** Every order of the deck comes out of [shuffle] for some random numbers. *)
Lemma shuffle_reaches (cards target : list Card) w :
  target ≡ₚ cards ->
  ∃ random, shuffle random cards w
            = (Ok target,
               mkWorld (heap w) (self w) (randomCalls w + (length cards - 1)) (evaluations w)).
Proof.
  intros HP. unfold shuffle.
  destruct (shuffleFrom_reaches (length cards - 1) cards target w) as [js Hjs].
  - lia.
  - rewrite !take_ge by (rewrite ?(Permutation_length HP); lia). done.
  - rewrite !drop_ge by (rewrite ?(Permutation_length HP); lia). done.
  - exists (fun x => js !!! (x - randomCalls w)%nat). apply Hjs.
    intros k Hk. f_equal. lia.
Qed.

(** X10: [shuffle] never fails, returns a permutation of the deck, and calls
    [Math.random] once for each card but one, touching nothing else; and
    every order of the deck is returned for some random numbers. *)
Theorem X10_shuffle_permutes (cards : list Card) (w : World) :
  (∀ random, ∃ cards',
     shuffle random cards w
     = (Ok cards',
        mkWorld (heap w) (self w) (randomCalls w + (length cards - 1)) (evaluations w))
     ∧ cards' ≡ₚ cards)
  ∧ (∀ target, target ≡ₚ cards -> ∃ random, (shuffle random cards w).1 = Ok target).
Proof.
  split.
  - intros random. apply shuffleFrom_Permutation.
  - intros target HP. destruct (shuffle_reaches cards target w HP) as [random Hrun].
    exists random. by rewrite Hrun.
Qed.

Lemma drawFrom_spec random k : ∀ cardsCopy result calls,
  (k <= length cardsCopy)%nat ->
  ∃ drawn rest,
    drawFrom random k cardsCopy result calls = (result ++ drawn, (calls + k)%nat)
    ∧ length drawn = k
    ∧ drawn ++ rest ≡ₚ cardsCopy.
Proof.
  induction k as [|k IH]; intros cardsCopy result calls Hk; cbn [drawFrom].
  - exists [], cardsCopy. rewrite app_nil_r, Nat.add_0_r. done.
  - cbv zeta.
    assert (random calls mod length cardsCopy < length cardsCopy)%nat as Hlt
      by (apply Nat.mod_upper_bound; lia).
    destruct (lookup_lt_is_Some_2 _ _ Hlt) as [card Hcard]. rewrite Hcard.
    destruct (IH (delete (random calls mod length cardsCopy)%nat cardsCopy)
                 (result ++ [card]) (S calls)) as (drawn & rest & -> & Hlen & Hperm).
    { rewrite length_delete by by eexists. lia. }
    exists (card :: drawn), rest. split; [|split].
    + rewrite <- app_assoc. f_equal. lia.
    + cbn. by rewrite Hlen.
    + cbn. rewrite Hperm. symmetry. by apply delete_Permutation.
Qed.

(** X6: [getRandomCombination] either throws, when more cards are asked for than
    there are, without drawing a random number, or returns [k] cards taken
    from [k] different positions of the input after exactly [k] random
    numbers, hence distinct cards when the input's are. [peekRandomCard]
    throws on an empty deck and otherwise returns a card of the deck after
    one random number. *)
Theorem X6_random_picks (random : nat -> nat) (cards : list Card) (k calls : nat) :
  match getRandomCombination random cards k calls with
  | (Returns result, calls') =>
      calls' = (calls + k)%nat ∧ length result = k
      ∧ result ⊆+ cards ∧ (NoDup cards -> NoDup result)
  | (Throws e, calls') =>
      calls' = calls ∧ (length cards < k)%nat ∧ e = CannotSelect k (length cards)
  end
  ∧ match peekRandomCard random cards calls with
    | (Returns card, calls') => calls' = S calls ∧ card ∈ cards
    | (Throws e, calls') => calls' = calls ∧ cards = [] ∧ e = NoCardsLeft
    end.
Proof.
  split.
  - unfold getRandomCombination. destruct (Nat.ltb_spec (length cards) k) as [Hlt|Hge]; [done|].
    destruct (drawFrom_spec random k cards [] calls Hge) as (drawn & rest & -> & Hlen & Hperm).
    cbn [app]. split; [done|]. split; [done|].
    assert (drawn ⊆+ cards) as Hsub.
    { rewrite <- Hperm. by apply submseteq_inserts_r. }
    split; [done|]. intros Hnodup. rewrite <- Hperm in Hnodup.
    by apply NoDup_app in Hnodup as [? _].
  - unfold peekRandomCard. destruct cards as [|first cards]; [done|].
    split; [done|].
    assert (random calls mod length (first :: cards) < length (first :: cards))%nat as Hlt
      by (apply Nat.mod_upper_bound; cbn; lia).
    destruct (lookup_lt_is_Some_2 _ _ Hlt) as [card Hcard]. rewrite Hcard. cbn [default].
    by eapply list_elem_of_lookup_2.
Qed.

(** ** Sorting, values and comparison *)

Section JsSortFacts.
Context {A : Type} (cmp : A -> A -> Z).

Lemma sortInsert_Permutation x l : sortInsert cmp x l ≡ₚ x :: l.
Proof.
  induction l as [|y l IH]; [done|]. cbn. case_match; [|done].
  by rewrite IH, perm_swap.
Qed.

Lemma jsSort_Permutation l : jsSort cmp l ≡ₚ l.
Proof.
  induction l as [|x l IH]; [done|]. cbn. by rewrite sortInsert_Permutation, IH.
Qed.

(** An element is never moved behind one that compares equal or lower. *)
Lemma sortInsert_filter (P : A -> Prop) `{∀ x, Decision (P x)} x l :
  (∀ y, P x -> P y -> cmp x y <= 0) ->
  filter P (sortInsert cmp x l) = filter P (x :: l).
Proof.
  intros Hcmp. induction l as [|y l IH]; [done|]. cbn [sortInsert].
  destruct (Z.ltb_spec 0 (cmp x y)) as [Hlt|Hle]; [|done].
  rewrite filter_cons, IH, !filter_cons.
  destruct (decide (P y)) as [Hy|]; [|done].
  destruct (decide (P x)) as [Hx|]; [|done].
  specialize (Hcmp y Hx Hy). lia.
Qed.
End JsSortFacts.

Lemma sortInsert_sorted x l :
  StronglySorted rankAtLeast l -> StronglySorted rankAtLeast (sortInsert byRank x l).
Proof.
  induction 1 as [|y l Hl IH Hall]; cbn; [by repeat constructor|].
  destruct (Z.ltb_spec 0 (byRank x y)) as [Hlt|Hle].
  - constructor; [done|]. rewrite sortInsert_Permutation. constructor; [|done].
    unfold rankAtLeast, byRank in *. lia.
  - constructor; [by constructor|]. constructor; [unfold rankAtLeast, byRank in *; lia|].
    eapply Forall_impl; [exact Hall|]. unfold rankAtLeast, byRank in *. intros; lia.
Qed.

Lemma sortCardsByRank_sorted cards : StronglySorted rankAtLeast (sortCardsByRank cards).
Proof.
  unfold sortCardsByRank. induction cards as [|c cards IH]; [constructor|].
  cbn. by apply sortInsert_sorted.
Qed.

Lemma sortCardsByRank_Permutation cards : sortCardsByRank cards ≡ₚ cards.
Proof. apply jsSort_Permutation. Qed.

Lemma sortCardsByRank_stable cards r :
  filter (fun c => rank c = r) (sortCardsByRank cards) = filter (fun c => rank c = r) cards.
Proof.
  unfold sortCardsByRank. induction cards as [|c cards IH]; [done|].
  cbn [jsSort fold_right]. rewrite sortInsert_filter.
  - rewrite !filter_cons. fold (jsSort byRank cards) in *. unfold jsSort in *.
    by rewrite IH.
  - intros y Hx Hy. rewrite Hx, Hy. lia.
Qed.

(** X11: [sortCardsByRank] returns a permutation of its argument in which no
    card stands before one of a higher rank, and cards of one rank keep their
    order. *)
Theorem X11_sortCardsByRank (cards : list Card) :
  sortCardsByRank cards ≡ₚ cards
  ∧ StronglySorted rankAtLeast (sortCardsByRank cards)
  ∧ ∀ r, filter (fun c => rank c = r) (sortCardsByRank cards)
         = filter (fun c => rank c = r) cards.
Proof.
  split; [apply sortCardsByRank_Permutation|].
  split; [apply sortCardsByRank_sorted | apply sortCardsByRank_stable].
Qed.

Lemma sorted_values cards :
  StronglySorted (fun a b : Z => b <= a) ((fun c => RANK_VALUES (rank c)) <$> sortCardsByRank cards).
Proof.
  pose proof (sortCardsByRank_sorted cards) as H.
  induction H as [|c l Hl IH Hall]; [constructor|]. cbn. constructor; [done|].
  by apply Forall_fmap.
Qed.

Lemma sorted_values_Permutation cards cards' :
  rank <$> cards ≡ₚ rank <$> cards' ->
  (fun c => RANK_VALUES (rank c)) <$> sortCardsByRank cards
  = (fun c => RANK_VALUES (rank c)) <$> sortCardsByRank cards'.
Proof.
  intros Hperm.
  apply (StronglySorted_unique_strong (fun a b : Z => b <= a)); try apply sorted_values.
  { intros a b _ _ ? ?. lia. }
  rewrite !(list_fmap_compose rank RANK_VALUES).
  by rewrite !sortCardsByRank_Permutation, Hperm.
Qed.

Lemma remainingValueFrom_values cards cards' : ∀ i,
  (fun c => RANK_VALUES (rank c)) <$> cards = (fun c => RANK_VALUES (rank c)) <$> cards' ->
  remainingValueFrom i cards = remainingValueFrom i cards'.
Proof.
  revert cards'. induction cards as [|c cards IH]; intros [|c' cards'] i H; try done.
  cbn in *. injection H as Hc H. by rewrite Hc, (IH cards' (i + 1) H).
Qed.

Lemma calculateHandValue_ranks (handRank : HandRank) (cards cards' : list Card) :
  rank <$> cards ≡ₚ rank <$> cards' ->
  calculateHandValue handRank cards = calculateHandValue handRank cards'.
Proof.
  intros Hperm. unfold calculateHandValue. cbv zeta. f_equal.
  by apply remainingValueFrom_values, sorted_values_Permutation.
Qed.

(** X12: for at most five cards, which is all the evaluators pass and where
    every term of the sum is a whole number, the value that
    [calculateHandValue] gives to a category and cards depends on the ranks
    of the cards only, not on their suits or their order. *)
Theorem X12_calculateHandValue_ranks (handRank : HandRank) (cards cards' : list Card) :
  (length cards <= 5)%nat ->
  rank <$> cards ≡ₚ rank <$> cards' ->
  calculateHandValue handRank cards = calculateHandValue handRank cards'.
Proof. intros _. apply calculateHandValue_ranks. Qed.

Lemma X12_witness :
  (length (cardsOfString "AsKh2c2d7s") <= 5)%nat
  ∧ rank <$> cardsOfString "AsKh2c2d7s" ≡ₚ rank <$> cardsOfString "2hKdAc7d2s"
  ∧ calculateHandValue PAIR (cardsOfString "AsKh2c2d7s") = 1423070202
  ∧ calculateHandValue PAIR (cardsOfString "AsKh2c2d7s")
    = calculateHandValue PAIR (cardsOfString "2hKdAc7d2s").
Proof.
  assert (rank <$> cardsOfString "AsKh2c2d7s" ≡ₚ rank <$> cardsOfString "2hKdAc7d2s") as HP.
  { change ([ACE; KING; TWO; TWO; SEVEN] ≡ₚ [TWO; KING; ACE; SEVEN; TWO]).
    apply (Permutation_trans (l' := [TWO; ACE; KING; TWO; SEVEN])).
    - change ([ACE; KING] ++ TWO :: [TWO; SEVEN] ≡ₚ TWO :: [ACE; KING] ++ [TWO; SEVEN]).
      symmetry. apply Permutation_middle.
    - constructor.
      apply (Permutation_trans (l' := [KING; ACE; TWO; SEVEN])); [apply perm_swap|].
      constructor. constructor. apply perm_swap. }
  split; [vm_compute; lia|]. split; [exact HP|]. split; [vm_compute; reflexivity|].
  apply (X12_calculateHandValue_ranks PAIR _ _); [vm_compute; lia | exact HP].
Defined.

(** X13: [compareHands] is antisymmetric; it answers 0 exactly on hands of the
    same category and value, and 1 exactly when the first hand has the higher
    category or the same category and the higher value; and at-least-as-good
    is transitive. *)
Theorem X13_compareHands_order (h1 h2 h3 : EvaluatedHand) :
  compareHands h1 h2 = - compareHands h2 h1
  ∧ (compareHands h1 h2 = 0 ↔ eh_rank h1 = eh_rank h2 ∧ eh_value h1 = eh_value h2)
  ∧ (compareHands h1 h2 = 1 ↔ handRankValue (eh_rank h2) < handRankValue (eh_rank h1)
                               ∨ (eh_rank h1 = eh_rank h2 ∧ eh_value h2 < eh_value h1))
  ∧ (0 <= compareHands h1 h2 -> 0 <= compareHands h2 h3 -> 0 <= compareHands h1 h3).
Proof.
  unfold compareHands.
  assert (Hinj : ∀ a b, a = b ↔ handRankValue a = handRankValue b).
  { intros a b. split; [by intros ->|]. destruct a, b; cbn; congruence. }
  rewrite !Hinj.
  generalize (handRankValue (eh_rank h1)) (handRankValue (eh_rank h2))
             (handRankValue (eh_rank h3)) (eh_value h1) (eh_value h2) (eh_value h3).
  intros r1 r2 r3 v1 v2 v3.
  repeat match goal with
         | |- context [?a <? ?b] => destruct (Z.ltb_spec a b)
         end; lia.
Qed.

(** ** The base calculator *)

Lemma validateCards_NoDup boardCards dead handsCards :
  validateCards boardCards dead handsCards = Ok tt
  ↔ NoDup (boardCards ++ dead ++ concat handsCards).
Proof.
  split; [apply validateCards_ok|]. intros Hnd.
  destruct (validateCards boardCards dead handsCards) as [[]|e] eqn:E; [done|].
  apply validateCards_throw in E as (c & _ & Hocc).
  pose proof (occurrences_NoDup c _ Hnd). lia.
Qed.

Lemma newCalculator_NoDup hs b dead gameVariant opts (h h' : Heap) this :
  newCalculator hs b dead gameVariant opts h = (Ok this, h') ->
  NoDup (allCardsOf h hs b dead).
Proof.
  intros Hnew. pose proof Hnew as Hok.
  apply newCalculator_ok in Hok as (-> & ev & Hev & ->).
  unfold newCalculator in Hnew. rewrite Hev in Hnew.
  erewrite bind_ok in Hnew by reflexivity. unfold bind in Hnew.
  rewrite validateHands_run in Hnew. cbn in Hnew.
  apply validateCards_NoDup. by destruct (validateCards _ _ _) as [[]|].
Qed.

(** X15: the constructor of a calculator succeeds, leaving the objects as they
    are, exactly when the variant has an evaluator (Texas Hold'em or Omaha)
    and no card occurs twice among the board, the dead cards and the hands. *)
Theorem X15_newCalculator_accepts (h : Heap) (hs : list nat) (b : nat) (dead : list Card)
    (gameVariant : GameVariant) (opts : CalculationOptions) :
  (∃ this, newCalculator hs b dead gameVariant opts h = (Ok this, h))
  ↔ (gameVariant = TEXAS_HOLDEM ∨ gameVariant = OMAHA) ∧ NoDup (allCardsOf h hs b dead).
Proof.
  unfold allCardsOf. rewrite <- validateCards_NoDup. split.
  - intros [this Hnew]. pose proof Hnew as Hok.
    apply newCalculator_ok in Hok as (_ & ev & Hev & ->).
    split; [destruct gameVariant; auto; discriminate|].
    unfold newCalculator in Hnew. rewrite Hev in Hnew.
    erewrite bind_ok in Hnew by reflexivity. unfold bind in Hnew.
    rewrite validateHands_run in Hnew. cbn in Hnew.
    by destruct (validateCards _ _ _) as [[]|].
  - intros [Hv Hvalid].
    assert (∃ ev, getEvaluator gameVariant = Ok ev) as [ev Hev]
      by (destruct Hv as [->| ->]; eauto).
    exists (mkCalculator hs b dead ev (mergeOptions opts)).
    unfold newCalculator. rewrite Hev.
    erewrite bind_ok by reflexivity. unfold bind.
    rewrite validateHands_run. cbn. by rewrite Hvalid.
Qed.

Lemma fullDeck_NoDup : NoDup fullDeck.
Proof. apply (bool_decide_unpack _). vm_compute. reflexivity. Qed.

Lemma fullDeck_complete c : c ∈ fullDeck.
Proof. destruct c as [[] []]; vm_compute; find_card. Qed.

Lemma removeCards_partition used :
  NoDup used -> removeCards fullDeck used ++ used ≡ₚ fullDeck.
Proof.
  intros Hnd. apply NoDup_Permutation.
  - apply NoDup_app. split; [|split; [|done]].
    + eapply sublist_NoDup; [apply fullDeck_NoDup | apply removeCards_sublist].
    + intros c Hc. apply removeCards_spec in Hc. tauto.
  - apply fullDeck_NoDup.
  - intros c. rewrite elem_of_app, removeCards_spec.
    split; [intros _; apply fullDeck_complete|]. intros _.
    destruct (decide (c ∈ used)); [by right|]. left. split; [apply fullDeck_complete|done].
Qed.

(** X16: when the cards in use are pairwise distinct,
    [createDeckWithoutUsedCards] returns a deck of distinct cards that,
    together with the cards in use, makes up the 52 cards of a full deck; the
    state is unchanged. *)
Theorem X16_deck_and_used_cards (w : World) :
  NoDup (usedCardsOf w) ->
  ∃ deck, createDeckWithoutUsedCards w = (Ok deck, w)
          ∧ deck ++ usedCardsOf w ≡ₚ fullDeck
          ∧ NoDup deck
          ∧ (length deck + length (usedCardsOf w) = 52)%nat.
Proof.
  intros Hnd. exists (removeCards fullDeck (usedCardsOf w)).
  split; [apply createDeckWithoutUsedCards_run|].
  pose proof (removeCards_partition _ Hnd) as Hperm.
  split; [done|]. split.
  - eapply sublist_NoDup; [apply fullDeck_NoDup | apply removeCards_sublist].
  - rewrite <- length_app, Hperm. reflexivity.
Qed.

Lemma X16_witness :
  let w := mkWorld flopBoard
             (mkCalculator [0; 1]%nat 2%nat [] HoldemEvaluator (mergeOptions noOptions))
             0 [] in
  NoDup (usedCardsOf w)
  ∧ ∃ deck, createDeckWithoutUsedCards w = (Ok deck, w)
            ∧ deck ++ usedCardsOf w ≡ₚ fullDeck
            ∧ NoDup deck
            ∧ (length deck + length (usedCardsOf w) = 52)%nat.
Proof.
  cbv zeta.
  assert (NoDup (usedCardsOf
            (mkWorld flopBoard
               (mkCalculator [0; 1]%nat 2%nat [] HoldemEvaluator (mergeOptions noOptions))
               0 []))) as Hnodup
    by (apply (bool_decide_unpack _); vm_compute; reflexivity).
  split; [exact Hnodup|]. exact (X16_deck_and_used_cards _ Hnodup).
Defined.

(** ** The tally of an exhaustive calculation *)

Lemma countTotal_mapSet (m : list (HandRank * Q)) k v :
  (countTotal (mapSet m k v) == countTotal m - default 0 (mapGet m k) + v)%Q.
Proof.
  induction m as [|[k' v'] m IH]; cbn.
  - unfold countTotal. cbn. lra.
  - destruct (decide (k' = k)); unfold countTotal in *; cbn in *; lra.
Qed.

Lemma countTotal_bump counts r amount :
  (countTotal (bump counts r amount) == countTotal counts + amount)%Q.
Proof.
  unfold bump. rewrite countTotal_mapSet, Qred_correct. lra.
Qed.

Section Tallied.
Context (won tied won' tied' : PlayerEquity -> nat).

Lemma tallied_refl r : tallied won tied won' tied' r 0 r.
Proof.
  split; [done|]. split; [|intros _; lia].
  intros i p Hp. exists p. repeat split; try done; try lia.
  change (inject_Z (Z.of_nat 0)) with 0%Q. lra.
Qed.

Lemma tallied_trans r1 r2 r3 n m :
  tallied won tied won' tied' r1 n r2 -> tallied won tied won' tied' r2 m r3 ->
  tallied won tied won' tied' r1 (n + m) r3.
Proof.
  intros (Hl1 & Hp1 & Hh1) (Hl2 & Hp2 & Hh2). split; [congruence|]. split.
  - intros i p1 Hi. destruct (Hp1 i p1 Hi) as (p2 & Hi2 & ? & ? & ? & Hc1 & ? & ? & ?).
    destruct (Hp2 i p2 Hi2) as (p3 & Hi3 & ? & ? & ? & Hc2 & ? & ? & ?).
    exists p3. repeat split; try congruence; try lia.
    rewrite Hc2, Hc1, Nat2Z.inj_add, inject_Z_plus. lra.
  - intros H2. rewrite Hh2, Hh1 by congruence. lia.
Qed.
End Tallied.

Lemma fold_alter_lookup (f : nat -> PlayerEquity -> PlayerEquity) (winners : list nat) :
  ∀ (results : list PlayerEquity) (j : nat),
    NoDup winners ->
    fold_left (fun rs winner => alter (f winner) winner rs) winners results !! j
    = if decide (j ∈ winners) then f j <$> results !! j else results !! j.
Proof.
  induction winners as [|x winners IH]; intros results j Hnd; cbn [fold_left].
  - rewrite decide_False; [done|]. by intros ?%elem_of_nil.
  - apply NoDup_cons in Hnd as [Hx Hnd]. rewrite IH by done.
    destruct (decide (j = x)) as [->|Hne].
    + rewrite (decide_False (P := x ∈ winners)) by done.
      rewrite decide_True by (apply elem_of_cons; by left).
      by rewrite list_lookup_alter_eq.
    + rewrite list_lookup_alter_ne by done.
      destruct (decide (j ∈ winners)).
      * rewrite decide_True; [done | apply elem_of_cons; by right].
      * rewrite decide_False; [done|]. by intros [?|?]%elem_of_cons.
Qed.

Lemma fold_alter_length (f : nat -> PlayerEquity -> PlayerEquity) (winners : list nat) :
  ∀ results : list PlayerEquity,
    length (fold_left (fun rs winner => alter (f winner) winner rs) winners results)
    = length results.
Proof.
  induction winners as [|x winners IH]; intros results; [done|].
  cbn. by rewrite IH, length_alter.
Qed.

(** The first loop of the tally: every player in range gets one more
    category count; the winners are distinct players, in increasing order. *)
Lemma findWinners_spec evs : ∀ i0 best winners0 results winners results',
  findWinners i0 evs best winners0 results = (winners, results') ->
  StronglySorted lt winners0 -> Forall (fun x => x < i0)%nat winners0 ->
  length results' = length results
  ∧ StronglySorted lt winners ∧ Forall (fun x => x < i0 + length evs)%nat winners
  ∧ (winners0 ≠ [] ∨ (evs ≠ [] ∧ Forall (fun e => best < eh_value e) (take 1 evs)) ->
     winners ≠ [])
  ∧ ∀ j p, results !! j = Some p ->
      ∃ p', results' !! j = Some p'
            ∧ handIndex p' = handIndex p ∧ equity p' = equity p
            ∧ wins p' = wins p ∧ ties p' = ties p
            ∧ winsCount p' = winsCount p ∧ tiesCount p' = tiesCount p
            ∧ winningHandRankCounts p' = winningHandRankCounts p
            ∧ (countTotal (handRankCounts p')
               == countTotal (handRankCounts p)
                  + (if decide (i0 <= j < i0 + length evs)%nat then 1 else 0))%Q.
Proof.
  induction evs as [|e evs IH]; intros i0 best winners0 results winners results';
    cbn [findWinners].
  - intros [= <- <-] Hs Hf. split; [done|]. split; [done|].
    split; [eapply Forall_impl; [exact Hf|]; cbn; intros; lia|].
    split; [intros [?|[? _]]; done|].
    intros j p Hj. exists p. repeat split; try done.
    rewrite decide_False by (cbn; lia). lra.
  - intros Hrun Hs Hf.
    set (results1 := alter (countHandRank (eh_rank e)) i0 results) in *.
    assert (Hstep : ∀ best1 winners1,
              findWinners (S i0) evs best1 winners1 results1 = (winners, results') ->
              StronglySorted lt winners1 -> Forall (fun x => x < S i0)%nat winners1 ->
              winners1 ≠ [] ->
              length results' = length results
              ∧ StronglySorted lt winners
              ∧ Forall (fun x => x < i0 + length (e :: evs))%nat winners
              ∧ winners ≠ []
              ∧ ∀ j p, results !! j = Some p ->
                  ∃ p', results' !! j = Some p'
                        ∧ handIndex p' = handIndex p ∧ equity p' = equity p
                        ∧ wins p' = wins p ∧ ties p' = ties p
                        ∧ winsCount p' = winsCount p ∧ tiesCount p' = tiesCount p
                        ∧ winningHandRankCounts p' = winningHandRankCounts p
                        ∧ (countTotal (handRankCounts p')
                           == countTotal (handRankCounts p)
                              + (if decide (i0 <= j < i0 + length (e :: evs))%nat
                                 then 1 else 0))%Q).
    { intros best1 winners1 Hrun1 Hs1 Hf1 Hne1.
      destruct (IH _ _ _ _ _ _ Hrun1 Hs1 Hf1) as (Hl & Hs' & Hf' & Hne' & Hp).
      split; [by rewrite Hl; unfold results1; rewrite length_alter|].
      split; [done|].
      split; [eapply Forall_impl; [exact Hf'|]; cbn; intros; lia|].
      split; [apply Hne'; by left|].
      intros j p Hj. destruct (decide (j = i0)) as [->|Hne].
      - destruct (Hp i0 (countHandRank (eh_rank e) p)) as (p' & Hj' & Hfields).
        { unfold results1. by rewrite list_lookup_alter_eq, Hj. }
        exists p'. split; [done|].
        destruct Hfields as (? & ? & ? & ? & ? & ? & ? & Hc).
        repeat split; try done.
        rewrite Hc. cbn [handRankCounts countHandRank]. rewrite countTotal_bump.
        rewrite decide_False by lia. rewrite decide_True by (cbn; lia). lra.
      - destruct (Hp j p) as (p' & Hj' & Hfields).
        { unfold results1. by rewrite list_lookup_alter_ne. }
        exists p'. split; [done|].
        destruct Hfields as (? & ? & ? & ? & ? & ? & ? & Hc).
        repeat split; try done. rewrite Hc.
        destruct (decide (S i0 <= j < S i0 + length evs)%nat).
        + rewrite decide_True by (cbn; lia). lra.
        + rewrite decide_False by (cbn; lia). lra. }
    assert (Hsnoc : StronglySorted lt (winners0 ++ [i0])).
    { clear -Hs Hf. induction Hs as [|x l Hl IHl Hall]; [repeat constructor|].
      apply Forall_cons in Hf as [Hx Hf]. cbn. constructor; [by apply IHl|].
      apply Forall_app. split; [done|]. by repeat constructor. }
    assert (Hfsnoc : Forall (fun x => x < S i0)%nat (winners0 ++ [i0])).
    { apply Forall_app. split; [eapply Forall_impl; [exact Hf|]; cbn; intros; lia|].
      repeat constructor. }
    destruct (Z.ltb_spec best (eh_value e)) as [Hlt|Hge].
    + destruct (Hstep _ _ Hrun) as (? & ? & ? & ? & ?);
        [repeat constructor | repeat constructor | done |]. done.
    + destruct (Z.eqb_spec (eh_value e) best) as [Heq|Hneq].
      * destruct (Hstep _ _ Hrun Hsnoc Hfsnoc) as (? & ? & ? & ? & ?);
          [by destruct winners0|]. done.
      * destruct (IH _ _ _ _ _ _ Hrun Hs) as (Hl & Hs' & Hf' & Hne' & Hp).
        { eapply Forall_impl; [exact Hf|]; cbn; intros; lia. }
        split; [by rewrite Hl; unfold results1; rewrite length_alter|].
        split; [done|].
        split; [eapply Forall_impl; [exact Hf'|]; cbn; intros; lia|].
        split.
        { intros [Hw|[_ Hbest]]; [apply Hne'; by left|].
          cbn in Hbest. apply Forall_cons in Hbest as [Hbest _]. lia. }
        intros j p Hj. destruct (decide (j = i0)) as [->|Hne].
        -- destruct (Hp i0 (countHandRank (eh_rank e) p)) as (p' & Hj' & Hfields).
           { unfold results1. by rewrite list_lookup_alter_eq, Hj. }
           exists p'. split; [done|].
           destruct Hfields as (? & ? & ? & ? & ? & ? & ? & Hc).
           repeat split; try done.
           rewrite Hc. cbn [handRankCounts countHandRank]. rewrite countTotal_bump.
           rewrite decide_False by lia. rewrite decide_True by (cbn; lia). lra.
        -- destruct (Hp j p) as (p' & Hj' & Hfields).
           { unfold results1. by rewrite list_lookup_alter_ne. }
           exists p'. split; [done|].
           destruct Hfields as (? & ? & ? & ? & ? & ? & ? & Hc).
           repeat split; try done. rewrite Hc.
           destruct (decide (S i0 <= j < S i0 + length evs)%nat).
           ++ rewrite decide_True by (cbn; lia). lra.
           ++ rewrite decide_False by (cbn; lia). lra.
Qed.

Lemma StronglySorted_lt_NoDup (l : list nat) : StronglySorted lt l -> NoDup l.
Proof.
  induction 1 as [|x l Hl IH Hall]; [constructor|]. constructor; [|done].
  intros Hin. rewrite Forall_forall in Hall. specialize (Hall x Hin). lia.
Qed.

(** One scenario of the tally, for the crediting functions of either
    calculator: every player's category counts grow by one; a player who is
    not among the winners is otherwise unchanged, a single winner is
    credited a win, several winners a tie each. *)
Lemma updateCounts_spec (cw : HandRank -> PlayerEquity -> PlayerEquity)
    (ct : HandRank -> Q -> PlayerEquity -> PlayerEquity) evs rin :
  length evs = length rin -> Forall (fun e => 0 <= eh_value e) evs ->
  ∃ winners,
    NoDup winners ∧ (evs ≠ [] -> winners ≠ [])
    ∧ Forall (fun x => x < length evs)%nat winners
    ∧ length (updateCounts cw ct evs rin) = length rin
    ∧ ∀ j pin, rin !! j = Some pin ->
        ∃ p1 pout,
          updateCounts cw ct evs rin !! j = Some pout
          ∧ handIndex p1 = handIndex pin ∧ equity p1 = equity pin
          ∧ wins p1 = wins pin ∧ ties p1 = ties pin
          ∧ winsCount p1 = winsCount pin ∧ tiesCount p1 = tiesCount pin
          ∧ winningHandRankCounts p1 = winningHandRankCounts pin
          ∧ (countTotal (handRankCounts p1) == countTotal (handRankCounts pin) + 1)%Q
          ∧ (((j ∉ winners) ∧ pout = p1)
             ∨ (winners = [j] ∧ ∃ r, pout = cw r p1)
             ∨ (j ∈ winners ∧ (2 <= length winners)%nat ∧ ∃ r share, pout = ct r share p1)).
Proof.
  intros Hlen Hpos. unfold updateCounts.
  destruct (findWinners 0 evs (-1) [] rin) as [winners r1] eqn:Efind.
  destruct (findWinners_spec _ _ _ _ _ _ _ Efind) as (Hl1 & Hs & Hf & Hne & Hp);
    [constructor | constructor |].
  pose proof (StronglySorted_lt_NoDup _ Hs) as Hnd.
  exists winners. split; [done|]. split.
  { intros Hevs. apply Hne. right. split; [done|].
    destruct evs as [|e evs]; [done|]. cbn. apply Forall_cons in Hpos as [He _].
    repeat constructor. lia. }
  split; [done|].
  assert (Hin : ∀ j pin, rin !! j = Some pin ->
            ∃ p1, r1 !! j = Some p1
                  ∧ handIndex p1 = handIndex pin ∧ equity p1 = equity pin
                  ∧ wins p1 = wins pin ∧ ties p1 = ties pin
                  ∧ winsCount p1 = winsCount pin ∧ tiesCount p1 = tiesCount pin
                  ∧ winningHandRankCounts p1 = winningHandRankCounts pin
                  ∧ (countTotal (handRankCounts p1)
                     == countTotal (handRankCounts pin) + 1)%Q).
  { intros j pin Hj. destruct (Hp j pin Hj) as (p1 & Hj1 & ? & ? & ? & ? & ? & ? & ? & Hc).
    exists p1. repeat split; try done.
    rewrite Hc, decide_True; [lra|]. apply lookup_lt_Some in Hj. lia. }
  destruct winners as [|w0 [|w1 winners]].
  - cbn [fold_left]. split; [done|]. intros j pin Hj.
    destruct (Hin j pin Hj) as (p1 & Hj1 & Hfields). exists p1, p1.
    split; [done|]. repeat split; try apply Hfields. left. split; [|done].
    by intros ?%elem_of_nil.
  - split; [by rewrite length_alter|]. intros j pin Hj.
    destruct (Hin j pin Hj) as (p1 & Hj1 & Hfields).
    destruct (decide (j = w0)) as [->|Hne0].
    + exists p1, (cw (rankOfPlayer evs w0) p1).
      split; [by rewrite list_lookup_alter_eq, Hj1|].
      repeat split; try apply Hfields. right. left. eauto.
    + exists p1, p1. split; [by rewrite list_lookup_alter_ne|].
      repeat split; try apply Hfields. left. split; [|done].
      by intros ->%list_elem_of_singleton.
  - set (ws := w0 :: w1 :: winners) in *.
    split; [by rewrite (fold_alter_length (fun winner => ct (rankOfPlayer evs winner) (1 / inject_Z (Z.of_nat (length ws)))%Q))|]. intros j pin Hj.
    destruct (Hin j pin Hj) as (p1 & Hj1 & Hfields).
    rewrite (fold_alter_lookup (fun winner => ct (rankOfPlayer evs winner)
                                     (1 / inject_Z (Z.of_nat (length ws)))%Q)) by done.
    destruct (decide (j ∈ ws)) as [Hjw|Hjw].
    + eexists p1, _. split; [by rewrite Hj1|].
      repeat split; try apply Hfields. right. right.
      split; [done|]. split; [cbn; lia|]. eauto.
    + exists p1, p1. split; [done|]. repeat split; try apply Hfields. by left.
Qed.

Lemma both_winners (l : list nat) :
  NoDup l -> Forall (fun x => x < 2)%nat l -> (2 <= length l)%nat -> 0%nat ∈ l ∧ 1%nat ∈ l.
Proof.
  intros Hnd Hf Hlen. destruct l as [|x [|y l]]; cbn in Hlen; try lia.
  apply NoDup_cons in Hnd as [Hx _].
  apply Forall_cons in Hf as [Hx2 Hf]. apply Forall_cons in Hf as [Hy2 _].
  assert (x ≠ y) by (intros ->; apply Hx; by left).
  rewrite !elem_of_cons. lia.
Qed.

Section TallyStep.
Context (won tied won' tied' : PlayerEquity -> nat).
Context (cw : HandRank -> PlayerEquity -> PlayerEquity)
        (ct : HandRank -> Q -> PlayerEquity -> PlayerEquity).
Hypothesis cw_credits : ∀ r p,
  won (cw r p) = S (won p) ∧ tied (cw r p) = tied p
  ∧ won' (cw r p) = won' p ∧ tied' (cw r p) = tied' p
  ∧ handIndex (cw r p) = handIndex p ∧ handRankCounts (cw r p) = handRankCounts p.
Hypothesis ct_credits : ∀ r share p,
  won (ct r share p) = won p ∧ tied (ct r share p) = S (tied p)
  ∧ won' (ct r share p) = won' p ∧ tied' (ct r share p) = tied' p
  ∧ handIndex (ct r share p) = handIndex p
  ∧ handRankCounts (ct r share p) = handRankCounts p.
Hypothesis own_counters : ∀ p q,
  winsCount p = winsCount q -> tiesCount p = tiesCount q -> wins p = wins q ->
  ties p = ties q ->
  won p = won q ∧ tied p = tied q ∧ won' p = won' q ∧ tied' p = tied' q.

Lemma updateCounts_tallied evs rin :
  length evs = length rin -> Forall (fun e => 0 <= eh_value e) evs ->
  tallied won tied won' tied' rin 1 (updateCounts cw ct evs rin).
Proof.
  intros Hlen Hpos.
  destruct (updateCounts_spec cw ct evs rin Hlen Hpos)
    as (winners & Hnd & Hne & Hf & Hl & Hp).
  assert (Hplayer : ∀ j pin, rin !! j = Some pin ->
            ∃ pout, updateCounts cw ct evs rin !! j = Some pout
                    ∧ handIndex pout = handIndex pin
                    ∧ won' pout = won' pin ∧ tied' pout = tied' pin
                    ∧ (countTotal (handRankCounts pout)
                       == countTotal (handRankCounts pin) + 1)%Q
                    ∧ (((j ∉ winners) ∧ won pout = won pin ∧ tied pout = tied pin)
                       ∨ (winners = [j] ∧ won pout = S (won pin) ∧ tied pout = tied pin)
                       ∨ (j ∈ winners ∧ (2 <= length winners)%nat
                          ∧ won pout = won pin ∧ tied pout = S (tied pin)))).
  { intros j pin Hj.
    destruct (Hp j pin Hj)
      as (p1 & pout & Hout & Hi & _ & Hw & Ht & Hwc & Htc & _ & Hc & Hcase).
    destruct (own_counters p1 pin Hwc Htc Hw Ht) as (Ho1 & Ho2 & Ho3 & Ho4).
    exists pout. split; [done|].
    destruct Hcase as [[Hnot ->]|[[-> [r ->]]|(Hin & Hlen2 & r & share & ->)]].
    - split; [congruence|]. split; [congruence|]. split; [congruence|].
      split; [done|]. left. repeat split; congruence.
    - destruct (cw_credits r p1) as (? & ? & ? & ? & ? & Hh).
      split; [congruence|]. split; [congruence|]. split; [congruence|].
      split; [by rewrite Hh|]. right. left. repeat split; congruence.
    - destruct (ct_credits r share p1) as (? & ? & ? & ? & ? & Hh).
      split; [congruence|]. split; [congruence|]. split; [congruence|].
      split; [by rewrite Hh|]. right. right. repeat split; try done; congruence. }
  split; [done|]. split.
  - intros j pin Hj. destruct (Hplayer j pin Hj) as (pout & Hout & ? & ? & ? & Hc & Hcase).
    exists pout. split; [done|]. repeat split; try done;
      destruct Hcase as [(_ & ? & ?)|[(_ & ? & ?)|(_ & _ & ? & ?)]]; lia.
  - intros H2. destruct rin as [|a [|b [|]]]; try done.
    destruct (Hplayer 0%nat a eq_refl) as (a' & Ha & _ & _ & _ & _ & Hcase0).
    destruct (Hplayer 1%nat b eq_refl) as (b' & Hb & _ & _ & _ & _ & Hcase1).
    destruct (updateCounts cw ct evs [a; b]) as [|x [|y [|]]]; try done.
    cbn in Ha, Hb. injection Ha as ->. injection Hb as ->.
    rewrite Hlen in Hf. cbn [length] in Hf.
    assert (Hsome : winners ≠ []) by (apply Hne; by destruct evs).
    unfold halfPoints. cbn [fmap list_fmap sum_list sum_list_with]. unfold id.
    assert (Hnone : ¬ ((0%nat ∉ winners) ∧ (1%nat ∉ winners))).
    { intros [Hn0 Hn1]. destruct winners as [|x l]; [done|].
      apply Forall_cons in Hf as [Hx _].
      destruct (decide (x = 0%nat)) as [->|]; [destruct Hn0; by left|].
      assert (x = 1%nat) as -> by lia. destruct Hn1. by left. }
    assert (Hboth : (2 <= length winners)%nat -> 0%nat ∈ winners ∧ 1%nat ∈ winners)
      by (by apply both_winners).
    destruct Hcase0 as [(Hn0 & Hw0 & Ht0)|[(Hw & Hw0 & Ht0)|(Hi0 & Hl0 & Hw0 & Ht0)]];
      destruct Hcase1 as [(Hn1 & Hw1 & Ht1)|[(Hw' & Hw1 & Ht1)|(Hi1 & Hl1 & Hw1 & Ht1)]];
      try lia;
      try (exfalso; tauto);
      try (exfalso; congruence);
      try (exfalso; subst winners; cbn in *; lia).
Qed.
End TallyStep.

Lemma bestOf_value evalOne combinations : ∀ bestHand e,
  bestOf evalOne combinations bestHand = Ok e -> eh_value bestHand <= eh_value e.
Proof.
  induction combinations as [|combo rest IH]; intros bestHand e; cbn [bestOf].
  - intros [= <-]. lia.
  - destruct (evalOne combo) as [evaluated|]; [|done]. intros H%IH.
    destruct (Z.ltb_spec (eh_value bestHand) (eh_value evaluated)); lia.
Qed.

Lemma holdemEvaluate_value holeCards boardCards e :
  holdemEvaluate holeCards boardCards = Ok e -> 0 <= eh_value e.
Proof.
  unfold holdemEvaluate. destruct (_ <? _)%nat; [done|]. intros Hb%bestOf_value. exact Hb.
Qed.

Lemma omahaEvaluate_value holeCards boardCards e :
  omahaEvaluate holeCards boardCards = Ok e -> 0 <= eh_value e.
Proof.
  unfold omahaEvaluate. destruct (negb _); [done|]. destruct (_ <? _)%nat; [done|].
  assert (Hinner : ∀ (holeCombo : list Card) l (best : Result EvaluatedHand) e',
            fold_left (fun best boardCombo =>
                rbind best (fun bestHand =>
                rbind (holdemEvaluate holeCombo boardCombo) (fun evaluated =>
                Ok (if eh_value bestHand <? eh_value evaluated then evaluated else bestHand))))
              l best = Ok e' ->
            ∃ b, best = Ok b ∧ eh_value b <= eh_value e').
  { intros holeCombo l. induction l as [|bc l IH]; intros best e'; cbn [fold_left].
    - intros ->. eexists. split; [done|lia].
    - intros (b & Hb & Hle)%IH. destruct best as [b0|]; [|done]. cbn [rbind] in Hb.
      destruct (holdemEvaluate _ _) as [ev|]; [|done]. cbn [rbind] in Hb.
      injection Hb as <-. eexists. split; [done|].
      destruct (Z.ltb_spec (eh_value b0) (eh_value ev)); lia. }
  assert (Houter : ∀ l (best : Result EvaluatedHand) e',
            fold_left (fun best holeCombo =>
                fold_left (fun best boardCombo =>
                    rbind best (fun bestHand =>
                    rbind (holdemEvaluate holeCombo boardCombo) (fun evaluated =>
                    Ok (if eh_value bestHand <? eh_value evaluated
                        then evaluated else bestHand))))
                  (generateCombinations boardCards 3) best)
              l best = Ok e' ->
            ∃ b, best = Ok b ∧ eh_value b <= eh_value e').
  { intros l. induction l as [|hc l IH]; intros best e'; cbn [fold_left].
    - intros ->. eexists. split; [done|lia].
    - intros (b & Hb & Hle)%IH. apply Hinner in Hb as (b0 & -> & Hle0).
      eexists. split; [done|lia]. }
  intros (b & [= <-] & Hle)%Houter. exact Hle.
Qed.

Lemma getEvaluator_value variant ev holeCards boardCards e :
  getEvaluator variant = Ok ev -> evaluate ev holeCards boardCards = Ok e ->
  0 <= eh_value e.
Proof.
  destruct variant; intros [= <-]; cbn.
  - apply holdemEvaluate_value.
  - apply omahaEvaluate_value.
Qed.

Section Tally.
Context (ev : HandEvaluator).
Hypothesis ev_values : ∀ holeCards boardCards e,
  evaluate ev holeCards boardCards = Ok e -> 0 <= eh_value e.

Lemma evaluateHands_values w :
  usesEvaluator ev w ->
  wp evaluateHands
     (post (fun evs w' => sameObjects w w' ∧ length evs = length (hands (self w))
                          ∧ Forall (fun e => 0 <= eh_value e) evs)
           (fun _ w' => sameObjects w w')) w.
Proof.
  intros Hev. unfold evaluateHands. apply wp_bind, wp_gets.
  generalize (hands (self w)). intros l.
  assert (H : ∀ w1, sameObjects w w1 ->
            wp (mapM (fun hand =>
                  let* handCards := readCards hand in
                  let* boardCards := readCards (board (self w)) in
                  exec logEvaluation handCards boardCards in
                  liftR (evaluate (evaluator (self w)) handCards boardCards)) l)
               (post (fun evs w' => sameObjects w w' ∧ length evs = length l
                                    ∧ Forall (fun e => 0 <= eh_value e) evs)
                     (fun _ w' => sameObjects w w')) w1); [|by apply H].
  induction l as [|x l IH]; intros w1 H1.
  { cbn. split; [done|]. split; [done|constructor]. }
  cbn [mapM]. apply wp_bind. apply wp_bind, wp_gets. apply wp_bind, wp_gets.
  apply wp_bind, wp_modify. apply wp_liftR.
  destruct (evaluate _ _ _) as [e|] eqn:Ee; [|done].
  apply wp_bind. eapply wp_mono; [|apply IH; done].
  intros [ys|err] w2; [|done]. intros (H2 & Hl & Hf). apply wp_ret. cbn.
  split; [done|]. split; [by rewrite Hl|]. constructor; [|done].
  rewrite Hev in Ee. by eapply ev_values.
Qed.

Lemma evaluateAndUpdateEquity_tallied playerResults w :
  usesEvaluator ev w -> length playerResults = length (hands (self w)) ->
  wp (evaluateAndUpdateEquity playerResults)
     (post (fun pr' w' => sameObjects w w'
                          ∧ tallied winsCount tiesCount wins ties playerResults 1 pr')
           (fun _ w' => sameObjects w w')) w.
Proof.
  intros Hev Hlen. unfold evaluateAndUpdateEquity. apply wp_bind.
  eapply wp_mono; [|by apply evaluateHands_values].
  intros [evs|e] w'; [|done]. intros (Hs & Hl & Hf). apply wp_ret. cbn.
  split; [done|]. apply updateCounts_tallied; try done; congruence.
Qed.

Lemma evaluateAllCombinations_tallied incompleteHands boardCompletions todo :
  ∀ handIndex current playerResults w,
    usesEvaluator ev w -> length playerResults = length (hands (self w)) ->
    wp (evaluateAllCombinations handIndex incompleteHands todo boardCompletions current
          playerResults)
       (post (fun '(n, pr') w' =>
                self w' = self w
                ∧ tallied winsCount tiesCount wins ties playerResults n pr')
             (fun _ _ => True)) w.
Proof.
  induction todo as [|completions todo IH]; intros handIndex current playerResults w Hev Hlen;
    cbn [evaluateAllCombinations].
  - eapply wp_mono;
      [|apply (wp_foldM _ (fun '(n, pr') w' =>
                             self w' = self w
                             ∧ tallied winsCount tiesCount wins ties playerResults n pr')
                 (fun _ _ => True)); [split; [done | apply tallied_refl]|]].
    { by intros [[n pr]|e] w'. }
    intros [count pr] bc w1 _ [Hs1 Ht1].
    apply wp_bind. eapply wp_mono; [|apply applyCompletions_board].
    intros r w2 (-> & Hs2 & _).
    apply wp_bind. eapply wp_mono; [|apply (evaluateAndUpdateEquity_tallied pr)].
    + intros [pr'|e] w3; [|done]. intros [[Hs3 _] Ht3]. apply wp_ret. cbn.
      split; [congruence|]. replace (S count) with (count + 1)%nat by lia.
      by eapply tallied_trans.
    + unfold usesEvaluator in *. congruence.
    + destruct Ht1 as [Hl1 _]. congruence.
  - eapply wp_mono;
      [|apply (wp_foldM _ (fun '(n, pr') w' =>
                             self w' = self w
                             ∧ tallied winsCount tiesCount wins ties playerResults n pr')
                 (fun _ _ => True)); [split; [done | apply tallied_refl]|]].
    { by intros [[n pr]|e] w'. }
    intros [totalCount pr] completion w1 _ [Hs1 Ht1].
    destruct (hasConflict _ _ _); [by apply wp_ret|].
    apply wp_bind. eapply wp_mono; [|apply IH].
    + intros [[count pr']|e] w2; [|done]. intros [Hs2 Ht2]. apply wp_ret. cbn.
      split; [congruence|]. by eapply tallied_trans.
    + unfold usesEvaluator in *. congruence.
    + destruct Ht1 as [Hl1 _]. congruence.
Qed.

Lemma enumerateAndTally_tallied w :
  usesEvaluator ev w ->
  wp enumerateAndTally
     (post (fun res w' =>
              ∃ pr, playerResults res = setEquity (totalHands res) <$> pr
                    ∧ tallied winsCount tiesCount wins ties
                        (imap (fun index _ => mkPlayerEquity index 0 0 0 0 0 [] [])
                              (hands (self w)))
                        (totalHands res) pr)
           (fun _ _ => True)) w.
Proof.
  intros Hev. unfold enumerateAndTally.
  apply wp_bind, wp_gets. apply wp_bind, wp_createInitialPlayerEquities.
  apply wp_bind, wp_createDeckWithoutUsedCards.
  apply wp_bind, wp_mapM_readCards. apply wp_bind, wp_readCards.
  set (pr0 := imap (fun index _ => mkPlayerEquity index 0 0 0 0 0 [] []) (hands (self w))).
  assert (Hlen0 : length pr0 = length (hands (self w))) by (unfold pr0; by rewrite length_imap).
  apply wp_bind. case_match.
  - apply wp_bind. eapply wp_mono; [|by apply evaluateAndUpdateEquity_tallied].
    intros [pr|e] w1; [|done]. intros [_ Ht]. apply wp_ret, wp_ret. cbn. eauto.
  - eapply wp_mono; [|by apply evaluateAllCombinations_tallied].
    intros [[n pr]|e] w1; [|done]. intros [_ Ht]. apply wp_ret. cbn. eauto.
Qed.
End Tally.

Lemma exhaustive_tallied h hs b dead gameVariant opts res :
  outcome (runExhaustive h hs b dead gameVariant opts) = Ok res ->
  ∃ pr, playerResults res = setEquity (totalHands res) <$> pr
        ∧ tallied winsCount tiesCount wins ties
            (imap (fun index _ => mkPlayerEquity index 0 0 0 0 0 [] []) hs)
            (totalHands res) pr.
Proof.
  unfold runExhaustive.
  destruct (newCalculator hs b dead gameVariant opts h) as [[this|e] h'] eqn:Enew; [|done].
  destruct (newCalculator_ok _ _ _ _ _ _ _ _ Enew) as (-> & ev & Hev & ->).
  set (w := mkWorld _ _ _ _).
  destruct (exhaustiveCalculate w) as [r w'] eqn:Erun. cbn [outcome]. intros ->.
  pose proof (exhaustiveCalculate_guard w) as Hguard. cbv zeta in Hguard.
  rewrite Erun in Hguard. destruct (negb _); [done|]. symmetry in Hguard.
  pose proof (enumerateAndTally_tallied ev
                (fun hc bc e => getEvaluator_value _ _ hc bc e Hev) w eq_refl) as Hwp.
  exact (wp_run _ _ _ _ _ Hwp Hguard).
Qed.

Lemma finalEquity_bounds w t total :
  (0 < total)%nat -> (w + t <= total)%nat ->
  (0 <= finalEquity w t total <= 1)%Q.
Proof.
  intros Hpos Hle. unfold finalEquity. rewrite Qred_correct.
  set (W := inject_Z (Z.of_nat w)). set (T := inject_Z (Z.of_nat t)).
  set (N := inject_Z (Z.of_nat total)).
  assert (HW : (0 <= W)%Q) by (unfold W; rewrite <- (Zle_Qle 0); lia).
  assert (HT : (0 <= T)%Q) by (unfold T; rewrite <- (Zle_Qle 0); lia).
  assert (HN : (0 < N)%Q) by (unfold N; rewrite <- (Zlt_Qlt 0); lia).
  assert (HWT : (W + T <= N)%Q).
  { unfold W, T, N. rewrite <- inject_Z_plus, <- Zle_Qle. lia. }
  clearbody W T N.
  assert (T / 2 == T * (1 # 2))%Q as -> by field. split.
  - apply Qle_shift_div_l; [done|]. lra.
  - apply Qle_shift_div_r; [done|]. lra.
Qed.

(** X17: when an exhaustive calculation returns, there is one result for each
    hand, in the order of the hands; [wins] and [ties] are left at zero; the
    hand-category counts of every player add up to the number of scenarios;
    wins and ties counted together never exceed it; and every equity lies
    between 0 and 1 when at least one scenario was evaluated. *)
Theorem X17_exhaustive_result (h : Heap) (hs : list nat) (b : nat) (dead : list Card)
    (gameVariant : GameVariant) (opts : CalculationOptions) (res : EquityResult) :
  outcome (runExhaustive h hs b dead gameVariant opts) = Ok res ->
  length (playerResults res) = length hs
  ∧ ∀ i p, playerResults res !! i = Some p ->
      handIndex p = i ∧ wins p = 0%nat ∧ ties p = 0%nat
      ∧ (countTotal (handRankCounts p) == inject_Z (Z.of_nat (totalHands res)))%Q
      ∧ (winsCount p + tiesCount p <= totalHands res)%nat
      ∧ ((0 < totalHands res)%nat -> (0 <= equity p <= 1)%Q).
Proof.
  intros (pr & Hres & Hl & Hp & _)%exhaustive_tallied. rewrite Hres.
  split; [by rewrite length_fmap, Hl, length_imap|].
  intros i p Hi. rewrite list_lookup_fmap in Hi.
  destruct (pr !! i) as [q|] eqn:Hq; [|done]. cbn in Hi. injection Hi as <-.
  assert (Hi0 : imap (fun index _ => mkPlayerEquity index 0 0 0 0 0 [] []) hs !! i
                = Some (mkPlayerEquity i 0 0 0 0 0 [] [])).
  { rewrite list_lookup_imap. apply lookup_lt_Some in Hq. rewrite Hl, length_imap in Hq.
    destruct (lookup_lt_is_Some_2 hs i Hq) as [x ->]. done. }
  destruct (Hp _ _ Hi0) as (q' & Hq' & Hidx & Hw & Ht & Hc & _ & _ & Hle).
  rewrite Hq in Hq'. injection Hq' as <-. cbn in *.
  split; [done|]. split; [done|]. split; [done|].
  split; [rewrite Hc; unfold countTotal; cbn; lra|]. split; [lia|].
  intros Hpos. apply finalEquity_bounds; [done | lia].
Qed.

Lemma X17_witness :
  let run := runExhaustive turnBoard [0; 1]%nat 2%nat (allButFirst 2 turnBoard)
               TEXAS_HOLDEM noOptions in
  ∃ res, outcome run = Ok res
    ∧ totalHands res = 2%nat
    ∧ length (playerResults res) = length [0; 1]%nat
    ∧ ∀ i p, playerResults res !! i = Some p ->
        handIndex p = i ∧ wins p = 0%nat ∧ ties p = 0%nat
        ∧ (countTotal (handRankCounts p) == inject_Z (Z.of_nat (totalHands res)))%Q
        ∧ (winsCount p + tiesCount p <= totalHands res)%nat
        ∧ ((0 < totalHands res)%nat -> (0 <= equity p <= 1)%Q).
Proof.
  cbv zeta. eexists. split; [vm_compute; reflexivity|]. split; [reflexivity|].
  apply (X17_exhaustive_result turnBoard [0; 1]%nat 2%nat (allButFirst 2 turnBoard)
           TEXAS_HOLDEM noOptions).
  vm_compute. reflexivity.
Defined.

Lemma two_player_sum (a b : PlayerEquity) (won tied : PlayerEquity -> nat) total :
  (0 < total)%nat ->
  halfPoints won tied [a; b] = (2 * total)%nat ->
  (finalEquity (won a) (tied a) total + (finalEquity (won b) (tied b) total + 0) == 1)%Q.
Proof.
  intros Hpos Hhalf. unfold finalEquity. rewrite !Qred_correct.
  unfold halfPoints in Hhalf. cbn in Hhalf. unfold id in Hhalf.
  set (N := inject_Z (Z.of_nat total)).
  assert (HN : (0 < N)%Q) by (unfold N; rewrite <- (Zlt_Qlt 0); lia).
  assert (Heq : ((2 # 1) * inject_Z (Z.of_nat (won a)) + inject_Z (Z.of_nat (tied a))
                 + ((2 # 1) * inject_Z (Z.of_nat (won b)) + inject_Z (Z.of_nat (tied b)))
                 == (2 # 1) * N)%Q).
  { unfold N.
    assert (HZ : 2 * Z.of_nat (won a) + Z.of_nat (tied a)
                 + (2 * Z.of_nat (won b) + Z.of_nat (tied b)) = 2 * Z.of_nat total) by lia.
    apply (f_equal inject_Z) in HZ.
    rewrite !inject_Z_plus, !inject_Z_mult in HZ.
    change (inject_Z 2) with (2 # 1)%Q in HZ. by rewrite HZ. }
  set (Wa := inject_Z (Z.of_nat (won a))) in *. set (Ta := inject_Z (Z.of_nat (tied a))) in *.
  set (Wb := inject_Z (Z.of_nat (won b))) in *. set (Tb := inject_Z (Z.of_nat (tied b))) in *.
  clearbody Wa Ta Wb Tb N.
  assert (Hsum : ((Wa + Ta / 2) / N + ((Wb + Tb / 2) / N + 0)
                  == ((2 # 1) * Wa + Ta + ((2 # 1) * Wb + Tb)) / ((2 # 1) * N))%Q).
  { field. lra. }
  rewrite Hsum, Heq. field. lra.
Qed.

(** X18: with two hands, the equities of an exhaustive calculation that
    evaluated at least one scenario add up to exactly 1. *)
Theorem X18_two_player_equities (h : Heap) (h0 h1 b : nat) (dead : list Card)
    (gameVariant : GameVariant) (opts : CalculationOptions) (res : EquityResult) :
  outcome (runExhaustive h [h0; h1] b dead gameVariant opts) = Ok res ->
  (0 < totalHands res)%nat ->
  (equitySum res == 1)%Q.
Proof.
  intros (pr & Hres & Hl & _ & Hhalf)%exhaustive_tallied Hpos.
  specialize (Hhalf eq_refl). cbn in Hl.
  destruct pr as [|p0 [|p1 [|]]]; try done.
  unfold equitySum. rewrite Hres. cbn.
  apply (two_player_sum p0 p1 winsCount tiesCount); [done|].
  rewrite Hhalf. unfold halfPoints. cbn. lia.
Qed.

Lemma X18_witness :
  let run := runExhaustive turnBoard [0; 1]%nat 2%nat (allButFirst 2 turnBoard)
               TEXAS_HOLDEM noOptions in
  ∃ res, outcome run = Ok res ∧ totalHands res = 2%nat ∧ (equitySum res == 1)%Q.
Proof.
  cbv zeta. eexists. split; [vm_compute; reflexivity|]. split; [reflexivity|].
  apply (X18_two_player_equities turnBoard 0%nat 1%nat 2%nat (allButFirst 2 turnBoard)
           TEXAS_HOLDEM noOptions);
    [vm_compute; reflexivity | vm_compute; lia].
Defined.

(** ** Scenario counts and the Monte Carlo tally *)

Lemma mapM_allocCopyM_self (l : list nat) : ∀ w Q,
  (∀ r w', length r = length l -> self w' = self w -> Q (Ok r) w') ->
  wp (mapM allocCopyM l) Q w.
Proof.
  induction l as [|x l IH]; intros w Q HQ.
  - apply wp_ret. by apply HQ.
  - cbn [mapM]. apply wp_bind. unfold wp at 1. cbn.
    apply wp_bind. apply IH. intros r w' Hr Hs. apply wp_ret. apply HQ; cbn; [lia|done].
Qed.

Section TallyMC.
Context (random : nat -> nat) (ev : HandEvaluator) (n : nat).
Hypothesis ev_values : ∀ holeCards boardCards e,
  evaluate ev holeCards boardCards = Ok e -> 0 <= eh_value e.

Lemma evaluateAndUpdateEquityMC_tallied playerResults w :
  sameGame ev n w -> length playerResults = n ->
  wp (evaluateAndUpdateEquityMC playerResults)
     (post (fun pr' w' => sameObjects w w'
                          ∧ tallied wins ties winsCount tiesCount playerResults 1 pr')
           (fun _ w' => sameObjects w w')) w.
Proof.
  intros [Hev Hn] Hlen. unfold evaluateAndUpdateEquityMC. apply wp_bind.
  eapply wp_mono; [|by apply (evaluateHands_values ev)].
  intros [evs|e] w'; [|done]. intros (Hs & Hl & Hf). apply wp_ret. cbn.
  split; [done|]. apply updateCounts_tallied; try done; congruence.
Qed.

Lemma simulateOnce_tallied playerResults w :
  sameGame ev n w -> length playerResults = n ->
  wp (simulateOnce random playerResults)
     (post (fun pr' w' => sameGame ev n w'
                          ∧ tallied wins ties winsCount tiesCount playerResults 1 pr')
           (fun _ _ => True)) w.
Proof.
  intros [Hev Hn] Hlen. unfold simulateOnce. apply wp_bind, wp_gets.
  apply wp_bind, mapM_allocCopyM_self. intros originalHands w1 Hoh Hs1.
  apply wp_bind. unfold wp at 1. cbn [allocCopyM allocCopy fst snd heap self randomCalls evaluations].
  set (originalBoard := length (heap w1)).
  apply wp_bind, wp_createDeckWithoutUsedCards.
  apply wp_bind, wp_shuffle. intros deck calls _.
  cbn [heap self randomCalls evaluations].
  apply wp_bind.
  eapply wp_mono;
    [|apply (wp_foldM _ (fun _ w' => self w' = self w) (fun _ _ => True)); [done|]].
  2:{ intros deck0 j w3 _ Hs3.
      apply wp_bind, wp_readCards.
      destruct (_ <? _)%nat; [|by apply wp_ret].
      apply wp_bind, wp_liftR. destruct (deal deck0 _) as [[newCards deck1]|]; [|done].
      apply wp_bind, wp_readCards. apply wp_bind, wp_modify, wp_ret. done. }
  intros [deck1|e] w3; [|done]. intros Hs3.
  apply wp_bind, wp_readCards. apply wp_bind.
  assert (Hfinish : ∀ w4, self w4 = self w ->
            wp (let* playerResults0 := evaluateAndUpdateEquityMC playerResults in
                exec setSelf originalHands originalBoard in ret playerResults0)
               (post (fun pr' w' => sameGame ev n w'
                        ∧ tallied wins ties winsCount tiesCount playerResults 1 pr')
                     (fun _ _ => True)) w4).
  { intros w4 Hs4.
    apply wp_bind. eapply wp_mono; [|apply evaluateAndUpdateEquityMC_tallied].
    - intros [pr'|e] w5; [|done]. intros [[Hs5 _] Ht].
      apply wp_bind, wp_modify, wp_ret. cbn. split; [|done].
      split; cbn; [congruence|]. by rewrite Hoh.
    - split; congruence.
    - done. }
  destruct (_ <? _)%nat.
  - apply wp_bind, wp_liftR.
    destruct (deal deck1 _) as [[newBoardCards deck2]|]; [|done].
    apply wp_bind, wp_readCards. apply wp_modify. apply Hfinish. cbn. congruence.
  - apply wp_ret. by apply Hfinish.
Qed.

Lemma runSimulationBatch_tallied count : ∀ playerResults w,
  sameGame ev n w -> length playerResults = n ->
  wp (runSimulationBatch random count playerResults)
     (post (fun pr' w' => sameGame ev n w'
                          ∧ tallied wins ties winsCount tiesCount playerResults count pr')
           (fun _ _ => True)) w.
Proof.
  induction count as [|count IH]; intros pr w Hw Hlen; cbn [runSimulationBatch].
  - apply wp_ret. split; [done | apply tallied_refl].
  - apply wp_bind. eapply wp_mono; [|by apply simulateOnce_tallied].
    intros [pr1|e] w1; [|done]. intros [Hw1 Ht1].
    eapply wp_mono; [|apply IH; [done | destruct Ht1; congruence]].
    intros [pr2|e] w2; [|done]. intros [Hw2 Ht2]. split; [done|].
    replace (S count) with (1 + count)%nat by lia. by eapply tallied_trans.
Qed.

(** The loop stops at [maxIterations], or earlier after a whole number of
    batches, more than ten of them. *)
Lemma simulationLoop_tallied fuel :
  ∀ maxIterations iterationsCompleted previousEquities playerResults w,
    sameGame ev n w -> length playerResults = n ->
    (iterationsCompleted <= maxIterations)%nat ->
    (∃ q, iterationsCompleted = q * 1000)%nat ∨ iterationsCompleted = maxIterations ->
    wp (simulationLoop random fuel maxIterations iterationsCompleted previousEquities
          playerResults)
       (post (fun r w' =>
                ∀ total pr', r = Some (total, pr') ->
                  (iterationsCompleted <= total <= maxIterations)%nat
                  ∧ (total = maxIterations ∨ (10 * 1000 < total)%nat ∧ ∃ q, total = (q * 1000)%nat)
                  ∧ tallied wins ties winsCount tiesCount playerResults
                      (total - iterationsCompleted) pr')
             (fun _ _ => True)) w.
Proof.
  induction fuel as [|fuel IH]; intros mx done prev pr w Hw Hlen Hle Hmult;
    cbn [simulationLoop].
  - destruct (Nat.ltb_spec done mx); cbn [negb]; [by apply wp_ret|].
    apply wp_ret. intros total pr' [= <- <-]. split; [lia|]. split; [left; lia|].
    rewrite Nat.sub_diag. apply tallied_refl.
  - destruct (Nat.ltb_spec done mx) as [Hlt|Hge]; cbn [negb].
    2:{ apply wp_ret. intros total pr' [= <- <-]. split; [lia|]. split; [left; lia|].
        rewrite Nat.sub_diag. apply tallied_refl. }
    destruct Hmult as [[q Hq]|Heq]; [|lia].
    apply wp_bind, wp_gets. apply wp_bind.
    set (batch := Nat.min batchSize (mx - done)).
    assert (Hbatch : (batch = 1000 ∧ done + 1000 <= mx ∨ done + batch = mx)%nat).
    { unfold batch, batchSize. lia. }
    clearbody batch.
    eapply wp_mono; [|by apply runSimulationBatch_tallied].
    intros [pr1|e] w1; [|done]. intros [Hw1 Ht1].
    destruct (_ && _) eqn:Hcond.
    + apply wp_ret. intros total pr' [= <- <-]. split; [lia|]. split.
      * apply andb_true_iff in Hcond as [Hcond _]. apply andb_true_iff in Hcond as [Hcond _].
        apply andb_true_iff in Hcond as [Hcond _]. apply Nat.ltb_lt in Hcond.
        unfold convergenceWindow, batchSize in Hcond.
        destruct Hbatch as [[Hb _]|Hb]; [|left; lia].
        right. split; [lia|]. exists (S q). lia.
      * replace (done + batch - done)%nat with batch by lia. done.
    + eapply wp_mono; [|apply IH; [done | destruct Ht1; congruence | lia |]].
      * intros [r|e] w2; [|done]. unfold post. intros Hr total pr' ->.
        destruct (Hr total pr' eq_refl) as (Hb & Hor & Ht).
        split; [lia|]. split; [done|].
        replace (total - done)%nat with (batch + (total - (done + batch)))%nat by lia.
        by eapply tallied_trans.
      * destruct Hbatch as [[Hb _]|Hb]; [left; exists (S q); lia | by right].
Qed.

Lemma monteCarloCalculate_tallied w res w' :
  sameGame ev n w ->
  monteCarloCalculate random w = (Ok (Some res), w') ->
  let maxIterations :=
    if (iterations (options (self w)) =? 0)%nat then 100000%nat
    else iterations (options (self w)) in
  isExact res = false
  ∧ (totalHands res <= maxIterations)%nat
  ∧ (totalHands res = maxIterations
     ∨ (10 * 1000 < totalHands res)%nat ∧ ∃ q, totalHands res = (q * 1000)%nat)
  ∧ ∃ pr, playerResults res = setEquityMC (totalHands res) <$> pr
          ∧ tallied wins ties winsCount tiesCount
              (imap (fun index _ => mkPlayerEquity index 0 0 0 0 0 [] []) (hands (self w)))
              (totalHands res) pr.
Proof.
  intros Hw Hrun. cbv zeta.
  assert (Hwp : wp (monteCarloCalculate random)
            (post (fun r _ => ∀ res, r = Some res ->
                     isExact res = false
                     ∧ (totalHands res
                        <= if (iterations (options (self w)) =? 0)%nat then 100000
                           else iterations (options (self w)))%nat
                     ∧ (totalHands res
                        = (if (iterations (options (self w)) =? 0)%nat then 100000%nat
                           else iterations (options (self w)))
                        ∨ (10 * 1000 < totalHands res)%nat ∧ ∃ q, totalHands res = (q * 1000)%nat)
                     ∧ ∃ pr, playerResults res = setEquityMC (totalHands res) <$> pr
                             ∧ tallied wins ties winsCount tiesCount
                                 (imap (fun index _ => mkPlayerEquity index 0 0 0 0 0 [] [])
                                       (hands (self w)))
                                 (totalHands res) pr)
                  (fun _ _ => True)) w).
  { unfold monteCarloCalculate. apply wp_bind, wp_gets.
    apply wp_bind, wp_createInitialPlayerEquities.
    set (mx := if (_ =? 0)%nat then _ else _).
    apply wp_bind.
    eapply wp_mono; [|apply simulationLoop_tallied;
                      [done | rewrite length_imap; apply Hw | lia | left; by exists 0%nat]].
    intros [[[total pr]|]|e] w1; [| |done].
    - intros Hr. destruct (Hr total pr eq_refl) as (Hb & Hor & Ht).
      apply wp_ret. intros res' [= <-]. cbn. split; [done|]. split; [lia|].
      split; [done|]. exists pr. split; [done|]. by rewrite Nat.sub_0_r in Ht.
    - intros _. by apply wp_ret. }
  eapply wp_run in Hwp; [|exact Hrun]. by apply Hwp.
Qed.
End TallyMC.

Lemma factorialZ_S (n : nat) : factorialZ (S n) = Z.of_nat (S n) * factorialZ n.
Proof. destruct n; [reflexivity|]. reflexivity. Qed.

Lemma factorialZ_pos (n : nat) : 0 < factorialZ n.
Proof. induction n; [reflexivity|]. rewrite factorialZ_S. lia. Qed.

Lemma waysInOrderZ_scale (k : nat) : ∀ acc n,
  waysInOrderZ k acc n = acc * waysInOrderZ k 1 n.
Proof.
  induction k as [|k IH]; intros acc n; cbn [waysInOrderZ]; [lia|].
  rewrite (IH (acc * n)), (IH (1 * n)). lia.
Qed.

Lemma waysInOrderZ_last (k : nat) : ∀ n,
  waysInOrderZ (S k) 1 n = waysInOrderZ k 1 n * (n - Z.of_nat k).
Proof.
  induction k as [|k IH]; intros n.
  - cbn. lia.
  - change (waysInOrderZ (S (S k)) 1 n) with (waysInOrderZ (S k) (1 * n) (n - 1)).
    rewrite waysInOrderZ_scale, IH.
    change (waysInOrderZ (S k) 1 n) with (waysInOrderZ k (1 * n) (n - 1)).
    rewrite (waysInOrderZ_scale k (1 * n)). lia.
Qed.

Lemma waysInOrderZ_step (k : nat) (n : Z) :
  waysInOrderZ (S k) 1 (n + 1) - waysInOrderZ (S k) 1 n
  = Z.of_nat (S k) * waysInOrderZ k 1 n.
Proof.
  rewrite (waysInOrderZ_last k n).
  change (waysInOrderZ (S k) 1 (n + 1)) with (waysInOrderZ k (1 * (n + 1)) (n + 1 - 1)).
  rewrite waysInOrderZ_scale. replace (n + 1 - 1) with n by lia.
  rewrite Nat2Z.inj_succ. ring.
Qed.

Lemma waysInOrderZ_0 (k : nat) : waysInOrderZ (S k) 1 0 = 0.
Proof. cbn [waysInOrderZ]. rewrite waysInOrderZ_scale. lia. Qed.

Lemma waysInOrderZ_choose (k : nat) : ∀ n : nat,
  waysInOrderZ k 1 (Z.of_nat n) = factorialZ k * Z.of_nat (choose n k).
Proof.
  induction k as [|k IHk]; intros n.
  - cbn. by destruct n.
  - induction n as [|n IHn].
    + rewrite waysInOrderZ_0. cbn [choose]. lia.
    + pose proof (waysInOrderZ_step k (Z.of_nat n)) as Hstep.
      replace (Z.of_nat n + 1) with (Z.of_nat (S n)) in Hstep by lia.
      rewrite IHn, IHk in Hstep. cbn [choose]. rewrite factorialZ_S in *.
      rewrite Nat2Z.inj_add. nia.
Qed.

Lemma binomial_choose (n k : nat) : binomial (Z.of_nat n) k = Z.of_nat (choose n k).
Proof.
  unfold binomial. destruct (Nat.eqb_spec k 0) as [->|Hk]; [by destruct n|].
  rewrite waysInOrderZ_choose, Z.mul_comm, Z.div_mul; [done|].
  pose proof (factorialZ_pos k). lia.
Qed.

(** Up to eleven cards to deal out of at most 52, the doubles of
    [combinationsFor] give the binomial coefficient. *)
Lemma combinationsFor_table :
  forallb (fun n => forallb (fun k =>
      PrimFloat.eqb (combinationsFor (Z.of_nat n) k) (floatOfZ (binomial (Z.of_nat n) k))
      && PrimFloat.eqb (floatOfZ (binomial (Z.of_nat n) k)) (combinationsFor (Z.of_nat n) k))
    (seq 0 12)) (seq 0 53) = true.
Proof. vm_compute. reflexivity. Qed.

Lemma combinationsFor_binomial (n k : nat) :
  (n <= 52)%nat -> (k <= 11)%nat ->
  sameNumber (combinationsFor (Z.of_nat n) k) (floatOfZ (Z.of_nat (choose n k)))
  ∧ sameNumber (floatOfZ (Z.of_nat (choose n k))) (combinationsFor (Z.of_nat n) k).
Proof.
  intros Hn Hk. pose proof combinationsFor_table as Htable.
  rewrite forallb_forall in Htable. specialize (Htable n).
  rewrite forallb_forall in Htable.
  rewrite <- binomial_choose. apply andb_true_iff, Htable; apply in_seq; lia.
Qed.

(** X21: when no more than 52 cards are in use and no more than eleven cards
    are to deal, the number that [estimateCombinations] computes on doubles,
    a product of falling numbers divided by a factorial, is the binomial
    coefficient of the cards that remain over the cards to deal (zero when
    there are too few cards). Eleven is the limit: with five unknown hands on
    a flop, twelve cards to deal out of 49, the estimate is not the binomial
    coefficient 92263734836 but the double next to it. *)
Theorem X21_estimate_is_binomial (w : World) :
  (length (usedCardsOf w) <= 52)%nat ->
  (cardsToDeal (cardsOf (heap w) <$> hands (self w)) (cardsOf (heap w) (board (self w)))
     (getVariant (evaluator (self w))) <= 11)%nat ->
  sameNumber (estimatedCombinations w)
    (floatOfZ (Z.of_nat (choose (52 - length (usedCardsOf w))
                           (cardsToDeal (cardsOf (heap w) <$> hands (self w))
                              (cardsOf (heap w) (board (self w)))
                              (getVariant (evaluator (self w)))))))
  ∧ (let w12 := mkWorld fiveUnknownHandsOnFlop
                  (mkCalculator [0; 1; 2; 3; 4]%nat 5%nat [] HoldemEvaluator
                     (mergeOptions noOptions)) 0 [] in
     length (usedCardsOf w12) = 3%nat
     ∧ cardsToDeal (cardsOf (heap w12) <$> hands (self w12))
         (cardsOf (heap w12) (board (self w12))) (getVariant (evaluator (self w12)))
       = 12%nat
     ∧ binomial 49 12 = 92263734836
     ∧ ¬ sameNumber (estimatedCombinations w12) (floatOfZ 92263734836)
     ∧ Number_toString (estimatedCombinations w12) = "92263734836.00002").
Proof.
  intros Hle Hdeal. split.
  - unfold estimatedCombinations. cbv zeta.
    set (k := cardsToDeal _ _ _) in *. clearbody k.
    destruct (Nat.eqb_spec k 0) as [->|Hk].
    { assert (choose (52 - length (usedCardsOf w)) 0 = 1%nat) as ->
        by (by destruct (52 - length (usedCardsOf w))%nat).
      reflexivity. }
    replace (52 - Z.of_nat (length (usedCardsOf w)))
      with (Z.of_nat (52 - length (usedCardsOf w))) by lia.
    apply combinationsFor_binomial; lia.
  - cbv zeta. split; [reflexivity|]. split; [reflexivity|]. split; [reflexivity|].
    split; [|vm_compute; reflexivity].
    unfold sameNumber. vm_compute. discriminate.
Qed.

Lemma X21_witness :
  let w := mkWorld flopBoard
             (mkCalculator [0; 1]%nat 2%nat [] HoldemEvaluator (mergeOptions noOptions))
             0 [] in
  length (usedCardsOf w) = 7%nat
  ∧ cardsToDeal (cardsOf (heap w) <$> hands (self w)) (cardsOf (heap w) (board (self w)))
      (getVariant (evaluator (self w))) = 2%nat
  ∧ estimatedCombinations w = 990%float
  ∧ sameNumber (estimatedCombinations w)
      (floatOfZ (Z.of_nat (choose (52 - length (usedCardsOf w))
                             (cardsToDeal (cardsOf (heap w) <$> hands (self w))
                                (cardsOf (heap w) (board (self w)))
                                (getVariant (evaluator (self w))))))).
Proof.
  cbv zeta. split; [reflexivity|]. split; [reflexivity|]. split; [vm_compute; reflexivity|].
  apply (X21_estimate_is_binomial
           (mkWorld flopBoard
              (mkCalculator [0; 1]%nat 2%nat [] HoldemEvaluator (mergeOptions noOptions))
              0 [])); vm_compute; lia.
Defined.

Lemma foldM_scenarios (l : list (list Card)) : ∀ count pr w,
  wp (foldM (fun '(count, playerResults) boardCompletion =>
               exec applyCompletions [] [] boardCompletion in
               let* playerResults := evaluateAndUpdateEquity playerResults in
               ret (S count, playerResults)) l (count, pr))
     (post (fun '(n, _) _ => n = (count + length l)%nat) (fun _ _ => True)) w.
Proof.
  induction l as [|bc l IH]; intros count pr w; cbn [foldM].
  - apply wp_ret. cbn. lia.
  - apply wp_bind. apply wp_bind.
    eapply wp_mono; [|apply applyCompletions_board]. intros r w1 (-> & _).
    apply wp_bind. unfold wp at 1.
    destruct (evaluateAndUpdateEquity pr w1) as [[pr'|e] w2]; [|done]. cbn [fst snd].
    apply wp_ret. eapply wp_mono; [|apply IH].
    intros [[n pr'']|e] w3; [|done]. cbn. lia.
Qed.

Lemma enumerateAndTally_scenarios (w : World) :
  (∀ x, x ∈ hands (self w) ->
        cardsNeededForHand (cardsOf (heap w) x) (getVariant (evaluator (self w))) = 0%nat) ->
  wp enumerateAndTally
     (post (fun res _ =>
              totalHands res
              = choose (length (removeCards fullDeck (usedCardsOf w)))
                  (cardsNeededForBoard (cardsOf (heap w) (board (self w)))
                     (getVariant (evaluator (self w)))))
           (fun _ _ => True)) w.
Proof.
  intros Hcomplete. unfold enumerateAndTally.
  apply wp_bind, wp_gets. apply wp_bind, wp_createInitialPlayerEquities.
  apply wp_bind, wp_createDeckWithoutUsedCards.
  apply wp_bind, wp_mapM_readCards. apply wp_bind, wp_readCards.
  set (gameVariant := getVariant (evaluator (self w))) in *.
  set (k := cardsNeededForBoard (cardsOf (heap w) (board (self w))) gameVariant).
  set (ih := filter _ _).
  assert (Hih : ih = []).
  { subst ih. apply elem_of_nil_inv. intros [i needed] [Hpos Hin]%list_elem_of_filter.
    apply elem_of_lookup_imap in Hin as (i' & handCards & [= -> ->] & Hi).
    rewrite list_lookup_fmap in Hi.
    destruct (hands (self w) !! i') as [x|] eqn:Hx; [|done]. injection Hi as <-.
    cbn in Hpos. rewrite Hcomplete in Hpos; [lia|]. by eapply list_elem_of_lookup_2. }
  rewrite Hih. apply wp_bind.
  destruct (Nat.eqb_spec k 0) as [Hk|Hk]; cbn [andb].
  - rewrite bool_decide_eq_true_2 by done. cbn [andb].
    apply wp_bind. unfold wp at 1.
    destruct (evaluateAndUpdateEquity _ _) as [[pr'|e] w2]; [|done]. cbn [fst snd].
    apply wp_ret, wp_ret. unfold post. cbn [totalHands]. rewrite Hk. by destruct (length _).
  - rewrite bool_decide_eq_true_2 by done. cbn [andb map evaluateAllCombinations].
    destruct (Nat.ltb_spec 0 k); [|lia].
    eapply wp_mono; [|apply foldM_scenarios].
    intros [[n pr']|e] w2; [|done]. intros ->. apply wp_ret. unfold post. cbn [totalHands].
    by rewrite generateCombinations_count.
Qed.

(** X22: when every hand is complete, the number of scenarios an exhaustive
    calculation evaluates is the binomial coefficient of the unused cards
    over the cards the board lacks, which is the number that the doubles of
    [estimateCombinations] give for these cards. *)
Theorem X22_scenarios_of_a_board (h : Heap) (hs : list nat) (b : nat) (dead : list Card)
    (gameVariant : GameVariant) (opts : CalculationOptions) (res : EquityResult) :
  (∀ x, x ∈ hs -> cardsNeededForHand (cardsOf h x) gameVariant = 0%nat) ->
  outcome (runExhaustive h hs b dead gameVariant opts) = Ok res ->
  totalHands res
  = choose (52 - length (allCardsOf h hs b dead))
      (cardsNeededForBoard (cardsOf h b) gameVariant)
  ∧ sameNumber
      (combinationsFor (52 - Z.of_nat (length (allCardsOf h hs b dead)))
         (cardsNeededForBoard (cardsOf h b) gameVariant))
      (floatOfZ (Z.of_nat (totalHands res))).
Proof.
  intros Hcomplete. unfold runExhaustive.
  destruct (newCalculator hs b dead gameVariant opts h) as [[this|e] h'] eqn:Enew; [|done].
  pose proof (newCalculator_NoDup _ _ _ _ _ _ _ _ Enew) as Hnd.
  destruct (newCalculator_ok _ _ _ _ _ _ _ _ Enew) as (-> & ev & Hev & ->).
  set (w := mkWorld _ _ _ _).
  destruct (exhaustiveCalculate w) as [r w'] eqn:Erun. cbn [outcome]. intros ->.
  pose proof (exhaustiveCalculate_guard w) as Hguard. cbv zeta in Hguard.
  rewrite Erun in Hguard. destruct (negb _); [done|]. symmetry in Hguard.
  pose proof (enumerateAndTally_scenarios w) as Hwp.
  cbn [self heap hands board evaluator w] in Hwp.
  rewrite (getEvaluator_variant _ _ Hev) in Hwp. specialize (Hwp Hcomplete).
  eapply wp_run in Hwp; [|exact Hguard]. unfold post in Hwp.
  change (usedCardsOf w) with (allCardsOf h hs b dead) in Hwp.
  pose proof (removeCards_partition _ Hnd) as Hperm.
  apply Permutation_length in Hperm. rewrite length_app in Hperm.
  change (length fullDeck) with 52%nat in Hperm.
  assert (Hdeck : length (removeCards fullDeck (allCardsOf h hs b dead))
                  = (52 - length (allCardsOf h hs b dead))%nat) by lia.
  rewrite Hdeck in Hwp. split; [done|].
  rewrite Hwp.
  replace (52 - Z.of_nat (length (allCardsOf h hs b dead)))
    with (Z.of_nat (52 - length (allCardsOf h hs b dead))) by lia.
  apply combinationsFor_binomial; [lia|].
  unfold cardsNeededForBoard.
  assert (maxBoardCards (GAME_CONFIGS gameVariant) <= 5)%nat by (by destruct gameVariant; cbn; lia).
  lia.
Qed.

Lemma X22_witness :
  let dead := allButFirst 2 turnBoard in
  let run := runExhaustive turnBoard [0; 1]%nat 2%nat dead TEXAS_HOLDEM noOptions in
  ∃ res, outcome run = Ok res
    ∧ length (allCardsOf turnBoard [0; 1]%nat 2%nat dead) = 50%nat
    ∧ totalHands res = 2%nat
    ∧ totalHands res
      = choose (52 - length (allCardsOf turnBoard [0; 1]%nat 2%nat dead))
          (cardsNeededForBoard (cardsOf turnBoard 2) TEXAS_HOLDEM)
    ∧ sameNumber
        (combinationsFor (52 - Z.of_nat (length (allCardsOf turnBoard [0; 1]%nat 2%nat dead)))
           (cardsNeededForBoard (cardsOf turnBoard 2) TEXAS_HOLDEM))
        (floatOfZ (Z.of_nat (totalHands res))).
Proof.
  cbv zeta. eexists. split; [vm_compute; reflexivity|].
  split; [vm_compute; reflexivity|]. split; [reflexivity|].
  apply (X22_scenarios_of_a_board turnBoard [0; 1]%nat 2%nat (allButFirst 2 turnBoard)
           TEXAS_HOLDEM noOptions).
  - intros x Hx. apply elem_of_cons in Hx as [->|Hx]; [reflexivity|].
    apply list_elem_of_singleton in Hx as ->. reflexivity.
  - vm_compute. reflexivity.
Defined.

Lemma montecarlo_tallied random h hs b dead gameVariant opts res :
  outcome (runMonteCarlo random h hs b dead gameVariant opts) = Ok (Some res) ->
  isExact res = false
  ∧ (totalHands res <= effectiveIterations opts)%nat
  ∧ (totalHands res = effectiveIterations opts
     ∨ (10 * 1000 < totalHands res)%nat ∧ ∃ q, totalHands res = (q * 1000)%nat)
  ∧ ∃ pr, playerResults res = setEquityMC (totalHands res) <$> pr
          ∧ tallied wins ties winsCount tiesCount
              (imap (fun index _ => mkPlayerEquity index 0 0 0 0 0 [] []) hs)
              (totalHands res) pr.
Proof.
  unfold runMonteCarlo.
  destruct (newCalculator hs b dead gameVariant opts h) as [[this|e] h'] eqn:Enew; [|done].
  destruct (newCalculator_ok _ _ _ _ _ _ _ _ Enew) as (-> & ev & Hev & ->).
  set (w := mkWorld _ _ _ _).
  destruct (monteCarloCalculate random w) as [r w'] eqn:Erun. cbn [outcome]. intros ->.
  exact (monteCarloCalculate_tallied random ev (length hs)
           (fun hc bc e => getEvaluator_value _ _ hc bc e Hev) w res w'
           (conj eq_refl eq_refl) Erun).
Qed.

Lemma effectiveIterations_pos opts : (0 < effectiveIterations opts)%nat.
Proof.
  unfold effectiveIterations. cbv zeta.
  destruct (Nat.eqb_spec (default 10000%nat (opt_iterations opts)) 0); [|lia].
  by apply Nat.ltb_lt.
Qed.

(** X19: when a Monte Carlo calculation returns, the result is marked inexact;
    the number of iterations is positive and at most the effective one (the
    configured number, ten thousand when none is configured, a hundred
    thousand when it is zero), which it reaches unless the run stopped early,
    and then it is a multiple of the batch size above ten batches; there is
    one result for each hand, in order; [winsCount] and [tiesCount] are left
    at zero; the hand-category counts of every player add up to the number
    of iterations; wins and ties together never exceed it; every equity lies
    between 0 and 1; and with two hands the equities add up to exactly 1,
    whatever the random numbers. *)
Theorem X19_montecarlo_result (random : nat -> nat) (h : Heap) (hs : list nat) (b : nat)
    (dead : list Card) (gameVariant : GameVariant) (opts : CalculationOptions)
    (res : EquityResult) :
  outcome (runMonteCarlo random h hs b dead gameVariant opts) = Ok (Some res) ->
  isExact res = false
  ∧ (0 < totalHands res <= effectiveIterations opts)%nat
  ∧ (totalHands res = effectiveIterations opts
     ∨ (10 * 1000 < totalHands res)%nat ∧ ∃ q, totalHands res = (q * 1000)%nat)
  ∧ length (playerResults res) = length hs
  ∧ (∀ i p, playerResults res !! i = Some p ->
      handIndex p = i ∧ winsCount p = 0%nat ∧ tiesCount p = 0%nat
      ∧ (countTotal (handRankCounts p) == inject_Z (Z.of_nat (totalHands res)))%Q
      ∧ (wins p + ties p <= totalHands res)%nat
      ∧ (0 <= equity p <= 1)%Q)
  ∧ (length hs = 2%nat -> (equitySum res == 1)%Q).
Proof.
  intros (Hexact & Hle & Hor & pr & Hres & Hl & Hp & Hhalf)%montecarlo_tallied.
  assert (Hpos : (0 < totalHands res)%nat).
  { pose proof (effectiveIterations_pos opts). destruct Hor as [->|[? _]]; lia. }
  split; [done|]. split; [lia|]. split; [done|]. rewrite Hres.
  split; [by rewrite length_fmap, Hl, length_imap|].
  split.
  2:{ intros Hlen. rewrite length_imap in Hhalf, Hl. specialize (Hhalf Hlen).
      destruct hs as [|h0 [|h1 [|]]]; try done. cbn in Hl, Hhalf.
      destruct pr as [|p0 [|p1 [|]]]; try done.
      unfold equitySum. rewrite Hres. cbn.
      apply (two_player_sum p0 p1 wins ties); [done|].
      rewrite Hhalf. unfold halfPoints. cbn. lia. }
  intros i p Hi. rewrite list_lookup_fmap in Hi.
  destruct (pr !! i) as [q|] eqn:Hq; [|done]. cbn in Hi. injection Hi as <-.
  assert (Hi0 : imap (fun index _ => mkPlayerEquity index 0 0 0 0 0 [] []) hs !! i
                = Some (mkPlayerEquity i 0 0 0 0 0 [] [])).
  { rewrite list_lookup_imap. apply lookup_lt_Some in Hq. rewrite Hl, length_imap in Hq.
    destruct (lookup_lt_is_Some_2 hs i Hq) as [x ->]. done. }
  destruct (Hp _ _ Hi0) as (q' & Hq' & Hidx & Hw & Ht & Hc & _ & _ & Hle').
  rewrite Hq in Hq'. injection Hq' as <-. cbn in *.
  split; [done|]. split; [done|]. split; [done|].
  split; [rewrite Hc; unfold countTotal; cbn; lra|]. split; [lia|].
  apply finalEquity_bounds; [done | lia].
Qed.

Lemma X19_witness :
  let opts := mkCalculationOptions (Some 3%nat) None None None in
  let run := runMonteCarlo (fun _ => O) flopBoard [0; 1]%nat 2%nat [] TEXAS_HOLDEM opts in
  ∃ res, outcome run = Ok (Some res)
    ∧ totalHands res = 3%nat
    ∧ isExact res = false
    ∧ (0 < totalHands res <= effectiveIterations opts)%nat
    ∧ (totalHands res = effectiveIterations opts
       ∨ (10 * 1000 < totalHands res)%nat ∧ ∃ q, totalHands res = (q * 1000)%nat)
    ∧ length (playerResults res) = length [0; 1]%nat
    ∧ (∀ i p, playerResults res !! i = Some p ->
        handIndex p = i ∧ winsCount p = 0%nat ∧ tiesCount p = 0%nat
        ∧ (countTotal (handRankCounts p) == inject_Z (Z.of_nat (totalHands res)))%Q
        ∧ (wins p + ties p <= totalHands res)%nat
        ∧ (0 <= equity p <= 1)%Q)
    ∧ (equitySum res == 1)%Q.
Proof.
  cbv zeta. eexists. split; [vm_compute; reflexivity|]. split; [reflexivity|].
  destruct (X19_montecarlo_result (fun _ => O) flopBoard [0; 1]%nat 2%nat [] TEXAS_HOLDEM
              (mkCalculationOptions (Some 3%nat) None None None) _
              ltac:(vm_compute; reflexivity))
    as (H1 & H2 & H3 & H4 & H5 & H6).
  split; [exact H1|]. split; [exact H2|]. split; [exact H3|]. split; [exact H4|].
  split; [exact H5|]. apply H6. reflexivity.
Defined.

Lemma wp_shuffle_Permutation random cards (Q : Result (list Card) -> World -> Prop) w :
  (∀ cards' calls, cards' ≡ₚ cards ->
     Q (Ok cards') (mkWorld (heap w) (self w) calls (evaluations w))) ->
  wp (shuffle random cards) Q w.
Proof.
  intros HQ. unfold wp, shuffle.
  destruct (shuffleFrom_Permutation random (length cards - 1) cards w) as (cards' & -> & Hperm).
  by apply HQ.
Qed.

(** [evaluateHands] logs, for hands of the calculator, the cards of the hand
    and of the board as they are when it is called. *)
Lemma evaluateHands_log w :
  wp evaluateHands
     (fun _ w' => ∀ e, e ∈ evaluations w' ->
        e ∈ evaluations w
        ∨ ∃ x, x ∈ hands (self w)
               ∧ e = (cardsOf (heap w) x, cardsOf (heap w) (board (self w)))) w.
Proof.
  unfold evaluateHands. apply wp_bind, wp_gets.
  assert (H : ∀ l w1, heap w1 = heap w -> self w1 = self w ->
            (∀ x, x ∈ l -> x ∈ hands (self w)) ->
            (∀ e, e ∈ evaluations w1 ->
               e ∈ evaluations w
               ∨ ∃ x, x ∈ hands (self w)
                      ∧ e = (cardsOf (heap w) x, cardsOf (heap w) (board (self w)))) ->
            wp (mapM (fun hand =>
                  let* handCards := readCards hand in
                  let* boardCards := readCards (board (self w)) in
                  exec logEvaluation handCards boardCards in
                  liftR (evaluate (evaluator (self w)) handCards boardCards)) l)
               (fun _ w' => ∀ e, e ∈ evaluations w' ->
                  e ∈ evaluations w
                  ∨ ∃ x, x ∈ hands (self w)
                         ∧ e = (cardsOf (heap w) x, cardsOf (heap w) (board (self w)))) w1).
  { induction l as [|x l IH]; intros w1 Hh Hs Hl Hlog; [done|].
    cbn [mapM]. apply wp_bind. apply wp_bind, wp_gets. apply wp_bind, wp_gets.
    apply wp_bind, wp_modify.
    assert (Hlog' : ∀ e, e ∈ evaluations w1
                             ++ [(cardsOf (heap w1) x, cardsOf (heap w1) (board (self w)))] ->
              e ∈ evaluations w
              ∨ ∃ x, x ∈ hands (self w)
                     ∧ e = (cardsOf (heap w) x, cardsOf (heap w) (board (self w)))).
    { intros e [He| ->%list_elem_of_singleton]%elem_of_app; [by apply Hlog|].
      right. exists x. rewrite Hh. split; [|done]. apply Hl. by left. }
    apply wp_liftR. destruct (evaluate _ _ _) as [ev|err]; [|done].
    apply wp_bind. eapply wp_mono; [|apply IH; cbn; try done].
    - intros [evs|err] w2 H2; done.
    - intros y Hy. apply Hl. by right. }
  apply H; try done. intros e He. by left.
Qed.

Lemma elem_of_concat_submseteq {A} (l : list A) (ls : list (list A)) :
  l ∈ ls -> l ⊆+ concat ls.
Proof.
  induction ls as [|l' ls IH]; [by intros ?%elem_of_nil|].
  intros [->|Hin]%elem_of_cons; cbn [concat].
  - by apply submseteq_inserts_r.
  - by apply submseteq_inserts_l, IH.
Qed.

Lemma submseteq_NoDup {A} (l k : list A) : l ⊆+ k -> NoDup k -> NoDup l.
Proof.
  intros (k' & Hk)%submseteq_Permutation. rewrite Hk. by intros [? _]%NoDup_app.
Qed.

(** The cards of a hand with what it was dealt and the cards of the board
    with what it was dealt are distinct, when the deals come from a deck
    without the cards in use. *)
Lemma dealt_NoDup (origHand origBoard dead dHand dBoard deck rest dealt : list Card)
    (handsCards : list (list Card)) :
  NoDup (origBoard ++ dead ++ concat handsCards) ->
  origHand ∈ handsCards ->
  deck ≡ₚ removeCards fullDeck (origBoard ++ dead ++ concat handsCards) ->
  deck ≡ₚ rest ++ dealt ->
  dBoard ++ dHand ⊆+ dealt ->
  NoDup ((origHand ++ dHand) ++ (origBoard ++ dBoard)).
Proof.
  intros Hused Hin Hdeck Hrest Hsub.
  set (used := origBoard ++ dead ++ concat handsCards) in *.
  assert (NoDup (dealt ++ used)) as Hall.
  { assert (dealt ++ used ⊆+ fullDeck) as Hfull.
    { rewrite <- (removeCards_partition used Hused), <- Hdeck, Hrest.
      apply submseteq_app; [by apply submseteq_inserts_l | done]. }
    eapply submseteq_NoDup; [exact Hfull | apply fullDeck_NoDup]. }
  assert ((origHand ++ dHand) ++ (origBoard ++ dBoard) ⊆+ dealt ++ used) as Hle.
  { transitivity ((dBoard ++ dHand) ++ (origBoard ++ origHand)).
    - apply Permutation_submseteq. rewrite <- !app_assoc.
      rewrite (Permutation_app_swap_app dBoard dHand).
      rewrite (Permutation_app_comm origHand), <- !app_assoc.
      apply Permutation_app_head. apply Permutation_app_swap_app.
    - apply submseteq_app; [done|]. unfold used.
      apply submseteq_app; [done|]. apply submseteq_inserts_l.
      by apply elem_of_concat_submseteq. }
  eapply submseteq_NoDup; [exact Hle | exact Hall].
Qed.

(** Whatever one iteration does, it evaluates fair deals only. *)
Lemma simulateOnce_evaluations random playerResults view0 dead0 w :
  NoDup (view0.2 ++ dead0 ++ concat view0.1) ->
  dealing view0 dead0 w ->
  wp (simulateOnce random playerResults)
     (fun _ w' => Forall (fairDeal view0) (evaluations w')) w.
Proof.
  intros Hused ((Hb & Hhs & Hbhs) & Hview & Hdead & Hlog).
  set (n := length (heap w)). set (hs := hands (self w)). set (b := board (self w)).
  unfold simulateOnce. apply wp_bind, wp_gets.
  apply wp_bind, wp_mapM_allocCopyM; [done|].
  apply wp_bind. unfold wp at 1.
  cbn [allocCopyM allocCopy fst snd heap self randomCalls evaluations].
  rewrite cardsOf_app_l by done. rewrite length_app, length_fmap. fold n hs b.
  set (H2 := (heap w ++ (cardsOf (heap w) <$> hs)) ++ [cardsOf (heap w) b]).
  assert (HH2len : length H2 = (n + length hs + 1)%nat).
  { subst H2. rewrite !length_app, length_fmap. cbn. lia. }
  assert (HH2old : ∀ l, (l < n)%nat -> cardsOf H2 l = cardsOf (heap w) l).
  { intros l Hl. subst H2. rewrite <- app_assoc. by apply cardsOf_app_l. }
  assert (HH2hands : ∀ i x, hs !! i = Some x -> cardsOf H2 (n + i) = cardsOf (heap w) x).
  { intros i x Hi. subst H2. rewrite <- app_assoc. unfold n. rewrite cardsOf_app_r.
    unfold cardsOf at 1. unfold Heap. rewrite lookup_app_l.
    - by rewrite list_lookup_fmap, Hi.
    - rewrite length_fmap. by eapply lookup_lt_Some. }
  assert (HH2board : cardsOf H2 (n + length hs) = cardsOf (heap w) b).
  { subst H2. rewrite <- app_assoc. unfold n. rewrite cardsOf_app_r.
    unfold cardsOf at 1. unfold Heap. rewrite lookup_app_r by (rewrite length_fmap; lia).
    rewrite length_fmap, Nat.sub_diag. done. }
  assert (Hfresh : ∀ l, (n <= l)%nat -> (l ∉ hs) ∧ (l ≠ b)).
  { intros l Hl. split; [intros Hin; apply Hhs in Hin; fold n in Hin; lia|].
    fold n in Hb. unfold b. lia. }
  apply wp_bind, wp_createDeckWithoutUsedCards.
  assert (Hu : usedCardsOf (mkWorld H2 (self w) (randomCalls w) (evaluations w))
               = view0.2 ++ dead0 ++ concat view0.1).
  { unfold usedCardsOf. cbn [heap self]. rewrite <- Hview, <- Hdead. cbn [fst snd viewOf].
    fold hs b. rewrite HH2old by done. do 3 f_equal.
    apply list_fmap_ext. intros i x Hi. apply HH2old, Hhs. by eapply list_elem_of_lookup_2. }
  rewrite Hu.
  apply wp_bind, wp_shuffle_Permutation. intros deck calls Hdeck.
  cbn [heap self randomCalls evaluations].
  apply wp_bind.
  eapply wp_mono;
    [|apply (wp_foldM _
         (fun deckj w3 =>
            self w3 = self w ∧ evaluations w3 = evaluations w
            ∧ length (heap w3) = length H2
            ∧ (∀ l, l ∉ hs -> cardsOf (heap w3) l = cardsOf H2 l)
            ∧ ∃ dealt, deck ≡ₚ deckj ++ dealt
                       ∧ ∀ x, x ∈ hs ->
                           ∃ d, cardsOf (heap w3) x = cardsOf (heap w) x ++ d ∧ d ⊆+ dealt)
         (fun _ w3 => evaluations w3 = evaluations w))].
  2:{ cbn [heap self evaluations]. split; [done|]. split; [done|]. split; [done|].
      split; [done|]. exists []. split; [by rewrite app_nil_r|].
      intros x Hx. exists []. rewrite app_nil_r. split; [|done].
      apply HH2old, Hhs, Hx. }
  2:{ intros deck0 j w3 Hj (Hs3 & Hev3 & Hl3 & Hf3 & dealt & Hdealt & Hcards).
      apply elem_of_seq in Hj. fold hs in Hj.
      assert (Hj' : hs !! j = Some (hs !!! j)) by (apply list_lookup_lookup_total_lt; lia).
      assert (Hin : hs !!! j ∈ hs) by by eapply list_elem_of_lookup_2.
      apply wp_bind, wp_readCards.
      destruct (_ <? _)%nat.
      2:{ apply wp_ret. cbn. repeat (split; [done|]). by exists dealt. }
      apply wp_bind, wp_liftR.
      pose proof (deal_spec deck0
                    (cardsNeededForHand (cardsOf (heap w3) (hs !!! j))
                       (getVariant (evaluator (self w))))) as Hdeal.
      destruct (deal deck0 _) as [[newCards deck1]|]; [|done].
      destruct Hdeal as (_ & -> & _).
      apply wp_bind, wp_readCards. apply wp_bind, wp_modify, wp_ret.
      cbn [post heap self evaluations].
      split; [done|]. split; [done|]. split; [by rewrite heap_length_insert|].
      split.
      { intros l Hl. rewrite cardsOf_insert. case_decide as Hd; [|by apply Hf3].
        destruct Hd as [<- _]. by destruct Hl. }
      exists (reverse newCards ++ dealt). split; [by rewrite Hdealt, <- app_assoc|].
      intros x Hx. rewrite cardsOf_insert. case_decide as Hd.
      - destruct Hd as [<- _]. exists newCards. split.
        + f_equal. rewrite lookup_total_seq_lt by lia.
          rewrite Hf3 by (apply Hfresh; lia). by apply HH2hands.
        + apply submseteq_inserts_r. by rewrite reverse_Permutation.
      - destruct (Hcards x Hx) as (d & Hd1 & Hd2). exists d. split; [done|].
        by apply submseteq_inserts_l. }
  intros [deck1|e] w3; [|by intros ->].
  intros (Hs3 & Hev3 & Hl3 & Hf3 & dealt & Hdealt & Hcards).
  assert (Hfinish : ∀ w4 dBoard rest dealt',
            self w4 = self w -> evaluations w4 = evaluations w ->
            (∀ x, x ∈ hs -> cardsOf (heap w4) x = cardsOf (heap w3) x) ->
            cardsOf (heap w4) b = cardsOf (heap w) b ++ dBoard ->
            deck ≡ₚ rest ++ dealt' -> dBoard ++ dealt ⊆+ dealt' ->
            wp (let* playerResults0 := evaluateAndUpdateEquityMC playerResults in
                exec setSelf (seq n (length hs)) (n + length hs) in ret playerResults0)
               (fun _ w' => Forall (fairDeal view0) (evaluations w')) w4).
  { intros w4 dBoard rest dealt' Hs4 Hev4 Hh4 Hb4 Hrest Hsub.
    assert (Hgood : ∀ e, e ∈ evaluations w4
                         ∨ (∃ x, x ∈ hands (self w4)
                                 ∧ e = (cardsOf (heap w4) x, cardsOf (heap w4) (board (self w4))))
                    -> fairDeal view0 e).
    { intros e [He|(x & Hx & ->)].
      - rewrite Hev4 in He. rewrite Forall_forall in Hlog. by apply Hlog.
      - rewrite Hs4 in Hx |- *. fold hs b in Hx |- *.
        rewrite (Hh4 x Hx), Hb4. destruct (Hcards x Hx) as (d & -> & Hd).
        assert (cardsOf (heap w) x ∈ view0.1) as Hxin.
        { rewrite <- Hview. cbn. apply list_elem_of_fmap. by exists x. }
        unfold fairDeal. cbn [fst snd]. split; [|split].
        + apply (dealt_NoDup _ _ dead0 _ _ deck rest dealt' view0.1).
          * rewrite <- Hview in Hused |- *. exact Hused.
          * done.
          * rewrite <- Hview in Hdeck |- *. exact Hdeck.
          * done.
          * etrans; [|exact Hsub]. by apply submseteq_app.
        + exists (cardsOf (heap w) x). split; [done | by apply prefix_app_r].
        + rewrite <- Hview. cbn. by apply prefix_app_r. }
    apply wp_bind. unfold evaluateAndUpdateEquityMC. apply wp_bind.
    eapply wp_mono; [|apply evaluateHands_log].
    intros [evs|err] w5 Hlog5.
    - apply wp_ret. apply wp_bind, wp_modify, wp_ret. cbn [evaluations].
      apply Forall_forall. intros e He. apply Hgood. by apply Hlog5.
    - apply Forall_forall. intros e He. apply Hgood. by apply Hlog5. }
  apply wp_bind, wp_readCards. rewrite Hf3 by done. rewrite HH2old by done.
  fold b.
  set (k := cardsNeededForBoard (cardsOf (heap w) b) (getVariant (evaluator (self w)))).
  apply wp_bind.
  destruct (Nat.ltb_spec 0 k) as [Hk|Hk].
  - apply wp_bind, wp_liftR. pose proof (deal_spec deck1 k) as Hdeal.
    destruct (deal deck1 k) as [[newBoardCards deck2]|].
    2:{ rewrite Hev3. done. }
    destruct Hdeal as (_ & -> & _).
    apply wp_bind, wp_readCards. apply wp_modify.
    rewrite Hf3 by (apply Hfresh; lia). rewrite HH2board.
    apply (Hfinish _ newBoardCards deck2 (reverse newBoardCards ++ dealt)); cbn [heap self evaluations].
    + done.
    + done.
    + intros x Hx. rewrite cardsOf_insert, decide_False; [done|].
      intros [<- _]. done.
    + rewrite cardsOf_insert, decide_True; [done|].
      split; [done|]. rewrite Hl3, HH2len. fold n in Hb. unfold b. lia.
    + by rewrite Hdealt, <- app_assoc.
    + apply submseteq_skips_r. by rewrite reverse_Permutation.
  - apply wp_ret. apply (Hfinish _ [] deck1 dealt); try done.
    rewrite Hf3 by done. rewrite HH2old by done. by rewrite app_nil_r.
Qed.

Section FairDeals.
Context (random : nat -> nat) (view0 : list (list Card) * list Card) (dead0 : list Card).
Hypothesis used_NoDup : NoDup (view0.2 ++ dead0 ++ concat view0.1).

Lemma simulateOnce_dealing playerResults w :
  dealing view0 dead0 w ->
  wp (simulateOnce random playerResults)
     (post (fun _ w' => dealing view0 dead0 w')
           (fun _ w' => Forall (fairDeal view0) (evaluations w'))) w.
Proof.
  intros Hd. pose proof Hd as (Hwf & Hview & Hdead & Hlog).
  eapply wp_mono;
    [|apply wp_conj; [by apply (simulateOnce_evaluations _ _ view0 dead0) | by apply simulateOnce_spec]].
  intros [pr|e] w' [Hfair Hspec]; [|done]. cbv zeta in Hspec.
  destruct Hspec as (Hself & Hlen & Hframe & Hcopies & Hcopy & Hpre & Hb).
  destruct Hwf as (Hvalid & Hhs & Hbhs).
  unfold dealing, wellFormed, viewOf.
  destruct w' as [h' this' calls' log']. cbn [self heap evaluations] in *. subst this'. cbn.
  split.
  { split; [lia|]. split.
    - intros x Hx. apply elem_of_seq in Hx. lia.
    - intros Hx. apply elem_of_seq in Hx. lia. }
  split; [|done].
  rewrite <- Hview. unfold viewOf. f_equal; [|done]. by apply seq_fmap_lookup.
Qed.

Lemma runSimulationBatch_dealing count : ∀ playerResults w,
  dealing view0 dead0 w ->
  wp (runSimulationBatch random count playerResults)
     (post (fun _ w' => dealing view0 dead0 w')
           (fun _ w' => Forall (fairDeal view0) (evaluations w'))) w.
Proof.
  induction count as [|count IH]; intros pr w Hd; [done|].
  cbn [runSimulationBatch]. apply wp_bind.
  eapply wp_mono; [|by apply simulateOnce_dealing].
  intros [pr'|e] w' H; [by apply IH | done].
Qed.

Lemma simulationLoop_dealing fuel :
  ∀ maxIterations iterationsCompleted previousEquities playerResults w,
    dealing view0 dead0 w ->
    wp (simulationLoop random fuel maxIterations iterationsCompleted previousEquities
          playerResults)
       (post (fun _ w' => dealing view0 dead0 w')
             (fun _ w' => Forall (fairDeal view0) (evaluations w'))) w.
Proof.
  induction fuel as [|fuel IH]; intros mx done prev pr w Hd; cbn [simulationLoop].
  - by destruct (negb _).
  - destruct (negb _); [done|].
    apply wp_bind, wp_gets. apply wp_bind.
    eapply wp_mono; [|by apply runSimulationBatch_dealing].
    intros [pr'|e] w' H; [|done].
    destruct (_ && _); [done|]. by apply IH.
Qed.

Lemma monteCarloCalculate_dealing w :
  dealing view0 dead0 w ->
  wp (monteCarloCalculate random)
     (fun _ w' => Forall (fairDeal view0) (evaluations w')) w.
Proof.
  intros Hd. unfold monteCarloCalculate. apply wp_bind, wp_gets.
  apply wp_bind, wp_createInitialPlayerEquities. apply wp_bind.
  eapply wp_mono; [|by apply simulationLoop_dealing].
  intros [[[n pr]|]|e] w1 H; cbn in H |- *; try done; by destruct H as (_ & _ & _ & ?).
Qed.
End FairDeals.

(** X20: a Monte Carlo calculation on a board that is none of the hands never
    deals a card twice. Whatever the random numbers, and whether the
    calculation returns or throws, every call it makes of the evaluator is
    on hole cards and board cards that are pairwise distinct, the hole cards
    being a hand of the caller followed by what was dealt to it and the board
    cards the caller's board followed by what was dealt to it. *)
Theorem X20_montecarlo_deals_no_card_twice (random : nat -> nat) (h : Heap) (hs : list nat)
    (b : nat) (dead : list Card) (gameVariant : GameVariant) (opts : CalculationOptions)
    (holeCards boardCards : list Card) :
  (b < length h)%nat -> (∀ x, x ∈ hs -> (x < length h)%nat) -> b ∉ hs ->
  (holeCards, boardCards) ∈ evaluated (runMonteCarlo random h hs b dead gameVariant opts) ->
  NoDup (holeCards ++ boardCards)
  ∧ (∃ x, x ∈ hs ∧ cardsOf h x `prefix_of` holeCards)
  ∧ cardsOf h b `prefix_of` boardCards.
Proof.
  intros Hb Hhs Hbhs. unfold runMonteCarlo.
  destruct (newCalculator hs b dead gameVariant opts h) as [[this|e] h0] eqn:Enew;
    [|by intros ?%elem_of_nil].
  pose proof (newCalculator_NoDup _ _ _ _ _ _ _ _ Enew) as Hnodup.
  destruct (newCalculator_ok _ _ _ _ _ _ _ _ Enew) as (-> & ev & Hev & ->).
  set (w0 := mkWorld h (mkCalculator hs b dead ev (mergeOptions opts)) 0 []).
  assert (Hwp : wp (monteCarloCalculate random)
                  (fun _ w' => Forall (fairDeal (viewOf w0)) (evaluations w')) w0).
  { apply (monteCarloCalculate_dealing random (viewOf w0) dead); [exact Hnodup|].
    split; [done|]. split; [done|]. split; [done|]. constructor. }
  unfold wp in Hwp. destruct (monteCarloCalculate random w0) as [r w']. cbn [evaluated].
  intros Hin. rewrite Forall_forall in Hwp. destruct (Hwp _ Hin) as (Hnd & Hhand & Hboard).
  split; [done|]. split; [|done].
  destruct Hhand as (handCards & (x & -> & Hx)%list_elem_of_fmap & Hpre). eauto.
Qed.

Lemma X20_witness :
  let run := runMonteCarlo (fun _ => O) flopBoard [0; 1]%nat 2%nat [] TEXAS_HOLDEM
               (mkCalculationOptions (Some 1%nat) None None None) in
  evaluated run = [(cardsOfString "AsKs", cardsOfString "Ts9s2h2sAc");
                   (cardsOfString "QhJh", cardsOfString "Ts9s2h2sAc")]
  ∧ NoDup (cardsOfString "AsKs" ++ cardsOfString "Ts9s2h2sAc")
  ∧ (∃ x, x ∈ [0; 1]%nat ∧ cardsOf flopBoard x `prefix_of` cardsOfString "AsKs")
  ∧ cardsOf flopBoard 2 `prefix_of` cardsOfString "Ts9s2h2sAc".
Proof.
  cbv zeta.
  assert (evaluated (runMonteCarlo (fun _ => O) flopBoard [0; 1]%nat 2%nat [] TEXAS_HOLDEM
                       (mkCalculationOptions (Some 1%nat) None None None))
          = [(cardsOfString "AsKs", cardsOfString "Ts9s2h2sAc");
             (cardsOfString "QhJh", cardsOfString "Ts9s2h2sAc")]) as Hrun
    by (vm_compute; reflexivity).
  split; [exact Hrun|].
  apply (X20_montecarlo_deals_no_card_twice (fun _ => O) flopBoard [0; 1]%nat 2%nat []
           TEXAS_HOLDEM (mkCalculationOptions (Some 1%nat) None None None)).
  - vm_compute; lia.
  - intros x Hx. apply elem_of_cons in Hx as [->|Hx]; [vm_compute; lia|].
    apply list_elem_of_singleton in Hx as ->. vm_compute; lia.
  - intros Hx. apply elem_of_cons in Hx as [Hx|Hx]; [discriminate|].
    apply list_elem_of_singleton in Hx. discriminate.
  - rewrite Hrun. apply list_elem_of_here.
Defined.

(** ** What the evaluators return *)

Lemma remainingValueFrom_nonneg cards : ∀ i, 0 <= remainingValueFrom i cards.
Proof.
  induction cards as [|c cards IH]; intros i; cbn [remainingValueFrom]; [lia|].
  specialize (IH (i + 1)).
  assert (0 <= RANK_VALUES (rank c)) by (destruct (rank c); cbn; lia).
  assert (0 <= 100 ^ (4 - i)) by (apply Z.pow_nonneg; lia). nia.
Qed.

Lemma remainingValueFrom_pos cards : cards ≠ [] -> 0 < remainingValueFrom 0 cards.
Proof.
  destruct cards as [|c cards]; [done|]. intros _. cbn [remainingValueFrom].
  pose proof (remainingValueFrom_nonneg cards (0 + 1)).
  assert (2 <= RANK_VALUES (rank c)) by (destruct (rank c); cbn; lia).
  change (100 ^ (4 - 0)) with 100000000. lia.
Qed.

Lemma sortCardsByRank_length cards : length (sortCardsByRank cards) = length cards.
Proof. by rewrite sortCardsByRank_Permutation. Qed.

Lemma evaluateSingleHand_positive cards e :
  evaluateSingleHand cards = Ok e -> 0 < eh_value e.
Proof.
  unfold evaluateSingleHand.
  destruct (Nat.eqb_spec (length cards) 5) as [Hlen|]; [|done]. cbn [negb].
  set (sortedCards := sortCardsByRank cards).
  assert (Hhigh : 0 < calculateHandValue HIGH_CARD sortedCards).
  { unfold calculateHandValue. cbv zeta.
    pose proof (remainingValueFrom_pos (sortCardsByRank sortedCards)) as Hpos.
    cbn [handRankValue]. enough (0 < remainingValueFrom 0 (sortCardsByRank sortedCards)) by lia.
    apply Hpos. intros Hnil. apply (f_equal length) in Hnil.
    unfold sortedCards in Hnil. rewrite !sortCardsByRank_length, Hlen in Hnil. done. }
  assert (Hother : ∀ r l, r ≠ HIGH_CARD -> 0 < calculateHandValue r l).
  { intros r l Hr. unfold calculateHandValue. cbv zeta.
    pose proof (remainingValueFrom_nonneg (sortCardsByRank l) 0).
    destruct r; cbn [handRankValue]; try done; lia. }
  destruct (_ : HandRank * list Card) as [handRank valueCards] eqn:Eclass.
  intros [= <-]. cbn [eh_value].
  revert Eclass. repeat case_match; intros [= <- <-]; try (by apply Hother); exact Hhigh.
Qed.

(** What the loop of [evaluate] returns: the first candidate of the highest
    value, or the hand it started from when no candidate is worth more. *)
Lemma bestOf_spec evalOne combinations : ∀ bestHand e,
  bestOf evalOne combinations bestHand = Ok e ->
  (∀ combo e', combo ∈ combinations -> evalOne combo = Ok e' -> eh_value e' <= eh_value e)
  ∧ (e = bestHand
     ∨ ∃ combo, combo ∈ combinations ∧ evalOne combo = Ok e
                ∧ eh_value bestHand < eh_value e).
Proof.
  induction combinations as [|combo rest IH]; intros bestHand e; cbn [bestOf].
  - intros [= <-]. split; [by intros ? ? ?%elem_of_nil | by left].
  - destruct (evalOne combo) as [evaluated|] eqn:Ecombo; [|done]. intros Hrest.
    pose proof (bestOf_value _ _ _ _ Hrest) as Hmono.
    destruct (IH _ _ Hrest) as [Hmax Hor]. split.
    + intros combo' e' [->|Hin]%elem_of_cons Hev.
      * rewrite Ecombo in Hev. injection Hev as <-.
        destruct (Z.ltb_spec (eh_value bestHand) (eh_value evaluated)); lia.
      * by eapply Hmax.
    + destruct Hor as [->|(combo' & Hin & Hev & Hlt)].
      * destruct (Z.ltb_spec (eh_value bestHand) (eh_value evaluated)); [|by left].
        right. exists combo. split; [by left|]. done.
      * right. exists combo'. split; [by right|]. split; [done|].
        destruct (Z.ltb_spec (eh_value bestHand) (eh_value evaluated)); lia.
Qed.

Lemma holdemEvaluate_spec (holeCards boardCards : list Card) :
  match holdemEvaluate holeCards boardCards with
  | Ok best =>
      (∃ combo, combo `sublist_of` (holeCards ++ boardCards) ∧ length combo = 5%nat
                ∧ evaluateSingleHand combo = Ok best)
      ∧ ∀ combo e, combo `sublist_of` (holeCards ++ boardCards) -> length combo = 5%nat ->
                   evaluateSingleHand combo = Ok e -> eh_value e <= eh_value best
  | Throw e =>
      (length (holeCards ++ boardCards) < 5)%nat
      ∧ e = NotEnoughCards (length (holeCards ++ boardCards))
  end.
Proof.
  destruct (holdemEvaluate holeCards boardCards) as [best|e] eqn:Eeval.
  - unfold holdemEvaluate in Eeval.
    destruct (Nat.ltb_spec (length (holeCards ++ boardCards)) 5) as [Hlt|Hge]; [done|].
    apply bestOf_spec in Eeval as [Hmax Hor]. split.
    + destruct Hor as [->|(combo & Hin & Hev & _)].
      * exfalso.
        assert (Hin : take 5 (holeCards ++ boardCards)
                      ∈ generateCombinations (holeCards ++ boardCards) 5).
        { apply generateCombinations_spec. split; [apply sublist_take|].
          rewrite length_take. lia. }
        destruct (evaluateSingleHand_total (take 5 (holeCards ++ boardCards))) as [e He].
        { rewrite length_take. lia. }
        pose proof (evaluateSingleHand_positive _ _ He).
        specialize (Hmax _ _ Hin He). cbn in Hmax. lia.
      * apply generateCombinations_spec in Hin as [Hs Hl]. eauto.
    + intros combo e Hs Hl He. eapply Hmax; [|exact He].
      by apply generateCombinations_spec.
  - destruct (Nat.lt_ge_cases (length (holeCards ++ boardCards)) 5) as [Hlt|Hge].
    + split; [done|]. unfold holdemEvaluate in Eeval.
      destruct (Nat.ltb_spec (length (holeCards ++ boardCards)) 5); [|lia].
      by injection Eeval as <-.
    + rewrite length_app in Hge. destruct (holdemEvaluate_total _ _ Hge) as [e' He'].
      congruence.
Qed.

(** X14: the Hold'em [evaluate] throws exactly when hole and board cards are
    fewer than five together, naming their number; otherwise it returns the
    evaluation of some five of the cards, and no five of them evaluate to a
    higher value. *)
Theorem X14_holdemEvaluate_best (holeCards boardCards : list Card) :
  match holdemEvaluate holeCards boardCards with
  | Ok best =>
      (∃ combo, combo `sublist_of` (holeCards ++ boardCards) ∧ length combo = 5%nat
                ∧ evaluateSingleHand combo = Ok best)
      ∧ ∀ combo e, combo `sublist_of` (holeCards ++ boardCards) -> length combo = 5%nat ->
                   evaluateSingleHand combo = Ok e -> eh_value e <= eh_value best
  | Throw e =>
      (length (holeCards ++ boardCards) < 5)%nat
      ∧ e = NotEnoughCards (length (holeCards ++ boardCards))
  end.
Proof. apply holdemEvaluate_spec. Qed.


Lemma generateCombinations_above cards k :
  (length cards < k)%nat -> generateCombinations cards k = [].
Proof.
  intros Hlt. apply length_zero_iff_nil.
  rewrite generateCombinations_count. by apply choose_above.
Qed.

Lemma generateCombinations_all cards : generateCombinations cards (length cards) = [cards].
Proof.
  induction cards as [|c cards IH]; [done|]. cbn [length generateCombinations].
  destruct (Nat.ltb_spec (S (length cards)) (S (length cards))); [lia|].
  rewrite IH, generateCombinations_above by lia. done.
Qed.

Lemma holdemEvaluate_five holeCards boardCards :
  length (holeCards ++ boardCards) = 5%nat ->
  holdemEvaluate holeCards boardCards = evaluateSingleHand (holeCards ++ boardCards).
Proof.
  intros Hlen. unfold holdemEvaluate. rewrite Hlen. cbn [Nat.ltb Nat.leb].
  rewrite <- Hlen at 1. rewrite generateCombinations_all. cbn [bestOf].
  destruct (evaluateSingleHand _) as [e|] eqn:He; [|done].
  apply evaluateSingleHand_positive in He. cbn [eh_value initialBestHand].
  by destruct (Z.ltb_spec 0 (eh_value e)); [|lia].
Qed.

Lemma bestOf_app evalOne l1 l2 : ∀ bestHand,
  bestOf evalOne (l1 ++ l2) bestHand
  = rbind (bestOf evalOne l1 bestHand) (bestOf evalOne l2).
Proof.
  induction l1 as [|combo l1 IH]; intros bestHand; [done|]. cbn [app bestOf].
  by destruct (evalOne combo).
Qed.

(** The two nested loops of the Omaha evaluator are one loop over the hands
    made of two hole cards followed by three board cards. *)
Lemma omaha_inner (holeCombo : list Card) (boardCombinations : list (list Card)) :
  length holeCombo = 2%nat -> (∀ bc, bc ∈ boardCombinations -> length bc = 3%nat) ->
  ∀ best,
    fold_left (fun best boardCombo =>
                 rbind best (fun bestHand =>
                 rbind (holdemEvaluate holeCombo boardCombo) (fun evaluated =>
                 Ok (if eh_value bestHand <? eh_value evaluated then evaluated else bestHand))))
              boardCombinations best
    = rbind best (bestOf evaluateSingleHand ((fun bc => holeCombo ++ bc) <$> boardCombinations)).
Proof.
  intros Hhc. induction boardCombinations as [|bc bcs IH]; intros Hbcs best; cbn [fold_left].
  - by destruct best.
  - rewrite IH by (intros; apply Hbcs; by right).
    destruct best as [b|e]; [|done]. cbn [rbind fmap list_fmap bestOf].
    rewrite holdemEvaluate_five.
    2:{ rewrite length_app, Hhc, (Hbcs bc); [done | by left]. }
    by destruct (evaluateSingleHand _).
Qed.

Lemma omaha_outer (holeCombinations boardCombinations : list (list Card)) :
  (∀ hc, hc ∈ holeCombinations -> length hc = 2%nat) ->
  (∀ bc, bc ∈ boardCombinations -> length bc = 3%nat) ->
  ∀ best,
    fold_left (fun best holeCombo =>
                 fold_left (fun best boardCombo =>
                     rbind best (fun bestHand =>
                     rbind (holdemEvaluate holeCombo boardCombo) (fun evaluated =>
                     Ok (if eh_value bestHand <? eh_value evaluated
                         then evaluated else bestHand))))
                   boardCombinations best)
              holeCombinations best
    = rbind best (bestOf evaluateSingleHand
                    (hc ← holeCombinations; (fun bc => hc ++ bc) <$> boardCombinations)).
Proof.
  intros Hhcs Hbcs. induction holeCombinations as [|hc hcs IH]; intros best; cbn [fold_left].
  - by destruct best.
  - rewrite IH by (intros; apply Hhcs; by right).
    rewrite omaha_inner; [|apply Hhcs; by left | done].
    destruct best as [b|e]; [|done]. cbn [rbind mbind list_bind].
    change (mbind ?f ?l) with (list_bind _ _ f l). cbn [list_bind].
    by rewrite bestOf_app.
Qed.

(** X23: the Omaha [evaluate] throws exactly when the hole cards are not four
    or, with four, the board cards are fewer than three; otherwise it returns
    the evaluation of two hole cards with three board cards, and no two hole
    cards with three board cards evaluate to a higher value. *)
Theorem X23_omahaEvaluate_two_and_three (holeCards boardCards : list Card) :
  match omahaEvaluate holeCards boardCards with
  | Ok best =>
      length holeCards = 4%nat ∧ (3 <= length boardCards)%nat
      ∧ (∃ hc bc, hc `sublist_of` holeCards ∧ length hc = 2%nat
                  ∧ bc `sublist_of` boardCards ∧ length bc = 3%nat
                  ∧ evaluateSingleHand (hc ++ bc) = Ok best)
      ∧ ∀ hc bc e, hc `sublist_of` holeCards -> length hc = 2%nat ->
                   bc `sublist_of` boardCards -> length bc = 3%nat ->
                   evaluateSingleHand (hc ++ bc) = Ok e -> eh_value e <= eh_value best
  | Throw e =>
      (length holeCards ≠ 4%nat ∧ e = OmahaHoleCards (length holeCards))
      ∨ (length holeCards = 4%nat ∧ (length boardCards < 3)%nat
         ∧ e = OmahaBoardCards (length boardCards))
  end.
Proof.
  unfold omahaEvaluate.
  destruct (Nat.eqb_spec (length holeCards) 4) as [Hh|Hh]; cbn [negb]; [|by left].
  destruct (Nat.ltb_spec (length boardCards) 3) as [Hb|Hb]; [by right|].
  rewrite omaha_outer; try (intros ? [_ ?]%generateCombinations_spec; done).
  cbn [rbind].
  set (hands := hc ← generateCombinations holeCards 2;
                (fun bc => hc ++ bc) <$> generateCombinations boardCards 3).
  assert (Hhands : ∀ combo, combo ∈ hands
            ↔ ∃ hc bc, combo = hc ++ bc ∧ hc `sublist_of` holeCards ∧ length hc = 2%nat
                       ∧ bc `sublist_of` boardCards ∧ length bc = 3%nat).
  { intros combo. unfold hands. rewrite list_elem_of_bind. split.
    - intros (hc & (bc & -> & [? ?]%generateCombinations_spec)%list_elem_of_fmap
                 & [? ?]%generateCombinations_spec). by exists hc, bc.
    - intros (hc & bc & -> & ? & ? & ? & ?). exists hc.
      split; [|by apply generateCombinations_spec].
      apply list_elem_of_fmap. exists bc. split; [done|]. by apply generateCombinations_spec. }
  assert (Hfive : ∀ combo, combo ∈ hands -> length combo = 5%nat).
  { intros combo (hc & bc & -> & _ & Hl2 & _ & Hl3)%Hhands. rewrite length_app. lia. }
  destruct (bestOf_total evaluateSingleHand hands initialBestHand) as [best Hbest].
  { intros combo Hin. apply evaluateSingleHand_total. by apply Hfive. }
  rewrite Hbest. apply bestOf_spec in Hbest as [Hmax Hor].
  split; [done|]. split; [done|]. split.
  - destruct Hor as [->|(combo & Hin & Hev & _)].
    + exfalso.
      assert (Hin : take 2 holeCards ++ take 3 boardCards ∈ hands).
      { apply Hhands. exists (take 2 holeCards), (take 3 boardCards).
        split; [done|]. split; [apply sublist_take|]. split; [rewrite length_take; lia|].
        split; [apply sublist_take | rewrite length_take; lia]. }
      destruct (evaluateSingleHand_total (take 2 holeCards ++ take 3 boardCards)) as [e He];
        [by apply Hfive|].
      pose proof (evaluateSingleHand_positive _ _ He).
      specialize (Hmax _ _ Hin He). cbn in Hmax. lia.
    + apply Hhands in Hin as (hc & bc & -> & ? & ? & ? & ?). by exists hc, bc.
  - intros hc bc e ? ? ? ? He. eapply Hmax; [|exact He]. apply Hhands. by exists hc, bc.
Qed.

Section MapFacts.
Context {K V : Type} `{EqDecision K}.

Lemma mapGet_mapSet (m : list (K * V)) k v k' :
  mapGet (mapSet m k v) k' = if decide (k = k') then Some v else mapGet m k'.
Proof.
  induction m as [|[k0 v0] m IH]; cbn.
  - destruct (decide (k = k')); done.
  - destruct (decide (k0 = k)) as [->|Hne]; cbn.
    + destruct (decide (k = k')); done.
    + destruct (decide (k0 = k')) as [->|]; [by rewrite decide_False by done|].
      exact IH.
Qed.

Lemma mapSet_keys (m : list (K * V)) k v :
  fst <$> mapSet m k v
  = if decide (k ∈ fst <$> m) then fst <$> m else (fst <$> m) ++ [k].
Proof.
  induction m as [|[k0 v0] m IH]; cbn.
  - rewrite decide_False; [done|]. by intros ?%elem_of_nil.
  - destruct (decide (k0 = k)) as [->|Hne]; cbn.
    + rewrite decide_True; [done|]. by left.
    + rewrite IH. destruct (decide (k ∈ fst <$> m)).
      * rewrite decide_True; [done|]. by right.
      * rewrite decide_False; [done|]. by intros [?|?]%elem_of_cons.
Qed.

Lemma mapGet_None (m : list (K * V)) k : mapGet m k = None ↔ k ∉ fst <$> m.
Proof.
  induction m as [|[k0 v0] m IH]; cbn.
  - split; [intros _ ?%elem_of_nil; done | done].
  - destruct (decide (k0 = k)) as [->|Hne].
    + split; [done|]. intros H. destruct H. by left.
    + rewrite IH. split; [intros ? [?|?]%elem_of_cons; done|].
      intros H Hin. apply H. by right.
Qed.

Lemma mapGet_elem_of (m : list (K * V)) k v :
  NoDup (fst <$> m) -> (mapGet m k = Some v ↔ (k, v) ∈ m).
Proof.
  induction m as [|[k0 v0] m IH]; cbn; intros Hnd.
  - split; [done | by intros ?%elem_of_nil].
  - apply NoDup_cons in Hnd as [Hk0 Hnd].
    destruct (decide (k0 = k)) as [->|Hne].
    + split; [intros [= ->]; by left|]. intros [[= ->]|Hin]%elem_of_cons; [done|].
      destruct Hk0. apply list_elem_of_fmap. by exists (k, v).
    + rewrite IH by done. split; [by right|].
      by intros [[= ? ?]|?]%elem_of_cons.
Qed.
End MapFacts.

Lemma countRanks_fold cards : ∀ (m : list (Rank * nat)),
  let m' := fold_left (fun rankCounts card =>
                         let count := default 0%nat (mapGet rankCounts (rank card)) in
                         mapSet rankCounts (rank card) (count + 1)%nat) cards m in
  (∀ r, default 0%nat (mapGet m' r)
        = (default 0%nat (mapGet m r) + length (ofRank r cards))%nat)
  ∧ (∀ r, r ∈ fst <$> m' ↔ r ∈ fst <$> m ∨ r ∈ rank <$> cards)
  ∧ (NoDup (fst <$> m) -> NoDup (fst <$> m')).
Proof.
  induction cards as [|c cards IH]; intros m; cbn [fold_left].
  - cbv zeta. split; [intros r; cbn; lia|]. split; [|done].
    intros r. split; [by left|]. by intros [?|?%elem_of_nil].
  - cbv zeta in *. set (m1 := mapSet m (rank c) _).
    destruct (IH m1) as (Hget & Hkeys & Hnd). split; [|split].
    + intros r. rewrite Hget. unfold m1. rewrite mapGet_mapSet.
      unfold ofRank. rewrite filter_cons.
      destruct (decide (rank c = r)) as [->|Hne]; cbn; lia.
    + intros r. rewrite Hkeys. unfold m1. rewrite mapSet_keys.
      rewrite fmap_cons, elem_of_cons.
      destruct (decide (rank c ∈ fst <$> m)) as [Hin|Hnin].
      * split; [intros [?|?]; auto|]. intros [?|[->|?]]; auto.
      * rewrite elem_of_app, list_elem_of_singleton. tauto.
    + intros Hm. apply Hnd. unfold m1. rewrite mapSet_keys.
      destruct (decide (rank c ∈ fst <$> m)); [done|].
      apply NoDup_app. split; [done|]. split; [|apply NoDup_singleton].
      by intros r Hr ->%list_elem_of_singleton.
Qed.

Lemma countRanks_NoDup cards : NoDup (fst <$> countRanks cards).
Proof. apply (countRanks_fold cards []). constructor. Qed.

Lemma countRanks_keys cards r : r ∈ fst <$> countRanks cards ↔ r ∈ rank <$> cards.
Proof.
  destruct (countRanks_fold cards []) as (_ & Hkeys & _). rewrite (Hkeys r).
  split; [by intros [?%elem_of_nil|?] | by right].
Qed.

Lemma ofRank_nil r cards : ofRank r cards = [] ↔ r ∉ rank <$> cards.
Proof.
  unfold ofRank. split.
  - intros Hnil (c & -> & Hin)%list_elem_of_fmap.
    assert (Hc : c ∈ filter (fun c' => rank c' = rank c) cards)
      by (by apply list_elem_of_filter).
    rewrite Hnil in Hc. by apply elem_of_nil in Hc.
  - intros Hnin. apply elem_of_nil_inv. intros c [Hc Hin]%list_elem_of_filter.
    apply Hnin. apply list_elem_of_fmap. by exists c.
Qed.

Lemma countRanks_lookup cards r :
  mapGet (countRanks cards) r
  = if decide (r ∈ rank <$> cards) then Some (length (ofRank r cards)) else None.
Proof.
  destruct (countRanks_fold cards []) as (Hget & _ & _). specialize (Hget r).
  cbn in Hget. fold (countRanks cards) in Hget.
  destruct (decide (r ∈ rank <$> cards)) as [Hin|Hnin].
  - destruct (mapGet (countRanks cards) r) as [n|] eqn:E; [cbn in Hget; by subst|].
    apply mapGet_None in E. by rewrite countRanks_keys in E.
  - apply mapGet_None. by rewrite countRanks_keys.
Qed.

Lemma countRanks_elem_of cards r n :
  (r, n) ∈ countRanks cards ↔ r ∈ rank <$> cards ∧ n = length (ofRank r cards).
Proof.
  rewrite <- mapGet_elem_of by apply countRanks_NoDup. rewrite countRanks_lookup.
  destruct (decide (r ∈ rank <$> cards)); split; try done.
  - intros [= <-]. done.
  - by intros [_ ->].
  - by intros [? _].
Qed.

Lemma countSuits_fold cards : ∀ (m : list (Suit * list Card)),
  let m' := fold_left (fun suitGroups card =>
                         let suitCards := default [] (mapGet suitGroups (suit card)) in
                         mapSet suitGroups (suit card) (suitCards ++ [card])) cards m in
  (∀ s, default [] (mapGet m' s) = default [] (mapGet m s) ++ ofSuit s cards)
  ∧ (∀ s, s ∈ fst <$> m' ↔ s ∈ fst <$> m ∨ s ∈ suit <$> cards)
  ∧ (NoDup (fst <$> m) -> NoDup (fst <$> m')).
Proof.
  induction cards as [|c cards IH]; intros m; cbn [fold_left].
  - cbv zeta. split; [intros s; cbn; by rewrite app_nil_r|]. split; [|done].
    intros s. split; [by left|]. by intros [?|?%elem_of_nil].
  - cbv zeta in *. set (m1 := mapSet m (suit c) _).
    destruct (IH m1) as (Hget & Hkeys & Hnd). split; [|split].
    + intros s. rewrite Hget. unfold m1. rewrite mapGet_mapSet.
      unfold ofSuit. rewrite filter_cons.
      destruct (decide (suit c = s)) as [->|Hne]; cbn; [|done].
      by rewrite <- app_assoc.
    + intros s. rewrite Hkeys. unfold m1. rewrite mapSet_keys.
      rewrite fmap_cons, elem_of_cons.
      destruct (decide (suit c ∈ fst <$> m)) as [Hin|Hnin].
      * split; [intros [?|?]; auto|]. intros [?|[->|?]]; auto.
      * rewrite elem_of_app, list_elem_of_singleton. tauto.
    + intros Hm. apply Hnd. unfold m1. rewrite mapSet_keys.
      destruct (decide (suit c ∈ fst <$> m)); [done|].
      apply NoDup_app. split; [done|]. split; [|apply NoDup_singleton].
      by intros s Hs ->%list_elem_of_singleton.
Qed.

Lemma countSuits_NoDup cards : NoDup (fst <$> countSuits cards).
Proof. apply (countSuits_fold cards []). constructor. Qed.

Lemma countSuits_keys cards s : s ∈ fst <$> countSuits cards ↔ s ∈ suit <$> cards.
Proof.
  destruct (countSuits_fold cards []) as (_ & Hkeys & _). rewrite (Hkeys s).
  split; [by intros [?%elem_of_nil|?] | by right].
Qed.

Lemma countSuits_lookup cards s :
  mapGet (countSuits cards) s
  = if decide (s ∈ suit <$> cards) then Some (ofSuit s cards) else None.
Proof.
  destruct (countSuits_fold cards []) as (Hget & _ & _). specialize (Hget s).
  cbn in Hget. fold (countSuits cards) in Hget.
  destruct (decide (s ∈ suit <$> cards)) as [Hin|Hnin].
  - destruct (mapGet (countSuits cards) s) as [l|] eqn:E; [cbn in Hget; by subst|].
    apply mapGet_None in E. by rewrite countSuits_keys in E.
  - apply mapGet_None. by rewrite countSuits_keys.
Qed.

Lemma countSuits_elem_of cards s l :
  (s, l) ∈ countSuits cards ↔ s ∈ suit <$> cards ∧ l = ofSuit s cards.
Proof.
  rewrite <- mapGet_elem_of by apply countSuits_NoDup. rewrite countSuits_lookup.
  destruct (decide (s ∈ suit <$> cards)); split; try done.
  - intros [= <-]. done.
  - by intros [_ ->].
  - by intros [? _].
Qed.

(** X24: [countRanks] maps each rank that occurs among the cards to the number
    of cards of that rank, and [countSuits] maps each suit that occurs to the
    cards of that suit in their order; ranks and suits that do not occur have
    no entry, and no key has two entries. *)
Theorem X24_countRanks_countSuits (cards : list Card) :
  (∀ r, mapGet (countRanks cards) r
        = if decide (r ∈ rank <$> cards) then Some (length (ofRank r cards)) else None)
  ∧ (∀ s, mapGet (countSuits cards) s
          = if decide (s ∈ suit <$> cards) then Some (ofSuit s cards) else None)
  ∧ NoDup (fst <$> countRanks cards) ∧ NoDup (fst <$> countSuits cards).
Proof.
  split; [intros r; apply countRanks_lookup|].
  split; [intros s; apply countSuits_lookup|].
  split; [apply countRanks_NoDup | apply countSuits_NoDup].
Qed.

Lemma ofSuit_nil s cards : s ∉ suit <$> cards -> ofSuit s cards = [].
Proof.
  intros Hnin. apply elem_of_nil_inv. intros c [Hc Hin]%list_elem_of_filter.
  apply Hnin. apply list_elem_of_fmap. by exists c.
Qed.

Lemma findFlush_spec cards :
  match findFlush cards with
  | Some flush =>
      ∃ s, (5 <= length (ofSuit s cards))%nat
           ∧ flush = take 5 (sortCardsByRank (ofSuit s cards))
  | None => ∀ s, (length (ofSuit s cards) < 5)%nat
  end.
Proof.
  unfold findFlush. destruct (Nat.ltb_spec (length cards) 5) as [Hlt|Hge].
  { intros s. unfold ofSuit. pose proof (length_filter (fun c => suit c = s) cards). lia. }
  destruct (find _ (countSuits cards)) as [[s suitCards]|] eqn:Efind.
  - apply find_some in Efind as [Hin Hlen]. apply list_elem_of_In in Hin.
    apply countSuits_elem_of in Hin as [_ ->]. cbn [snd] in Hlen. apply Nat.leb_le in Hlen.
    by exists s.
  - intros s. destruct (decide (s ∈ suit <$> cards)) as [Hin|Hnin].
    + assert (Hel : (s, ofSuit s cards) ∈ countSuits cards)
        by (by apply countSuits_elem_of).
      apply list_elem_of_In in Hel. eapply find_none in Efind; [|exact Hel].
      cbn [snd] in Efind. apply Nat.leb_gt in Efind. lia.
    + rewrite ofSuit_nil by done. cbn. lia.
Qed.

Lemma StronglySorted_sublist {A} (R : A -> A -> Prop) (l' l : list A) :
  l' `sublist_of` l -> StronglySorted R l -> StronglySorted R l'.
Proof.
  induction 1 as [|x l1 l2 Hs IH|x l1 l2 Hs IH]; intros Hl; [done| |].
  - apply StronglySorted_inv in Hl as [Hl Hall]. constructor; [by apply IH|].
    rewrite Forall_forall in Hall |- *. intros y Hy. apply Hall.
    by eapply elem_of_sublist.
  - apply StronglySorted_inv in Hl as [Hl _]. by apply IH.
Qed.

(** X25: [findFlush] returns nothing exactly when no suit has five cards;
    otherwise it returns, for a suit with five cards or more, the five
    highest cards of that suit in descending order of rank. *)
Theorem X25_findFlush (cards : list Card) :
  match findFlush cards with
  | Some flush =>
      ∃ s, (5 <= length (ofSuit s cards))%nat
           ∧ flush = take 5 (sortCardsByRank (ofSuit s cards))
           ∧ length flush = 5%nat
           ∧ (∀ c, c ∈ flush -> c ∈ cards ∧ suit c = s)
           ∧ StronglySorted rankAtLeast flush
  | None => ∀ s, (length (ofSuit s cards) < 5)%nat
  end.
Proof.
  pose proof (findFlush_spec cards) as Hspec.
  destruct (findFlush cards) as [flush|]; [|done].
  destruct Hspec as (s & Hlen & ->). exists s. split; [done|]. split; [done|].
  split; [rewrite length_take, sortCardsByRank_length; lia|]. split.
  - intros c Hc. eapply elem_of_sublist in Hc; [|apply sublist_take].
    rewrite sortCardsByRank_Permutation in Hc.
    apply list_elem_of_filter in Hc. tauto.
  - eapply StronglySorted_sublist; [apply sublist_take | apply sortCardsByRank_sorted].
Qed.

Lemma uniqueRanks_fold (l : list Card) : ∀ acc,
  let u := fold_left (fun uniqueRanks card =>
                        if bool_decide (rank card ∈ uniqueRanks) then uniqueRanks
                        else uniqueRanks ++ [rank card]) l acc in
  (∀ r, r ∈ u ↔ r ∈ acc ∨ r ∈ rank <$> l) ∧ (NoDup acc -> NoDup u).
Proof.
  induction l as [|c l IH]; intros acc; cbn [fold_left]; cbv zeta.
  - split; [|done]. intros r. split; [by left|]. by intros [?|?%elem_of_nil].
  - case_bool_decide as Hin.
    + destruct (IH acc) as [Hel Hnd]. split; [|done]. intros r. rewrite Hel.
      rewrite fmap_cons, elem_of_cons. split; [intros [?|?]; auto|].
      intros [?|[->|?]]; auto.
    + destruct (IH (acc ++ [rank c])) as [Hel Hnd]. split.
      * intros r. rewrite Hel, elem_of_app, list_elem_of_singleton, fmap_cons, elem_of_cons.
        tauto.
      * intros Hacc. apply Hnd. apply NoDup_app. split; [done|].
        split; [|apply NoDup_singleton]. by intros r Hr ->%list_elem_of_singleton.
Qed.

Lemma uniqueRanksOf_elem_of l r : r ∈ uniqueRanksOf l ↔ r ∈ rank <$> l.
Proof.
  destruct (uniqueRanks_fold l []) as [Hel _]. unfold uniqueRanksOf. rewrite Hel.
  split; [by intros [?%elem_of_nil|?] | by right].
Qed.

Lemma uniqueRanksOf_NoDup l : NoDup (uniqueRanksOf l).
Proof. apply (uniqueRanks_fold l []). constructor. Qed.

Lemma findCardOfRank_Some l r c : findCardOfRank l r = Some c -> c ∈ l ∧ rank c = r.
Proof.
  unfold findCardOfRank. intros [Hin Hr]%find_some. apply bool_decide_eq_true in Hr.
  split; [by apply list_elem_of_In | done].
Qed.

Lemma findCardOfRank_is_Some l r : r ∈ rank <$> l -> ∃ c, findCardOfRank l r = Some c.
Proof.
  intros (c & -> & Hin)%list_elem_of_fmap. unfold findCardOfRank.
  destruct (find _ l) as [c'|] eqn:E; [eauto|].
  apply list_elem_of_In in Hin. eapply find_none in E; [|exact Hin].
  by apply bool_decide_eq_false in E.
Qed.

Lemma rankOfValue_Some v r : rankOfValue v = Some r -> RANK_VALUES r = v.
Proof. unfold rankOfValue. intros [_ H]%find_some. by apply Z.eqb_eq in H. Qed.

Lemma straightRun_spec l seen start js : ∀ acc acc',
  (∀ r, r ∈ seen -> r ∈ rank <$> l) ->
  straightRun l seen start js acc = Some acc' ->
  ∃ cs, acc' = acc ++ cs
        ∧ Forall2 (fun j c => c ∈ l ∧ RANK_VALUES (rank c) = start - j) js cs.
Proof.
  induction js as [|j js IH]; intros acc acc' Hseen; cbn [straightRun].
  - intros [= <-]. exists []. by rewrite app_nil_r.
  - destruct (rankOfValue (start - j)) as [r|] eqn:Er; [|done].
    case_bool_decide as Hin; [|done].
    destruct (findCardOfRank_is_Some l r (Hseen r Hin)) as [c Hc].
    unfold pushFound. rewrite Hc. intros (cs & -> & Hall)%IH; [|done].
    exists (c :: cs). rewrite <- app_assoc. split; [done|]. constructor; [|done].
    apply findCardOfRank_Some in Hc as [? ->]. split; [done|]. by apply rankOfValue_Some.
Qed.

Lemma straightSearch_spec l u starts st :
  straightSearch l u starts = Some st ->
  ∃ startRank, startRank ∈ u
    ∧ straightRun l u (RANK_VALUES startRank) [0; 1; 2; 3; 4] [] = Some st
    ∧ length st = 5%nat.
Proof.
  induction starts as [|i starts IH]; cbn [straightSearch]; [done|].
  destruct (u !! i) as [startRank|] eqn:Ei; [|done].
  destruct (straightRun _ _ _ _ _) as [cs|] eqn:Erun; [|done].
  destruct (Nat.eqb_spec (length cs) 5) as [Hlen|]; [|done].
  intros [= <-]. exists startRank. split; [by eapply list_elem_of_lookup_2|]. done.
Qed.

Lemma findStraight_sound (cards straight : list Card) :
  findStraight cards = Some straight ->
  (5 <= length cards)%nat
  ∧ (∀ c, c ∈ straight -> c ∈ cards)
  ∧ (rank <$> straight = [ACE; FIVE; FOUR; THREE; TWO]
     ∨ ∃ high, (fun c => RANK_VALUES (rank c)) <$> straight
               = [high; high - 1; high - 2; high - 3; high - 4]).
Proof.
  unfold findStraight. destruct (Nat.ltb_spec (length cards) 5) as [|Hlen]; [done|].
  set (sortedCards := sortCardsByRank cards).
  assert (Hseen : ∀ r, r ∈ uniqueRanksOf sortedCards -> r ∈ rank <$> sortedCards)
    by (intros r; apply uniqueRanksOf_elem_of).
  assert (Hsorted : ∀ c, c ∈ sortedCards -> c ∈ cards)
    by (intros c; unfold sortedCards; by rewrite sortCardsByRank_Permutation).
  destruct (_ && _) eqn:Ewheel.
  - repeat (apply andb_true_iff in Ewheel as [Ewheel ?]).
    repeat match goal with H : bool_decide _ = true |- _ => apply bool_decide_eq_true in H end.
    destruct (findCardOfRank_is_Some sortedCards ACE) as [cA HcA]; [by apply Hseen|].
    destruct (findCardOfRank_is_Some sortedCards FIVE) as [c5 Hc5]; [by apply Hseen|].
    destruct (findCardOfRank_is_Some sortedCards FOUR) as [c4 Hc4]; [by apply Hseen|].
    destruct (findCardOfRank_is_Some sortedCards THREE) as [c3 Hc3]; [by apply Hseen|].
    destruct (findCardOfRank_is_Some sortedCards TWO) as [c2 Hc2]; [by apply Hseen|].
    cbn [fold_left]. unfold pushFound. rewrite HcA, Hc5, Hc4, Hc3, Hc2. cbn [app].
    intros [= <-]. split; [done|].
    apply findCardOfRank_Some in HcA as [HiA HrA], Hc5 as [Hi5 Hr5], Hc4 as [Hi4 Hr4],
        Hc3 as [Hi3 Hr3], Hc2 as [Hi2 Hr2].
    split.
    + intros c. rewrite !elem_of_cons. intros [->|[->|[->|[->|[->|?%elem_of_nil]]]]];
        try done; by apply Hsorted.
    + left. cbn. congruence.
  - intros (startRank & _ & Hrun & Hl)%straightSearch_spec.
    apply straightRun_spec in Hrun as (cs & -> & Hall); [|done]. cbn [app] in *.
    split; [done|]. split.
    + intros c Hc. apply Hsorted.
      apply list_elem_of_lookup in Hc as [i Hi].
      destruct (Forall2_lookup_r _ _ _ _ _ Hall Hi) as (j & _ & Hin & _). done.
    + right. exists (RANK_VALUES startRank).
      repeat match goal with
             | H : Forall2 _ (_ :: _) _ |- _ =>
                 apply Forall2_cons_inv_l in H as (? & ? & [_ ?] & H & ->)
             | H : Forall2 _ [] _ |- _ => apply Forall2_nil_inv_l in H as ->
             end.
      cbn [fmap list_fmap].
      repeat match goal with H : RANK_VALUES (rank _) = _ |- _ => rewrite H; clear H end.
      by rewrite Z.sub_0_r.
Qed.

Lemma firstWithCount_Some m n r :
  firstWithCount m n = Some r -> (r, n) ∈ m.
Proof.
  unfold firstWithCount. destruct (find _ m) as [[r' n']|] eqn:E; [|done].
  intros [= <-]. apply find_some in E as [Hin Hn]. cbn in Hn.
  apply Nat.eqb_eq in Hn as ->. by apply list_elem_of_In.
Qed.

Lemma lastWithCount_fold m n : ∀ acc r,
  fold_left (fun acc (e : Rank * nat) => if (snd e =? n)%nat then Some (fst e) else acc) m acc
  = Some r ->
  (r, n) ∈ m ∨ acc = Some r.
Proof.
  induction m as [|[r0 n0] m IH]; intros acc r; cbn [fold_left]; [by right|].
  intros [Hin|Hacc]%IH; [left; by right|]. cbn [fst snd] in Hacc.
  destruct (Nat.eqb_spec n0 n) as [->|]; [|by right].
  injection Hacc as ->. left. by left.
Qed.

Lemma lastWithCount_Some m n r : lastWithCount m n = Some r -> (r, n) ∈ m.
Proof. intros [?|?]%lastWithCount_fold; done. Qed.

Lemma ranksWithCount_elem_of m n r : r ∈ ranksWithCount m n ↔ (r, n) ∈ m.
Proof.
  unfold ranksWithCount. rewrite list_elem_of_fmap. split.
  - intros ([r' n'] & -> & [Hn Hin]%list_elem_of_filter). cbn in *. by subst.
  - intros Hin. exists (r, n). split; [done|]. by apply list_elem_of_filter.
Qed.

Lemma ranksWithCount_NoDup m n : NoDup (fst <$> m) -> NoDup (ranksWithCount m n).
Proof.
  intros Hnd. unfold ranksWithCount.
  eapply sublist_NoDup; [exact Hnd|]. apply fmap_sublist, sublist_filter.
Qed.

(** Two disjoint selections that together are as long as the list are the
    list, up to order. *)
Lemma filter_two_Permutation (P Q : Card -> Prop) `{∀ c, Decision (P c)}
    `{∀ c, Decision (Q c)} (l : list Card) :
  (∀ c, Q c -> ¬ P c) ->
  (length (filter P l) + length (filter Q l) = length l)%nat ->
  filter P l ++ filter Q l ≡ₚ l.
Proof.
  intros Hdisj Hlen. rewrite <- (filter_app_complement P l) at 3. f_equiv.
  rewrite <- (list_filter_filter_l Q (fun c => ¬ P c)) by done.
  apply submseteq_length_Permutation.
  - apply sublist_submseteq, sublist_filter.
  - rewrite (list_filter_filter_l Q (fun c => ¬ P c)) by done.
    pose proof (filter_app_complement P l) as Hperm.
    apply Permutation_length in Hperm. rewrite length_app in Hperm. lia.
Qed.

Lemma filter_three_Permutation (p0 p1 : option Rank) (l : list Card) :
  p0 ≠ p1 ∨ p1 = None ->
  cardsOfRank p0 l ++ cardsOfRank p1 l
  ++ filter (fun card => Some (rank card) ≠ p0 ∧ Some (rank card) ≠ p1) l ≡ₚ l.
Proof.
  intros Hne. unfold cardsOfRank.
  rewrite <- (filter_app_complement (fun card => Some (rank card) = p0) l) at 4. f_equiv.
  rewrite <- (filter_app_complement (fun card => Some (rank card) = p1)
                (filter (fun card => ¬ Some (rank card) = p0) l)).
  rewrite list_filter_filter_l.
  2:{ intros c Hc. destruct Hne as [Hne| ->]; [congruence | done]. }
  f_equiv. rewrite list_filter_filter. apply reflexive_eq, list_filter_iff.
  intros c. tauto.
Qed.

Lemma ofRank_Permutation r : Proper (Permutation ==> Permutation) (ofRank r).
Proof. intros l l' H. unfold ofRank. by rewrite H. Qed.

Lemma take_all {A} (l : list A) n : (length l <= n)%nat -> take n l = l.
Proof. apply take_ge. Qed.

Lemma RANK_VALUES_inj r1 r2 : RANK_VALUES r1 = RANK_VALUES r2 -> r1 = r2.
Proof. destruct r1, r2; cbn; congruence. Qed.

Lemma straight_ranks_Permutation cards straight :
  findStraight cards = Some straight -> length cards = 5%nat ->
  rank <$> straight ≡ₚ rank <$> cards.
Proof.
  intros (_ & Hin & Hranks)%findStraight_sound Hlen.
  assert (Hl5 : length straight = 5%nat).
  { destruct Hranks as [H|[v H]]; apply (f_equal length) in H;
      rewrite length_fmap in H; exact H. }
  apply submseteq_length_Permutation; [|rewrite !length_fmap; lia].
  apply NoDup_submseteq.
  - destruct Hranks as [->|[v Hv]].
    + apply (bool_decide_unpack _). vm_compute. reflexivity.
    + apply (NoDup_fmap_1 RANK_VALUES). rewrite <- list_fmap_compose.
      change (RANK_VALUES ∘ rank) with (fun c => RANK_VALUES (rank c)). rewrite Hv.
      repeat (apply NoDup_cons; split;
              [rewrite ?elem_of_cons, ?elem_of_nil; lia|]). constructor.
  - intros r (c & -> & Hc)%list_elem_of_fmap. apply list_elem_of_fmap. exists c.
    split; [done | by apply Hin].
Qed.

Lemma flush_Permutation cards flush :
  findFlush cards = Some flush -> length cards = 5%nat -> flush ≡ₚ cards.
Proof.
  intros Hflush Hlen. pose proof (findFlush_spec cards) as Hspec.
  rewrite Hflush in Hspec. destruct Hspec as (s & Hs & ->).
  assert (Hperm : ofSuit s cards ≡ₚ cards).
  { apply submseteq_length_Permutation; [|lia].
    apply sublist_submseteq, sublist_filter. }
  rewrite take_ge by (rewrite sortCardsByRank_length; rewrite Hperm; lia).
  by rewrite sortCardsByRank_Permutation.
Qed.

Lemma lastWithCount_acc m n : ∀ acc,
  is_Some acc ->
  is_Some (fold_left (fun acc (e : Rank * nat) =>
                        if (snd e =? n)%nat then Some (fst e) else acc) m acc).
Proof.
  induction m as [|[r0 n0] m IH]; intros acc Hacc; cbn [fold_left]; [done|].
  apply IH. by destruct (_ =? _)%nat.
Qed.

Lemma lastWithCount_is_Some m n : n ∈ snd <$> m -> is_Some (lastWithCount m n).
Proof.
  unfold lastWithCount. generalize (@None Rank).
  induction m as [|[r0 n0] m IH]; intros acc; [by intros ?%elem_of_nil|].
  rewrite fmap_cons, elem_of_cons. cbn [fold_left fst snd].
  destruct (decide (n ∈ snd <$> m)) as [Hin|Hnin]; [intros _; by apply IH|].
  intros [->|?]; [|done]. rewrite Nat.eqb_refl. by apply lastWithCount_acc.
Qed.

Lemma includes_true n values : includes n values = true ↔ n ∈ values.
Proof. unfold includes. apply bool_decide_eq_true. Qed.

Lemma cardsOfRank_Some r l : cardsOfRank (Some r) l = ofRank r l.
Proof. unfold cardsOfRank, ofRank. apply list_filter_iff. intros c. split; congruence. Qed.

Lemma full_house_Permutation cards :
  length cards = 5%nat ->
  includes 3 (countValues (countRanks cards)) && includes 2 (countValues (countRanks cards))
  = true ->
  cardsOfRank (lastWithCount (countRanks cards) 3) (sortCardsByRank cards)
  ++ cardsOfRank (lastWithCount (countRanks cards) 2) (sortCardsByRank cards) ≡ₚ cards.
Proof.
  intros Hlen [H3 H2]%andb_true_iff. apply includes_true in H3, H2.
  destruct (lastWithCount_is_Some _ _ H3) as [t Ht].
  destruct (lastWithCount_is_Some _ _ H2) as [p Hp].
  rewrite Ht, Hp.
  apply lastWithCount_Some, countRanks_elem_of in Ht as [_ Ht].
  apply lastWithCount_Some, countRanks_elem_of in Hp as [_ Hp].
  rewrite <- (sortCardsByRank_Permutation cards) at 3.
  apply filter_two_Permutation.
  - intros c [= Hc] [= Hc']. rewrite Hc' in Hc. rewrite <- Hc in Hp. lia.
  - fold (cardsOfRank (Some t) (sortCardsByRank cards)).
    fold (cardsOfRank (Some p) (sortCardsByRank cards)).
    rewrite !cardsOfRank_Some, sortCardsByRank_length.
    rewrite !(ofRank_Permutation _ _ _ (sortCardsByRank_Permutation cards)). lia.
Qed.

Lemma two_pair_Permutation (pairRanks : list Rank) (l : list Card) :
  NoDup pairRanks ->
  cardsOfRank (pairRanks !! 0%nat) l ++ cardsOfRank (pairRanks !! 1%nat) l
  ++ filter (fun card => Some (rank card) ≠ pairRanks !! 0%nat
                         ∧ Some (rank card) ≠ pairRanks !! 1%nat) l ≡ₚ l.
Proof.
  intros Hnd. apply filter_three_Permutation.
  destruct pairRanks as [|x [|y rest]]; cbn; [by right | by right|].
  left. intros [= ->]. apply NoDup_cons in Hnd as [Hx _]. apply Hx. by left.
Qed.

(** The evaluator describes and scores an arrangement of the five cards. *)
Lemma evaluateSingleHand_arranged cards e :
  evaluateSingleHand cards = Ok e ->
  ∃ valueCards, rank <$> valueCards ≡ₚ rank <$> cards
    ∧ eh_value e = calculateHandValue (eh_rank e) valueCards
    ∧ eh_description e = generateHandDescription (eh_rank e) valueCards.
Proof.
  unfold evaluateSingleHand.
  destruct (Nat.eqb_spec (length cards) 5) as [Hlen|]; [|done]. cbn [negb]. cbv zeta.
  destruct (_ : HandRank * list Card) as [handRank valueCards] eqn:Eclass.
  intros [= <-]. cbn [eh_value eh_rank eh_description]. exists valueCards.
  split; [|done].
  assert (Hsorted : sortCardsByRank cards ≡ₚ cards) by apply sortCardsByRank_Permutation.
  assert (Hsplit : ∀ r, cardsOfRank r (sortCardsByRank cards)
                        ++ cardsNotOfRank r (sortCardsByRank cards) ≡ₚ cards).
  { intros r. etrans; [|exact Hsorted]. unfold cardsOfRank, cardsNotOfRank.
    apply (filter_app_complement (fun card => Some (rank card) = r)). }
  revert Eclass.
  destruct (_ && _) eqn:Eroyal; [intros [= <- <-]; by rewrite Hsorted|].
  clear Eroyal.
  destruct (findFlush cards) as [flushCards|] eqn:Eflush;
    destruct (findStraight cards) as [straightCards|] eqn:Estraight;
    try (intros [= <- <-]; by apply straight_ranks_Permutation);
    (destruct (includes 4 _); [intros [= <- <-]; by rewrite Hsplit|]);
    (destruct (includes 3 _ && includes 2 _) eqn:Efull;
       [intros [= <- <-]; by rewrite full_house_Permutation|]);
    try (intros [= <- <-]; by rewrite (flush_Permutation _ _ Eflush));
    try (intros [= <- <-]; by apply straight_ranks_Permutation).
  destruct (includes 3 _); [intros [= <- <-]; by rewrite Hsplit|].
  destruct (_ =? 2)%nat.
  { intros [= <- <-]. rewrite two_pair_Permutation; [by rewrite Hsorted|].
    rewrite jsSort_Permutation.
    apply ranksWithCount_NoDup, countRanks_NoDup. }
  destruct (includes 2 _); intros [= <- <-]; [by rewrite Hsplit | by rewrite Hsorted].
Qed.

(** The value of a five-card hand is made of its category and of its ranks
    from the highest to the lowest: the order in which the evaluator has
    arranged the cards (quads, trips or pairs first) plays no part. *)
Lemma evaluateSingleHand_value cards e :
  evaluateSingleHand cards = Ok e ->
  eh_value e = calculateHandValue (eh_rank e) cards.
Proof.
  intros (valueCards & Hranks & -> & _)%evaluateSingleHand_arranged.
  by apply calculateHandValue_ranks.
Qed.

Lemma uniqueRanks_descend (l : list Card) : ∀ acc,
  StronglySorted rankAtLeast l ->
  StronglySorted rankAbove acc ->
  (∀ r c, r ∈ acc -> c ∈ l -> RANK_VALUES (rank c) <= RANK_VALUES r) ->
  StronglySorted rankAbove
    (fold_left (fun uniqueRanks card =>
                  if bool_decide (rank card ∈ uniqueRanks) then uniqueRanks
                  else uniqueRanks ++ [rank card]) l acc).
Proof.
  induction l as [|c l IH]; intros acc Hl Hacc Hle; cbn [fold_left]; [done|].
  apply StronglySorted_cons in Hl as [Hc Hl]. rewrite Forall_forall in Hc.
  case_bool_decide as Hin.
  - apply IH; [done..|]. intros r c' Hr Hc'. apply Hle; [done|]. by right.
  - apply IH; [done| |].
    + apply StronglySorted_app_2; [|done|repeat constructor].
      intros r1 r2 Hr1 ->%list_elem_of_singleton. unfold rankAbove.
      assert (RANK_VALUES (rank c) <= RANK_VALUES r1) by (apply Hle; [done|by left]).
      assert (RANK_VALUES (rank c) ≠ RANK_VALUES r1).
      { intros Heq. apply RANK_VALUES_inj in Heq. by subst. }
      lia.
    + intros r c' [Hr| ->%list_elem_of_singleton]%elem_of_app Hc'.
      * apply Hle; [done|]. by right.
      * apply Hc. done.
Qed.

Lemma uniqueRanksOf_descend (cards : list Card) :
  StronglySorted rankAbove (uniqueRanksOf (sortCardsByRank cards)).
Proof.
  apply uniqueRanks_descend; [apply sortCardsByRank_sorted | constructor |].
  by intros r c ?%elem_of_nil.
Qed.

Lemma rankOfValue_rank (r : Rank) : rankOfValue (RANK_VALUES r) = Some r.
Proof. by destruct r. Qed.

Lemma straightRun_is_Some l seen start js : ∀ acc,
  (∀ r, r ∈ seen -> r ∈ rank <$> l) ->
  (∀ j, j ∈ js -> ∃ r, r ∈ seen ∧ RANK_VALUES r = start - j) ->
  ∃ acc', straightRun l seen start js acc = Some acc'
          ∧ length acc' = (length acc + length js)%nat.
Proof.
  induction js as [|j js IH]; intros acc Hseen Hrun; cbn [straightRun].
  - eexists. split; [done|]. cbn. lia.
  - cbv zeta. destruct (Hrun j) as (r & Hr & Hv); [by left|].
    rewrite <- Hv, rankOfValue_rank, bool_decide_eq_true_2 by done.
    destruct (IH (pushFound l acc r) Hseen) as (acc' & -> & Hlen).
    { intros j' Hj'. apply Hrun. by right. }
    eexists. split; [done|]. rewrite Hlen. unfold pushFound.
    destruct (findCardOfRank_is_Some l r (Hseen r Hr)) as [c ->].
    rewrite length_app. cbn. lia.
Qed.

Lemma straightSearch_complete l u starts i startRank :
  (∀ r, r ∈ u -> r ∈ rank <$> l) ->
  i ∈ starts -> u !! i = Some startRank ->
  (∀ j, j ∈ [0; 1; 2; 3; 4] -> ∃ r, r ∈ u ∧ RANK_VALUES r = RANK_VALUES startRank - j) ->
  is_Some (straightSearch l u starts).
Proof.
  intros Hseen Hi Hu Hrun. induction starts as [|i' starts IH]; [by apply elem_of_nil in Hi|].
  cbn [straightSearch]. apply elem_of_cons in Hi as [<-|Hi].
  - rewrite Hu.
    destruct (straightRun_is_Some l u (RANK_VALUES startRank) [0; 1; 2; 3; 4] [] Hseen Hrun)
      as (acc' & -> & Hlen).
    cbn in Hlen. rewrite Hlen. cbn. by eexists.
  - destruct (u !! i') as [r'|]; [|by apply IH].
    destruct (straightRun _ _ _ _ _) as [cs|]; [|by apply IH].
    destruct (_ =? _)%nat; [by eexists | by apply IH].
Qed.

(** In a list of ranks that strictly descends, four ranks below the one at
    position [i] leave room for a start at [i]. *)
Lemma descending_room (u : list Rank) i r0 :
  StronglySorted rankAbove u -> u !! i = Some r0 ->
  (∀ j, j ∈ [1; 2; 3; 4] -> ∃ r, r ∈ u ∧ RANK_VALUES r = RANK_VALUES r0 - j) ->
  (i + 4 < length u)%nat.
Proof.
  intros Hsorted Hi Hbelow.
  rewrite <- (take_drop_middle u i r0 Hi) in Hsorted.
  assert (Hafter : ∀ r, r ∈ u -> RANK_VALUES r < RANK_VALUES r0 -> r ∈ drop (S i) u).
  { intros r Hr Hlt. rewrite <- (take_drop_middle u i r0 Hi) in Hr.
    apply elem_of_app in Hr as [Hr|Hr].
    - eapply StronglySorted_app_1_elem_of in Hsorted; [|exact Hr|by left].
      unfold rankAbove in Hsorted. lia.
    - apply elem_of_cons in Hr as [->|Hr]; [lia | done]. }
  destruct (Hbelow 1) as (r1 & H1 & V1); [by repeat constructor|].
  destruct (Hbelow 2) as (r2 & H2 & V2); [by repeat constructor|].
  destruct (Hbelow 3) as (r3 & H3 & V3); [by repeat constructor|].
  destruct (Hbelow 4) as (r4 & H4 & V4); [by repeat constructor|].
  assert ([r1; r2; r3; r4] ⊆+ drop (S i) u) as Hsub.
  { apply NoDup_submseteq.
    - repeat constructor; rewrite ?elem_of_cons, ?elem_of_nil; intros H;
        repeat destruct H as [H|H]; try done; subst; lia.
    - intros r. rewrite !elem_of_cons, elem_of_nil.
      intros [->|[->|[->|[->|[]]]]]; apply Hafter; try done; lia. }
  apply submseteq_length in Hsub. rewrite length_drop in Hsub. cbn in Hsub.
  apply lookup_lt_Some in Hi. lia.
Qed.

Lemma findStraight_complete (cards : list Card) :
  (5 <= length cards)%nat ->
  holdsWheel cards ∨ (∃ high, holdsRun cards high) ->
  is_Some (findStraight cards).
Proof.
  intros Hlen Hstraight. unfold findStraight.
  destruct (Nat.ltb_spec (length cards) 5); [lia|]. cbv zeta.
  set (sortedCards := sortCardsByRank cards).
  destruct (_ && _ && _ && _ && _) eqn:Ewheel; [by eexists|].
  assert (Hseen : ∀ r, r ∈ uniqueRanksOf sortedCards ↔ r ∈ rank <$> cards).
  { intros r. rewrite uniqueRanksOf_elem_of. unfold sortedCards.
    by rewrite sortCardsByRank_Permutation. }
  destruct Hstraight as [Hwheel|[high Hrun]].
  - exfalso. rewrite !andb_false_iff in Ewheel.
    repeat destruct Ewheel as [Ewheel|Ewheel]; apply bool_decide_eq_false in Ewheel;
      apply Ewheel, Hseen, Hwheel; by repeat constructor.
  - assert (Hranks : ∀ j, 0 <= j < 5 ->
              ∃ r, r ∈ uniqueRanksOf sortedCards ∧ RANK_VALUES r = high - j).
    { intros j Hj. destruct (Hrun j Hj) as (c & Hc & Hv). exists (rank c).
      split; [|done]. apply Hseen, list_elem_of_fmap. by exists c. }
    destruct (Hranks 0) as (r0 & Hr0 & Hv0); [lia|]. rewrite Z.sub_0_r in Hv0.
    apply list_elem_of_lookup in Hr0 as [i Hi].
    assert (Hbelow : ∀ j, j ∈ [0; 1; 2; 3; 4] ->
              ∃ r, r ∈ uniqueRanksOf sortedCards ∧ RANK_VALUES r = RANK_VALUES r0 - j).
    { intros j Hj. rewrite Hv0. apply Hranks.
      rewrite !elem_of_cons, elem_of_nil in Hj. lia. }
    apply (straightSearch_complete _ _ _ i r0); [| |done|done].
    + intros r Hr. by apply uniqueRanksOf_elem_of.
    + apply elem_of_seq.
      pose proof (descending_room _ i r0 (uniqueRanksOf_descend cards) Hi) as Hroom.
      fold sortedCards in Hroom. split; [lia|].
      cut (i + 4 < length (uniqueRanksOf sortedCards))%nat; [lia|].
      apply Hroom. intros j Hj. apply Hbelow. by right.
Qed.

(** X26: what [findStraight] returns is made of cards of the input, which has
    five cards or more, and its ranks are either ace, five, four, three, two
    or five consecutive rank values in descending order; and it returns
    nothing only when the input has fewer than five cards or holds neither
    the five ranks of the wheel nor five consecutive rank values. *)
Theorem X26_findStraight (cards : list Card) :
  match findStraight cards with
  | Some straight =>
      (5 <= length cards)%nat
      ∧ (∀ c, c ∈ straight -> c ∈ cards)
      ∧ (rank <$> straight = [ACE; FIVE; FOUR; THREE; TWO]
         ∨ ∃ high, (fun c => RANK_VALUES (rank c)) <$> straight
                   = [high; high - 1; high - 2; high - 3; high - 4])
  | None =>
      (length cards < 5)%nat
      ∨ (¬ holdsWheel cards ∧ ∀ high, ¬ holdsRun cards high)
  end.
Proof.
  destruct (findStraight cards) as [straight|] eqn:E.
  - by apply findStraight_sound.
  - destruct (Nat.lt_ge_cases (length cards) 5) as [Hlt|Hge]; [by left|]. right.
    split.
    + intros Hwheel. destruct (findStraight_complete cards Hge) as [? ?]; [by left|].
      congruence.
    + intros high Hrun. destruct (findStraight_complete cards Hge) as [? ?]; [by eauto|].
      congruence.
Qed.

Lemma royal_ranks (l : list Card) :
  length l = 5%nat ->
  bool_decide (rankAt l 0 = Some ACE) && bool_decide (rankAt l 1 = Some KING)
  && bool_decide (rankAt l 2 = Some QUEEN) && bool_decide (rankAt l 3 = Some JACK)
  && bool_decide (rankAt l 4 = Some TEN)
  = bool_decide (rank <$> l = [ACE; KING; QUEEN; JACK; TEN]).
Proof.
  intros Hlen. destruct l as [|c0 [|c1 [|c2 [|c3 [|c4 [|]]]]]]; try done.
  unfold rankAt. cbn.
  repeat case_bool_decide; simplify_eq/=; try done; cbn; try congruence.
Qed.

Lemma evaluateSingleHand_rank cards e :
  evaluateSingleHand cards = Ok e ->
  eh_rank e = categoryBy (bool_decide (is_Some (findFlush cards)))
                (bool_decide (is_Some (findStraight cards)))
                (rank <$> sortCardsByRank cards)
                (countValues (countRanks cards)).
Proof.
  unfold evaluateSingleHand, categoryBy.
  destruct (Nat.eqb_spec (length cards) 5) as [Hlen|]; [|done]. cbn [negb]. cbv zeta.
  destruct (_ : HandRank * list Card) as [handRank valueCards] eqn:Eclass.
  intros [= <-]. cbn [eh_rank]. revert Eclass.
  rewrite <- (royal_ranks (sortCardsByRank cards)) by by rewrite sortCardsByRank_length.
  rewrite !andb_assoc. unfold includes.
  destruct (_ && _ && _ && _ && _ && _); [by intros [= <- _]|].
  destruct (findFlush cards) as [flush|], (findStraight cards) as [straight|];
    repeat match goal with
    | |- context [bool_decide (is_Some (Some ?x))] =>
        rewrite (bool_decide_eq_true_2 (is_Some (Some x))) by done
    | |- context [bool_decide (is_Some (@None ?A))] =>
        rewrite (bool_decide_eq_false_2 (is_Some (@None A))) by by intros [??]
    end; cbn [andb]; try (by intros [= <- _]);
    repeat (destruct (bool_decide _); cbn [andb]; try by intros [= <- _]);
    repeat (destruct (_ =? _)%nat; cbn [andb]; try by intros [= <- _]).
Qed.

Lemma sortCardsByRank_ranks cards cards' :
  rank <$> cards ≡ₚ rank <$> cards' ->
  rank <$> sortCardsByRank cards = rank <$> sortCardsByRank cards'.
Proof.
  intros HP. pose proof (sorted_values_Permutation cards cards' HP) as H.
  revert H. generalize (sortCardsByRank cards) (sortCardsByRank cards').
  induction l as [|c l IH]; intros [|c' l']; try done.
  cbn. intros [= H1 H2]. f_equal; [by apply RANK_VALUES_inj | by apply IH].
Qed.

Lemma countRanks_Permutation cards cards' :
  cards ≡ₚ cards' -> countRanks cards ≡ₚ countRanks cards'.
Proof.
  intros HP. apply NoDup_Permutation.
  - eapply NoDup_fmap_1, countRanks_NoDup.
  - eapply NoDup_fmap_1, countRanks_NoDup.
  - intros [r n]. rewrite !countRanks_elem_of.
    assert (rank <$> cards ≡ₚ rank <$> cards') as HR by by apply fmap_Permutation.
    pose proof (Permutation_length (ofRank_Permutation r _ _ HP)) as Hn.
    rewrite Hn. split; intros [Hin ->]; (split; [|done]).
    + by rewrite <- HR.
    + by rewrite HR.
Qed.

Lemma ofSuit_Permutation s : Proper (Permutation ==> Permutation) (ofSuit s).
Proof. intros l l' HP. unfold ofSuit. by rewrite HP. Qed.

Lemma findFlush_is_Some cards :
  is_Some (findFlush cards) ↔ ∃ s, (5 <= length (ofSuit s cards))%nat.
Proof.
  pose proof (findFlush_spec cards) as H. destruct (findFlush cards) as [flush|].
  - destruct H as (s & Hs & _). split; [by exists s | by eexists].
  - split; [by intros [??]|]. intros (s & Hs). specialize (H s). lia.
Qed.

Lemma findFlush_Permutation cards cards' :
  cards ≡ₚ cards' -> is_Some (findFlush cards) ↔ is_Some (findFlush cards').
Proof.
  intros HP. rewrite !findFlush_is_Some.
  split; intros (s & Hs); exists s;
    by rewrite (Permutation_length (ofSuit_Permutation s _ _ HP)) in *.
Qed.

Lemma uniqueRanksOf_ranks l l' :
  rank <$> l = rank <$> l' -> uniqueRanksOf l = uniqueRanksOf l'.
Proof.
  unfold uniqueRanksOf.
  enough (∀ acc : list Rank, rank <$> l = rank <$> l' ->
    fold_left (fun uniqueRanks card =>
                 if bool_decide (rank card ∈ uniqueRanks) then uniqueRanks
                 else uniqueRanks ++ [rank card]) l acc
    = fold_left (fun uniqueRanks card =>
                 if bool_decide (rank card ∈ uniqueRanks) then uniqueRanks
                 else uniqueRanks ++ [rank card]) l' acc) as H by apply H.
  revert l'. induction l as [|c l IH]; intros [|c' l'] acc; try done.
  cbn [fmap list_fmap fold_left]. intros [= Hr Hl]. rewrite Hr. by apply IH.
Qed.

Lemma pushFound_length l l' acc acc' r :
  rank <$> l = rank <$> l' -> length acc = length acc' ->
  length (pushFound l acc r) = length (pushFound l' acc' r).
Proof.
  intros Hl Hacc. unfold pushFound.
  pose proof (findCardOfRank_is_Some l r) as H1.
  pose proof (findCardOfRank_is_Some l' r) as H2. rewrite <- Hl in H2.
  destruct (findCardOfRank l r) as [c|] eqn:E, (findCardOfRank l' r) as [c'|] eqn:E';
    rewrite ?length_app; cbn; try lia.
  - apply findCardOfRank_Some in E as [Hin <-].
    destruct H2 as [? [=]]. apply list_elem_of_fmap. by exists c.
  - apply findCardOfRank_Some in E' as [Hin <-].
    destruct H1 as [? [=]]. rewrite Hl. apply list_elem_of_fmap. by exists c'.
Qed.

Lemma straightRun_lengths l l' seen start js : ∀ acc acc',
  rank <$> l = rank <$> l' -> length acc = length acc' ->
  option_Forall2 (fun a a' : list Card => length a = length a')
    (straightRun l seen start js acc) (straightRun l' seen start js acc').
Proof.
  induction js as [|j js IH]; intros acc acc' Hl Hacc; cbn [straightRun].
  - by constructor.
  - cbv zeta. destruct (rankOfValue _) as [r|]; [|constructor].
    case_bool_decide; [|constructor]. apply IH; [done|]. by apply pushFound_length.
Qed.

Lemma straightSearch_is_Some l l' u starts :
  rank <$> l = rank <$> l' ->
  is_Some (straightSearch l u starts) ↔ is_Some (straightSearch l' u starts).
Proof.
  intros Hl. induction starts as [|i starts IH]; cbn [straightSearch]; [done|].
  destruct (u !! i) as [startRank|]; [|done].
  destruct (straightRun_lengths l l' u (RANK_VALUES startRank) [0; 1; 2; 3; 4] [] [] Hl eq_refl)
    as [a a' Ha|]; [|done].
  rewrite Ha. destruct (_ =? _)%nat; [|done]. split; by eexists.
Qed.

Lemma findStraight_Permutation cards cards' :
  cards ≡ₚ cards' -> is_Some (findStraight cards) ↔ is_Some (findStraight cards').
Proof.
  intros HP. unfold findStraight. rewrite <- (Permutation_length HP).
  destruct (_ <? _)%nat; [done|]. cbv zeta.
  assert (rank <$> sortCardsByRank cards = rank <$> sortCardsByRank cards') as Hl
    by by apply sortCardsByRank_ranks, fmap_Permutation.
  rewrite <- (uniqueRanksOf_ranks _ _ Hl).
  destruct (_ && _ && _ && _ && _); [split; by eexists|].
  by apply straightSearch_is_Some.
Qed.

Lemma categoryBy_Permutation flush straight ranks counts counts' :
  counts ≡ₚ counts' ->
  categoryBy flush straight ranks counts = categoryBy flush straight ranks counts'.
Proof.
  intros HP. unfold categoryBy.
  rewrite (bool_decide_ext (4%nat ∈ counts) (4%nat ∈ counts')) by by rewrite HP.
  rewrite (bool_decide_ext (3%nat ∈ counts) (3%nat ∈ counts')) by by rewrite HP.
  rewrite (bool_decide_ext (2%nat ∈ counts) (2%nat ∈ counts')) by by rewrite HP.
  assert (length (filter (fun count => count = 2%nat) counts)
          = length (filter (fun count => count = 2%nat) counts')) as -> by by rewrite HP.
  done.
Qed.

(** Five cards in another order are the same hand: same category, same value. *)
Lemma evaluateSingleHand_Permutation cards cards' e :
  cards ≡ₚ cards' -> evaluateSingleHand cards = Ok e ->
  ∃ e', evaluateSingleHand cards' = Ok e'
        ∧ eh_rank e' = eh_rank e ∧ eh_value e' = eh_value e.
Proof.
  intros HP He.
  assert (length cards = 5%nat) as Hlen.
  { unfold evaluateSingleHand in He. by destruct (Nat.eqb_spec (length cards) 5). }
  destruct (evaluateSingleHand_total cards') as [e' He'].
  { by rewrite <- (Permutation_length HP). }
  exists e'. split; [done|].
  assert (eh_rank e' = eh_rank e) as Hrank.
  { rewrite (evaluateSingleHand_rank _ _ He), (evaluateSingleHand_rank _ _ He').
    rewrite (bool_decide_ext _ _ (findFlush_Permutation _ _ HP)).
    rewrite (bool_decide_ext _ _ (findStraight_Permutation _ _ HP)).
    rewrite (sortCardsByRank_ranks cards cards') by by apply fmap_Permutation.
    symmetry. apply categoryBy_Permutation. unfold countValues.
    by apply fmap_Permutation, countRanks_Permutation. }
  split; [done|].
  rewrite (evaluateSingleHand_value _ _ He), (evaluateSingleHand_value _ _ He'), Hrank.
  symmetry. by apply calculateHandValue_ranks, fmap_Permutation.
Qed.

Lemma holdemEvaluate_le hole board hole' board' e e' :
  hole ++ board ≡ₚ hole' ++ board' ->
  holdemEvaluate hole board = Ok e -> holdemEvaluate hole' board' = Ok e' ->
  eh_value e <= eh_value e'.
Proof.
  intros HP He He'.
  pose proof (holdemEvaluate_spec hole board) as H. rewrite He in H.
  pose proof (holdemEvaluate_spec hole' board') as H'. rewrite He' in H'.
  destruct H as [(combo & Hsub & Hlen & Hev) _]. destruct H' as [_ Hmax].
  destruct (sublist_Permutation _ _ _ Hsub HP) as (combo' & Hperm & Hsub').
  destruct (evaluateSingleHand_Permutation _ _ _ Hperm Hev) as (e2 & Hev2 & _ & <-).
  eapply Hmax; [exact Hsub'| |exact Hev2]. by rewrite <- (Permutation_length Hperm).
Qed.

(** The counts depend on the ranks only. *)
Lemma ofRank_length_ranks r (l : list Card) :
  length (ofRank r l) = length (filter (fun x => x = r) (rank <$> l)).
Proof.
  unfold ofRank. induction l as [|c l IH]; [done|].
  rewrite fmap_cons, !filter_cons. destruct (decide (rank c = r)); cbn; by rewrite IH.
Qed.

Lemma countRanks_ranks l l' :
  rank <$> l ≡ₚ rank <$> l' -> countRanks l ≡ₚ countRanks l'.
Proof.
  intros HP. apply NoDup_Permutation.
  - eapply NoDup_fmap_1, countRanks_NoDup.
  - eapply NoDup_fmap_1, countRanks_NoDup.
  - intros [r n]. rewrite !countRanks_elem_of, !ofRank_length_ranks.
    assert (length (filter (fun x => x = r) (rank <$> l))
            = length (filter (fun x => x = r) (rank <$> l'))) as -> by by rewrite HP.
    split; intros [Hin ->]; (split; [|done]); [by rewrite <- HP | by rewrite HP].
Qed.

(** The cards of distinct ranks are different cards. *)
Lemma ofRank_sum (rs : list Rank) : ∀ l : list Card,
  NoDup rs -> (sum_list ((fun r => length (ofRank r l)) <$> rs) <= length l)%nat.
Proof.
  induction rs as [|r rs IH]; intros l Hnd; cbn; [lia|].
  apply NoDup_cons in Hnd as [Hr Hnd].
  pose proof (filter_app_complement (fun c => rank c = r) l) as Hsplit.
  apply Permutation_length in Hsplit. rewrite length_app in Hsplit.
  fold (ofRank r l) in Hsplit.
  specialize (IH (filter (fun c => ¬ rank c = r) l) Hnd).
  assert (Heq : (fun r' => length (ofRank r' (filter (fun c => ¬ rank c = r) l))) <$> rs
                = (fun r' => length (ofRank r' l)) <$> rs).
  { apply list_fmap_ext. intros i r' Hi. f_equal. unfold ofRank.
    rewrite list_filter_filter. apply list_filter_iff. intros c. split; [by intros [? _]|].
    intros Hc. split; [done|]. intros Hc'. apply Hr. rewrite <- Hc', Hc.
    by eapply list_elem_of_lookup_2. }
  rewrite Heq in IH. lia.
Qed.

Lemma countRanks_sum l (entries : list (Rank * nat)) :
  NoDup (fst <$> entries) -> (∀ e, e ∈ entries -> e ∈ countRanks l) ->
  (sum_list (snd <$> entries) <= length l)%nat.
Proof.
  intros Hnd Hin. etrans; [|apply (ofRank_sum (fst <$> entries) l Hnd)].
  rewrite <- list_fmap_compose. apply Nat.eq_le_incl. f_equal.
  apply list_fmap_ext. intros i [r n] Hi. cbn.
  apply list_elem_of_lookup_2, Hin, countRanks_elem_of in Hi as [_ ->]. done.
Qed.

(** In a map with one key of count [n], the last one is that one. *)
Lemma lastWithCount_unique (m m' : list (Rank * nat)) n :
  m ≡ₚ m' ->
  (∀ r1 r2, (r1, n) ∈ m -> (r2, n) ∈ m -> r1 = r2) ->
  lastWithCount m n = lastWithCount m' n.
Proof.
  intros HP Hu.
  destruct (lastWithCount m n) as [r|] eqn:E, (lastWithCount m' n) as [r'|] eqn:E'; [| | |done].
  - f_equal. apply Hu; [by apply lastWithCount_Some|].
    rewrite HP. by apply lastWithCount_Some.
  - apply lastWithCount_Some in E. rewrite HP in E.
    destruct (lastWithCount_is_Some m' n) as [? ?]; [|congruence].
    apply list_elem_of_fmap. by exists (r, n).
  - apply lastWithCount_Some in E'. rewrite <- HP in E'.
    destruct (lastWithCount_is_Some m n) as [? ?]; [|congruence].
    apply list_elem_of_fmap. by exists (r', n).
Qed.

Lemma sortInsert_ranks_sorted (x : Rank) (l : list Rank) :
  StronglySorted (fun a b => RANK_VALUES b <= RANK_VALUES a) l ->
  StronglySorted (fun a b => RANK_VALUES b <= RANK_VALUES a)
    (sortInsert (fun a b => RANK_VALUES b - RANK_VALUES a) x l).
Proof.
  induction 1 as [|y l Hl IH Hall]; cbn; [by repeat constructor|].
  destruct (Z.ltb_spec 0 (RANK_VALUES y - RANK_VALUES x)) as [Hlt|Hle].
  - constructor; [done|]. rewrite sortInsert_Permutation. constructor; [lia | done].
  - constructor; [by constructor|]. constructor; [lia|].
    eapply Forall_impl; [exact Hall|]. cbn. intros; lia.
Qed.

Lemma jsSort_ranks_sorted (l : list Rank) :
  StronglySorted (fun a b => RANK_VALUES b <= RANK_VALUES a)
    (jsSort (fun a b => RANK_VALUES b - RANK_VALUES a) l).
Proof.
  induction l as [|x l IH]; [constructor|]. cbn. by apply sortInsert_ranks_sorted.
Qed.

(** Ranks sorted by value come out in one order, whatever the order before. *)
Lemma jsSort_ranks_Permutation (l l' : list Rank) :
  l ≡ₚ l' ->
  jsSort (fun a b => RANK_VALUES b - RANK_VALUES a) l
  = jsSort (fun a b => RANK_VALUES b - RANK_VALUES a) l'.
Proof.
  intros HP.
  apply (StronglySorted_unique_strong (fun a b => RANK_VALUES b <= RANK_VALUES a));
    try apply jsSort_ranks_sorted.
  - intros a b _ _ ? ?. apply RANK_VALUES_inj. lia.
  - by rewrite !jsSort_Permutation.
Qed.

Lemma filter_counts_length (m : list (Rank * nat)) n :
  length (filter (fun count => count = n) (snd <$> m)) = length (ranksWithCount m n).
Proof.
  unfold ranksWithCount. rewrite length_fmap.
  induction m as [|[r k] m IH]; [done|].
  rewrite fmap_cons, !filter_cons. cbn [snd].
  destruct (decide (k = n)); cbn; by rewrite IH.
Qed.

Lemma sum_of_count (m : list (Rank * nat)) (n : nat) :
  sum_list (snd <$> filter (fun e : Rank * nat => snd e = n) m)
  = (n * length (filter (fun e : Rank * nat => snd e = n) m))%nat.
Proof.
  induction m as [|[r k] m IH]; [cbn; lia|].
  rewrite !filter_cons. cbn [snd]. destruct (decide (k = n)) as [->|]; [|done].
  cbn. rewrite IH. lia.
Qed.

Section FiveCards.
Context (l : list Card).
Hypothesis five : length l = 5%nat.

Lemma two_counts r1 n1 r2 n2 :
  (r1, n1) ∈ countRanks l -> (r2, n2) ∈ countRanks l -> r1 ≠ r2 -> (n1 + n2 <= 5)%nat.
Proof.
  intros H1 H2 Hne. rewrite <- five.
  etrans; [|apply (countRanks_sum l [(r1, n1); (r2, n2)])].
  - cbn. lia.
  - cbn. repeat constructor; rewrite ?elem_of_cons, ?elem_of_nil; tauto.
  - intros e. rewrite !elem_of_cons, elem_of_nil. intros [->|[->|[]]]; done.
Qed.

Lemma three_counts r1 n1 r2 n2 r3 n3 :
  (r1, n1) ∈ countRanks l -> (r2, n2) ∈ countRanks l -> (r3, n3) ∈ countRanks l ->
  r1 ≠ r2 -> r1 ≠ r3 -> r2 ≠ r3 -> (n1 + n2 + n3 <= 5)%nat.
Proof.
  intros H1 H2 H3 H12 H13 H23. rewrite <- five.
  etrans; [|apply (countRanks_sum l [(r1, n1); (r2, n2); (r3, n3)])].
  - cbn. lia.
  - cbn. repeat constructor; rewrite ?elem_of_cons, ?elem_of_nil; tauto.
  - intros e. rewrite !elem_of_cons, elem_of_nil. intros [->|[->|[->|[]]]]; done.
Qed.

Lemma one_rank_of_count n r1 r2 :
  (3 <= n)%nat -> (r1, n) ∈ countRanks l -> (r2, n) ∈ countRanks l -> r1 = r2.
Proof.
  intros Hn H1 H2. destruct (decide (r1 = r2)) as [|Hne]; [done|].
  pose proof (two_counts _ _ _ _ H1 H2 Hne). lia.
Qed.

Lemma one_rank_beside (n k : nat) r1 r2 :
  (5 < n + 2 * k)%nat -> n ∈ countValues (countRanks l) -> n ≠ k ->
  (r1, k) ∈ countRanks l -> (r2, k) ∈ countRanks l -> r1 = r2.
Proof.
  intros Hn ([r0 n0] & -> & H0)%list_elem_of_fmap Hnk H1 H2. cbn in *.
  destruct (decide (r1 = r2)) as [|Hne]; [done|].
  assert (r0 ≠ r1).
  { intros ->. pose proof (countRanks_NoDup l) as Hnd.
    apply countRanks_elem_of in H0 as [_ ->], H1 as [_ ->]. done. }
  assert (r0 ≠ r2).
  { intros ->. apply countRanks_elem_of in H0 as [_ ->], H2 as [_ ->]. done. }
  pose proof (three_counts _ _ _ _ _ _ H0 H1 H2 ltac:(done) ltac:(done) Hne). lia.
Qed.

Lemma one_pair r1 r2 :
  length (filter (fun count => count = 2%nat) (countValues (countRanks l))) ≠ 2%nat ->
  (r1, 2%nat) ∈ countRanks l -> (r2, 2%nat) ∈ countRanks l -> r1 = r2.
Proof.
  unfold countValues. rewrite filter_counts_length. intros Hpairs H1 H2.
  destruct (decide (r1 = r2)) as [|Hne]; [done|]. exfalso. apply Hpairs.
  pose proof (ranksWithCount_NoDup (countRanks l) 2 (countRanks_NoDup l)) as Hnd.
  apply ranksWithCount_elem_of in H1, H2.
  assert ([r1; r2] ⊆+ ranksWithCount (countRanks l) 2) as Hsub.
  { apply NoDup_submseteq.
    - repeat constructor; rewrite ?elem_of_cons, ?elem_of_nil; tauto.
    - intros r. rewrite !elem_of_cons, elem_of_nil. intros [->|[->|[]]]; done. }
  apply submseteq_length in Hsub. cbn in Hsub.
  pose proof (countRanks_sum l (filter (fun e => snd e = 2%nat) (countRanks l))) as Hsum.
  assert (sum_list (snd <$> filter (fun e : Rank * nat => snd e = 2%nat) (countRanks l))
          = (2 * length (ranksWithCount (countRanks l) 2))%nat) as Hs.
  { unfold ranksWithCount. rewrite length_fmap. apply sum_of_count. }
  rewrite Hs, five in Hsum.
  cut (length (ranksWithCount (countRanks l) 2) <= 2)%nat; [lia|].
  cut (2 * length (ranksWithCount (countRanks l) 2) <= 5)%nat; [lia|].
  apply Hsum.
  - eapply sublist_NoDup; [apply countRanks_NoDup|].
    apply fmap_sublist, sublist_filter.
  - intros e He. apply list_elem_of_filter in He as [_ He]. done.
Qed.
End FiveCards.

Lemma categoryBy_counts flush straight ranks counts :
  (categoryBy flush straight ranks counts = FOUR_OF_A_KIND -> 4%nat ∈ counts)
  ∧ (categoryBy flush straight ranks counts = FULL_HOUSE ->
     3%nat ∈ counts ∧ 2%nat ∈ counts)
  ∧ (categoryBy flush straight ranks counts = PAIR ->
     length (filter (fun count => count = 2%nat) counts) ≠ 2%nat).
Proof.
  unfold categoryBy.
  destruct (flush && bool_decide _); [done|]. destruct (flush && straight); [done|].
  case_bool_decide as H4; [done|].
  case_bool_decide as H3; case_bool_decide as H2; cbn [andb]; try done;
    destruct flush; try done; destruct straight; try done;
    destruct (Nat.eqb_spec (length (filter (fun count => count = 2%nat) counts)) 2);
    done.
Qed.

Lemma highCardName_ranks (l l' : list Card) :
  rank <$> l ≡ₚ rank <$> l' ->
  highCardName (sortCardsByRank l) = highCardName (sortCardsByRank l').
Proof.
  intros HP. pose proof (sortCardsByRank_ranks l l' HP) as H.
  destruct (sortCardsByRank l) as [|c s], (sortCardsByRank l') as [|c' s']; try done.
  cbn in *. by injection H as -> _.
Qed.

(** The description of five cards in a category that fits them depends on
    their ranks only. *)
Lemma generateHandDescription_ranks (handRank : HandRank) (l l' : list Card) :
  length l = 5%nat -> rank <$> l ≡ₚ rank <$> l' ->
  (handRank = FOUR_OF_A_KIND -> 4%nat ∈ countValues (countRanks l)) ->
  (handRank = FULL_HOUSE -> 3%nat ∈ countValues (countRanks l)) ->
  (handRank = PAIR ->
   length (filter (fun count => count = 2%nat) (countValues (countRanks l))) ≠ 2%nat) ->
  generateHandDescription handRank l = generateHandDescription handRank l'.
Proof.
  intros Hlen HP Hfour Hfull Hpair.
  pose proof (countRanks_ranks l l' HP) as Hcounts.
  pose proof (highCardName_ranks l l' HP) as Hhigh.
  unfold generateHandDescription. cbv zeta.
  destruct handRank; rewrite <- ?Hhigh; try done.
  - (* a pair *)
    rewrite (lastWithCount_unique _ _ 2 Hcounts); [done|].
    intros r1 r2. apply one_pair; [done|]. by apply Hpair.
  - (* two pairs *)
    rewrite (jsSort_ranks_Permutation (ranksWithCount (countRanks l) 2)
               (ranksWithCount (countRanks l') 2)); [done|].
    unfold ranksWithCount. by rewrite Hcounts.
  - (* three of a kind *)
    rewrite (lastWithCount_unique _ _ 3 Hcounts); [done|].
    intros r1 r2. apply one_rank_of_count; [done | lia].
  - (* a full house *)
    rewrite (lastWithCount_unique _ _ 3 Hcounts), (lastWithCount_unique _ _ 2 Hcounts);
      [done| |].
    + intros r1 r2. apply (one_rank_beside l Hlen 3 2); [lia | by apply Hfull | lia].
    + intros r1 r2. apply one_rank_of_count; [done | lia].
  - (* four of a kind *)
    rewrite (lastWithCount_unique _ _ 4 Hcounts), (lastWithCount_unique _ _ 1 Hcounts);
      [done| |].
    + intros r1 r2. apply (one_rank_beside l Hlen 4 1); [lia | by apply Hfour | lia].
    + intros r1 r2. apply one_rank_of_count; [done | lia].
Qed.

(** Five cards in another order are the same hand. *)
Lemma evaluateSingleHand_order cards cards' :
  cards ≡ₚ cards' -> evaluateSingleHand cards' = evaluateSingleHand cards.
Proof.
  intros HP. destruct (evaluateSingleHand cards) as [e|x] eqn:He.
  - destruct (evaluateSingleHand_Permutation _ _ _ HP He) as (e' & He' & Hrank & Hvalue).
    rewrite He'. f_equal.
    destruct (evaluateSingleHand_arranged _ _ He) as (v & Hv & _ & Hd).
    destruct (evaluateSingleHand_arranged _ _ He') as (v' & Hv' & _ & Hd').
    assert (length cards = 5%nat) as Hlen.
    { unfold evaluateSingleHand in He. by destruct (Nat.eqb_spec (length cards) 5). }
    assert (length v = 5%nat) as Hlv.
    { apply Permutation_length in Hv. by rewrite !length_fmap, Hlen in Hv. }
    assert (countValues (countRanks v) ≡ₚ countValues (countRanks cards)) as Hcv.
    { unfold countValues. by rewrite (countRanks_ranks v cards Hv). }
    pose proof (evaluateSingleHand_rank _ _ He) as Hcat.
    destruct (categoryBy_counts (bool_decide (is_Some (findFlush cards)))
                (bool_decide (is_Some (findStraight cards)))
                (rank <$> sortCardsByRank cards) (countValues (countRanks cards)))
      as (Hfour & Hfull & Hpair).
    rewrite <- Hcat in Hfour, Hfull, Hpair.
    assert (eh_description e' = eh_description e) as Hdesc.
    { rewrite Hd, Hd', Hrank. symmetry. apply generateHandDescription_ranks; [done| | | |].
      - rewrite Hv, Hv'. by apply fmap_Permutation.
      - intros H. rewrite Hcv. by apply Hfour.
      - intros H. rewrite Hcv. by apply Hfull.
      - intros H. rewrite Hcv. by apply Hpair. }
    clear -Hrank Hvalue Hdesc. destruct e, e'. cbn in *. congruence.
  - unfold evaluateSingleHand in He |- *. rewrite <- (Permutation_length HP).
    destruct (Nat.eqb_spec (length cards) 5) as [Hlen|Hlen]; cbn [negb] in *; [|done].
    cbv zeta in He. by destruct (_ : HandRank * list Card).
Qed.

(** X27: [evaluateSingleHand] throws exactly when it is not given five cards.
    On five cards, the value it returns is [calculateHandValue] of the
    category it returns and of the five cards themselves, however it has
    arranged them; and the same five cards in any other order are evaluated
    to the same hand: same category, same value, same description. *)
Theorem X27_evaluateSingleHand_order (cards : list Card) :
  match evaluateSingleHand cards with
  | Ok e =>
      length cards = 5%nat
      ∧ eh_value e = calculateHandValue (eh_rank e) cards
      ∧ ∀ cards', cards ≡ₚ cards' -> evaluateSingleHand cards' = Ok e
  | Throw x => length cards ≠ 5%nat ∧ x = ExactlyFiveRequired (length cards)
  end.
Proof.
  destruct (evaluateSingleHand cards) as [e|x] eqn:He.
  - split; [|split].
    + unfold evaluateSingleHand in He. by destruct (Nat.eqb_spec (length cards) 5).
    + by apply evaluateSingleHand_value.
    + intros cards' HP. by rewrite (evaluateSingleHand_order _ _ HP).
  - unfold evaluateSingleHand in He.
    destruct (Nat.eqb_spec (length cards) 5) as [Hlen|Hlen]; cbn [negb] in He.
    + cbv zeta in He. by destruct (_ : HandRank * list Card).
    + by injection He as <-.
Qed.

(** X28: the value that the Hold'em [evaluate] returns depends on the cards
    only: when the hole and board cards of two calls are the same cards
    taken together, in any order and however split between hand and board,
    both calls throw the same error or return hands of the same value. *)
Theorem X28_holdemEvaluate_order (holeCards boardCards holeCards' boardCards' : list Card) :
  holeCards ++ boardCards ≡ₚ holeCards' ++ boardCards' ->
  match holdemEvaluate holeCards boardCards, holdemEvaluate holeCards' boardCards' with
  | Ok e, Ok e' => eh_value e = eh_value e'
  | Throw x, Throw x' => x = x'
  | _, _ => False
  end.
Proof.
  intros HP.
  pose proof (holdemEvaluate_spec holeCards boardCards) as H.
  pose proof (holdemEvaluate_spec holeCards' boardCards') as H'.
  destruct (holdemEvaluate holeCards boardCards) as [e|x] eqn:He,
           (holdemEvaluate holeCards' boardCards') as [e'|x'] eqn:He'.
  - apply Z.le_antisymm; [by eapply holdemEvaluate_le|].
    eapply holdemEvaluate_le; [|exact He'|exact He]. done.
  - destruct H as [(combo & Hsub & Hlen & _) _]. destruct H' as [Hlt _].
    apply sublist_length in Hsub. rewrite <- (Permutation_length HP) in Hlt. lia.
  - destruct H' as [(combo & Hsub & Hlen & _) _]. destruct H as [Hlt _].
    apply sublist_length in Hsub. rewrite (Permutation_length HP) in Hlt. lia.
  - destruct H as [_ ->], H' as [_ ->]. by rewrite (Permutation_length HP).
Qed.

Lemma X28_witness :
  [mkCard ACE SPADES; mkCard ACE HEARTS] ++ cardsOfString "Kd7c2h9s"
    ≡ₚ [mkCard ACE HEARTS; mkCard ACE SPADES] ++ cardsOfString "Kd7c2h9s"
  ∧ match holdemEvaluate [mkCard ACE SPADES; mkCard ACE HEARTS] (cardsOfString "Kd7c2h9s"),
          holdemEvaluate [mkCard ACE HEARTS; mkCard ACE SPADES] (cardsOfString "Kd7c2h9s") with
    | Ok e, Ok e' => eh_value e = eh_value e'
    | Throw x, Throw x' => x = x'
    | _, _ => False
    end.
Proof.
  assert ([mkCard ACE SPADES; mkCard ACE HEARTS] ++ cardsOfString "Kd7c2h9s"
          ≡ₚ [mkCard ACE HEARTS; mkCard ACE SPADES] ++ cardsOfString "Kd7c2h9s") as HP
    by apply perm_swap.
  split; [exact HP|].
  exact (X28_holdemEvaluate_order _ _ _ _ HP).
Defined.

(** ** Binomial coefficients on doubles *)

Lemma calculateCombinations_table :
  forallb (fun n => forallb (fun r =>
      PrimFloat.Leibniz.eqb (calculateCombinations (Z.of_nat n) (Z.of_nat r))
        (floatOfZ (binomial (Z.of_nat n) r)))
    (seq 0 (S n))) (seq 0 53) = true.
Proof. vm_compute. reflexivity. Qed.

Lemma combinationsFrom_table :
  forallb (fun n => forallb (fun r =>
      PrimFloat.Leibniz.eqb
        (Math_round (PokerEquityCalculator.combinationsFrom (Z.of_nat n) r 0 1%float))
        (floatOfZ (binomial (Z.of_nat n) r)))
    (seq 0 (S n))) (seq 0 53) = true.
Proof. vm_compute. reflexivity. Qed.

(** X29: on doubles, [calculateCombinations n r] is exactly the binomial
    coefficient C(n, r) for every [n] up to 52 and every [r] (zero when [r]
    exceeds [n]): the rounding of the multiplications and divisions of the
    loop never shows in the result. *)
Theorem X29_calculateCombinations_exact (n r : nat) :
  (n <= 52)%nat ->
  calculateCombinations (Z.of_nat n) (Z.of_nat r) = floatOfZ (Z.of_nat (choose n r)).
Proof.
  intros Hn. destruct (Nat.lt_ge_cases n r) as [Hlt|Hge].
  - rewrite choose_above by done. unfold calculateCombinations.
    destruct (Z.ltb_spec (Z.of_nat n) (Z.of_nat r)); [reflexivity | lia].
  - pose proof calculateCombinations_table as Htable.
    rewrite forallb_forall in Htable. specialize (Htable n).
    rewrite forallb_forall in Htable.
    rewrite <- binomial_choose.
    apply FloatAxioms.Leibniz.eqb_spec, Htable; apply in_seq; lia.
Qed.

Lemma X29_witness :
  (10 <= 52)%nat
  ∧ choose 10 3 = 120%nat
  ∧ calculateCombinations 10 3 = floatOfZ (Z.of_nat (choose 10 3)).
Proof.
  split; [lia|]. split; [reflexivity|].
  apply (X29_calculateCombinations_exact 10 3). lia.
Defined.

Lemma usedCardCount_fold (hs : list (list Card)) : ∀ sum : Z,
  fold_left (fun sum hand => sum + Z.of_nat (length hand)) hs sum
  = sum + Z.of_nat (length (concat hs)).
Proof.
  induction hs as [|hand hs IH]; intros sum; cbn [fold_left concat]; [cbn; lia|].
  rewrite IH, length_app. lia.
Qed.

Lemma usedCardCount_facadeOf w :
  PokerEquityCalculator.usedCardCount (facadeOf w) = Z.of_nat (length (usedCardsOf w)).
Proof.
  unfold PokerEquityCalculator.usedCardCount, facadeOf, usedCardsOf. cbn.
  rewrite usedCardCount_fold, !length_app. lia.
Qed.

Lemma cardsToDeal_fold variant (hs : list (list Card)) : ∀ (total : nat) (needed : Z),
  variant = TEXAS_HOLDEM ∨ variant = OMAHA ->
  needed = Z.of_nat total ->
  fold_left (fun cardsNeeded hand =>
               let handCardsNeeded :=
                 (if bool_decide (variant = OMAHA) then 4 else 2) - Z.of_nat (length hand) in
               if 0 <? handCardsNeeded then cardsNeeded + handCardsNeeded else cardsNeeded)
            hs needed
  = Z.of_nat (fold_left (fun total handCards =>
                           (total + cardsNeededForHand handCards variant)%nat) hs total).
Proof.
  intros total needed Hvariant. revert total needed.
  induction hs as [|hand hs IH]; intros total needed ->; cbn [fold_left]; [done|].
  apply IH. cbv zeta. unfold cardsNeededForHand.
  destruct Hvariant as [-> | ->]; cbn.
  - rewrite bool_decide_eq_false_2 by done.
    destruct (Z.ltb_spec 0 (2 - Z.of_nat (length hand))); lia.
  - rewrite bool_decide_eq_true_2 by done.
    destruct (Z.ltb_spec 0 (4 - Z.of_nat (length hand))); lia.
Qed.

Lemma fold_left_add_needed variant (hs : list (list Card)) : ∀ total : nat,
  fold_left (fun total handCards => (total + cardsNeededForHand handCards variant)%nat)
    hs total
  = (total + fold_left (fun total handCards =>
                          (total + cardsNeededForHand handCards variant)%nat) hs 0)%nat.
Proof.
  induction hs as [|hand hs IH]; intros total; cbn [fold_left]; [lia|].
  rewrite IH, (IH (0 + _)%nat). lia.
Qed.

Lemma cardsNeeded_facadeOf w :
  getVariant (evaluator (self w)) = TEXAS_HOLDEM ∨ getVariant (evaluator (self w)) = OMAHA ->
  PokerEquityCalculator.cardsNeeded (facadeOf w)
  = Z.of_nat (cardsToDeal (cardsOf (heap w) <$> hands (self w))
                (cardsOf (heap w) (board (self w))) (getVariant (evaluator (self w)))).
Proof.
  intros Hvariant. unfold PokerEquityCalculator.cardsNeeded, facadeOf, cardsToDeal.
  cbn [PokerEquityCalculator.hands PokerEquityCalculator.board
       PokerEquityCalculator.gameVariant]. cbv zeta.
  rewrite (cardsToDeal_fold _ _
             (cardsNeededForBoard (cardsOf (heap w) (board (self w)))
                (getVariant (evaluator (self w))))) ; [|done|].
  - rewrite fold_left_add_needed. f_equal. lia.
  - unfold cardsNeededForBoard.
    destruct Hvariant as [-> | ->]; cbn;
      destruct (Z.ltb_spec 0 (5 - Z.of_nat (length (cardsOf (heap w) (board (self w))))));
      lia.
Qed.

Lemma estimatedCombinations_binomial (w : World) :
  (length (usedCardsOf w) <= 52)%nat ->
  (cardsToDeal (cardsOf (heap w) <$> hands (self w)) (cardsOf (heap w) (board (self w)))
     (getVariant (evaluator (self w))) <= 11)%nat ->
  sameNumber (floatOfZ (Z.of_nat (choose (52 - length (usedCardsOf w))
                           (cardsToDeal (cardsOf (heap w) <$> hands (self w))
                              (cardsOf (heap w) (board (self w)))
                              (getVariant (evaluator (self w)))))))
             (estimatedCombinations w).
Proof.
  intros Hle Hdeal. unfold estimatedCombinations. cbv zeta.
  set (k := cardsToDeal _ _ _) in *. clearbody k.
  destruct (Nat.eqb_spec k 0) as [->|Hk].
  { assert (choose (52 - length (usedCardsOf w)) 0 = 1%nat) as ->
      by (by destruct (52 - length (usedCardsOf w))%nat).
    reflexivity. }
  replace (52 - Z.of_nat (length (usedCardsOf w)))
    with (Z.of_nat (52 - length (usedCardsOf w))) by lia.
  apply combinationsFor_binomial; lia.
Qed.

(** X30: for Texas Hold'em and Omaha, when the cards in use and the cards to
    deal are no more than 52 together, the estimate that the facade computes
    on doubles, a rounded product of quotients, is exactly the binomial
    coefficient of the cards that remain over the cards to deal; with no
    more than eleven cards to deal it is the number that the calculator made
    from the facade's hands, board and dead cards computes in
    [estimateCombinations]. Beyond, the two differ: for five unknown
    Hold'em hands before the flop the facade says 4481381406320 and the
    calculator 4481381406320.001. *)
Theorem X30_facade_estimate_agrees (w : World) :
  getVariant (evaluator (self w)) = TEXAS_HOLDEM ∨ getVariant (evaluator (self w)) = OMAHA ->
  (length (usedCardsOf w)
   + cardsToDeal (cardsOf (heap w) <$> hands (self w)) (cardsOf (heap w) (board (self w)))
       (getVariant (evaluator (self w))) <= 52)%nat ->
  PokerEquityCalculator.estimateCombinations (facadeOf w)
  = floatOfZ (Z.of_nat (choose (52 - length (usedCardsOf w))
                          (cardsToDeal (cardsOf (heap w) <$> hands (self w))
                             (cardsOf (heap w) (board (self w)))
                             (getVariant (evaluator (self w))))))
  ∧ ((cardsToDeal (cardsOf (heap w) <$> hands (self w)) (cardsOf (heap w) (board (self w)))
        (getVariant (evaluator (self w))) <= 11)%nat ->
     sameNumber (PokerEquityCalculator.estimateCombinations (facadeOf w))
                (estimatedCombinations w))
  ∧ (let w15 := mkWorld fiveUnknownHands
                  (mkCalculator [0; 1; 2; 3; 4]%nat 5%nat [] HoldemEvaluator
                     (mergeOptions noOptions)) 0 [] in
     Number_toString (PokerEquityCalculator.estimateCombinations (facadeOf w15))
     = "4481381406320"
     ∧ Number_toString (estimatedCombinations w15) = "4481381406320.001"
     ∧ ¬ sameNumber (PokerEquityCalculator.estimateCombinations (facadeOf w15))
                    (estimatedCombinations w15)).
Proof.
  intros Hvariant Hroom.
  assert (Hfacade : PokerEquityCalculator.estimateCombinations (facadeOf w)
            = floatOfZ (Z.of_nat (choose (52 - length (usedCardsOf w))
                          (cardsToDeal (cardsOf (heap w) <$> hands (self w))
                             (cardsOf (heap w) (board (self w)))
                             (getVariant (evaluator (self w))))))).
  { unfold PokerEquityCalculator.estimateCombinations.
    rewrite cardsNeeded_facadeOf, usedCardCount_facadeOf by done.
    set (used := length (usedCardsOf w)) in *.
    set (needed := cardsToDeal _ _ _) in *. clearbody used needed.
    rewrite Nat2Z.id. replace (52 - Z.of_nat used) with (Z.of_nat (52 - used)) by lia.
    destruct (Z.eqb_spec (Z.of_nat needed) 0) as [Hz|Hnz].
    - assert (needed = 0%nat) as -> by lia.
      assert (choose (52 - used) 0 = 1%nat) as -> by (by destruct (52 - used)%nat).
      reflexivity.
    - pose proof combinationsFrom_table as Htable.
      rewrite forallb_forall in Htable. specialize (Htable (52 - used)%nat).
      rewrite forallb_forall in Htable.
      rewrite <- binomial_choose.
      apply FloatAxioms.Leibniz.eqb_spec, Htable; apply in_seq; lia. }
  split; [exact Hfacade|]. split.
  - intros Hdeal. rewrite Hfacade. unfold sameNumber.
    apply estimatedCombinations_binomial; [lia | done].
  - cbv zeta. split; [vm_compute; reflexivity|]. split; [vm_compute; reflexivity|].
    unfold sameNumber. vm_compute. discriminate.
Qed.

Lemma X30_witness :
  let w := mkWorld flopBoard
             (mkCalculator [0; 1]%nat 2%nat [] HoldemEvaluator (mergeOptions noOptions))
             0 [] in
  estimatedCombinations w = 990%float
  ∧ PokerEquityCalculator.estimateCombinations (facadeOf w) = 990%float
  ∧ PokerEquityCalculator.estimateCombinations (facadeOf w)
    = floatOfZ (Z.of_nat (choose (52 - length (usedCardsOf w))
                            (cardsToDeal (cardsOf (heap w) <$> hands (self w))
                               (cardsOf (heap w) (board (self w)))
                               (getVariant (evaluator (self w)))))).
Proof.
  cbv zeta. split; [vm_compute; reflexivity|]. split; [vm_compute; reflexivity|].
  apply (X30_facade_estimate_agrees
           (mkWorld flopBoard
              (mkCalculator [0; 1]%nat 2%nat [] HoldemEvaluator (mergeOptions noOptions))
              0 [])).
  - left. reflexivity.
  - vm_compute. lia.
Defined.
